(** * Wafer-flow simulators: a shallow embedding and its properties

    The Python sources simulate wafers moving through a semiconductor tool
    on top of the SimPy discrete-event library:

    - [tool_simulator.py]: [MetalTool] and the hold-and-wait [wafer_process];
    - [anylogic_flow_units.py]: the flow nodes ([Source], [Queue], [Delay],
      [ResourcePool], [Service], [SelectOutput], [Combine], [Sink]);
    - [semiconductor_tool_simulator.py] / [semiconductor_flow_simulator.py]:
      [SemiconductorToolUnit], [WaferSource], [FlowController].

    Generators are embedded as explicit continuations (one constructor per
    [yield]), the SimPy environment as a record threaded by a state monad.
    Simulated time and durations are integral time units ([Z]); only their
    order and sums matter below. *)

From stdpp Require Import gmap strings list fin_maps.
From Stdlib Require Import ZArith Lia.

Local Open Scope Z_scope.

(** ** Python helpers *)

(** [l[i]] with Python's negative indices. *)
Definition py_index {A} (l : list A) (i : Z) : option A :=
  if i <? 0 then
    (if - i <=? Z.of_nat (length l) then l !! Z.to_nat (Z.of_nat (length l) + i) else None)
  else l !! Z.to_nat i.

(** [list.remove(x)]: drops the first occurrence (the callers below ignore
    the [ValueError] of a missing element, or rule it out). *)
Fixpoint list_remove_first (x : nat) (l : list nat) : list nat :=
  match l with
  | [] => []
  | y :: l' => if decide (x = y) then l' else y :: list_remove_first x l'
  end.

(** ** The SimPy kernel

    Events, the schedule, [Resource], [Timeout], [AnyOf] and [Process],
    following simpy/core.py, simpy/events.py and simpy/resources. *)
Module Simpy.

(** Callbacks that the modelled programs attach to events. *)
Inductive callback : Type :=
| Trigger_get (r : nat)      (* BaseResource._trigger_get, on a Request *)
| Trigger_put (r : nat)      (* BaseResource._trigger_put, on a Release *)
| Cond_check (c : nat)       (* Condition._check of condition [c] *)
| Build_value                (* Condition._build_value, on the condition *)
| Resume (p : nat)           (* Process._resume of process [p] *)
| Stop_simulation.           (* StopSimulation.callback, on the until-event *)

#[global] Instance callback_eq_dec : EqDecision callback.
Proof. solve_decision. Defined.

Inductive ekind : Type :=
| KTimeout (delay : Z)
| KRequest (r : nat)
| KRelease (r req : nat)
| KAnyOf (evs : list nat)
| KInitialize (p : nat)
| KProcess (p : nat)
| KUntil.

(** An event: [triggered] is [_value is not PENDING]; [callbacks = None]
    is SimPy's "processed"; [proc] the process active at creation;
    [value] the events of a [ConditionValue] (empty for other events). *)
Record event : Type := Event {
  kind : ekind;
  triggered : bool;
  callbacks : option (list callback);
  proc : option nat;
  value : list nat }.

Record resource : Type := Resource {
  capacity : Z;
  users : list nat;
  put_queue : list nat }.

Definition URGENT : nat := 0.
Definition NORMAL : nat := 1.

(** Schedule entries [(time, priority, counter, event)], as pushed on
    SimPy's heap; the counter makes the keys unique, so a sorted list
    pops in the same order as the heap. *)
Definition entry : Type := Z * nat * nat * nat.

Definition entry_lt (a b : entry) : bool :=
  let '(ta, pa, ca, _) := a in
  let '(tb, pb, cb, _) := b in
  (ta <? tb) || ((ta =? tb) && ((pa <? pb)%nat || ((pa =? pb)%nat && (ca <? cb)%nat))).

Fixpoint heappush (x : entry) (q : list entry) : list entry :=
  match q with
  | [] => [x]
  | y :: q' => if entry_lt x y then x :: q else y :: heappush x q'
  end.

(** What a generator does when resumed: suspend on an event with a
    continuation, return, raise, or loop for ever without a [yield]. *)
Inductive outcome (P : Type) : Type :=
| Yield (k : P) (e : nat)
| Return
| Raise
| Diverge.
Arguments Yield {P} k e.
Arguments Return {P}.
Arguments Raise {P}.
Arguments Diverge {P}.

Section Kernel.
Context {P U : Type}.

Record proc_entry : Type := ProcEntry {
  generator : option P;       (* None once the generator is exhausted *)
  pevent : nat }.             (* the Process event itself *)

Record env : Type := Env {
  now : Z;
  events : list event;
  queue : list entry;
  eid : nat;                  (* Environment._eid *)
  resources : list resource;
  procs : list proc_entry;
  active_process : option nat;
  user : U;                   (* the client program's own objects *)
  stopped : bool;             (* StopSimulation was raised *)
  crashed : bool }.           (* an exception left Environment.step, or a
                                 generator never came back *)

Definition init_env (u : U) : env :=
  Env 0 [] [] 0%nat [] [] None u false false.

Definition M (A : Type) : Type := env → A * env.
Definition ret {A} (a : A) : M A := λ w, (a, w).
Definition bind {A B} (c : M A) (k : A → M B) : M B :=
  λ w, let '(a, w') := c w in k a w'.

Definition gets {A} (f : env → A) : M A := λ w, (f w, w).
Definition modify (f : env → env) : M unit := λ w, (tt, f w).

Definition set_now (t : Z) (w : env) : env :=
  Env t (events w) (queue w) (eid w) (resources w) (procs w)
      (active_process w) (user w) (stopped w) (crashed w).
Definition set_events (f : list event → list event) (w : env) : env :=
  Env (now w) (f (events w)) (queue w) (eid w) (resources w) (procs w)
      (active_process w) (user w) (stopped w) (crashed w).
Definition set_queue (f : list entry → list entry) (w : env) : env :=
  Env (now w) (events w) (f (queue w)) (eid w) (resources w) (procs w)
      (active_process w) (user w) (stopped w) (crashed w).
Definition set_eid (n : nat) (w : env) : env :=
  Env (now w) (events w) (queue w) n (resources w) (procs w)
      (active_process w) (user w) (stopped w) (crashed w).
Definition set_resources (f : list resource → list resource) (w : env) : env :=
  Env (now w) (events w) (queue w) (eid w) (f (resources w)) (procs w)
      (active_process w) (user w) (stopped w) (crashed w).
Definition set_procs (f : list proc_entry → list proc_entry) (w : env) : env :=
  Env (now w) (events w) (queue w) (eid w) (resources w) (f (procs w))
      (active_process w) (user w) (stopped w) (crashed w).
Definition set_active (a : option nat) (w : env) : env :=
  Env (now w) (events w) (queue w) (eid w) (resources w) (procs w)
      a (user w) (stopped w) (crashed w).
Definition set_user (f : U → U) (w : env) : env :=
  Env (now w) (events w) (queue w) (eid w) (resources w) (procs w)
      (active_process w) (f (user w)) (stopped w) (crashed w).
Definition set_stopped (w : env) : env :=
  Env (now w) (events w) (queue w) (eid w) (resources w) (procs w)
      (active_process w) (user w) true (crashed w).
Definition set_crashed (w : env) : env :=
  Env (now w) (events w) (queue w) (eid w) (resources w) (procs w)
      (active_process w) (user w) (stopped w) true.

(** *** Events *)

Definition new_event (k : ekind) (trig : bool) (cbs : list callback) : M nat :=
  λ w, (length (events w),
        set_events (λ es, es ++ [Event k trig (Some cbs) (active_process w) []]) w).

Definition alter_event (f : event → event) (e : nat) : M unit :=
  modify (set_events (alter f e)).

Definition add_callback (cb : callback) (e : nat) : M unit :=
  alter_event (λ ev, Event (kind ev) (triggered ev)
                           (option_map (λ l, l ++ [cb]) (callbacks ev))
                           (proc ev) (value ev)) e.

Definition is_triggered (e : nat) (w : env) : bool :=
  match events w !! e with Some ev => triggered ev | None => false end.

Definition is_processed (e : nat) (w : env) : bool :=
  match events w !! e with
  | Some ev => match callbacks ev with None => true | Some _ => false end
  | None => false
  end.

(** [Environment.schedule(event, priority, delay)]. *)
Definition schedule (e prio : nat) (delay : Z) : M unit :=
  modify (λ w, set_eid (S (eid w))
                 (set_queue (heappush (now w + delay, prio, eid w, e)) w)).

(** [Event.succeed()]. *)
Definition succeed (e : nat) : M unit :=
  bind (alter_event (λ ev, Event (kind ev) true (callbacks ev) (proc ev) (value ev)) e)
       (λ _, schedule e NORMAL 0).

(** [env.timeout(delay)]: raises [ValueError] on a negative delay
    ([None] here); otherwise the event is born triggered and scheduled. *)
Definition timeout (delay : Z) : M (option nat) :=
  if delay <? 0 then ret None
  else bind (new_event (KTimeout delay) true [])
            (λ e, bind (schedule e NORMAL delay) (λ _, ret (Some e))).

(** *** Resources *)

(** [simpy.Resource(env, capacity)] (SimPy itself refuses a capacity
    that is not positive). *)
Definition new_resource (cap : Z) : M nat :=
  λ w, (length (resources w),
        set_resources (λ rs, rs ++ [Resource cap [] []]) w).

(** [BaseResource._trigger_put] with [Resource._do_put]: [_do_put]
    returns [None], so the loop stops after the head of the queue. *)
Definition trigger_put (r : nat) : M unit :=
  λ w, match resources w !! r with
       | Some res =>
           match put_queue res with
           | q :: rest =>
               if Z.of_nat (length (users res)) <? capacity res then
                 succeed q
                   (set_resources
                      (<[r := Resource (capacity res) (users res ++ [q]) rest]>) w)
               else (tt, w)
           | [] => (tt, w)
           end
       | None => (tt, w)
       end.

(** [resource.request()]: the new request joins the queue and
    [_trigger_put] runs at once. *)
Definition request (r : nat) : M nat :=
  bind (new_event (KRequest r) false [Trigger_get r]) (λ e,
  bind (modify (set_resources
                  (alter (λ res, Resource (capacity res) (users res)
                                          (put_queue res ++ [e])) r))) (λ _,
  bind (trigger_put r) (λ _, ret e))).

(** [resource.release(request)]: [_do_get] removes the request from
    [users] (a request that is not a user is ignored) and the Release
    event succeeds at once; its callback [_trigger_put] serves the
    queue when the event is processed. *)
Definition release (r req : nat) : M nat :=
  bind (new_event (KRelease r req) false [Trigger_put r]) (λ e,
  bind (modify (set_resources
                  (alter (λ res, Resource (capacity res)
                                          (list_remove_first req (users res))
                                          (put_queue res)) r))) (λ _,
  bind (succeed e) (λ _, ret e))).

Definition resource_of (e : nat) (w : env) : option nat :=
  match events w !! e with
  | Some ev => match kind ev with KRequest r => Some r | _ => None end
  | None => None
  end.

(** [request.cancel()]: only a request that is not yet triggered
    leaves the queue. *)
Definition cancel (e : nat) : M unit :=
  λ w, if is_triggered e w then (tt, w)
       else match resource_of e w with
            | Some r =>
                (tt, set_resources
                       (alter (λ res, Resource (capacity res) (users res)
                                               (list_remove_first e (put_queue res))) r) w)
            | None => (tt, w)
            end.

(** *** Conditions *)

(** [Condition._check] for [AnyOf]: the first event to be processed
    makes the condition succeed. *)
Definition check (c : nat) : M unit :=
  λ w, if is_triggered c w then (tt, w) else succeed c w.

Fixpoint any_of_attach (c : nat) (evs : list nat) : M unit :=
  match evs with
  | [] => ret tt
  | e :: evs' =>
      bind (λ w, if is_processed e w then check c w
                 else add_callback (Cond_check c) e w)
           (λ _, any_of_attach c evs')
  end.

(** [env.any_of(events)]. *)
Definition any_of (evs : list nat) : M nat :=
  bind (new_event (KAnyOf evs) false []) (λ c,
  bind (match evs with [] => succeed c | _ => any_of_attach c evs end) (λ _,
  bind (add_callback Build_value c) (λ _, ret c))).

Definition remove_check (c : nat) (ev : event) : event :=
  Event (kind ev) (triggered ev)
        (option_map (λ l, match list_find (λ cb, cb = Cond_check c) l with
                          | Some (i, _) => delete i l
                          | None => l
                          end) (callbacks ev))
        (proc ev) (value ev).

(** [Condition._build_value]: detaches [_check] and collects the
    events that are already processed, in the order they were given. *)
Definition build_value (c : nat) : M unit :=
  λ w, match events w !! c with
       | Some ev =>
           match kind ev with
           | KAnyOf evs =>
               let w1 := foldl (λ w e, set_events (alter (remove_check c) e) w) w evs in
               let v := filter (λ e, is_processed e w1 = true) evs in
               (tt, set_events (alter (λ ev, Event (kind ev) (triggered ev)
                                                   (callbacks ev) (proc ev) v) c) w1)
           | _ => (tt, w)
           end
       | None => (tt, w)
       end.

(** *** Processes *)

(** [env.process(generator)]: a Process event plus an URGENT
    Initialize event that will resume it. *)
Definition process (g : P) : M nat :=
  λ w, let p := length (procs w) in
       let '(pe, w1) := new_event (KProcess p) false [] w in
       let w2 := set_procs (λ ps, ps ++ [ProcEntry (Some g) pe]) w1 in
       let '(ie, w3) := new_event (KInitialize p) true [Resume p] w2 in
       let '(_, w4) := schedule ie URGENT 0 w3 in
       (p, w4).

Variable resume : P → list nat → M (outcome P).

Definition set_generator (p : nat) (g : option P) : M unit :=
  modify (set_procs (alter (λ pe, ProcEntry g (pevent pe)) p)).

(** [Process._resume]: run the generator to its next [yield]; an event
    that is already processed resumes it again at once. *)
Fixpoint resume_loop (fuel : nat) (p : nat) (g : P) (v : list nat) : M unit :=
  λ w,
    match resume g v w with
    | (Yield k e, w1) =>
        if is_processed e w1 then
          match fuel with
          | O => (tt, set_crashed w1)
          | S fuel' =>
              resume_loop fuel' p k
                (match events w1 !! e with Some ev => value ev | None => [] end) w1
          end
        else bind (add_callback (Resume p) e) (λ _, set_generator p (Some k)) w1
    | (Return, w1) =>
        match procs w1 !! p with
        | Some pe => bind (set_generator p None) (λ _, succeed (pevent pe)) w1
        | None => (tt, w1)
        end
    | (Raise, w1) => bind (set_generator p None) (λ _, modify set_crashed) w1
    | (Diverge, w1) => (tt, set_crashed w1)
    end.

Definition resume_fuel : nat := 64.

Definition run_callback (e : nat) (cb : callback) : M unit :=
  match cb with
  | Trigger_get _ => ret tt     (* releases are served on creation *)
  | Trigger_put r => trigger_put r
  | Cond_check c => check c
  | Build_value => build_value e
  | Resume p =>
      λ w, match procs w !! p with
           | Some pe =>
               match generator pe with
               | Some g =>
                   let v := match events w !! e with Some ev => value ev | None => [] end in
                   let '(_, w1) := resume_loop resume_fuel p g v (set_active (Some p) w) in
                   (tt, set_active None w1)
               | None => (tt, w)
               end
           | None => (tt, w)
           end
  | Stop_simulation => modify set_stopped
  end.

(** [Environment.step]: pop the next event, advance the clock, detach
    its callbacks and run them in order; an exception that a callback
    raises ([StopSimulation] included) leaves [step] at once, so the
    callbacks after it are not run. *)
Definition step (w : env) : option env :=
  match queue w with
  | [] => None
  | (t, _, _, e) :: q =>
      let w1 := set_queue (λ _, q) (set_now t w) in
      match events w1 !! e with
      | Some ev =>
          let cbs := default [] (callbacks ev) in
          let w2 := set_events
                      (alter (λ ev, Event (kind ev) (triggered ev) None
                                          (proc ev) (value ev)) e) w1 in
          Some (foldl (λ w cb, if stopped w || crashed w then w
                               else snd (run_callback e cb w)) w2 cbs)
      | None => Some w1
      end
  end.

(** [n] scheduler steps (fewer when the schedule empties or the run
    stops). *)
Fixpoint run_steps (n : nat) (w : env) : env :=
  match n with
  | O => w
  | S n' =>
      if stopped w || crashed w then w
      else match step w with
           | Some w' => run_steps n' w'
           | None => w
           end
  end.

(** [env.run(until=t)] for a number [t > now]: an URGENT event at [t]
    stops the run before the other events of that instant. *)
Definition run_until (t : Z) (fuel : nat) (w : env) : env :=
  let '(u, w1) := new_event KUntil true [Stop_simulation] w in
  let '(_, w2) := schedule u URGENT (t - now w) w1 in
  run_steps fuel w2.

End Kernel.

Arguments env : clear implicits.
Arguments M : clear implicits.
Arguments proc_entry : clear implicits.

Notation "'let*' x ':=' c 'in' k" := (bind c (fun x => k))
  (at level 10, x pattern, c at level 200, k at level 200, only parsing).

(** [for x in l: body(x)], collecting the results. *)
Fixpoint mapM {P U A B} (f : A → M P U B) (l : list A) : M P U (list B) :=
  match l with
  | [] => ret []
  | x :: l' => let* y := f x in let* ys := mapM f l' in ret (y :: ys)
  end.

(** [if not req.triggered: req.cancel()]. *)
Definition cancel_untriggered {P U} (e : nat) : M P U unit :=
  λ w, if is_triggered e w then (tt, w) else cancel e w.

(** How many grants process [p] holds: its requests among the users of
    all resources. *)
Definition owned_by {P U} (w : env P U) (p : nat) (e : nat) : bool :=
  match events w !! e with
  | Some ev => bool_decide (proc ev = Some p)
  | None => false
  end.

Definition grants_held {P U} (w : env P U) (p : nat) : nat :=
  length (filter (λ e, owned_by w p e = true) (concat (map users (resources w)))).

(** Grants acquired so far by [p]: its triggered requests. *)
Definition is_grant_of (p : nat) (ev : event) : bool :=
  match kind ev with
  | KRequest _ => triggered ev && bool_decide (proc ev = Some p)
  | _ => false
  end.

Definition grants_acquired {P U} (w : env P U) (p : nat) : nat :=
  length (filter (λ ev, is_grant_of p ev = true) (events w)).

(** Releases issued so far by [p]. *)
Definition is_release_of (p : nat) (ev : event) : bool :=
  match kind ev with
  | KRelease _ _ => bool_decide (proc ev = Some p)
  | _ => false
  end.

Definition grants_released {P U} (w : env P U) (p : nat) : nat :=
  length (filter (λ ev, is_release_of p ev = true) (events w)).

End Simpy.

(** ** The tool configuration (the parsed metal_tool_by_unit.json) *)

(** One entry of [unit_flow]; [seq_id] is the value of [int(step["seq_id"])],
    [transfer] the truth value of [step["transfer"]]. *)
Record flow_step : Type := FlowStep {
  seq_id : Z;
  unit_id : string;
  duration_mean : Z;
  duration_std : Z;
  duration_min : Z;
  transfer : bool }.

(** [unit_capability]: a list of dicts, each a list of
    [(unit_id, part_names)]. *)
Definition capability : Type := list (list (string * list string)).

(** [sorted(..., key=lambda x: int(x["seq_id"]))]: stable. *)
Fixpoint insert_by_seq (x : flow_step) (l : list flow_step) : list flow_step :=
  match l with
  | [] => [x]
  | y :: l' => if seq_id x <=? seq_id y then x :: l else y :: insert_by_seq x l'
  end.

Definition sorted_by_seq (l : list flow_step) : list flow_step :=
  foldr insert_by_seq [] l.

(** [d[k] = v] on an insertion-ordered dict: a known key keeps its place. *)
Fixpoint dict_set {V} (k : string) (v : V) (d : list (string * V)) : list (string * V) :=
  match d with
  | [] => [(k, v)]
  | (k', v') :: d' => if decide (k = k') then (k, v) :: d' else (k', v') :: dict_set k v d'
  end.

Fixpoint dict_get {V} (k : string) (d : list (string * V)) : option V :=
  match d with
  | [] => None
  | (k', v) :: d' => if decide (k = k') then Some v else dict_get k d'
  end.

(** ** tool_simulator.py: [MetalTool] and the hold-and-wait [wafer_process] *)
Module ToolSimulator.
Import Simpy.

(** An element of [tool.unit_to_parts[unit_id]]. *)
Record part : Type := Part {
  part_name : string;
  part_resource : nat }.

Record MetalTool : Type := Build_MetalTool {
  shared_resources : gmap string nat;
  unit_to_parts : gmap string (list part) }.

(** A record appended to [wafer_log]. *)
Record log_entry : Type := LogEntry {
  WaferID : string;
  UnitID : string;
  SeqID : Z;
  PartID : string;
  Start : Z;
  Finish : Z }.

(** The diagnostics that [wafer_process] prints. *)
Inductive message : Type :=
| No_tools_available (unit wafer : string)            (* line 50 *)
| Timeout_initial (wafer unit : string)               (* line 67 *)
| No_request_acquired (wafer : string)                (* line 78 *)
| Timeout_next (wafer unit : string)                  (* line 103 *)
| No_next_request_acquired (wafer : string)           (* line 115 *)
| Error_in_wafer_process (wafer : string).            (* line 163 *)

(** The objects shared by the wafer processes of one lot. *)
Record world : Type := World {
  tool : MetalTool;
  wafer_log : list log_entry;
  start_time_tracker : gmap string Z;
  end_time_tracker : gmap string Z;
  stdout : list message }.

Definition set_tool (t : MetalTool) (u : world) : world :=
  World t (wafer_log u) (start_time_tracker u) (end_time_tracker u) (stdout u).
Definition log_append (r : log_entry) (u : world) : world :=
  World (tool u) (wafer_log u ++ [r]) (start_time_tracker u) (end_time_tracker u) (stdout u).
Definition set_start_time (k : string) (t : Z) (u : world) : world :=
  World (tool u) (wafer_log u) (<[k := t]> (start_time_tracker u)) (end_time_tracker u) (stdout u).
Definition set_end_time (k : string) (t : Z) (u : world) : world :=
  World (tool u) (wafer_log u) (start_time_tracker u) (<[k := t]> (end_time_tracker u)) (stdout u).
Definition print_msg (m : message) (u : world) : world :=
  World (tool u) (wafer_log u) (start_time_tracker u) (end_time_tracker u) (stdout u ++ [m]).

(** The variables that are assigned together at lines 84-87 and 142-145
    ([None] stands for all four being [None], lines 39-42). *)
Record held : Type := Held {
  current_resource : nat;
  current_request : nat;
  current_part_name : string;
  resource_start_time : Z }.

Record locals : Type := Locals {
  wafer_id : string;
  sorted_flow : list flow_step;
  current : option held }.

(** The suspension points of the generator [wafer_process]. *)
Inductive wafer_gen : Type :=
| At_start (wafer : string) (unit_flow : list flow_step) (start_at_step : option flow_step)
| At_first (l : locals) (idx : nat) (step : flow_step) (unit_available : list part)
           (requests : list nat) (timeout_event : nat)                    (* line 60 *)
| At_next (l : locals) (idx : nat) (step : flow_step) (unit_available : list part)
          (requests : list nat) (timeout_event : nat)                     (* line 96 *)
| At_fallback (l : locals) (idx : nat)                                    (* lines 105, 117 *)
| At_process (l : locals) (idx : nat).                                    (* line 148 *)

Definition sim : Type := env wafer_gen world.
Definition T (A : Type) : Type := M wafer_gen world A.

(** *** [MetalTool.__init__] *)

Definition all_parts (unit_capability : capability) : list string :=
  remove_dups (concat (map (λ unit, concat (map snd unit)) unit_capability)).

(** One shared [simpy.Resource(env, capacity=1)] per unique part name
    (in order of first occurrence; Python's set order only renumbers
    the resources). *)
Fixpoint create_shared (parts : list string) (m : gmap string nat) : T (gmap string nat) :=
  match parts with
  | [] => ret m
  | p :: ps => let* r := new_resource 1 in create_shared ps (<[p := r]> m)
  end.

Definition parts_of (shared : gmap string nat) (part_names : list string) : list part :=
  omap (λ n, Part n <$> shared !! n) part_names.

Definition MetalTool_init (unit_capability : capability) : T unit :=
  let* shared := create_shared (all_parts unit_capability) ∅ in
  let u2p := foldl (λ m unit_info,
                      foldl (λ m '(unit_id, part_names),
                               <[unit_id := parts_of shared part_names]> m) m unit_info)
                   ∅ unit_capability in
  modify (set_user (set_tool (Build_MetalTool shared u2p))).

(** *** [wafer_process] *)

Definition print (m : message) : T unit := modify (set_user (print_msg m)).

(** Line 171 (and the assignments before the early returns at lines 36,
    68 and 79). *)
Definition finish (l : locals) : T (outcome wafer_gen) :=
  let* t := gets now in
  let* _ := modify (set_user (set_end_time (wafer_id l) t)) in
  ret Return.

(** Lines 162-171: the handler releases what is still held. *)
Definition on_exception (l : locals) : T (outcome wafer_gen) :=
  let* _ := print (Error_in_wafer_process (wafer_id l)) in
  let* _ := match current l with
            | Some h => let* _ := release (current_resource h) (current_request h) in ret tt
            | None => ret tt
            end in
  finish l.

(** Lines 150-160, then 171. *)
Definition after_loop (l : locals) : T (outcome wafer_gen) :=
  match current l with
  | Some h =>
      match py_index (sorted_flow l) (-1) with
      | Some last =>
          let* t := gets now in
          let* _ := modify (set_user (log_append
                      (LogEntry (wafer_id l) (unit_id last) (seq_id last)
                                (current_part_name h) (resource_start_time h) t))) in
          let* _ := release (current_resource h) (current_request h) in
          finish l
      | None => on_exception l
      end
  | None => finish l
  end.

(** Line 148. *)
Definition process_step (l : locals) (idx : nat) (step : flow_step) : T (outcome wafer_gen) :=
  let* t := timeout (duration_min step) in
  match t with
  | Some e => ret (Yield (At_process l idx) e)
  | None => on_exception l
  end.

(** Lines 105-106 and 117-118. *)
Definition fallback_step (l : locals) (idx : nat) (step : flow_step) : T (outcome wafer_gen) :=
  let* t := timeout (duration_min step) in
  match t with
  | Some e => ret (Yield (At_fallback l idx) e)
  | None => on_exception l
  end.

(** The [for] loop from position [idx] on ([rest] are the steps left),
    up to its next [yield]: lines 45-60 and 92-96. *)
Fixpoint for_loop (l : locals) (idx : nat) (rest : list flow_step) : T (outcome wafer_gen) :=
  match rest with
  | [] => after_loop l
  | step :: rest' =>
      let* unit_available :=
        gets (λ w, default [] (unit_to_parts (tool (user w)) !! unit_id step)) in
      match unit_available with
      | [] =>
          let* _ := print (No_tools_available (unit_id step) (wafer_id l)) in
          for_loop l (S idx) rest'
      | _ =>
          let* requests := mapM (λ p, request (part_resource p)) unit_available in
          let* t := timeout 1000 in
          match t with
          | Some timeout_event =>
              let* c := any_of (requests ++ [timeout_event]) in
              match current l with
              | None => ret (Yield (At_first l idx step unit_available requests timeout_event) c)
              | Some _ => ret (Yield (At_next l idx step unit_available requests timeout_event) c)
              end
          | None => on_exception l
          end
      end
  end.

(** [for req in requests: if req in result: acquired_request = req; break]. *)
Definition first_in (result requests : list nat) : option nat :=
  snd <$> list_find (λ req, req ∈ result) requests.

(** Lines 82-89: adopt the part of the acquired request, cancel the
    requests that are not triggered. *)
Fixpoint adopt_first (acquired : nat) (rps : list (nat * part)) (cur : option held)
  : T (option held) :=
  match rps with
  | [] => ret cur
  | (req, p) :: rps' =>
      if decide (req = acquired) then
        let* t := gets now in
        adopt_first acquired rps' (Some (Held (part_resource p) acquired (part_name p) t))
      else
        let* _ := cancel_untriggered req in
        adopt_first acquired rps' cur
  end.

(** Lines 120-128. *)
Fixpoint pick_next (acquired : nat) (rps : list (nat * part)) (next : option part)
  : T (option part) :=
  match rps with
  | [] => ret next
  | (req, p) :: rps' =>
      if decide (req = acquired) then pick_next acquired rps' (Some p)
      else
        let* _ := cancel_untriggered req in
        pick_next acquired rps' next
  end.

(** Lines 62-89, then 148. *)
Definition resume_first (l : locals) (idx : nat) (step : flow_step)
    (unit_available : list part) (requests : list nat) (timeout_event : nat)
    (result : list nat) : T (outcome wafer_gen) :=
  if decide (timeout_event ∈ result) then
    let* _ := mapM cancel_untriggered requests in
    let* _ := print (Timeout_initial (wafer_id l) (unit_id step)) in
    finish l
  else
    match first_in result requests with
    | None =>
        let* _ := print (No_request_acquired (wafer_id l)) in
        finish l
    | Some acquired_request =>
        let* cur := adopt_first acquired_request (zip requests unit_available) (current l) in
        process_step (Locals (wafer_id l) (sorted_flow l) cur) idx step
    end.

(** Lines 98-145, then 148. *)
Definition resume_next (l : locals) (h : held) (idx : nat) (step : flow_step)
    (unit_available : list part) (requests : list nat) (timeout_event : nat)
    (result : list nat) : T (outcome wafer_gen) :=
  if decide (timeout_event ∈ result) then
    let* _ := mapM cancel_untriggered requests in
    let* _ := print (Timeout_next (wafer_id l) (unit_id step)) in
    fallback_step l idx step
  else
    match first_in result requests with
    | None =>
        let* _ := print (No_next_request_acquired (wafer_id l)) in
        fallback_step l idx step
    | Some acquired_request =>
        let* next := pick_next acquired_request (zip requests unit_available) None in
        match py_index (sorted_flow l) (Z.of_nat idx - 1) with
        | Some prev =>
            let* t := gets now in
            let* _ := modify (set_user (log_append
                        (LogEntry (wafer_id l) (unit_id prev) (seq_id prev)
                                  (current_part_name h) (resource_start_time h) t))) in
            let* _ := release (current_resource h) (current_request h) in
            let cur := (λ p, Held (part_resource p) acquired_request (part_name p) t) <$> next in
            process_step (Locals (wafer_id l) (sorted_flow l) cur) idx step
        | None => on_exception l
        end
    end.

(** Lines 29-43. *)
Definition start (wafer : string) (unit_flow : list flow_step)
    (start_at_step : option flow_step) : T (outcome wafer_gen) :=
  let* t := gets now in
  let* _ := match start_at_step with
            | None => modify (set_user (set_start_time wafer t))
            | Some _ => ret tt
            end in
  let flow := sorted_by_seq (filter (λ s, transfer s = false) unit_flow) in
  match flow with
  | [] =>
      let* _ := modify (set_user (set_end_time wafer t)) in
      ret Return
  | _ => for_loop (Locals wafer flow None) 0 flow
  end.

(** The generator, resumed with the value of the event it waited for. *)
Definition wafer_process (g : wafer_gen) (result : list nat) : T (outcome wafer_gen) :=
  match g with
  | At_start wafer unit_flow start_at_step => start wafer unit_flow start_at_step
  | At_first l idx step unit_available requests timeout_event =>
      resume_first l idx step unit_available requests timeout_event result
  | At_next l idx step unit_available requests timeout_event =>
      match current l with
      | Some h => resume_next l h idx step unit_available requests timeout_event result
      | None => on_exception l
      end
  | At_fallback l idx => for_loop l (S idx) (drop (S idx) (sorted_flow l))
  | At_process l idx => for_loop l (S idx) (drop (S idx) (sorted_flow l))
  end.

Definition empty_world : world :=
  World (Build_MetalTool ∅ ∅) [] ∅ ∅ [].

(** The tool is built, then one process per wafer is created, as
    [lot_process] does at line 182-185. *)
Definition launch (unit_capability : capability) (unit_flow : list flow_step)
    (wafers : list string) : sim :=
  snd ((let* _ := MetalTool_init unit_capability in
        mapM (λ wafer, process (At_start wafer unit_flow None)) wafers)
       (init_env empty_world)).

Definition run (n : nat) (w : sim) : sim := run_steps wafer_process n w.

End ToolSimulator.

(** ** anylogic_flow_units.py: the flow nodes

    Each method is embedded segment by segment: a function per stretch of
    code between two [yield]s, returning the updated node and, in program
    order, what the stretch did (counter increments, log lines, hand-offs
    to the next unit). *)
Module FlowUnits.

(** [f"Agent_{n}"] and [f"LOT_{lot:03d}_W{idx:02d}"]. *)
Inductive agent_id : Type :=
| Agent_ (n : nat)
| Wafer_ (lot idx : nat).

#[global] Instance agent_id_eq_dec : EqDecision agent_id.
Proof. solve_decision. Defined.

#[global] Instance agent_id_countable : Countable agent_id.
Proof.
  refine (inj_countable' (λ a, match a with
                               | Agent_ n => inl n
                               | Wafer_ l i => inr (l, i)
                               end)
                         (λ x, match x with
                               | inl n => Agent_ n
                               | inr (l, i) => Wafer_ l i
                               end) _).
  intros []; reflexivity.
Defined.

(** An entry of [WaferAgent.processing_history] ([wafer_id], [lot_id] and
    [duration] repeat the agent and the two times). *)
Record history_entry : Type := HistoryEntry {
  h_unit_id : string;
  h_seq_id : Z;
  h_start_time : Z;
  h_end_time : Z;
  h_resource_id : string }.

(** [Agent], with the fields [WaferAgent] adds. *)
Record Agent : Type := Build_Agent {
  id : agent_id;
  creation_time : Z;
  current_time : Z;
  lot_id : nat;
  current_seq_id : Z;
  processing_history : list history_entry }.

Definition new_agent (i : agent_id) (t : Z) : Agent := Build_Agent i t t 0 1 [].

Definition set_current_time (t : Z) (a : Agent) : Agent :=
  Build_Agent (id a) (creation_time a) t (lot_id a) (current_seq_id a) (processing_history a).

(** The dataclass equality of [Agent]: [id] and [creation_time]. *)
Definition agent_eqb (a b : Agent) : bool :=
  bool_decide (id a = id b) && (creation_time a =? creation_time b).

Fixpoint remove_agent (a : Agent) (l : list Agent) : list Agent :=
  match l with
  | [] => []
  | b :: l' => if agent_eqb a b then l' else b :: remove_agent a l'
  end.

Inductive log_line : Type :=
| End_of_flow                 (* warning, FlowUnit.send_agent *)
| Generated                   (* info, Source *)
| Queue_received              (* info, Queue *)
| Queue_at_capacity           (* warning, Queue *)
| Queue_forwarding            (* info, Queue *)
| Delay_at_capacity           (* warning, Delay *)
| Delay_received
| Delay_completed
| Pool_received
| Pool_seized
| Pool_completed
| Service_queue_full          (* warning, Service *)
| Service_queued
| Service_started
| Service_completed
| Routing_true
| No_true_output              (* warning, SelectOutput *)
| Routing_false
| No_false_output             (* warning, SelectOutput *)
| Combine_received
| Combine_batch
| Combine_timeout
| Sink_received
| No_step_found               (* warning, SemiconductorToolUnit *)
| Processing_wafer.           (* info, SemiconductorToolUnit, FlowController *)

#[global] Instance log_line_eq_dec : EqDecision log_line.
Proof. solve_decision. Defined.

(** What a segment does, in program order. *)
Inductive trace_event : Type :=
| Entered (a : agent_id)              (* self.agents_entered += 1 *)
| Exited (a : agent_id)               (* self.agents_exited += 1 *)
| Sent (target : nat) (a : Agent)     (* env.process(target.receive_agent(a)) *)
| Logged (m : log_line) (a : agent_id) (t : Z)
| Noted (m : log_line) (t : Z).       (* a log line about no single agent *)

(** The fields of the base class [FlowUnit]. *)
Record FlowUnit : Type := Build_FlowUnit {
  output_port : option nat;
  agents_entered : nat;
  agents_exited : nat }.

Definition enter (u : FlowUnit) : FlowUnit :=
  Build_FlowUnit (output_port u) (S (agents_entered u)) (agents_exited u).
Definition exit (u : FlowUnit) : FlowUnit :=
  Build_FlowUnit (output_port u) (agents_entered u) (S (agents_exited u)).

(** [FlowUnit.send_agent]. *)
Definition send_agent (u : FlowUnit) (agent : Agent) (t : Z) : list trace_event :=
  match output_port u with
  | Some next => [Sent next agent]
  | None => [Logged End_of_flow (id agent) t]
  end.

(** [l[:k]] and [l[k:]]. *)
Definition slice_index {A} (l : list A) (k : Z) : nat :=
  if k <? 0 then Z.to_nat (Z.of_nat (length l) + k) else Z.to_nat k.
Definition slice_to {A} (l : list A) (k : Z) : list A := take (slice_index l k) l.
Definition slice_from {A} (l : list A) (k : Z) : list A := drop (slice_index l k) l.

(** [len(l) < capacity] and [len(l) >= capacity] for a capacity that is
    [float('inf')] ([None]) or a number. *)
Definition below_capacity {A} (l : list A) (capacity : option Z) : bool :=
  match capacity with
  | None => true
  | Some c => Z.of_nat (length l) <? c
  end.

(** The sorted insertion shared by [Queue] and [Service]: before the
    first stored entry of strictly greater priority, else at the end. *)
Fixpoint priority_insert (agent : Agent) (priority : Z) (q : list (Agent * Z))
  : list (Agent * Z) :=
  match q with
  | [] => [(agent, priority)]
  | (stored_agent, stored_priority) :: q' =>
      if priority <? stored_priority then (agent, priority) :: q
      else (stored_agent, stored_priority) :: priority_insert agent priority q'
  end.

(** *** Source *)
Module Source.

Record t : Type := Build {
  base : FlowUnit;
  max_arrivals : option Z;
  generated_count : nat }.

(** Line 87: [self.max_arrivals and self.generated_count >= self.max_arrivals];
    [None] and [0] are both falsy. *)
Definition limit_reached (max : option Z) (count : nat) : bool :=
  match max with
  | None => false
  | Some m => negb (m =? 0) && (m <=? Z.of_nat count)
  end.

(** Lines 94-100, after the inter-arrival timeout. *)
Definition generate (s : t) (now : Z) : t * list trace_event :=
  let agent := new_agent (Agent_ (generated_count s)) now in
  (Build (exit (base s)) (max_arrivals s) (S (generated_count s)),
   [Exited (id agent); Logged Generated (id agent) now] ++ send_agent (base s) agent now).

End Source.

(** *** Queue *)
Module Queue.

(** A FIFO queue stores its agents with an unused priority 0. *)
Record t : Type := Build {
  base : FlowUnit;
  capacity : option Z;
  priority_func : option (Agent → Z);
  queue : list (Agent * Z) }.

(** [_try_forward_agent], up to its [yield]. *)
Definition try_forward_agent (q : t) (now : Z) : t * list trace_event :=
  match queue q, output_port (base q) with
  | (agent, _) :: rest, Some _ =>
      (Build (exit (base q)) (capacity q) (priority_func q) rest,
       [Exited (id agent); Logged Queue_forwarding (id agent) now]
         ++ send_agent (base q) agent now)
  | _, _ => (q, [])
  end.

(** [receive_agent], lines 119-143. *)
Definition receive_agent (q : t) (agent0 : Agent) (now : Z) : t * list trace_event :=
  let agent := set_current_time now agent0 in
  let b := enter (base q) in
  if below_capacity (queue q) (capacity q) then
    let queue' := match priority_func q with
                  | Some f => priority_insert agent (f agent) (queue q)
                  | None => queue q ++ [(agent, 0)]
                  end in
    let '(q', tr) := try_forward_agent (Build b (capacity q) (priority_func q) queue') now in
    (q', [Entered (id agent); Logged Queue_received (id agent) now] ++ tr)
  else
    (Build b (capacity q) (priority_func q) (queue q),
     [Entered (id agent); Logged Queue_at_capacity (id agent) now]).

End Queue.

(** *** Delay *)
Module Delay.

Record t : Type := Build {
  base : FlowUnit;
  capacity : option Z;
  processing_agents : list Agent }.

(** [receive_agent], lines 183-194, up to the timeout of [_delay_process];
    the result tells whether a frame stays suspended with the agent. *)
Definition receive_agent (d : t) (agent0 : Agent) (now : Z)
  : t * list trace_event * option Agent :=
  if below_capacity (processing_agents d) (capacity d) then
    let agent := set_current_time now agent0 in
    (Build (enter (base d)) (capacity d) (processing_agents d ++ [agent]),
     [Entered (id agent); Logged Delay_received (id agent) now], Some agent)
  else (d, [Logged Delay_at_capacity (id agent0) now], None).

(** [_delay_process] after its timeout, lines 208-212. *)
Definition complete (d : t) (agent : Agent) (now : Z) : t * list trace_event :=
  (Build (exit (base d)) (capacity d) (remove_agent agent (processing_agents d)),
   [Exited (id agent); Logged Delay_completed (id agent) now] ++ send_agent (base d) agent now).

End Delay.

(** *** ResourcePool *)
Module ResourcePool.

Record t : Type := Build {
  base : FlowUnit;
  resource : nat;
  service_time : Z }.

(** [receive_agent], lines 237-243, before the request. *)
Definition receive_agent (r : t) (agent0 : Agent) (now : Z) : t * list trace_event * Agent :=
  let agent := set_current_time now agent0 in
  (Build (enter (base r)) (resource r) (service_time r),
   [Entered (id agent); Logged Pool_received (id agent) now], agent).

(** Line 257, once the request is granted. *)
Definition seized (agent : Agent) (now : Z) : list trace_event :=
  [Logged Pool_seized (id agent) now].

(** Lines 270-273, after the release. *)
Definition complete (r : t) (agent : Agent) (now : Z) : t * list trace_event :=
  (Build (exit (base r)) (resource r) (service_time r),
   [Exited (id agent); Logged Pool_completed (id agent) now] ++ send_agent (base r) agent now).

End ResourcePool.

(** *** Service *)
Module Service.

Record t : Type := Build {
  base : FlowUnit;
  resource : nat;
  service_time : Z;
  setup_time : Z;
  queue_capacity : option Z;
  priority_func : option (Agent → Z);
  queue : list (Agent * Z);
  processing_agents : list Agent;
  rejected_agents : nat;
  total_queue_time : Z;
  total_service_time : Z;
  service_start_times : gmap agent_id Z;
  queue_start_times : gmap agent_id Z }.

Definition set_base (b : FlowUnit) (s : t) : t :=
  Build b (resource s) (service_time s) (setup_time s) (queue_capacity s) (priority_func s)
        (queue s) (processing_agents s) (rejected_agents s) (total_queue_time s)
        (total_service_time s) (service_start_times s) (queue_start_times s).
Definition set_queue (q : list (Agent * Z)) (s : t) : t :=
  Build (base s) (resource s) (service_time s) (setup_time s) (queue_capacity s)
        (priority_func s) q (processing_agents s) (rejected_agents s) (total_queue_time s)
        (total_service_time s) (service_start_times s) (queue_start_times s).
Definition set_processing (p : list Agent) (s : t) : t :=
  Build (base s) (resource s) (service_time s) (setup_time s) (queue_capacity s)
        (priority_func s) (queue s) p (rejected_agents s) (total_queue_time s)
        (total_service_time s) (service_start_times s) (queue_start_times s).
Definition reject (s : t) : t :=
  Build (base s) (resource s) (service_time s) (setup_time s) (queue_capacity s)
        (priority_func s) (queue s) (processing_agents s) (S (rejected_agents s))
        (total_queue_time s) (total_service_time s) (service_start_times s)
        (queue_start_times s).
Definition set_times (tq ts : Z) (sst qst : gmap agent_id Z) (s : t) : t :=
  Build (base s) (resource s) (service_time s) (setup_time s) (queue_capacity s)
        (priority_func s) (queue s) (processing_agents s) (rejected_agents s) tq ts sst qst.

(** The head of the loop of [_service_process], lines 347-361: pop the
    next agent and book its queueing time; [None] when the queue is
    empty and the loop ends. *)
Definition take_next (s : t) (now : Z) : option (t * Agent) :=
  match queue s with
  | [] => None
  | (agent, _) :: rest =>
      let s1 := set_queue rest s in
      let s2 := match queue_start_times s1 !! id agent with
                | Some t0 =>
                    set_times (total_queue_time s1 + (now - t0)) (total_service_time s1)
                              (service_start_times s1) (delete (id agent) (queue_start_times s1)) s1
                | None => s1
                end in
      Some (s2, agent)
  end.

(** [receive_agent], lines 315-343, up to the request of
    [_service_process]: the agent whose service starts, if any. *)
Definition receive_agent (s : t) (agent0 : Agent) (now : Z)
  : t * list trace_event * option Agent :=
  let agent := set_current_time now agent0 in
  let s1 := set_base (enter (base s)) s in
  if below_capacity (queue s1) (queue_capacity s1) then
    let s2 := set_times (total_queue_time s1) (total_service_time s1) (service_start_times s1)
                        (<[id agent := now]> (queue_start_times s1)) s1 in
    let s3 := set_queue (match priority_func s2 with
                         | Some f => priority_insert agent (f agent) (queue s2)
                         | None => queue s2 ++ [(agent, 0)]
                         end) s2 in
    let tr := [Entered (id agent); Logged Service_queued (id agent) now] in
    match take_next s3 now with
    | Some (s4, next) => (s4, tr, Some next)
    | None => (s3, tr, None)
    end
  else
    (reject s1, [Entered (id agent); Logged Service_queue_full (id agent) now], None).

(** Lines 365-368, once the request is granted. *)
Definition start_service (s : t) (agent : Agent) (now : Z) : t * list trace_event :=
  let s1 := set_processing (processing_agents s ++ [agent]) s in
  (set_times (total_queue_time s1) (total_service_time s1)
             (<[id agent := now]> (service_start_times s1)) (queue_start_times s1) s1,
   [Logged Service_started (id agent) now]).

(** Lines 388-403, after the service timeout: the agent leaves, and the
    loop goes on with the next queued agent, if any. *)
Definition complete (s : t) (agent : Agent) (now : Z)
  : t * list trace_event * option Agent :=
  let s1 := set_processing (remove_agent agent (processing_agents s)) s in
  let s2 := match service_start_times s1 !! id agent with
            | Some t0 =>
                set_times (total_queue_time s1) (total_service_time s1 + (now - t0))
                          (delete (id agent) (service_start_times s1)) (queue_start_times s1) s1
            | None => s1
            end in
  let s3 := set_base (exit (base s2)) s2 in
  let tr := [Exited (id agent); Logged Service_completed (id agent) now]
              ++ send_agent (base s3) agent now in
  match take_next s3 now with
  | Some (s4, next) => (s4, tr, Some next)
  | None => (s3, tr, None)
  end.

End Service.

(** *** SelectOutput *)
Module SelectOutput.

Record t : Type := Build {
  base : FlowUnit;
  true_output : option nat;
  false_output : option nat }.

(** [receive_agent], lines 463-481; [condition] is the value of
    [self.condition_func(agent)]. *)
Definition receive_agent (s : t) (agent0 : Agent) (condition : bool) (now : Z)
  : t * list trace_event :=
  let agent := set_current_time now agent0 in
  let routed :=
    if condition then
      match true_output s with
      | Some u => [Logged Routing_true (id agent) now; Sent u agent]
      | None => [Logged No_true_output (id agent) now]
      end
    else
      match false_output s with
      | Some u => [Logged Routing_false (id agent) now; Sent u agent]
      | None => [Logged No_false_output (id agent) now]
      end in
  (Build (exit (enter (base s))) (true_output s) (false_output s),
   [Entered (id agent)] ++ routed ++ [Exited (id agent)]).

End SelectOutput.

(** *** Combine *)
Module Combine.

Record t : Type := Build {
  base : FlowUnit;
  required_agents : Z;
  timeout : option Z;
  waiting_agents : list Agent;
  batch_count : nat }.

Fixpoint forward_batch (b : FlowUnit) (batch : list Agent) (now : Z)
  : FlowUnit * list trace_event :=
  match batch with
  | [] => (b, [])
  | agent :: batch' =>
      let '(b', tr) := forward_batch (exit b) batch' now in
      (b', [Exited (id agent)] ++ send_agent b agent now ++ tr)
  end.

(** [_process_batch], lines 513-522. *)
Definition process_batch (c : t) (now : Z) : t * list trace_event :=
  let batch := slice_to (waiting_agents c) (required_agents c) in
  let waiting := slice_from (waiting_agents c) (required_agents c) in
  let '(b, tr) := forward_batch (base c) batch now in
  (Build b (required_agents c) (timeout c) waiting (S (batch_count c)),
   Noted Combine_batch now :: tr).

(** [receive_agent], lines 496-509; the flag tells whether a
    [_timeout_process] was created (line 507: [self.timeout] is neither
    [None] nor 0). *)
Definition receive_agent (c : t) (agent0 : Agent) (now : Z)
  : t * list trace_event * bool :=
  let agent := set_current_time now agent0 in
  let c1 := Build (enter (base c)) (required_agents c) (timeout c)
                  (waiting_agents c ++ [agent]) (batch_count c) in
  let tr := [Entered (id agent); Logged Combine_received (id agent) now] in
  if required_agents c1 <=? Z.of_nat (length (waiting_agents c1)) then
    let '(c2, tr') := process_batch c1 now in (c2, tr ++ tr', false)
  else
    match timeout c1 with
    | Some d => (c1, tr, negb (d =? 0))
    | None => (c1, tr, false)
    end.

(** [_timeout_process] when it starts to run, line 528. *)
Definition initial_count (c : t) : nat := length (waiting_agents c).

(** [_timeout_process] after its timeout, lines 532-534. *)
Definition timeout_process (c : t) (initial_count : nat) (now : Z) : t * list trace_event :=
  match waiting_agents c with
  | _ :: _ =>
      if decide (length (waiting_agents c) = initial_count) then
        let '(c', tr) := process_batch c now in
        (c', Noted Combine_timeout now :: tr)
      else (c, [])
  | [] => (c, [])
  end.

End Combine.

(** *** Sink *)
Module Sink.

Record t : Type := Build {
  base : FlowUnit;
  completed_agents : list Agent }.

(** [receive_agent], lines 545-550. *)
Definition receive_agent (s : t) (agent0 : Agent) (now : Z) : t * list trace_event :=
  let agent := set_current_time now agent0 in
  (Build (enter (base s)) (completed_agents s ++ [agent]),
   [Entered (id agent); Logged Sink_received (id agent) now]).

End Sink.

End FlowUnits.

(** ** semiconductor_tool_simulator.py: [SemiconductorToolUnit], [WaferSource] *)
Module ToolUnit.
Import FlowUnits.

(** [resources] maps a resource name to this unit's own [simpy.Resource];
    [unit_flow_steps] holds the values of the dict keyed by [seq_id]. *)
Record t : Type := Build {
  base : FlowUnit;
  unit_name : string;
  resources : list (string * nat);
  unit_flow_steps : list flow_step;
  resource_names : list string;
  resource_index : nat;
  is_transfer_unit : bool }.

Definition set_base (b : FlowUnit) (u : t) : t :=
  Build b (unit_name u) (resources u) (unit_flow_steps u) (resource_names u)
        (resource_index u) (is_transfer_unit u).

(** [{step['seq_id']: step for step in unit_flow_steps if step['unit_id'] == unit_id}]:
    a later step takes the place of an earlier one with the same key.
    A [seq_id] is known here by its integer value (see [flow_step]), so
    steps with equal integers are taken to have the same key, as they
    have when the file writes every [seq_id] in one way; keys that
    differ although [int()] makes them equal (1 and '1') stay apart in
    the code, where [receive_agent] then finds the first of them. *)
Fixpoint steps_set (st : flow_step) (d : list flow_step) : list flow_step :=
  match d with
  | [] => [st]
  | x :: d' => if seq_id x =? seq_id st then st :: d' else x :: steps_set st d'
  end.

Definition steps_of (name : string) (unit_flow : list flow_step) : list flow_step :=
  foldl (λ d st, steps_set st d) [] (filter (λ st, unit_id st = name) unit_flow).

(** Lines 89-93: the step of this unit at the agent's sequence position. *)
Definition find_step (u : t) (seq : Z) : option flow_step :=
  snd <$> list_find (λ st, seq_id st = seq) (unit_flow_steps u).

(** [get_next_resource]; [None] is the [IndexError] of an empty list. *)
Definition get_next_resource (u : t) : option (string * t) :=
  match resource_names u with
  | [name] => Some (name, u)
  | names =>
      match names !! resource_index u with
      | Some name =>
          Some (name, Build (base u) (unit_name u) (resources u) (unit_flow_steps u) names
                            ((resource_index u + 1) `mod` length names)%nat
                            (is_transfer_unit u))
      | None => None
      end
  end.

(** [get_processing_time]; [draw] is the value that
    [np.random.normal(duration_mean, duration_std)] returns. *)
Definition get_processing_time (u : t) (seq : Z) (draw : Z) : Z :=
  match find_step u seq with
  | None => 0
  | Some step =>
      if duration_mean step =? 0 then 0
      else Z.max (duration_min step) draw
  end.

(** [WaferAgent.log_processing_step]. *)
Definition log_processing_step (a : Agent) (unit : string) (seq start finish : Z)
    (res : string) : Agent :=
  Build_Agent (id a) (creation_time a) (current_time a) (lot_id a) (current_seq_id a)
              (processing_history a ++ [HistoryEntry unit seq start finish res]).

(** [agent.current_seq_id += 1]. *)
Definition advance (a : Agent) : Agent :=
  Build_Agent (id a) (creation_time a) (current_time a) (lot_id a) (current_seq_id a + 1)
              (processing_history a).

(** [receive_agent], line 86. *)
Definition receive_agent (u : t) (agent : Agent) : t * list trace_event :=
  (set_base (enter (base u)) u, [Entered (id agent)]).

(** [receive_agent], lines 96-101: no step at the agent's position. *)
Definition skip_unit (u : t) (agent : Agent) (now : Z) : t * list trace_event :=
  let agent' := advance agent in
  (set_base (exit (base u)) u,
   [Logged No_step_found (id agent) now; Exited (id agent)]
     ++ send_agent (base u) agent' now).

(** [_process_wafer], lines 110-117: a step of zero mean duration. *)
Definition zero_duration (u : t) (agent : Agent) (step : flow_step) (now : Z)
  : t * list trace_event :=
  let agent' := advance (log_processing_step agent (unit_name u) (seq_id step) now now "N/A") in
  (set_base (exit (base u)) u, [Exited (id agent)] ++ send_agent (base u) agent' now).

(** [_process_wafer], lines 133-143, after the processing timeout. *)
Definition complete (u : t) (agent : Agent) (step : flow_step) (start_time : Z)
    (resource_name : string) (now : Z) : t * list trace_event :=
  let agent' := advance (log_processing_step agent (unit_name u) (seq_id step)
                                             start_time now resource_name) in
  (set_base (exit (base u)) u, [Exited (id agent)] ++ send_agent (base u) agent' now).

End ToolUnit.

Module WaferSource.
Import FlowUnits.

Record t : Type := Build {
  base : FlowUnit;
  generated_count : nat;
  lot_size : Z;
  lot_interval : Z;
  max_lots : option Z;
  lot_count : nat }.

(** Line 159: [self.max_lots and self.lot_count >= self.max_lots]. *)
Definition limit_reached (max : option Z) (count : nat) : bool :=
  Source.limit_reached max count.

(** Line 181: [self.max_lots is None or self.lot_count < self.max_lots]. *)
Definition wait_for_next_lot (max : option Z) (count : nat) : bool :=
  match max with
  | None => true
  | Some m => Z.of_nat count <? m
  end.

(** Lines 166-173: one wafer of the current lot. *)
Definition generate (s : t) (wafer_idx : nat) (now : Z) : t * list trace_event :=
  let i := Wafer_ (lot_count s) wafer_idx in
  let wafer := Build_Agent i now now (lot_count s) 1 [] in
  (Build (exit (base s)) (S (generated_count s)) (lot_size s) (lot_interval s)
         (max_lots s) (lot_count s),
   [Exited i; Logged Generated i now] ++ send_agent (base s) wafer now).

(** Line 178. *)
Definition next_lot (s : t) : t :=
  Build (base s) (generated_count s) (lot_size s) (lot_interval s) (max_lots s)
        (S (lot_count s)).

End WaferSource.

(** ** semiconductor_flow_simulator.py: [FlowController] *)
Module FlowController.
Import FlowUnits.

Record t : Type := Build {
  base : FlowUnit;
  flow_sequence : list flow_step;
  resource_pools : list (string * nat) }.

Definition set_base (b : FlowUnit) (c : t) : t :=
  Build b (flow_sequence c) (resource_pools c).

(** Lines 94-98; [draw] is the value that
    [np.random.normal(duration_mean, duration_std)] returns. *)
Definition processing_time (step : flow_step) (draw : Z) : Z :=
  if 0 <? duration_std step then Z.max (duration_min step) draw
  else duration_mean step.

(** [receive_agent], line 67. *)
Definition receive_agent (c : t) (agent : Agent) : t * list trace_event :=
  (set_base (enter (base c)) c, [Entered (id agent)]).

(** [_process_wafer_flow] after its loop, lines 117-118. *)
Definition complete (c : t) (agent : Agent) (now : Z) : t * list trace_event :=
  (set_base (exit (base c)) c, [Exited (id agent)] ++ send_agent (base c) agent now).

End FlowController.

(** ** Running flow models on the kernel *)
Module FlowSim.
Import Simpy FlowUnits.

Inductive flow_unit : Type :=
| USource (s : Source.t)
| UPool (r : ResourcePool.t)
| USink (s : Sink.t)
| UTool (u : ToolUnit.t)
| UWaferSource (s : WaferSource.t)
| UController (c : FlowController.t).

(** The units of a model, what they did so far (by unit), and the two
    random generators: the values that [random] and [numpy.random] hand
    out, in order. *)
Record world : Type := World {
  units : list flow_unit;
  trace : list (nat * trace_event);
  py_random : nat → Z;
  py_drawn : nat;
  np_random : nat → Z;
  np_drawn : nat }.

(** The suspension points of the modelled generators. *)
Inductive gen : Type :=
| Generation (u : nat)                   (* Source._generation_process, not started *)
| Generation_wait (u : nat)              (* anylogic_flow_units.py, line 92 *)
| Lots (u : nat)                         (* WaferSource._generation_process, not started *)
| Lots_wafer (u : nat) (wafer_idx : nat) (* semiconductor_tool_simulator.py, line 176 *)
| Lots_interval (u : nat)                (* line 182 *)
| Receive (u : nat) (agent : Agent)      (* units[u].receive_agent(agent), not started *)
| Pool_request (u : nat) (agent : Agent) (request : nat)       (* line 255 *)
| Pool_service (u : nat) (agent : Agent) (request : nat)       (* line 266 *)
| Last_tick                              (* a closing [yield self.env.timeout(0)] *)
| Unit_request (u : nat) (agent : Agent) (step : flow_step) (start_time : Z)
    (resource_name : string) (resource request : nat) (processing_time : Z)
                                         (* semiconductor_tool_simulator.py, line 126 *)
| Unit_processing (u : nat) (agent : Agent) (step : flow_step) (start_time : Z)
    (resource_name : string) (resource request : nat)          (* line 130 *)
| Flow_request (u : nat) (agent : Agent) (step : flow_step) (rest : list flow_step)
    (start_time : Z) (resource request : nat) (processing_time : Z)
                                         (* semiconductor_flow_simulator.py, line 108 *)
| Flow_processing (u : nat) (agent : Agent) (step : flow_step) (rest : list flow_step)
    (start_time : Z) (resource request : nat).                 (* line 112 *)

Definition sim : Type := env gen world.
Definition F (A : Type) : Type := M gen world A.

Definition set_unit (u : nat) (x : flow_unit) : F unit :=
  modify (set_user (λ s, World (<[u := x]> (units s)) (trace s) (py_random s) (py_drawn s)
                                (np_random s) (np_drawn s))).

Definition get_unit (u : nat) : F (option flow_unit) := gets (λ w, units (user w) !! u).

(** The next value of [random.expovariate] / [random.uniform]. *)
Definition draw_py : F Z :=
  λ w, let s := user w in
       (py_random s (py_drawn s),
        set_user (λ s, World (units s) (trace s) (py_random s) (S (py_drawn s))
                             (np_random s) (np_drawn s)) w).

(** The next value of [np.random.normal]. *)
Definition draw_np : F Z :=
  λ w, let s := user w in
       (np_random s (np_drawn s),
        set_user (λ s, World (units s) (trace s) (py_random s) (py_drawn s)
                             (np_random s) (S (np_drawn s))) w).

(** Record what unit [u] did; a hand-off creates the process of the
    receiver. *)
Fixpoint perform (u : nat) (tr : list trace_event) : F unit :=
  match tr with
  | [] => ret tt
  | ev :: tr' =>
      let* _ := modify (set_user (λ s, World (units s) (trace s ++ [(u, ev)]) (py_random s)
                                             (py_drawn s) (np_random s) (np_drawn s))) in
      let* _ := match ev with
                | Sent target agent => let* _ := process (Receive target agent) in ret tt
                | _ => ret tt
                end in
      perform u tr'
  end.

(** [Source._generation_process] from the top of its loop. *)
Definition generation_loop (u : nat) (s : Source.t) : F (outcome gen) :=
  if Source.limit_reached (Source.max_arrivals s) (Source.generated_count s) then ret Return
  else
    let* inter_arrival_time := draw_py in
    let* t := timeout inter_arrival_time in
    match t with
    | Some e => ret (Yield (Generation_wait u) e)
    | None => ret Raise
    end.

(** [WaferSource._generation_process] from the top of its loop. A lot of
    no wafers that is not followed by a wait brings the loop back to its
    top without a [yield]; [fuel] bounds these turns. *)
Fixpoint lots_loop (fuel : nat) (u : nat) (s : WaferSource.t) : F (outcome gen) :=
  if WaferSource.limit_reached (WaferSource.max_lots s) (WaferSource.lot_count s) then
    ret Return
  else if 0 <? WaferSource.lot_size s then
    let* now := gets now in
    let '(s', tr) := WaferSource.generate s 0 now in
    let* _ := set_unit u (UWaferSource s') in
    let* _ := perform u tr in
    let* d := draw_py in
    let* t := timeout d in
    match t with
    | Some e => ret (Yield (Lots_wafer u 0) e)
    | None => ret Raise
    end
  else
    let s' := WaferSource.next_lot s in
    let* _ := set_unit u (UWaferSource s') in
    if WaferSource.wait_for_next_lot (WaferSource.max_lots s') (WaferSource.lot_count s') then
      let* t := timeout (WaferSource.lot_interval s') in
      match t with
      | Some e => ret (Yield (Lots_interval u) e)
      | None => ret Raise
      end
    else
      match fuel with
      | O => ret Diverge
      | S fuel' => lots_loop fuel' u s'
      end.

(** After the wait that follows wafer [wafer_idx] of the lot. *)
Definition lots_after_wafer (u : nat) (s : WaferSource.t) (wafer_idx : nat) : F (outcome gen) :=
  if Z.of_nat (S wafer_idx) <? WaferSource.lot_size s then
    let* now := gets now in
    let '(s', tr) := WaferSource.generate s (S wafer_idx) now in
    let* _ := set_unit u (UWaferSource s') in
    let* _ := perform u tr in
    let* d := draw_py in
    let* t := timeout d in
    match t with
    | Some e => ret (Yield (Lots_wafer u (S wafer_idx)) e)
    | None => ret Raise
    end
  else
    let s' := WaferSource.next_lot s in
    let* _ := set_unit u (UWaferSource s') in
    if WaferSource.wait_for_next_lot (WaferSource.max_lots s') (WaferSource.lot_count s') then
      let* t := timeout (WaferSource.lot_interval s') in
      match t with
      | Some e => ret (Yield (Lots_interval u) e)
      | None => ret Raise
      end
    else lots_loop 1 u s'.

(** [FlowController._process_wafer_flow]: the [for] loop over the steps
    that are left, up to its next [yield]. *)
Fixpoint flow_loop (u : nat) (agent : Agent) (rest : list flow_step) : F (outcome gen) :=
  match rest with
  | [] =>
      let* x := get_unit u in
      match x with
      | Some (UController c) =>
          let* now := gets now in
          let '(c', tr) := FlowController.complete c agent now in
          let* _ := set_unit u (UController c') in
          let* _ := perform u tr in
          ret Return
      | _ => ret Raise
      end
  | step :: rest' =>
      if decide (unit_id step = "LOADPORT"%string) then flow_loop u agent rest'
      else if duration_mean step =? 0 then
        let* now := gets now in
        flow_loop u (ToolUnit.log_processing_step agent (unit_id step) (seq_id step)
                                                  now now "N/A") rest'
      else
        let* processing_time :=
          (if 0 <? duration_std step then
             let* draw := draw_np in ret (FlowController.processing_time step draw)
           else ret (FlowController.processing_time step 0)) in
        let* x := get_unit u in
        match x with
        | Some (UController c) =>
            match dict_get (unit_id step) (FlowController.resource_pools c) with
            | Some resource =>
                let* start_time := gets now in
                let* request := request resource in
                ret (Yield (Flow_request u agent step rest' start_time resource request
                                         processing_time) request)
            | None => flow_loop u agent rest'
            end
        | _ => ret Raise
        end
  end.

(** [receive_agent] of unit [u], up to its first [yield]. *)
Definition receive (u : nat) (agent : Agent) : F (outcome gen) :=
  let* x := get_unit u in
  let* now := gets now in
  match x with
  | Some (UPool r) =>
      let '(r', tr, agent') := ResourcePool.receive_agent r agent now in
      let* _ := set_unit u (UPool r') in
      let* _ := perform u tr in
      let* request := request (ResourcePool.resource r') in
      ret (Yield (Pool_request u agent' request) request)
  | Some (USink s) =>
      let '(s', tr) := Sink.receive_agent s agent now in
      let* _ := set_unit u (USink s') in
      let* _ := perform u tr in
      let* t := timeout 0 in
      match t with
      | Some e => ret (Yield Last_tick e)
      | None => ret Raise
      end
  | Some (UTool t0) =>
      let '(t1, tr) := ToolUnit.receive_agent t0 agent in
      let* _ := set_unit u (UTool t1) in
      let* _ := perform u tr in
      match ToolUnit.find_step t1 (current_seq_id agent) with
      | None =>
          let '(t2, tr) := ToolUnit.skip_unit t1 agent now in
          let* _ := set_unit u (UTool t2) in
          let* _ := perform u tr in
          ret Return
      | Some step =>
          if duration_mean step =? 0 then
            let '(t2, tr) := ToolUnit.zero_duration t1 agent step now in
            let* _ := set_unit u (UTool t2) in
            let* _ := perform u tr in
            ret Return
          else
            match ToolUnit.get_next_resource t1 with
            | Some (resource_name, t2) =>
                let* _ := set_unit u (UTool t2) in
                match dict_get resource_name (ToolUnit.resources t2) with
                | Some resource =>
                    let* draw := draw_np in
                    let processing_time :=
                      ToolUnit.get_processing_time t2 (seq_id step) draw in
                    let* request := request resource in
                    ret (Yield (Unit_request u agent step now resource_name resource request
                                             processing_time) request)
                | None => ret Raise
                end
            | None => ret Raise
            end
      end
  | Some (UController c) =>
      let '(c', tr) := FlowController.receive_agent c agent in
      let* _ := set_unit u (UController c') in
      let* _ := perform u tr in
      flow_loop u agent (FlowController.flow_sequence c')
  | _ => ret Raise
  end.

(** The generators, resumed. *)
Definition flow_process (g : gen) (result : list nat) : F (outcome gen) :=
  match g with
  | Generation u =>
      let* x := get_unit u in
      match x with
      | Some (USource s) => generation_loop u s
      | _ => ret Raise
      end
  | Generation_wait u =>
      let* x := get_unit u in
      let* now := gets now in
      match x with
      | Some (USource s) =>
          let '(s', tr) := Source.generate s now in
          let* _ := set_unit u (USource s') in
          let* _ := perform u tr in
          generation_loop u s'
      | _ => ret Raise
      end
  | Lots u =>
      let* x := get_unit u in
      match x with
      | Some (UWaferSource s) => lots_loop 1 u s
      | _ => ret Raise
      end
  | Lots_wafer u wafer_idx =>
      let* x := get_unit u in
      match x with
      | Some (UWaferSource s) => lots_after_wafer u s wafer_idx
      | _ => ret Raise
      end
  | Lots_interval u =>
      let* x := get_unit u in
      match x with
      | Some (UWaferSource s) => lots_loop 1 u s
      | _ => ret Raise
      end
  | Receive u agent => receive u agent
  | Pool_request u agent request =>
      let* x := get_unit u in
      let* now := gets now in
      match x with
      | Some (UPool r) =>
          let* _ := perform u (ResourcePool.seized agent now) in
          let* t := timeout (ResourcePool.service_time r) in
          match t with
          | Some e => ret (Yield (Pool_service u agent request) e)
          | None => ret Raise
          end
      | _ => ret Raise
      end
  | Pool_service u agent request =>
      let* x := get_unit u in
      let* now := gets now in
      match x with
      | Some (UPool r) =>
          let* _ := release (ResourcePool.resource r) request in
          let '(r', tr) := ResourcePool.complete r agent now in
          let* _ := set_unit u (UPool r') in
          let* _ := perform u tr in
          ret Return
      | _ => ret Raise
      end
  | Last_tick => ret Return
  | Unit_request u agent step start_time resource_name resource request processing_time =>
      let* now := gets now in
      let* _ := perform u [Logged Processing_wafer (id agent) now] in
      let* t := timeout processing_time in
      match t with
      | Some e =>
          ret (Yield (Unit_processing u agent step start_time resource_name resource request) e)
      | None =>
          let* _ := release resource request in
          ret Raise
      end
  | Unit_processing u agent step start_time resource_name resource request =>
      let* x := get_unit u in
      let* now := gets now in
      match x with
      | Some (UTool t0) =>
          let '(t1, tr) := ToolUnit.complete t0 agent step start_time resource_name now in
          let* _ := set_unit u (UTool t1) in
          let* _ := perform u tr in
          let* _ := release resource request in
          ret Return
      | _ => ret Raise
      end
  | Flow_request u agent step rest start_time resource request processing_time =>
      let* now := gets now in
      let* _ := perform u [Logged Processing_wafer (id agent) now] in
      let* t := timeout processing_time in
      match t with
      | Some e =>
          ret (Yield (Flow_processing u agent step rest start_time resource request) e)
      | None =>
          let* _ := release resource request in
          ret Raise
      end
  | Flow_processing u agent step rest start_time resource request =>
      let* now := gets now in
      let agent' := ToolUnit.log_processing_step agent (unit_id step) (seq_id step)
                                                 start_time now (unit_id step) in
      let* _ := release resource request in
      flow_loop u agent' rest
  end.

Definition run (n : nat) (w : sim) : sim := run_steps flow_process n w.

End FlowSim.

(** ** semiconductor_tool_simulator.py: [SemiconductorToolSimulator] *)
Module SemiconductorToolSimulator.
Import Simpy FlowUnits FlowSim.

(** The merged [capability_map] of [_create_flow_units]. *)
Definition capability_map (unit_capability : capability) : list (string * list string) :=
  foldl (λ m cap, foldl (λ m '(unit, resources), dict_set unit resources m) m cap)
        [] unit_capability.

(** [SemiconductorToolUnit.__init__], lines 52-53: a [simpy.Resource] of
    capacity 1 of the unit's own for every resource name it is given. *)
Fixpoint create_resources (names : list string) (d : list (string * nat))
  : F (list (string * nat)) :=
  match names with
  | [] => ret d
  | n :: names' => let* r := new_resource 1 in create_resources names' (dict_set n r d)
  end.

Definition ToolUnit_init (name : string) (resources : list string)
    (unit_flow : list flow_step) (is_transfer : bool) : F ToolUnit.t :=
  let* rs := create_resources resources [] in
  ret (ToolUnit.Build (Build_FlowUnit None 0 0) name rs (ToolUnit.steps_of name unit_flow)
                      resources 0 is_transfer).

(** [FlowModel.add_unit]. *)
Definition add_unit (x : flow_unit) : F nat :=
  λ w, (length (units (user w)),
        set_user (λ s, World (units s ++ [x]) (trace s) (py_random s) (py_drawn s)
                             (np_random s) (np_drawn s)) w).

Fixpoint create_tool_units (cm : list (string * list string)) (unit_flow : list flow_step)
    (d : list (string * nat)) : F (list (string * nat)) :=
  match cm with
  | [] => ret d
  | (name, resources) :: cm' =>
      if decide (name = "LOADPORT"%string) then create_tool_units cm' unit_flow d
      else
        let is_transfer :=
          existsb transfer (filter (λ st, unit_id st = name) unit_flow) in
        let* t := ToolUnit_init name resources unit_flow is_transfer in
        let* i := add_unit (UTool t) in
        create_tool_units cm' unit_flow (dict_set name i d)
  end.

(** The simulator's handles on its units: the source, [self.units], the
    sink. *)
Record handles : Type := Handles {
  wafer_source : nat;
  tool_units : list (string * nat);
  wafer_sink : nat }.

(** [_create_flow_units]. *)
Definition create_flow_units (unit_capability : capability) (unit_flow : list flow_step)
  : F handles :=
  let* src := add_unit (UWaferSource
                (WaferSource.Build (Build_FlowUnit None 0 0) 0 25 3600 (Some 5) 0)) in
  let* us := create_tool_units (capability_map unit_capability) unit_flow [] in
  let* snk := add_unit (USink (Sink.Build (Build_FlowUnit None 0 0) [])) in
  ret (Handles src us snk).

Definition with_output (o : option nat) (x : flow_unit) : flow_unit :=
  let re b := Build_FlowUnit o (agents_entered b) (agents_exited b) in
  match x with
  | USource s => USource (Source.Build (re (Source.base s)) (Source.max_arrivals s)
                                       (Source.generated_count s))
  | UPool r => UPool (ResourcePool.Build (re (ResourcePool.base r)) (ResourcePool.resource r)
                                         (ResourcePool.service_time r))
  | USink s => USink (Sink.Build (re (Sink.base s)) (Sink.completed_agents s))
  | UTool t => UTool (ToolUnit.set_base (re (ToolUnit.base t)) t)
  | UWaferSource s =>
      UWaferSource (WaferSource.Build (re (WaferSource.base s)) (WaferSource.generated_count s)
                                      (WaferSource.lot_size s) (WaferSource.lot_interval s)
                                      (WaferSource.max_lots s) (WaferSource.lot_count s))
  | UController c => UController (FlowController.set_base (re (FlowController.base c)) c)
  end.

(** [a.connect_to(b)]. *)
Definition connect_to (a b : nat) : F unit :=
  modify (set_user (λ s, World (alter (with_output (Some b)) a (units s)) (trace s)
                               (py_random s) (py_drawn s) (np_random s) (np_drawn s))).

(** The loop of [_connect_flow_units], lines 277-289; [prev_unit] is
    [None] or a unit id. *)
Fixpoint connect_chain (h : handles) (steps : list flow_step) (prev_unit : option string)
  : F (option string) :=
  match steps with
  | [] => ret prev_unit
  | step :: steps' =>
      let current_unit := unit_id step in
      if decide (current_unit = "LOADPORT"%string) then connect_chain h steps' prev_unit
      else
        match dict_get current_unit (tool_units h) with
        | Some cur =>
            let* _ := match prev_unit with
                      | Some prev =>
                          match dict_get prev (tool_units h) with
                          | Some p =>
                              if bool_decide (prev ≠ ""%string ∧ prev ≠ current_unit)
                              then connect_to p cur else ret tt
                          | None => ret tt
                          end
                      | None => ret tt
                      end in
            connect_chain h steps' (Some current_unit)
        | None => connect_chain h steps' prev_unit
        end
  end.

(** [_connect_flow_units]. *)
Definition connect_flow_units (h : handles) (unit_flow : list flow_step) : F unit :=
  let sorted_flow := sorted_by_seq unit_flow in
  let first_unit :=
    head (filter (λ u, u ≠ "LOADPORT"%string) (map unit_id sorted_flow)) in
  let* _ := match first_unit with
            | Some f =>
                match dict_get f (tool_units h) with
                | Some i => if bool_decide (f ≠ ""%string) then connect_to (wafer_source h) i
                            else ret tt
                | None => ret tt
                end
            | None => ret tt
            end in
  let* prev_unit := connect_chain h sorted_flow None in
  match prev_unit with
  | Some prev =>
      match dict_get prev (tool_units h) with
      | Some p => if bool_decide (prev ≠ ""%string) then connect_to p (wafer_sink h) else ret tt
      | None => ret tt
      end
  | None => ret tt
  end.

(** [__init__] and the start of [run_simulation]: the generation process
    of the source is created; [uniform] and [normal] are the values the
    two random generators will hand out. *)
Definition init (unit_capability : capability) (unit_flow : list flow_step)
    (uniform normal : nat → Z) : handles * sim :=
  (let* h := create_flow_units unit_capability unit_flow in
   let* _ := connect_flow_units h unit_flow in
   let* _ := process (Lots (wafer_source h)) in
   ret h) (init_env (World [] [] uniform 0 normal 0)).

(** All the [simpy.Resource] objects that tool units hold under the
    name [part], and how many wafers hold them at once. *)
Definition resources_named (part : string) (w : sim) : list nat :=
  concat (map (λ x, match x with
                    | UTool t => match dict_get part (ToolUnit.resources t) with
                                 | Some r => [r]
                                 | None => []
                                 end
                    | _ => []
                    end) (units (user w))).

End SemiconductorToolSimulator.

(** ** Observations and the properties under study *)
Module Spec.
Import Simpy.

Definition users_of {P U} (r : nat) (w : env P U) : list nat :=
  match resources w !! r with Some res => users res | None => [] end.

Definition put_queue_of {P U} (r : nat) (w : env P U) : list nat :=
  match resources w !! r with Some res => put_queue res | None => [] end.

Definition capacity_of {P U} (r : nat) (w : env P U) : Z :=
  match resources w !! r with Some res => capacity res | None => 0 end.

(** The generator of process [p] has not finished. *)
Definition live {P U} (w : env P U) (p : nat) : bool :=
  match procs w !! p with
  | Some pe => match generator pe with Some _ => true | None => false end
  | None => false
  end.

(** Two environments that differ at most in the request queues of their
    resources (what cancelling requests changes). *)
Definition same_but_queues {P U} (w w' : env P U) : Prop :=
  now w' = now w ∧ events w' = events w ∧ queue w' = queue w ∧ eid w' = eid w ∧
  procs w' = procs w ∧ active_process w' = active_process w ∧ user w' = user w ∧
  stopped w' = stopped w ∧ crashed w' = crashed w ∧
  Forall2 (λ r r', capacity r' = capacity r ∧ users r' = users r)
          (resources w) (resources w').

(** The capacity invariant of a resource. *)
Definition within_capacity (res : resource) : Prop :=
  users res = [] ∨ Z.of_nat (length (users res)) ≤ capacity res.

(** Every resource of the environment is within its capacity. *)
Definition capacity_kept {P U} (w : env P U) : Prop :=
  Forall within_capacity (resources w).

(** A computation that maintains the property [I] of the environment. *)
Definition keeps {P U A} (I : env P U → Prop) (m : M P U A) : Prop :=
  ∀ w, I w → I (snd (m w)).

(** How many wafers are being served by the physical part [part], over
    all the [simpy.Resource] objects that stand for it. *)
Definition part_holders (part : string) (w : FlowSim.sim) : nat :=
  length (concat (map (λ r, users_of r w)
                      (SemiconductorToolSimulator.resources_named part w))).


(** The delay of the timeout that a generator is suspended on. *)
Definition yielded_delay {P U} (r : outcome P * env P U) : option Z :=
  match fst r with
  | Yield _ e =>
      match events (snd r) !! e with
      | Some ev => match kind ev with KTimeout d => Some d | _ => None end
      | None => None
      end
  | _ => None
  end.

(** The generator of a process never finishes: the process is still
    there after any number of scheduler turns. *)
Definition repeats_indefinitely {P U} (run : nat → env P U) (p : nat) : Prop :=
  ∀ n, live (run n) p = true.

(** Resource [r] never has a free slot in the first [n] turns after the
    wafer asked for it. *)
Definition saturated_from {P U} (run : nat → env P U) (r : nat) (first last : nat) : Prop :=
  ∀ n, (first ≤ n ≤ last)%nat →
    Z.of_nat (length (users_of r (run n))) = capacity_of r (run n).

End Spec.

(** ** The steps of [wafer_process] that the properties are about *)
Module WaferSteps.
Import Simpy ToolSimulator Spec.

(** The generator waits at line 96 for the parts of [step] while holding
    [h]; it is resumed with [result] in environment [w]. *)
Definition resumed_at_next (l : locals) (idx : nat) (step : flow_step)
    (unit_available : list part) (requests : list nat) (timeout_event : nat)
    (result : list nat) (w : sim) : outcome wafer_gen * sim :=
  wafer_process (At_next l idx step unit_available requests timeout_event) result w.

(** A hand-over as lines 120-148 do it: a record is appended that names
    the part that is held, from the time it was taken to now, under the
    unit and the [seq_id] of [prev] (the caller passes
    [sorted_flow[idx-1]], the step before the one that was granted,
    whether or not the held part was taken for it); the held part is
    released, the granted request becomes the current one and the timed
    processing of [step] starts. *)
Definition hands_over (l : locals) (h : held) (idx : nat) (step prev : flow_step)
    (unit_available : list part) (requests : list nat) (acquired : nat)
    (w : sim) (r : outcome wafer_gen * sim) : Prop :=
  ∃ l' e p,
    fst r = Yield (At_process l' idx) e ∧
    wafer_log (user (snd r)) =
      wafer_log (user w) ++
        [LogEntry (wafer_id l) (unit_id prev) (seq_id prev) (current_part_name h)
                  (resource_start_time h) (now w)] ∧
    users_of (current_resource h) (snd r) =
      list_remove_first (current_request h) (users_of (current_resource h) w) ∧
    (∀ q, grants_released (snd r) q =
            (grants_released w q +
             if bool_decide (active_process w = Some q) then 1 else 0)%nat) ∧
    (acquired, p) ∈ zip requests unit_available ∧
    current l' = Some (Held (part_resource p) acquired (part_name p) (now w)) ∧
    wafer_id l' = wafer_id l ∧ sorted_flow l' = sorted_flow l ∧
    yielded_delay r = Some (duration_min step) ∧
    now (snd r) = now w.

(** The end of the flow as lines 150-171 do it: a record is appended
    that names the held part, from the time it was taken to now, under
    the unit and the [seq_id] of [last] (the caller passes
    [sorted_flow[-1]]); the held part is released and the current time
    becomes the wafer's end time. *)
Definition finishes (l : locals) (h : held) (last : flow_step)
    (w : sim) (r : outcome wafer_gen * sim) : Prop :=
  fst r = Return ∧
  wafer_log (user (snd r)) =
    wafer_log (user w) ++
      [LogEntry (wafer_id l) (unit_id last) (seq_id last) (current_part_name h)
                (resource_start_time h) (now w)] ∧
  users_of (current_resource h) (snd r) =
    list_remove_first (current_request h) (users_of (current_resource h) w) ∧
  end_time_tracker (user (snd r)) !! wafer_id l = Some (now w) ∧
  now (snd r) = now w.

(** The tool lists no part for the unit of [step]: the loop prints the
    error of line 50 and goes on to the next step (lines 49-51). *)
Definition no_tools (w : sim) (step : flow_step) : Prop :=
  default [] (unit_to_parts (tool (user w)) !! unit_id step) = [].

(** The part that a log record names is one of the parts that the tool
    lists for the unit that the record names. *)
Definition filed_under_its_unit (w : sim) (r : log_entry) : bool :=
  bool_decide (PartID r ∈ part_name <$> default [] (unit_to_parts (tool (user w)) !! UnitID r)).

(** The fallback after a bounded wait that timed out: the pending
    requests are withdrawn, the diagnostic is printed, nothing is logged
    or released, the locals (and with them the current grant) are kept,
    and the generator waits for the [duration_min] of the step it could
    not enter. *)
Definition falls_back (l : locals) (idx : nat) (step : flow_step)
    (requests : list nat) (w : sim) (r : outcome wafer_gen * sim) : Prop :=
  ∃ e,
    fst r = Yield (At_fallback l idx) e ∧
    stdout (user (snd r)) = stdout (user w) ++ [Timeout_next (wafer_id l) (unit_id step)] ∧
    wafer_log (user (snd r)) = wafer_log (user w) ∧
    (∀ res, users_of res (snd r) = users_of res w) ∧
    (∀ q, grants_released (snd r) q = grants_released w q) ∧
    (∀ q, grants_acquired (snd r) q = grants_acquired w q) ∧
    (∀ req res, req ∈ requests → is_triggered req w = false →
                req ∉ put_queue_of res (snd r)) ∧
    yielded_delay r = Some (duration_min step) ∧
    now (snd r) = now w.

(** Request queues hold every request once. *)
Definition queues_nodup (w : sim) : Prop :=
  Forall (λ res, NoDup (put_queue res)) (resources w).

(** Every request in a queue is a request for that resource. *)
Definition queues_own (w : sim) : Prop :=
  Forall (λ ir, Forall (λ e, resource_of e w = Some (fst ir)) (put_queue (snd ir)))
         (imap pair (resources w)).

End WaferSteps.

(** ** The steps of the flow units that the properties are about *)
Module FlowSteps.
Import Simpy FlowUnits FlowSim Spec.

(** A unit without a step for the agent's sequence position passes the
    agent on: the generator returns, nothing crashes, the unit has counted
    the agent in and out and logged the warning, and a process that
    delivers the agent, its sequence position advanced by one, to the
    downstream unit [d] is created and scheduled for the current instant. *)
Definition passes_on (u d : nat) (t : ToolUnit.t) (agent : Agent) (w : sim)
    (r : outcome gen * sim) : Prop :=
  let agent' := ToolUnit.advance agent in
  let p := length (procs w) in
  fst r = Return ∧
  crashed (snd r) = crashed w ∧
  current_seq_id agent' = current_seq_id agent + 1 ∧
  id agent' = id agent ∧
  trace (user (snd r)) =
    trace (user w) ++
      [(u, Entered (id agent)); (u, Logged No_step_found (id agent) (now w));
       (u, Exited (id agent)); (u, Sent d agent')] ∧
  units (user (snd r)) =
    <[u := UTool (ToolUnit.set_base (exit (enter (ToolUnit.base t))) t)]> (units (user w)) ∧
  ∃ pe ie,
    procs (snd r) = procs w ++ [ProcEntry (Some (Receive d agent')) pe] ∧
    events (snd r) !! ie =
      Some (Event (KInitialize p) true (Some [Resume p]) (active_process w) []) ∧
    queue (snd r) = heappush (now w, URGENT, eid w, ie) (queue w).

(** All the counters a [Queue] has. *)
Definition queue_counters (q : Queue.t) : nat * nat :=
  (agents_entered (Queue.base q), agents_exited (Queue.base q)).


(** A wafer source with another [max_lots]. *)
Definition with_max_lots (m : option Z) (s : WaferSource.t) : WaferSource.t :=
  WaferSource.Build (WaferSource.base s) (WaferSource.generated_count s)
                    (WaferSource.lot_size s) (WaferSource.lot_interval s) m
                    (WaferSource.lot_count s).


(** The environment that holds unit [x] at [u]. *)
Definition put_unit (u : nat) (x : flow_unit) (w : sim) : sim := snd (set_unit u x w).


(** The processing time a generator carries while it waits for its
    resource. *)
Definition carried_time (r : outcome gen * sim) : option Z :=
  match fst r with
  | Yield (Unit_request _ _ _ _ _ _ _ t) _ => Some t
  | Yield (Flow_request _ _ _ _ _ _ _ t) _ => Some t
  | _ => None
  end.

End FlowSteps.

(** ** The scenarios that are run below *)
Module Scenarios.
Import Simpy ToolSimulator.

(** A transfer robot followed by a unit of three chambers. *)
Definition chambers : capability :=
  [[("ATR"%string, ["ATR.01"%string])];
   [("CH"%string, ["CHA"%string; "CHB"%string; "CHC"%string])]].
Definition chambers_flow : list flow_step :=
  [FlowStep 1 "ATR" 5 0 5 false; FlowStep 2 "CH" 20 0 20 false].
Definition chambers_run (n : nat) : sim :=
  run n (launch chambers chambers_flow ["LOT-W1"%string]).

(** Two consecutive units served by the same physical part: the second
    step can never be granted while the wafer holds the first. *)
Definition shared_part : capability :=
  [[("U1"%string, ["P"%string])]; [("U2"%string, ["P"%string])]].
Definition shared_flow : list flow_step :=
  [FlowStep 1 "U1" 10 0 5 false; FlowStep 2 "U2" 10 0 7 false].
Definition shared_run (n : nat) : sim :=
  run n (launch shared_part shared_flow ["LOT-W1"%string]).

(** That wafer while it holds "P" for the first step and waits for "P"
    again for the second (after 6 turns of the scheduler). *)
Definition shared_held : held := Held 0 2 "P" 0.
Definition shared_locals : locals := Locals "LOT-W1" shared_flow (Some shared_held).

(** Three single-part units in a row and two wafers. *)
Definition line : capability :=
  [[("U1"%string, ["P1"%string])]; [("U2"%string, ["P2"%string])];
   [("U3"%string, ["P3"%string])]].
Definition line_flow : list flow_step :=
  [FlowStep 1 "U1" 10 0 5 false; FlowStep 2 "U2" 10 0 7 false;
   FlowStep 3 "U3" 10 0 3 false].
Definition line_run (n : nat) : sim :=
  run n (launch line line_flow ["LOT-W1"%string; "LOT-W2"%string]).


(** A flow whose second step names a unit, "UX", for which the tool
    lists no part. *)
Definition skipped : capability :=
  [[("U1"%string, ["P1"%string])]; [("U3"%string, ["P3"%string])]].
Definition skipped_flow : list flow_step :=
  [FlowStep 1 "U1" 10 0 5 false; FlowStep 2 "UX" 10 0 5 false;
   FlowStep 3 "U3" 10 0 5 false].
Definition skipped_run (n : nat) : sim :=
  run n (launch skipped skipped_flow ["LOT-W1"%string]).

(** The wafer of that run while it holds "P1", taken at time 0 for
    "U1", and waits for "P3" (after 5 turns of the scheduler). *)
Definition skipped_held : held := Held 0 2 "P1" 0.
Definition skipped_locals : locals := Locals "LOT-W1" skipped_flow (Some skipped_held).

(** The same tool with a flow that ends at the unit without parts. *)
Definition skipped_end_flow : list flow_step :=
  [FlowStep 1 "U1" 10 0 5 false; FlowStep 2 "UX" 10 0 5 false].
Definition skipped_end_run (n : nat) : sim :=
  run n (launch skipped skipped_end_flow ["LOT-W1"%string]).
Definition skipped_end_locals : locals :=
  Locals "LOT-W1" skipped_end_flow (Some skipped_held).

(** Station "A": a [ResourcePool] of capacity 2 and service time 5, fed
    by a [Source] whose three inter-arrival times are 0, 1 and 1 (arrivals
    at 0, 1 and 2) and followed by a [Sink]. *)
Definition station_A : FlowSim.sim :=
  snd ((let* r := new_resource 2 in
        let* _ := modify (set_user (λ s,
                    FlowSim.World
                      [FlowSim.USource (FlowUnits.Source.Build
                                          (FlowUnits.Build_FlowUnit (Some 1%nat) 0 0) (Some 3) 0);
                       FlowSim.UPool (FlowUnits.ResourcePool.Build
                                        (FlowUnits.Build_FlowUnit (Some 2%nat) 0 0) r 5);
                       FlowSim.USink (FlowUnits.Sink.Build
                                        (FlowUnits.Build_FlowUnit None 0 0) [])]
                      [] (FlowSim.py_random s) 0 (FlowSim.np_random s) 0)) in
        process (FlowSim.Generation 0))
       (init_env (FlowSim.World [] [] (λ n, match n with O => 0 | _ => 1 end) 0
                                (λ _, 0) 0))).

(** What the pool logged about seizing and completing, in order. *)
Definition service_log (w : FlowSim.sim)
  : list (FlowUnits.log_line * FlowUnits.agent_id * Z) :=
  omap (λ x, match x with
             | (1%nat, FlowUnits.Logged FlowUnits.Pool_seized a t) =>
                 Some (FlowUnits.Pool_seized, a, t)
             | (1%nat, FlowUnits.Logged FlowUnits.Pool_completed a t) =>
                 Some (FlowUnits.Pool_completed, a, t)
             | _ => None
             end) (FlowSim.trace (user w)).

(** Two units that both list the physical part "P", in the
    [SemiconductorToolSimulator]; wafers follow each other by 20 time
    units and every step takes 50. *)
Definition twice_listed : capability :=
  [[("U1"%string, ["P"%string])]; [("U2"%string, ["P"%string])]].
Definition twice_listed_flow : list flow_step :=
  [FlowStep 1 "U1" 50 0 50 false; FlowStep 2 "U2" 50 0 50 false].
Definition twice_listed_run (t : Z) : FlowSim.sim :=
  run_until FlowSim.flow_process t 200
    (snd (SemiconductorToolSimulator.init twice_listed twice_listed_flow
            (λ _, 20) (λ _, 50))).

(** A queue for one agent that holds one, and the same queue with room
    for two; a second agent arrives at time 5. *)
Definition first_agent : FlowUnits.Agent := FlowUnits.new_agent (FlowUnits.Agent_ 0) 0.
Definition second_agent : FlowUnits.Agent := FlowUnits.new_agent (FlowUnits.Agent_ 1) 5.
Definition full_queue : FlowUnits.Queue.t :=
  FlowUnits.Queue.Build (FlowUnits.Build_FlowUnit None 1 0) (Some 1) None [(first_agent, 0)].
Definition roomy_queue : FlowUnits.Queue.t :=
  FlowUnits.Queue.Build (FlowUnits.Build_FlowUnit None 1 0) (Some 2) None [(first_agent, 0)].

(** An empty queue for one agent and no downstream unit, and the two
    arrivals it then sees: the first is kept, the second turned away. *)
Definition empty_queue : FlowUnits.Queue.t :=
  FlowUnits.Queue.Build (FlowUnits.Build_FlowUnit None 0 0) (Some 1) None [].
Definition first_arrival : FlowUnits.Queue.t * list FlowUnits.trace_event :=
  FlowUnits.Queue.receive_agent empty_queue first_agent 0.
Definition second_arrival : FlowUnits.Queue.t * list FlowUnits.trace_event :=
  FlowUnits.Queue.receive_agent (fst first_arrival) second_agent 5.

(** A new source and its first arrival, at time 3. *)
Definition fresh_source : FlowUnits.Source.t :=
  FlowUnits.Source.Build (FlowUnits.Build_FlowUnit (Some 1%nat) 0 0) None 0.
Definition first_generation : FlowUnits.Source.t * list FlowUnits.trace_event :=
  FlowUnits.Source.generate fresh_source 3.

(** A delay with room for no agent, and an arrival at time 4. *)
Definition closed_delay : FlowUnits.Delay.t :=
  FlowUnits.Delay.Build (FlowUnits.Build_FlowUnit None 0 0) (Some 0) [].
Definition closed_delay_arrival
  : FlowUnits.Delay.t * list FlowUnits.trace_event * option FlowUnits.Agent :=
  FlowUnits.Delay.receive_agent closed_delay first_agent 4.

(** A service that accepts no queueing at all. *)
Definition closed_service : FlowUnits.Service.t :=
  FlowUnits.Service.Build (FlowUnits.Build_FlowUnit None 0 0) 0 5 0 (Some 0) None [] [] 0 0 0 ∅ ∅.



End Scenarios.

(** ** A flow node between two scheduler turns

    A node together with the frames of its suspended [receive_agent]
    generators (the agents those frames still hold).  One step is one
    segment of one of the node's generators; which frame runs next is
    left open, so every interleaving the scheduler can produce is
    covered. *)
Module Nodes.
Import FlowUnits.

(** A [_timeout_process] of a [Combine]: created, or waiting with the
    [initial_count] it read when it started. *)
Inductive timer : Type :=
| Created
| Waiting (initial_count : nat).

Inductive node : Type :=
| NSource (s : Source.t)
| NQueue (q : Queue.t)
| NDelay (d : Delay.t) (frames : list Agent)
| NPool (r : ResourcePool.t) (frames : list Agent)
| NService (s : Service.t) (frames : list Agent)
| NSelect (s : SelectOutput.t)
| NCombine (c : Combine.t) (timers : list timer)
| NSink (s : Sink.t)
| NTool (u : ToolUnit.t) (frames : list Agent)
| NWaferSource (s : WaferSource.t)
| NController (c : FlowController.t) (frames : list Agent).

Definition base_of (n : node) : FlowUnit :=
  match n with
  | NSource s => Source.base s
  | NQueue q => Queue.base q
  | NDelay d _ => Delay.base d
  | NPool r _ => ResourcePool.base r
  | NService s _ => Service.base s
  | NSelect s => SelectOutput.base s
  | NCombine c _ => Combine.base c
  | NSink s => Sink.base s
  | NTool u _ => ToolUnit.base u
  | NWaferSource s => WaferSource.base s
  | NController c _ => FlowController.base c
  end.

Definition entered (n : node) : nat := agents_entered (base_of n).
Definition exited (n : node) : nat := agents_exited (base_of n).

(** The agents currently inside the node: queued, being served or
    delayed, waiting for a batch, or retained by the sink. *)
Definition held (n : node) : nat :=
  match n with
  | NSource _ => 0
  | NQueue q => length (Queue.queue q)
  | NDelay d _ => length (Delay.processing_agents d)
  | NPool _ frames => length frames
  | NService s frames => length (Service.queue s) + length frames
  | NSelect _ => 0
  | NCombine c _ => length (Combine.waiting_agents c)
  | NSink s => length (Sink.completed_agents s)
  | NTool _ frames => length frames
  | NWaferSource _ => 0
  | NController _ frames => length frames
  end.

Definition is_rejection (ev : trace_event) : bool :=
  match ev with
  | Logged Queue_at_capacity _ _ => true
  | Logged Delay_at_capacity _ _ => true
  | _ => false
  end.

Fixpoint rejections (tr : list trace_event) : nat :=
  match tr with
  | [] => 0
  | ev :: tr' => (if is_rejection ev then 1 else 0) + rejections tr'
  end.

(** The arrivals the node has turned away: [rejected_agents] where the
    node keeps that counter ([Service]), otherwise the rejections it
    logged. *)
Definition rejected (n : node) (tr : list trace_event) : nat :=
  match n with
  | NService s _ => Service.rejected_agents s
  | _ => rejections tr
  end.

(** Conservation, in the words of the specification. *)
Definition conserved (n : node) (tr : list trace_event) : Prop :=
  entered n = (exited n + held n + rejected n tr)%nat.

(** What holds of the counters instead, node by node: a source only
    counts what leaves it, and a [Delay] does not count the arrivals it
    turns away. *)
Definition balance (n : node) (tr : list trace_event) : Prop :=
  match n with
  | NSource s => entered n = 0%nat ∧ exited n = Source.generated_count s
  | NWaferSource s => entered n = 0%nat ∧ exited n = WaferSource.generated_count s
  | NDelay _ _ => entered n = (exited n + held n)%nat
  | _ => conserved n tr
  end.

(** What [Agent.__eq__] compares. *)
Definition agent_key (a : Agent) : agent_id * Z := (id a, creation_time a).

(** The agents of the suspended frames of a [Delay] are those of its
    [processing_agents], up to [==]. *)
Definition frames_match (n : node) : Prop :=
  match n with
  | NDelay d frames => agent_key <$> frames ≡ₚ agent_key <$> Delay.processing_agents d
  | _ => True
  end.

(** A node as its constructor leaves it. *)
Definition fresh (n : node) : Prop :=
  entered n = 0%nat ∧ exited n = 0%nat ∧
  match n with
  | NSource s => Source.generated_count s = 0%nat
  | NQueue q => Queue.queue q = []
  | NDelay d frames => Delay.processing_agents d = [] ∧ frames = []
  | NPool _ frames => frames = []
  | NService s frames =>
      Service.queue s = [] ∧ Service.processing_agents s = [] ∧
      Service.rejected_agents s = 0%nat ∧ frames = []
  | NSelect _ => True
  | NCombine c timers => Combine.waiting_agents c = [] ∧ timers = []
  | NSink s => Sink.completed_agents s = []
  | NTool _ frames => frames = []
  | NWaferSource s => WaferSource.generated_count s = 0%nat
  | NController _ frames => frames = []
  end.

Definition option_list {A} (o : option A) : list A :=
  match o with Some a => [a] | None => [] end.

(** One segment of one generator of the node. *)
Inductive node_step : node → list trace_event → node → Prop :=
| Source_generates s now s' tr :
    Source.generate s now = (s', tr) →
    node_step (NSource s) tr (NSource s')
| Queue_receives q agent now q' tr :
    Queue.receive_agent q agent now = (q', tr) →
    node_step (NQueue q) tr (NQueue q')
| Delay_receives d frames agent now d' tr frame :
    Delay.receive_agent d agent now = (d', tr, frame) →
    node_step (NDelay d frames) tr (NDelay d' (frames ++ option_list frame))
| Delay_completes d frames i agent now d' tr :
    frames !! i = Some agent →
    Delay.complete d agent now = (d', tr) →
    node_step (NDelay d frames) tr (NDelay d' (delete i frames))
| Pool_receives r frames agent now r' tr agent' :
    ResourcePool.receive_agent r agent now = (r', tr, agent') →
    node_step (NPool r frames) tr (NPool r' (frames ++ [agent']))
| Pool_seizes r frames i agent now :
    frames !! i = Some agent →
    node_step (NPool r frames) (ResourcePool.seized agent now) (NPool r frames)
| Pool_completes r frames i agent now r' tr :
    frames !! i = Some agent →
    ResourcePool.complete r agent now = (r', tr) →
    node_step (NPool r frames) tr (NPool r' (delete i frames))
| Service_receives s frames agent now s' tr next :
    Service.receive_agent s agent now = (s', tr, next) →
    node_step (NService s frames) tr (NService s' (frames ++ option_list next))
| Service_starts s frames i agent now s' tr :
    frames !! i = Some agent →
    Service.start_service s agent now = (s', tr) →
    node_step (NService s frames) tr (NService s' frames)
| Service_completes s frames i agent now s' tr next :
    frames !! i = Some agent →
    Service.complete s agent now = (s', tr, next) →
    node_step (NService s frames) tr (NService s' (delete i frames ++ option_list next))
| Select_receives s agent condition now s' tr :
    SelectOutput.receive_agent s agent condition now = (s', tr) →
    node_step (NSelect s) tr (NSelect s')
| Combine_receives c timers agent now c' tr started :
    Combine.receive_agent c agent now = (c', tr, started) →
    node_step (NCombine c timers) tr
              (NCombine c' (timers ++ if started then [Created] else []))
| Combine_timer_starts c timers i :
    timers !! i = Some Created →
    node_step (NCombine c timers) []
              (NCombine c (<[i := Waiting (Combine.initial_count c)]> timers))
| Combine_times_out c timers i initial_count now c' tr :
    timers !! i = Some (Waiting initial_count) →
    Combine.timeout_process c initial_count now = (c', tr) →
    node_step (NCombine c timers) tr (NCombine c' (delete i timers))
| Sink_receives s agent now s' tr :
    Sink.receive_agent s agent now = (s', tr) →
    node_step (NSink s) tr (NSink s')
| Tool_skips u frames agent now u1 tr1 u2 tr2 :
    ToolUnit.receive_agent u agent = (u1, tr1) →
    ToolUnit.find_step u1 (current_seq_id agent) = None →
    ToolUnit.skip_unit u1 agent now = (u2, tr2) →
    node_step (NTool u frames) (tr1 ++ tr2) (NTool u2 frames)
| Tool_passes u frames agent now step u1 tr1 u2 tr2 :
    ToolUnit.receive_agent u agent = (u1, tr1) →
    ToolUnit.find_step u1 (current_seq_id agent) = Some step →
    duration_mean step = 0 →
    ToolUnit.zero_duration u1 agent step now = (u2, tr2) →
    node_step (NTool u frames) (tr1 ++ tr2) (NTool u2 frames)
| Tool_receives u frames agent step u1 tr1 resource_name u2 :
    ToolUnit.receive_agent u agent = (u1, tr1) →
    ToolUnit.find_step u1 (current_seq_id agent) = Some step →
    duration_mean step ≠ 0 →
    ToolUnit.get_next_resource u1 = Some (resource_name, u2) →
    node_step (NTool u frames) tr1 (NTool u2 (frames ++ [agent]))
| Tool_completes u frames i agent step start_time resource_name now u' tr :
    frames !! i = Some agent →
    ToolUnit.complete u agent step start_time resource_name now = (u', tr) →
    node_step (NTool u frames) tr (NTool u' (delete i frames))
| WaferSource_generates s wafer_idx now s' tr :
    WaferSource.generate s wafer_idx now = (s', tr) →
    node_step (NWaferSource s) tr (NWaferSource s')
| WaferSource_next_lot s :
    node_step (NWaferSource s) [] (NWaferSource (WaferSource.next_lot s))
| Controller_passes c frames agent logged now c1 tr1 c2 tr2 :
    FlowController.receive_agent c agent = (c1, tr1) →
    id logged = id agent →
    FlowController.complete c1 logged now = (c2, tr2) →
    node_step (NController c frames) (tr1 ++ tr2) (NController c2 frames)
| Controller_receives c frames agent c' tr :
    FlowController.receive_agent c agent = (c', tr) →
    node_step (NController c frames) tr (NController c' (frames ++ [agent]))
| Controller_completes c frames i agent logged now c' tr :
    frames !! i = Some agent →
    id logged = id agent →
    FlowController.complete c logged now = (c', tr) →
    node_step (NController c frames) tr (NController c' (delete i frames)).

(** The states a node can reach from a fresh one, with all it did. *)
Inductive reachable : node → list trace_event → Prop :=
| reachable_fresh n : fresh n → reachable n []
| reachable_step n tr seg n' :
    reachable n tr → node_step n seg n' → reachable n' (tr ++ seg).

(** Every hand-off of an agent comes after an increment of
    [agents_entered] or [agents_exited] made for that agent. *)
Definition counted_before_sent (tr : list trace_event) : Prop :=
  ∀ pre target a post,
    tr = pre ++ Sent target a :: post →
    Entered (id a) ∈ pre ∨ Exited (id a) ∈ pre.

(** The same, read from left to right: [seen] holds the agents counted
    so far. *)
Fixpoint counted_from (seen : list agent_id) (tr : list trace_event) : Prop :=
  match tr with
  | [] => True
  | Entered i :: tr' => counted_from (i :: seen) tr'
  | Exited i :: tr' => counted_from (i :: seen) tr'
  | Sent _ a :: tr' => id a ∈ seen ∧ counted_from seen tr'
  | _ :: tr' => counted_from seen tr'
  end.

(** The nodes that count every arrival in [agents_entered]. *)
Definition counts_on_entry (n : node) : bool :=
  match n with
  | NSource _ | NWaferSource _ | NDelay _ _ => false
  | _ => true
  end.

End Nodes.

(** ** Grants and releases over a whole run *)
Module Accounts.
Import Simpy.

Section Kernel.
Context {P U : Type}.
Implicit Types w : env P U.

(** The request that a release of process [p] gives back. *)
Definition released_by (p : nat) (ev : event) : option nat :=
  match kind ev with
  | KRelease _ req => if bool_decide (proc ev = Some p) then Some req else None
  | _ => None
  end.

(** The requests that process [p] has given back so far, in order. *)
Definition released_reqs (p : nat) (es : list event) : list nat :=
  omap (released_by p) es.

(** [e] is a request of process [p] that has been granted. *)
Definition granted (p : nat) w (e : nat) : Prop :=
  ∃ ev, events w !! e = Some ev ∧ is_grant_of p ev = true.

(** [e] is a request that process [p] made. *)
Definition own_request (p : nat) w (e : nat) : Prop :=
  ∃ ev r, events w !! e = Some ev ∧ kind ev = KRequest r ∧ proc ev = Some p.

Definition cb_valid w (cb : callback) : Prop :=
  match cb with
  | Cond_check c => (c < length (events w))%nat
  | _ => True
  end.

(** What the kernel maintains: only triggered events are scheduled, an
    event is processed only after it was triggered, the value of a
    condition holds triggered events, and the events that queues,
    callbacks and processes refer to exist. *)
Record kernel_ok w : Prop := KernelOk {
  queue_triggered : Forall (λ x : entry, is_triggered x.2 w = true) (queue w);
  put_queue_valid :
    Forall (λ res, Forall (λ e, (e < length (events w))%nat) (put_queue res)) (resources w);
  callbacks_valid :
    Forall (λ ev, ∀ cbs, callbacks ev = Some cbs → Forall (cb_valid w) cbs) (events w);
  pevent_valid : Forall (λ pe, (pevent pe < length (events w))%nat) (procs w);
  processed_triggered :
    Forall (λ ev, callbacks ev = None → triggered ev = true) (events w);
  value_triggered :
    Forall (λ ev, Forall (λ x, is_triggered x w = true) (value ev)) (events w) }.

(** [w'] comes after [w]: the events of [w] are still there, each with
    its kind and its process, and triggered if it was. *)
Definition after w w' : Prop :=
  ∀ e ev, events w !! e = Some ev →
    ∃ ev', events w' !! e = Some ev' ∧ kind ev' = kind ev ∧ proc ev' = proc ev ∧
           (triggered ev = true → triggered ev' = true).

(** From [w] to [w'] by steps that are process [p]'s own: the other
    processes have released nothing, and no process was created. *)
Definition own_steps (p : option nat) w w' : Prop :=
  after w w' ∧
  (∀ q, Some q ≠ p → released_reqs q (events w') = released_reqs q (events w)) ∧
  active_process w' = active_process w ∧
  procs w' = procs w ∧
  crashed w' = crashed w ∧
  kernel_ok w'.

(** The releases of [p] so far gave back distinct requests, each one a
    granted request of [p]. *)
Definition base (p : nat) w : Prop :=
  NoDup (released_reqs p (events w)) ∧
  Forall (granted p w) (released_reqs p (events w)).

(** Process [p] waits for the requests [pending] and holds [cur]: the
    pending ones are its own and not given back, the one it holds is
    granted, not given back and not pending. *)
Definition held_ok (p : nat) (cur : option nat) (pending : list nat) w : Prop :=
  Forall (λ e, own_request p w e ∧ (e ∉ released_reqs p (events w))) pending ∧
  match cur with
  | Some req => granted p w req ∧ (req ∉ released_reqs p (events w)) ∧ (req ∉ pending)
  | None => True
  end.

(** A computation that only takes steps that release nothing. *)
Definition quietly {A} (m : M P U A) : Prop :=
  ∀ w, kernel_ok w → own_steps None w (m w).2.

(** Hoare triples for the state monad. *)
Definition hoare {A} (pre : env P U → Prop) (m : M P U A) (post : A → env P U → Prop)
  : Prop :=
  ∀ w, pre w → post (m w).1 (m w).2.

End Kernel.

Import ToolSimulator.

(** The request that a suspended wafer process holds, and the requests
    it waits for. *)
Definition cur_of (g : wafer_gen) : option nat :=
  match g with
  | At_start _ _ _ => None
  | At_first l _ _ _ _ _ | At_next l _ _ _ _ _ | At_fallback l _ | At_process l _ =>
      current_request <$> current l
  end.

Definition pending_of (g : wafer_gen) : list nat :=
  match g with
  | At_first _ _ _ _ requests _ | At_next _ _ _ _ requests _ => requests
  | _ => []
  end.

(** Every suspended wafer process but [p] holds and waits for what its
    generator says. *)
Definition holds_ok_but (p : option nat) (w : sim) : Prop :=
  ∀ q pe g, Some q ≠ p → procs w !! q = Some pe → generator pe = Some g →
    held_ok q (cur_of g) (pending_of g) w.

(** The invariant of a run between two scheduler steps. *)
Definition accounted (w : sim) : Prop :=
  kernel_ok w ∧ active_process w = None ∧ (∀ p, base p w) ∧
  (crashed w = false → holds_ok_but None w).

(** The same while process [p] is being resumed, [w] being where the
    resumption started. *)
Definition resumed (p : nat) (w w' : sim) : Prop :=
  kernel_ok w' ∧ after w w' ∧ active_process w' = Some p ∧ (∀ q, base q w') ∧
  (crashed w' = false → holds_ok_but None w').

(** Process [p] in the middle of a segment that started in [w0]. *)
Definition amid (w0 : sim) (p : nat) (cur : option nat) (pending : list nat) (w : sim)
  : Prop :=
  own_steps (Some p) w0 w ∧ active_process w = Some p ∧ (∀ q, base q w) ∧
  held_ok p cur pending w.

(** What holds when a segment of process [p] ends with outcome [o]. *)
Definition segment_done (w0 : sim) (p : nat) (o : outcome wafer_gen) (w : sim) : Prop :=
  match o with
  | Yield k _ => amid w0 p (cur_of k) (pending_of k) w
  | _ => amid w0 p None [] w
  end.

End Accounts.

(** ** More about the flow nodes *)
Module NodeProps.
Import FlowUnits Nodes.

(** The agents that a stretch of trace hands to another unit, in order. *)
Fixpoint sent (tr : list trace_event) : list Agent :=
  match tr with
  | [] => []
  | Sent _ a :: tr' => a :: sent tr'
  | _ :: tr' => sent tr'
  end.

(** A queue in order of priority: the lower number first. *)
Fixpoint by_priority (q : list (Agent * Z)) : Prop :=
  match q with
  | [] => True
  | x :: q' => Forall (λ y, x.2 ≤ y.2) q' ∧ by_priority q'
  end.

(** [len(l) <= capacity] for a capacity that is [float('inf')] or a
    number. *)
Definition within (n : nat) (capacity : option Z) : Prop :=
  match capacity with
  | None => True
  | Some c => Z.of_nat n ≤ c
  end.

(** A capacity that admits at least one agent. *)
Definition admits_one (capacity : option Z) : Prop :=
  match capacity with
  | None => True
  | Some c => 0 < c
  end.

(** A service with one server (resource 0) that nothing has entered yet. *)
Definition new_service (service setup : Z) (queue_capacity : option Z)
    (priority_func : option (Agent → Z)) (output : option nat) : Service.t :=
  Service.Build (Build_FlowUnit output 0 0) 0 service setup queue_capacity priority_func
                [] [] 0 0 0 ∅ ∅.

(** A service with room for two in its queue, a delay with room for
    one, a combiner of pairs and a sink, each after the arrival of the
    first agent at time 0. *)
Definition served_once : Service.t * list trace_event * option Agent :=
  Service.receive_agent (new_service 5 0 (Some 2) None None) Scenarios.first_agent 0.
Definition small_delay : Delay.t := Delay.Build (Build_FlowUnit None 0 0) (Some 1) [].
Definition delayed_once : Delay.t * list trace_event * option Agent :=
  Delay.receive_agent small_delay Scenarios.first_agent 0.
Definition pairing : Combine.t :=
  Combine.Build (Build_FlowUnit (Some 3%nat) 0 0) 2 None [] 0.
Definition paired_once : Combine.t * list trace_event * bool :=
  Combine.receive_agent pairing Scenarios.first_agent 0.
Definition new_sink : Sink.t := Sink.Build (Build_FlowUnit None 0 0) [].
Definition sunk_once : Sink.t * list trace_event :=
  Sink.receive_agent new_sink Scenarios.first_agent 0.

End NodeProps.

(** ** More about the tools *)
Module ToolProps.
Import Simpy FlowUnits.

(** The inner loop of [MetalTool.__init__], lines 20-24: the part lists
    of one dict of the capability. *)
Definition listing (shared : gmap string nat) (m : gmap string (list ToolSimulator.part))
    (unit_info : list (string * list string)) : gmap string (list ToolSimulator.part) :=
  foldl (λ m '(unit_id, part_names), <[unit_id := ToolSimulator.parts_of shared part_names]> m)
        m unit_info.

(** What the dicts of a capability say about unit [name], in order. *)
Definition listings (name : string) (unit_capability : capability) : list (list string) :=
  omap (λ '(unit_id, names), if decide (unit_id = name) then Some names else None)
       (concat unit_capability).

(** [self.resource_index = i]. *)
Definition set_resource_index (i : nat) (u : ToolUnit.t) : ToolUnit.t :=
  ToolUnit.Build (ToolUnit.base u) (ToolUnit.unit_name u) (ToolUnit.resources u)
                 (ToolUnit.unit_flow_steps u) (ToolUnit.resource_names u) i
                 (ToolUnit.is_transfer_unit u).

(** [k] calls of [get_next_resource] in a row: the names they return,
    in order, and the unit after the last call. *)
Fixpoint next_resources (k : nat) (u : ToolUnit.t) : option (list string * ToolUnit.t) :=
  match k with
  | O => Some ([], u)
  | S k' =>
      match ToolUnit.get_next_resource u with
      | Some (name, u') =>
          match next_resources k' u' with
          | Some (names, u'') => Some (name :: names, u'')
          | None => None
          end
      | None => None
      end
  end.

(** The wafer that a suspended [wafer_process] works on. *)
Definition wafer_of (g : ToolSimulator.wafer_gen) : string :=
  match g with
  | ToolSimulator.At_start wafer _ _ => wafer
  | ToolSimulator.At_first l _ _ _ _ _ => ToolSimulator.wafer_id l
  | ToolSimulator.At_next l _ _ _ _ _ => ToolSimulator.wafer_id l
  | ToolSimulator.At_fallback l _ => ToolSimulator.wafer_id l
  | ToolSimulator.At_process l _ => ToolSimulator.wafer_id l
  end.

(** A stretch of [wafer_process] ended well for [wafer]: it is suspended
    again, still working on [wafer], or it returned and the end time of
    [wafer] is the current time. *)
Definition ended_well (wafer : string)
    (r : outcome ToolSimulator.wafer_gen * ToolSimulator.sim) : Prop :=
  match r.1 with
  | Yield g _ => wafer_of g = wafer
  | Return =>
      ToolSimulator.end_time_tracker (user r.2) !! wafer = Some (now r.2)
  | Raise | Diverge => False
  end.

(** A unit with three chambers whose next turn is the second one's. *)
Definition three_chambers : ToolUnit.t :=
  ToolUnit.Build (Build_FlowUnit None 0 0) "CH" [] []
                 ["CHA"%string; "CHB"%string; "CHC"%string] 1 false.

(** [unit.output_port] of a unit of a model. *)
Definition output_of (x : FlowSim.flow_unit) : option nat :=
  match x with
  | FlowSim.USource s => output_port (Source.base s)
  | FlowSim.UPool r => output_port (ResourcePool.base r)
  | FlowSim.USink s => output_port (Sink.base s)
  | FlowSim.UTool t => output_port (ToolUnit.base t)
  | FlowSim.UWaferSource s => output_port (WaferSource.base s)
  | FlowSim.UController c => output_port (FlowController.base c)
  end.

(** The steps that the loop of [_connect_flow_units] acts on: those of
    a unit other than the load port that the simulator has created,
    given its handles or given the configuration. *)
Definition chained (h : SemiconductorToolSimulator.handles) (st : flow_step) : Prop :=
  unit_id st ≠ "LOADPORT"%string ∧
  is_Some (dict_get (unit_id st) (SemiconductorToolSimulator.tool_units h)).

#[global] Instance chained_dec h st : Decision (chained h st).
Proof. unfold chained. apply _. Defined.

Definition listed (unit_capability : capability) (st : flow_step) : Prop :=
  unit_id st ≠ "LOADPORT"%string ∧
  is_Some (dict_get (unit_id st)
             (SemiconductorToolSimulator.capability_map unit_capability)).

#[global] Instance listed_dec unit_capability st : Decision (listed unit_capability st).
Proof. unfold listed. apply _. Defined.

(** The tool unit at position [i] of the model. *)
Definition unit_at (w : FlowSim.sim) (i : nat) : option ToolUnit.t :=
  match FlowSim.units (user w) !! i with
  | Some (FlowSim.UTool t) => Some t
  | _ => None
  end.

(** What the loop of [_create_flow_units] maintains about [self.units]:
    every entry is a tool unit as [cm] lists it, fresh from its
    constructor, with a resource of capacity 1 under each of its
    resource names, *)
Definition units_built (cm : list (string * list string)) (flow : list flow_step)
    (d : list (string * nat)) (w : FlowSim.sim) : Prop :=
  ∀ name i, dict_get name d = Some i →
    name ≠ "LOADPORT"%string ∧
    ∃ t, unit_at w i = Some t ∧
         ToolUnit.unit_name t = name ∧
         (name, ToolUnit.resource_names t) ∈ cm ∧
         ToolUnit.resource_index t = 0%nat ∧
         ToolUnit.base t = Build_FlowUnit None 0 0 ∧
         ToolUnit.unit_flow_steps t = ToolUnit.steps_of name flow ∧
         (∀ r, r ∈ ToolUnit.resource_names t → is_Some (dict_get r (ToolUnit.resources t))) ∧
         ∀ r k, dict_get r (ToolUnit.resources t) = Some k →
                resources w !! k = Some (Resource 1 [] []).

(** and no two entries hold the same resource. *)
Definition units_apart (d : list (string * nat)) (w : FlowSim.sim) : Prop :=
  ∀ n1 n2 i1 i2 t1 t2 r1 r2 k1 k2,
    dict_get n1 d = Some i1 → dict_get n2 d = Some i2 → n1 ≠ n2 →
    unit_at w i1 = Some t1 → unit_at w i2 = Some t2 →
    dict_get r1 (ToolUnit.resources t1) = Some k1 →
    dict_get r2 (ToolUnit.resources t2) = Some k2 →
    k1 ≠ k2.

(** [FlowController._create_resource_pools],
    semiconductor_flow_simulator.py, lines 54-65, over the merged
    [capability_map]: one [simpy.Resource] per unit other than the load
    port, with as many slots as the unit lists resources.  [None] is the
    [ValueError] with which SimPy refuses a capacity that is not
    positive. *)
Fixpoint create_resource_pools (cm : list (string * list string)) (d : list (string * nat))
  : FlowSim.F (option (list (string * nat))) :=
  match cm with
  | [] => ret (Some d)
  | (unit_id, resources) :: cm' =>
      if decide (unit_id ≠ "LOADPORT"%string) then
        let capacity := Z.of_nat (length resources) in
        if capacity <=? 0 then ret None
        else
          let* r := new_resource capacity in
          create_resource_pools cm' (dict_set unit_id r d)
      else create_resource_pools cm' d
  end.

End ToolProps.

(** ** The clock and the wafer log *)
Module TimeProps.
Import Simpy ToolSimulator.

Definition time_of (x : entry) : Z := x.1.1.1.

(** A schedule in order of time that holds nothing earlier than [t]. *)
Fixpoint in_time_order (t : Z) (q : list entry) : Prop :=
  match q with
  | [] => True
  | x :: q' => t ≤ time_of x ∧ in_time_order (time_of x) q'
  end.

(** A computation that leaves the clock, the processes and the client's
    objects alone and keeps the schedule in order. *)
Definition steady {P U A} (m : M P U A) : Prop :=
  ∀ w, now (m w).2 = now w ∧ procs (m w).2 = procs w ∧ user (m w).2 = user w ∧
       (in_time_order (now w) (queue w) → in_time_order (now w) (queue (m w).2)).

(** The invariant of a run: the clock is at 0 or later, the schedule is
    in order, and the suspended generators and the client's objects are
    as [gen_ok] and [user_ok] want them at the current time. *)
Definition timely_of {P U} (gen_ok : Z → P → Prop) (user_ok : Z → U → Prop)
    (w : env P U) : Prop :=
  0 ≤ now w ∧
  in_time_order (now w) (queue w) ∧
  Forall (λ pe, match generator pe with
                | Some g => gen_ok (now w) g
                | None => True
                end) (procs w) ∧
  user_ok (now w) (user w).

(** What a stretch of a generator that starts in [w] leaves behind. *)
Definition in_time_of {P U} (gen_ok : Z → P → Prop) (user_ok : Z → U → Prop)
    (m : M P U (outcome P)) (w : env P U) : Prop :=
  timely_of gen_ok user_ok (m w).2 ∧ now (m w).2 = now w ∧
  match (m w).1 with
  | Yield k _ => gen_ok (now w) k
  | _ => True
  end.

(** What a suspended [wafer_process] holds (lines 39-42, 84-87 and
    142-145). *)
Definition held_of (g : wafer_gen) : option held :=
  match g with
  | At_start _ _ _ => None
  | At_first l _ _ _ _ _ => current l
  | At_next l _ _ _ _ _ => current l
  | At_fallback l _ => current l
  | At_process l _ => current l
  end.

(** The part that is held, if any, was taken between time 0 and [t]. *)
Definition taken_by (t : Z) (cur : option held) : Prop :=
  match cur with
  | Some h => 0 ≤ resource_start_time h ≤ t
  | None => True
  end.

(** A record of the wafer log that spans an interval between time 0 and
    [t]. *)
Definition record_in_time (t : Z) (r : log_entry) : Prop :=
  0 ≤ Start r ∧ Start r ≤ Finish r ∧ Finish r ≤ t.

(** The invariant of a run of the tool of tool_simulator.py. *)
Definition wafer_ok (t : Z) (g : wafer_gen) : Prop := taken_by t (held_of g).
Definition log_ok (t : Z) (u : world) : Prop := Forall (record_in_time t) (wafer_log u).
Definition timely : sim → Prop := timely_of wafer_ok log_ok.
Definition in_time : T (outcome wafer_gen) → sim → Prop := in_time_of wafer_ok log_ok.

End TimeProps.

(** ** The clock and the histories of the wafers *)
Module FlowTimeProps.
Import Simpy FlowUnits FlowSim TimeProps.

(** A record of [processing_history] that spans an interval between
    time 0 and [t]. *)
Definition entry_in_time (t : Z) (r : history_entry) : Prop :=
  0 ≤ h_start_time r ∧ h_start_time r ≤ h_end_time r ∧ h_end_time r ≤ t.

Definition history_in_time (t : Z) (a : Agent) : Prop :=
  Forall (entry_in_time t) (processing_history a).

(** The agent that a suspended generator carries has its history in
    time, and the [start_time] it noted is not in the future. *)
Definition gen_in_time (t : Z) (g : gen) : Prop :=
  match g with
  | Receive _ a => history_in_time t a
  | Pool_request _ a _ => history_in_time t a
  | Pool_service _ a _ => history_in_time t a
  | Unit_request _ a _ start_time _ _ _ _ => history_in_time t a ∧ 0 ≤ start_time ≤ t
  | Unit_processing _ a _ start_time _ _ _ => history_in_time t a ∧ 0 ≤ start_time ≤ t
  | Flow_request _ a _ _ start_time _ _ _ => history_in_time t a ∧ 0 ≤ start_time ≤ t
  | Flow_processing _ a _ _ start_time _ _ => history_in_time t a ∧ 0 ≤ start_time ≤ t
  | _ => True
  end.

(** The agents that a sink has kept have their histories in time. *)
Definition unit_in_time (t : Z) (x : flow_unit) : Prop :=
  match x with
  | USink s => Forall (history_in_time t) (Sink.completed_agents s)
  | _ => True
  end.

Definition units_in_time (t : Z) (u : world) : Prop := Forall (unit_in_time t) (units u).

(** The agents that a segment hands on have their histories in time. *)
Definition sends_in_time (t : Z) (ev : trace_event) : Prop :=
  match ev with
  | Sent _ a => history_in_time t a
  | _ => True
  end.

(** The invariant of a run of a flow model. *)
Definition flow_timely : sim → Prop := timely_of gen_in_time units_in_time.
Definition flow_in_time : F (outcome gen) → sim → Prop := in_time_of gen_in_time units_in_time.

(** A computation that keeps the invariant and leaves the clock alone. *)
Definition tidy {A} (m : F A) : Prop :=
  ∀ w, flow_timely w → flow_timely (m w).2 ∧ now (m w).2 = now w.

End FlowTimeProps.

(** ** semiconductor_flow_simulator.py: the set-up of the simulator *)
Module SemiconductorFlowSimulator.
Import Simpy FlowUnits FlowSim.

(** [FlowController.__init__], lines 41-51; [None] when a pool cannot
    be created. *)
Definition FlowController_init (unit_capability : capability) (unit_flow : list flow_step)
  : F (option FlowController.t) :=
  let* pools := ToolProps.create_resource_pools
                  (SemiconductorToolSimulator.capability_map unit_capability) [] in
  ret ((λ p, FlowController.Build (Build_FlowUnit None 0 0) (sorted_by_seq unit_flow) p)
         <$> pools).

(** The simulator's handles on its units. *)
Record handles : Type := Handles {
  wafer_source : nat;
  flow_controller : nat;
  wafer_sink : nat }.

(** [_create_flow_model], lines 174-196. *)
Definition create_flow_model (unit_capability : capability) (unit_flow : list flow_step)
  : F (option handles) :=
  let* src := SemiconductorToolSimulator.add_unit
                (UWaferSource
                   (WaferSource.Build (Build_FlowUnit None 0 0) 0 25 3600 (Some 3) 0)) in
  let* c := FlowController_init unit_capability unit_flow in
  match c with
  | Some c =>
      let* ctl := SemiconductorToolSimulator.add_unit (UController c) in
      let* snk := SemiconductorToolSimulator.add_unit
                    (USink (Sink.Build (Build_FlowUnit None 0 0) [])) in
      let* _ := SemiconductorToolSimulator.connect_to src ctl in
      let* _ := SemiconductorToolSimulator.connect_to ctl snk in
      ret (Some (Handles src ctl snk))
  | None => ret None
  end.

(** [__init__] and the start of [run_simulation]: when the model is
    built, the generation process of the source is created; [uniform]
    and [normal] are the values the two random generators will hand
    out. *)
Definition init (unit_capability : capability) (unit_flow : list flow_step)
    (uniform normal : nat → Z) : option handles * sim :=
  (let* h := create_flow_model unit_capability unit_flow in
   match h with
   | Some h => let* _ := process (Lots (wafer_source h)) in ret (Some h)
   | None => ret None
   end) (init_env (World [] [] uniform 0 normal 0)).

End SemiconductorFlowSimulator.

(** ** The capacities of the resources *)
Module CapacityProps.
Import Simpy.
Local Open Scope Z_scope.

(** The capacities of the resources, in the order of their creation. *)
Definition capacities {P U} (w : env P U) : list Z := capacity <$> resources w.

(** The resources have the capacities [cs]. *)
Definition sized {P U} (cs : list Z) (w : env P U) : Prop := capacities w = cs.

(** Every resource has capacity 1. *)
Definition single {P U} (w : env P U) : Prop := Forall (λ c, c = 1) (capacities w).

End CapacityProps.

(** * Properties *)

(** ** The kernel: what its operations leave alone *)
Module KernelFacts.
Import Simpy Spec.

Section Frames.
Context {P U : Type}.
Implicit Types w : env P U.

Lemma same_but_queues_refl w : same_but_queues w w.
Proof.
  unfold same_but_queues. split_and!; try reflexivity.
  apply Forall_Forall2_diag, Forall_forall. auto.
Qed.

Lemma same_but_queues_trans w1 w2 w3 :
  same_but_queues w1 w2 → same_but_queues w2 w3 → same_but_queues w1 w3.
Proof.
  unfold same_but_queues.
  intros (?&?&?&?&?&?&?&?&?&H12) (?&?&?&?&?&?&?&?&?&H23).
  split_and!; try congruence.
  eapply Forall2_trans; [| exact H12 | exact H23].
  intros x y z [? ?] [? ?]. split; congruence.
Qed.

Lemma users_of_same r w w' : same_but_queues w w' → users_of r w' = users_of r w.
Proof.
  intros (_&_&_&_&_&_&_&_&_&H). unfold users_of.
  destruct (resources w !! r) as [x|] eqn:Hx.
  - destruct (Forall2_lookup_l _ _ _ _ _ H Hx) as (y & -> & _ & ?). done.
  - assert (resources w' !! r = None) as ->; [|done].
    apply lookup_ge_None. apply lookup_ge_None in Hx.
    apply Forall2_length in H. lia.
Qed.

Lemma capacity_of_same r w w' : same_but_queues w w' → capacity_of r w' = capacity_of r w.
Proof.
  intros (_&_&_&_&_&_&_&_&_&H). unfold capacity_of.
  destruct (resources w !! r) as [x|] eqn:Hx.
  - destruct (Forall2_lookup_l _ _ _ _ _ H Hx) as (y & -> & ? & _). done.
  - assert (resources w' !! r = None) as ->; [|done].
    apply lookup_ge_None. apply lookup_ge_None in Hx.
    apply Forall2_length in H. lia.
Qed.

Lemma set_queue_of_same w r (f : list nat → list nat) :
  same_but_queues w
    (set_resources (alter (λ res, Resource (capacity res) (users res) (f (put_queue res))) r) w).
Proof.
  unfold same_but_queues. split_and!; try reflexivity.
  simpl. apply Forall2_alter_r.
  - apply Forall_Forall2_diag, Forall_forall. auto.
  - intros x y _ _ [? ?]. simpl. auto.
Qed.

Lemma cancel_same e w : same_but_queues w (snd (cancel e w)).
Proof.
  unfold cancel. destruct (is_triggered e w); [apply same_but_queues_refl|].
  destruct (resource_of e w); [|apply same_but_queues_refl].
  apply (set_queue_of_same w n (list_remove_first e)).
Qed.

Lemma cancel_untriggered_same e w : same_but_queues w (snd (cancel_untriggered e w)).
Proof.
  unfold cancel_untriggered. destruct (is_triggered e w);
    [apply same_but_queues_refl | apply cancel_same].
Qed.

Lemma cancel_all_same es w :
  same_but_queues w (snd (mapM (cancel_untriggered (P:=P) (U:=U)) es w)).
Proof.
  revert w. induction es as [|e es IH]; intros w; simpl.
  - apply same_but_queues_refl.
  - unfold bind at 1. destruct (cancel_untriggered e w) as [[] w1] eqn:H1.
    unfold bind at 1. specialize (IH w1).
    destruct (mapM cancel_untriggered es w1) as [ys w2]. simpl in *.
    eapply same_but_queues_trans; [|exact IH].
    pose proof (cancel_untriggered_same e w) as H. rewrite H1 in H. exact H.
Qed.

End Frames.

End KernelFacts.

(** ** Resources stay within their capacity *)
Module CapacityFacts.
Import Simpy Spec.

Section Keeping.
Context {P U : Type}.
Implicit Types (w : env P U) (I : env P U → Prop).

Lemma keeps_ret {A} I (a : A) : keeps I (ret a).
Proof. by intros w. Qed.

Lemma keeps_bind {A B} I (m : M P U A) (k : A → M P U B) :
  keeps I m → (∀ a, keeps I (k a)) → keeps I (bind m k).
Proof.
  intros Hm Hk w Hw. unfold bind. specialize (Hm w Hw).
  destruct (m w) as [a w1]. by apply Hk.
Qed.

Lemma keeps_gets {A} I (f : env P U → A) : keeps I (gets f).
Proof. by intros w. Qed.

Lemma keeps_mapM {A B} I (f : A → M P U B) (l : list A) :
  (∀ x, keeps I (f x)) → keeps I (mapM f l).
Proof.
  intros Hf. induction l as [|x l IH]; simpl; [apply keeps_ret|].
  apply keeps_bind; [done|]. intros y. apply keeps_bind; [done|]. intros ys. apply keeps_ret.
Qed.

(** Whatever leaves the resources alone keeps them within capacity. *)
Lemma keeps_same_resources {A} (m : M P U A) :
  (∀ w, resources (snd (m w)) = resources w) → keeps capacity_kept m.
Proof. intros H w Hw. unfold capacity_kept. by rewrite H. Qed.

Lemma resources_schedule e prio delay w :
  resources (snd (schedule (P:=P) (U:=U) e prio delay w)) = resources w.
Proof. done. Qed.

Lemma resources_succeed e w : resources (snd (succeed (P:=P) (U:=U) e w)) = resources w.
Proof. done. Qed.

Lemma resources_timeout d w : resources (snd (timeout (P:=P) (U:=U) d w)) = resources w.
Proof. unfold timeout. by destruct (d <? 0). Qed.

Lemma resources_check c w : resources (snd (check (P:=P) (U:=U) c w)) = resources w.
Proof. unfold check. by destruct (is_triggered c w). Qed.

Lemma resources_any_of_attach c evs w :
  resources (snd (any_of_attach (P:=P) (U:=U) c evs w)) = resources w.
Proof.
  revert w. induction evs as [|e evs IH]; intros w; simpl; [done|].
  unfold bind. destruct (is_processed e w).
  - pose proof (resources_check c w) as H. destruct (check c w) as [[] w1]. simpl in *.
    by rewrite IH.
  - simpl. by rewrite IH.
Qed.

Lemma resources_any_of evs w : resources (snd (any_of (P:=P) (U:=U) evs w)) = resources w.
Proof.
  unfold any_of, bind. simpl. destruct evs as [|e evs]; [done|].
  match goal with |- context [any_of_attach ?c ?l ?w0] =>
    pose proof (resources_any_of_attach c l w0) as H;
    destruct (any_of_attach c l w0) as [[] w1] end.
  simpl in *. done.
Qed.

Lemma resources_build_value c w :
  resources (snd (build_value (P:=P) (U:=U) c w)) = resources w.
Proof.
  unfold build_value. destruct (events w !! c) as [ev|]; [|done].
  destruct (kind ev); try done. simpl.
  generalize w. induction evs as [|e evs IH]; intros w0; simpl; [done|]. by rewrite IH.
Qed.

Lemma resources_process g w : resources (snd (process (P:=P) (U:=U) g w)) = resources w.
Proof. done. Qed.

Lemma keeps_new_resource cap : keeps capacity_kept (new_resource (P:=P) (U:=U) cap).
Proof.
  intros w Hw. unfold capacity_kept in *. simpl. apply Forall_app. split; [done|].
  apply Forall_singleton. by left.
Qed.

Lemma keeps_trigger_put r : keeps capacity_kept (trigger_put (P:=P) (U:=U) r).
Proof.
  intros w Hw. unfold trigger_put.
  destruct (resources w !! r) as [res|] eqn:Hr; [|done].
  destruct (put_queue res) as [|q rest]; [done|].
  destruct (Z.ltb_spec (Z.of_nat (length (users res))) (capacity res)); [|done].
  unfold capacity_kept in *. simpl. apply Forall_insert; [done|].
  right. simpl. rewrite length_app. simpl. lia.
Qed.

Lemma within_capacity_fewer res us :
  within_capacity res → (length us ≤ length (users res))%nat →
  within_capacity (Resource (capacity res) us (put_queue res)).
Proof.
  intros [H|H] Hl; [left|right]; simpl.
  - rewrite H in Hl. by destruct us; [|simpl in Hl; lia].
  - lia.
Qed.

Lemma capacity_kept_alter (f : resource → resource) r w :
  (∀ res, within_capacity res → within_capacity (f res)) →
  capacity_kept w → capacity_kept (set_resources (alter f r) w).
Proof.
  intros Hf Hw. unfold capacity_kept in *. simpl.
  apply Forall_alter; [done|]. intros res _. apply Hf.
Qed.

Lemma keeps_request r : keeps capacity_kept (request (P:=P) (U:=U) r).
Proof.
  unfold request. apply keeps_bind; [by apply keeps_same_resources|]. intros e.
  apply keeps_bind.
  - intros w Hw. apply capacity_kept_alter; [|done]. by intros res [H|H]; [left|right].
  - intros _. apply keeps_bind; [apply keeps_trigger_put|]. intros _. apply keeps_ret.
Qed.

Lemma length_remove_first x l : (length (list_remove_first x l) ≤ length l)%nat.
Proof.
  induction l as [|y l IH]; simpl; [done|]. destruct (decide (x = y)); simpl; lia.
Qed.

Lemma keeps_release r req : keeps capacity_kept (release (P:=P) (U:=U) r req).
Proof.
  unfold release. apply keeps_bind; [by apply keeps_same_resources|]. intros e.
  apply keeps_bind.
  - intros w Hw. apply capacity_kept_alter; [|done].
    intros res H. apply (within_capacity_fewer res); [done|]. apply length_remove_first.
  - intros _. apply keeps_bind; [by apply keeps_same_resources|]. intros _. apply keeps_ret.
Qed.

Lemma keeps_cancel e : keeps capacity_kept (cancel (P:=P) (U:=U) e).
Proof.
  intros w Hw. unfold cancel. destruct (is_triggered e w); [done|].
  destruct (resource_of e w); [|done].
  apply capacity_kept_alter; [|done]. by intros res [H|H]; [left|right].
Qed.

Lemma keeps_cancel_untriggered e : keeps capacity_kept (cancel_untriggered (P:=P) (U:=U) e).
Proof.
  intros w Hw. unfold cancel_untriggered. destruct (is_triggered e w); [done|].
  by apply keeps_cancel.
Qed.

Lemma keeps_set_user (f : U → U) : keeps capacity_kept (modify (P:=P) (U:=U) (set_user f)).
Proof. by apply keeps_same_resources. Qed.

Lemma keeps_timeout d : keeps capacity_kept (timeout (P:=P) (U:=U) d).
Proof. apply keeps_same_resources, resources_timeout. Qed.

Lemma keeps_any_of evs : keeps capacity_kept (any_of (P:=P) (U:=U) evs).
Proof. apply keeps_same_resources, resources_any_of. Qed.

Lemma keeps_process g : keeps capacity_kept (process (P:=P) (U:=U) g).
Proof. apply keeps_same_resources, resources_process. Qed.

Section Run.
Variable resume : P → list nat → M P U (outcome P).
Hypothesis resume_keeps : ∀ g v, keeps capacity_kept (resume g v).

Lemma keeps_resume_loop fuel p g v : keeps capacity_kept (resume_loop resume fuel p g v).
Proof.
  revert g v. induction fuel as [|fuel IH]; intros g v w Hw; simpl;
    specialize (resume_keeps g v w Hw); destruct (resume g v w) as [[k e| | |] w1];
    simpl in *; try done.
  - by destruct (is_processed e w1).
  - destruct (procs w1 !! p); done.
  - destruct (is_processed e w1); [by apply IH|done].
  - destruct (procs w1 !! p); done.
Qed.

Lemma keeps_run_callback e cb : keeps capacity_kept (run_callback resume e cb).
Proof.
  destruct cb; unfold run_callback; try (by apply keeps_same_resources).
  - apply keeps_trigger_put.
  - apply keeps_same_resources, resources_check.
  - apply keeps_same_resources, resources_build_value.
  - intros w Hw. destruct (procs w !! p) as [pe|]; [|done].
    destruct (generator pe) as [g|]; [|done].
    match goal with |- context [resume_loop resume ?f ?p ?g ?v ?w0] =>
      pose proof (keeps_resume_loop f p g v w0) as H;
      destruct (resume_loop resume f p g v w0) as [[] w1] end.
    simpl in *. by apply H.
Qed.

Lemma capacity_kept_step w w' : capacity_kept w → step resume w = Some w' → capacity_kept w'.
Proof.
  intros Hw. unfold step. destruct (queue w) as [|[[[t pr] c] e] q]; [done|].
  simpl. destruct (events w !! e) as [ev|]; [|by intros [= <-]].
  intros [= <-].
  match goal with |- capacity_kept (foldl _ ?w0 ?cbs) =>
    assert (capacity_kept w0) as H0 by done; revert H0; generalize w0; generalize cbs end.
  intros cbs. induction cbs as [|cb cbs IH]; intros w0 H0; simpl; [done|].
  apply IH. destruct (stopped w0 || crashed w0); [done|]. by apply keeps_run_callback.
Qed.

Lemma capacity_kept_run_steps n w : capacity_kept w → capacity_kept (run_steps resume n w).
Proof.
  revert w. induction n as [|n IH]; intros w Hw; simpl; [done|].
  destruct (stopped w || crashed w); [done|].
  destruct (step resume w) as [w'|] eqn:Hs; [|done].
  apply IH. by eapply capacity_kept_step.
Qed.

Lemma capacity_kept_run_until t fuel w :
  capacity_kept w → capacity_kept (run_until resume t fuel w).
Proof. intros Hw. unfold run_until. simpl. by apply capacity_kept_run_steps. Qed.

End Run.
End Keeping.

Create HintDb keeping.

#[local] Hint Resolve keeps_timeout keeps_any_of keeps_process keeps_request keeps_release
  keeps_cancel_untriggered keeps_new_resource keeps_set_user : keeping.

Ltac keep_step :=
  first
    [ apply keeps_ret
    | apply keeps_gets
    | solve [auto 1 with keeping]
    | apply keeps_mapM; intros
    | apply keeps_bind; [|intros]
    | match goal with
      | |- keeps _ (match ?x with _ => _ end) => destruct x
      | |- keeps _ (if ?x then _ else _) => destruct x
      end ].
Ltac keep := repeat keep_step.

(** *** The hold-and-wait wafer process *)
Section Wafer.
Import ToolSimulator.

Lemma keeps_print m : keeps capacity_kept (print m).
Proof. apply keeps_set_user. Qed.

#[local] Hint Resolve keeps_print : keeping.

Lemma keeps_finish l : keeps capacity_kept (finish l).
Proof. unfold finish. keep. Qed.

Lemma keeps_on_exception l : keeps capacity_kept (on_exception l).
Proof. unfold on_exception. keep. Qed.

#[local] Hint Resolve keeps_finish keeps_on_exception : keeping.

Lemma keeps_after_loop l : keeps capacity_kept (after_loop l).
Proof. unfold after_loop. keep. Qed.

Lemma keeps_process_step l idx step : keeps capacity_kept (process_step l idx step).
Proof. unfold process_step. keep. Qed.

Lemma keeps_fallback_step l idx step : keeps capacity_kept (fallback_step l idx step).
Proof. unfold fallback_step. keep. Qed.

Lemma keeps_for_loop l idx rest : keeps capacity_kept (for_loop l idx rest).
Proof.
  revert idx. induction rest as [|step rest IH]; intros idx; simpl; [apply keeps_after_loop|].
  keep; apply IH.
Qed.

Lemma keeps_adopt_first acquired rps cur : keeps capacity_kept (adopt_first acquired rps cur).
Proof.
  revert cur. induction rps as [|[req p] rps IH]; intros cur; simpl; keep; apply IH.
Qed.

Lemma keeps_pick_next acquired rps next : keeps capacity_kept (pick_next acquired rps next).
Proof.
  revert next. induction rps as [|[req p] rps IH]; intros next; simpl; keep; apply IH.
Qed.

#[local] Hint Resolve keeps_after_loop keeps_process_step keeps_fallback_step keeps_for_loop
  keeps_adopt_first keeps_pick_next : keeping.

Lemma keeps_wafer_process g v : keeps capacity_kept (wafer_process g v).
Proof.
  destruct g; unfold wafer_process.
  - unfold start. keep.
  - unfold resume_first. keep.
  - destruct (current l); [|apply keeps_on_exception]. unfold resume_next. keep.
  - apply keeps_for_loop.
  - apply keeps_for_loop.
Qed.

Lemma keeps_create_shared parts m : keeps capacity_kept (create_shared parts m).
Proof. revert m. induction parts as [|p ps IH]; intros m; simpl; keep. Qed.

Lemma capacity_kept_launch unit_capability unit_flow wafers :
  capacity_kept (launch unit_capability unit_flow wafers).
Proof.
  unfold launch.
  match goal with |- capacity_kept (snd (?m ?w0)) =>
    assert (keeps capacity_kept m) as H end.
  { unfold MetalTool_init. keep. apply keeps_create_shared. }
  apply H. unfold capacity_kept. simpl. done.
Qed.

Lemma capacity_kept_wafers unit_capability unit_flow wafers n :
  capacity_kept (run n (launch unit_capability unit_flow wafers)).
Proof.
  apply capacity_kept_run_steps; [apply keeps_wafer_process|apply capacity_kept_launch].
Qed.

End Wafer.

(** *** The flow models *)
Section Flow.
Import FlowUnits FlowSim.

Lemma keeps_set_unit u x : keeps capacity_kept (set_unit u x).
Proof. apply keeps_set_user. Qed.

Lemma keeps_draw_py : keeps capacity_kept draw_py.
Proof. by apply keeps_same_resources. Qed.

Lemma keeps_draw_np : keeps capacity_kept draw_np.
Proof. by apply keeps_same_resources. Qed.

#[local] Hint Resolve keeps_set_unit keeps_draw_py keeps_draw_np : keeping.

Lemma keeps_perform u tr : keeps capacity_kept (perform u tr).
Proof. induction tr as [|ev tr IH]; simpl; keep. Qed.

#[local] Hint Resolve keeps_perform : keeping.

Lemma keeps_generation_loop u s : keeps capacity_kept (generation_loop u s).
Proof. unfold generation_loop. keep. Qed.

Lemma keeps_lots_loop fuel u s : keeps capacity_kept (lots_loop fuel u s).
Proof. revert s. induction fuel as [|fuel IH]; intros s; simpl; keep. Qed.

#[local] Hint Resolve keeps_generation_loop keeps_lots_loop : keeping.

Lemma keeps_lots_after_wafer u s i : keeps capacity_kept (lots_after_wafer u s i).
Proof. unfold lots_after_wafer. keep. Qed.

Lemma keeps_flow_loop u agent rest : keeps capacity_kept (flow_loop u agent rest).
Proof. revert agent. induction rest as [|step rest IH]; intros agent; simpl; keep. Qed.

#[local] Hint Resolve keeps_lots_after_wafer keeps_flow_loop : keeping.

Lemma keeps_receive u agent : keeps capacity_kept (receive u agent).
Proof. unfold receive. keep. Qed.

#[local] Hint Resolve keeps_receive : keeping.

Lemma keeps_flow_process g v : keeps capacity_kept (flow_process g v).
Proof. destruct g; unfold flow_process; keep. Qed.

Lemma capacity_kept_flow n w : capacity_kept w → capacity_kept (run n w).
Proof. apply capacity_kept_run_steps, keeps_flow_process. Qed.

End Flow.

(** *** The tool simulator *)
Section Tool.
Import FlowUnits FlowSim SemiconductorToolSimulator.

Lemma keeps_create_resources names d : keeps capacity_kept (create_resources names d).
Proof. revert d. induction names as [|n names IH]; intros d; simpl; keep. Qed.

Lemma keeps_add_unit x : keeps capacity_kept (add_unit x).
Proof. by apply keeps_same_resources. Qed.

#[local] Hint Resolve keeps_create_resources keeps_add_unit : keeping.

Lemma keeps_create_tool_units cm unit_flow d :
  keeps capacity_kept (create_tool_units cm unit_flow d).
Proof.
  revert d. induction cm as [|[name rs] cm IH]; intros d; simpl; keep.
Qed.

Lemma keeps_connect_to a b : keeps capacity_kept (connect_to a b).
Proof. apply keeps_set_user. Qed.

#[local] Hint Resolve keeps_create_tool_units keeps_connect_to : keeping.

Lemma keeps_connect_chain h steps prev : keeps capacity_kept (connect_chain h steps prev).
Proof. revert prev. induction steps as [|step steps IH]; intros prev; simpl; keep. Qed.

#[local] Hint Resolve keeps_connect_chain : keeping.

Lemma capacity_kept_init unit_capability unit_flow uniform normal :
  capacity_kept (snd (init unit_capability unit_flow uniform normal)).
Proof.
  unfold init.
  match goal with |- capacity_kept (snd (?m ?w0)) =>
    assert (keeps capacity_kept m) as H end.
  { unfold create_flow_units, connect_flow_units. keep. }
  apply H. unfold capacity_kept. simpl. done.
Qed.

End Tool.

End CapacityFacts.

(** ** A wafer never releases more grants than it acquired *)
Module AccountFacts.
Import Simpy Spec Accounts ToolSimulator.

Section KernelSteps.
Context {P U : Type}.
Implicit Types w : env P U.

Lemma bind_eq {A B} (c : M P U A) (k : A → M P U B) w : bind c k w = k (c w).1 (c w).2.
Proof. unfold bind. by destruct (c w). Qed.

Lemma after_refl w : after w w.
Proof. intros e ev H. by exists ev. Qed.

Lemma after_trans w1 w2 w3 : after w1 w2 → after w2 w3 → after w1 w3.
Proof.
  intros H12 H23 e ev H.
  destruct (H12 e ev H) as (ev2 & H2 & Hk2 & Hp2 & Ht2).
  destruct (H23 e ev2 H2) as (ev3 & H3 & Hk3 & Hp3 & Ht3).
  exists ev3. split_and!; [done|congruence|congruence|auto].
Qed.

Lemma after_same_events w w' : events w' = events w → after w w'.
Proof. intros Heq e ev H. exists ev. by rewrite Heq. Qed.

Lemma after_length w w' : after w w' → (length (events w) ≤ length (events w'))%nat.
Proof.
  intros H. destruct (events w) as [|ev0 es] eqn:Hes using rev_ind; [simpl; lia|].
  clear IHes. destruct (H (length es) ev0) as (ev' & H' & _).
  { rewrite Hes. by apply list_lookup_middle. }
  apply lookup_lt_Some in H'. rewrite length_app. simpl. lia.
Qed.

Lemma after_triggered w w' e : after w w' → is_triggered e w = true → is_triggered e w' = true.
Proof.
  unfold is_triggered. intros H. destruct (events w !! e) as [ev|] eqn:He; [|done].
  destruct (H e ev He) as (ev' & -> & _ & _ & Ht). done.
Qed.

Lemma after_granted p w w' e : after w w' → granted p w e → granted p w' e.
Proof.
  intros H (ev & He & Hg). destruct (H e ev He) as (ev' & He' & Hk & Hp & Ht).
  exists ev'. split; [done|]. unfold is_grant_of in *. rewrite Hk, Hp.
  destruct (kind ev); try done. apply andb_true_iff in Hg as [Hg1 Hg2].
  by rewrite (Ht Hg1), Hg2.
Qed.

Lemma after_own_request p w w' e : after w w' → own_request p w e → own_request p w' e.
Proof.
  intros H (ev & r & He & Hk & Hp). destruct (H e ev He) as (ev' & He' & Hk' & Hp' & _).
  exists ev', r. split_and!; [done|congruence|congruence].
Qed.

Lemma granted_valid p w e : granted p w e → (e < length (events w))%nat.
Proof. intros (ev & He & _). by eapply lookup_lt_Some. Qed.

(** Appending an event. *)
Lemma after_new_event w ev0 : after w (set_events (λ es, es ++ [ev0]) w).
Proof. intros e ev H. exists ev. simpl. split; [|done]. by apply lookup_app_l_Some. Qed.

Lemma released_new_event p es ev0 :
  released_reqs p (es ++ [ev0]) = released_reqs p es ++ option_list (released_by p ev0).
Proof. unfold released_reqs. rewrite omap_app. simpl. by destruct (released_by p ev0). Qed.

(** Changing an event in place. *)
Lemma after_alter (f : event → event) e w :
  (∀ ev, events w !! e = Some ev →
         kind (f ev) = kind ev ∧ proc (f ev) = proc ev ∧
         (triggered ev = true → triggered (f ev) = true)) →
  after w (set_events (alter f e) w).
Proof.
  intros Hf e' ev H. simpl. destruct (decide (e' = e)) as [->|Hne].
  - exists (f ev). rewrite list_lookup_alter_eq, H. simpl. split; [done|]. by apply Hf.
  - exists ev. rewrite list_lookup_alter_ne by done. done.
Qed.

Lemma released_alter p (f : event → event) e es :
  (∀ ev, es !! e = Some ev → kind (f ev) = kind ev ∧ proc (f ev) = proc ev) →
  released_reqs p (alter f e es) = released_reqs p es.
Proof.
  revert e. induction es as [|ev es IH]; intros e Hf; [done|].
  destruct e as [|e]; simpl.
  - destruct (Hf ev eq_refl) as [Hk Hp]. unfold released_reqs. simpl.
    unfold released_by at 1 3. by rewrite Hk, Hp.
  - unfold released_reqs in *. simpl. change (list_alter f e es) with (alter f e es).
    rewrite (IH e); [done|]. intros ev' H. by apply Hf.
Qed.

Lemma cb_valid_after w w' cb : after w w' → cb_valid w cb → cb_valid w' cb.
Proof. intros H. destruct cb; simpl; try done. pose proof (after_length w w' H). lia. Qed.

(** The kernel invariant when the events stay as they are. *)
Lemma kernel_ok_same_events w w' :
  kernel_ok w → events w' = events w →
  Forall (λ x : entry, is_triggered x.2 w' = true) (queue w') →
  Forall (λ res, Forall (λ e, (e < length (events w'))%nat) (put_queue res)) (resources w') →
  Forall (λ pe, (pevent pe < length (events w'))%nat) (procs w') →
  kernel_ok w'.
Proof.
  intros [H1 H2 H3 H4 H5 H6] Heq Hq Hr Hp. split; try done.
  - rewrite Heq. eapply Forall_impl; [exact H3|]. intros ev Hev cbs Hcbs.
    eapply Forall_impl; [by apply Hev|]. intros cb. unfold cb_valid. by rewrite Heq.
  - by rewrite Heq.
  - rewrite Heq. eapply Forall_impl; [exact H6|]. intros ev Hev.
    eapply Forall_impl; [exact Hev|]. intros x. unfold is_triggered. by rewrite Heq.
Qed.

Lemma kernel_ok_set_user (f : U → U) w : kernel_ok w → kernel_ok (set_user f w).
Proof. intros H. apply (kernel_ok_same_events w); try done; apply H. Qed.

Lemma kernel_ok_set_active a w : kernel_ok w → kernel_ok (set_active a w).
Proof. intros H. apply (kernel_ok_same_events w); try done; apply H. Qed.

Lemma kernel_ok_set_crashed w : kernel_ok w → kernel_ok (set_crashed w).
Proof. intros H. apply (kernel_ok_same_events w); try done; apply H. Qed.

Lemma kernel_ok_set_stopped w : kernel_ok w → kernel_ok (set_stopped w).
Proof. intros H. apply (kernel_ok_same_events w); try done; apply H. Qed.

Lemma Forall_heappush (Q : entry → Prop) x q : Q x → Forall Q q → Forall Q (heappush x q).
Proof.
  intros Hx. induction q as [|y q IH]; intros Hq; simpl; [by apply Forall_singleton|].
  destruct (entry_lt x y); [by apply Forall_cons|].
  apply Forall_cons in Hq as [Hy Hq]. apply Forall_cons. split; [done|by apply IH].
Qed.

Lemma kernel_ok_schedule e prio d w :
  kernel_ok w → is_triggered e w = true → kernel_ok (schedule e prio d w).2.
Proof.
  intros H He. apply (kernel_ok_same_events w); try done; try apply H.
  simpl. apply Forall_heappush; [done|apply H].
Qed.

Lemma kernel_ok_set_resources (f : list resource → list resource) w :
  kernel_ok w →
  Forall (λ res, Forall (λ e, (e < length (events w))%nat) (put_queue res)) (f (resources w)) →
  kernel_ok (set_resources f w).
Proof. intros H Hf. apply (kernel_ok_same_events w); try done; apply H. Qed.

Lemma kernel_ok_set_procs (f : list (proc_entry P) → list (proc_entry P)) w :
  kernel_ok w →
  Forall (λ pe, (pevent pe < length (events w))%nat) (f (procs w)) →
  kernel_ok (set_procs f w).
Proof. intros H Hf. apply (kernel_ok_same_events w); try done; apply H. Qed.

Lemma kernel_ok_new_event k trig cbs a w :
  kernel_ok w → Forall (cb_valid w) cbs →
  kernel_ok (set_events (λ es, es ++ [Event k trig (Some cbs) a []]) w).
Proof.
  intros [H1 H2 H3 H4 H5 H6] Hcbs.
  pose proof (after_new_event w (Event k trig (Some cbs) a [])) as Ha.
  split; cbn [queue resources events procs set_events].
  - eapply Forall_impl; [exact H1|]. intros x. apply (after_triggered _ _ _ Ha).
  - eapply Forall_impl; [exact H2|]. intros res Hres.
    eapply Forall_impl; [exact Hres|]. intros e He. rewrite length_app. simpl in *. lia.
  - apply Forall_app. split.
    + eapply Forall_impl; [exact H3|]. intros ev Hev cbs' Hc.
      eapply Forall_impl; [by apply Hev|]. intros cb. apply (cb_valid_after _ _ _ Ha).
    + apply Forall_singleton. intros cbs' [= <-].
      eapply Forall_impl; [exact Hcbs|]. intros cb. apply (cb_valid_after _ _ _ Ha).
  - eapply Forall_impl; [exact H4|]. intros pe He. rewrite length_app. simpl in *. lia.
  - apply Forall_app. split; [done|]. by apply Forall_singleton.
  - apply Forall_app. split.
    + eapply Forall_impl; [exact H6|]. intros ev Hev.
      eapply Forall_impl; [exact Hev|]. intros x. apply (after_triggered _ _ _ Ha).
    + by apply Forall_singleton.
Qed.

Lemma kernel_ok_alter (f : event → event) e w :
  kernel_ok w →
  (∀ ev, events w !! e = Some ev →
         (triggered ev = true → triggered (f ev) = true) ∧
         (∀ cbs, callbacks (f ev) = Some cbs → Forall (cb_valid w) cbs) ∧
         (callbacks (f ev) = None → triggered (f ev) = true) ∧
         Forall (λ x, is_triggered x w = true) (value (f ev))) →
  kernel_ok (set_events (alter f e) w).
Proof.
  intros [H1 H2 H3 H4 H5 H6] Hf.
  assert (∀ x, is_triggered x w = true → is_triggered x (set_events (alter f e) w) = true)
    as Ht.
  { intros x. unfold is_triggered. simpl. destruct (decide (x = e)) as [->|Hne].
    - rewrite list_lookup_alter_eq. destruct (events w !! e) as [ev|] eqn:He; [|done].
      simpl. by apply Hf.
    - by rewrite list_lookup_alter_ne. }
  assert (∀ cb, cb_valid w cb → cb_valid (set_events (alter f e) w) cb) as Hcb.
  { intros cb. unfold cb_valid. simpl. by rewrite length_alter. }
  split; cbn [queue resources events procs set_events].
  - eapply Forall_impl; [exact H1|]. intros x. apply Ht.
  - eapply Forall_impl; [exact H2|]. intros res Hres.
    eapply Forall_impl; [exact Hres|]. intros x Hx. simpl in *. by rewrite length_alter.
  - apply Forall_alter.
    + eapply Forall_impl; [exact H3|]. intros ev Hev cbs Hc.
      eapply Forall_impl; [by apply Hev|]. exact Hcb.
    + intros ev He _ cbs Hc. destruct (Hf ev He) as (_ & Hv & _).
      eapply Forall_impl; [by apply Hv|]. exact Hcb.
  - eapply Forall_impl; [exact H4|]. intros pe Hpe. simpl in *. by rewrite length_alter.
  - apply Forall_alter; [done|]. intros ev He _. by apply Hf.
  - apply Forall_alter.
    + eapply Forall_impl; [exact H6|]. intros ev Hev.
      eapply Forall_impl; [exact Hev|]. exact Ht.
    + intros ev He _. destruct (Hf ev He) as (_ & _ & _ & Hv).
      eapply Forall_impl; [exact Hv|]. exact Ht.
Qed.

(** *** Steps of the kernel *)

Lemma own_steps_refl p w : kernel_ok w → own_steps p w w.
Proof. intros H. split_and!; try done. apply after_refl. Qed.

Lemma own_steps_trans p w1 w2 w3 : own_steps p w1 w2 → own_steps p w2 w3 → own_steps p w1 w3.
Proof.
  intros (Ha & Hr & Hact & Hp & Hc & Hk) (Ha' & Hr' & Hact' & Hp' & Hc' & Hk').
  split_and!; try congruence; [by eapply after_trans|].
  intros q Hq. by rewrite Hr', Hr.
Qed.

Lemma own_steps_weaken p w w' : own_steps None w w' → own_steps p w w'.
Proof.
  intros (Ha & Hr & Hact & Hp & Hc & Hk). split_and!; try done.
  intros q _. by apply Hr.
Qed.

Lemma own_same_events w w' :
  events w' = events w → active_process w' = active_process w →
  procs w' = procs w → crashed w' = crashed w →
  kernel_ok w' → own_steps None w w'.
Proof.
  intros He Ha Hp Hc Hk. split_and!; try done; [by apply after_same_events|].
  intros q _. by rewrite He.
Qed.

Lemma own_new_event k trig cbs w :
  kernel_ok w → Forall (cb_valid w) cbs → (∀ r req, k ≠ KRelease r req) →
  own_steps None w (new_event k trig cbs w).2.
Proof.
  intros Hk Hcbs Hrel. split_and!; try done.
  - apply after_new_event.
  - intros q _. simpl. rewrite released_new_event. unfold released_by. simpl.
    destruct k; try by rewrite app_nil_r. by destruct (Hrel r req).
  - by apply kernel_ok_new_event.
Qed.

Lemma own_alter (f : event → event) e w :
  kernel_ok w →
  (∀ ev, events w !! e = Some ev →
         kind (f ev) = kind ev ∧ proc (f ev) = proc ev ∧
         (triggered ev = true → triggered (f ev) = true) ∧
         (∀ cbs, callbacks (f ev) = Some cbs → Forall (cb_valid w) cbs) ∧
         (callbacks (f ev) = None → triggered (f ev) = true) ∧
         Forall (λ x, is_triggered x w = true) (value (f ev))) →
  own_steps None w (set_events (alter f e) w).
Proof.
  intros Hk Hf. split_and!; try done.
  - apply after_alter. intros ev He. destruct (Hf ev He) as (? & ? & ? & _). done.
  - intros q _. simpl. apply released_alter. intros ev He.
    destruct (Hf ev He) as (? & ? & _). done.
  - apply kernel_ok_alter; [done|]. intros ev He.
    destruct (Hf ev He) as (_ & _ & ? & ? & ? & ?). done.
Qed.

(** What the kernel knows of an event that exists. *)
Lemma kernel_ok_event w e ev :
  kernel_ok w → events w !! e = Some ev →
  (∀ cbs, callbacks ev = Some cbs → Forall (cb_valid w) cbs) ∧
  (callbacks ev = None → triggered ev = true) ∧
  Forall (λ x, is_triggered x w = true) (value ev).
Proof.
  intros [H1 H2 H3 H4 H5 H6] He. split_and!.
  - by apply (Forall_lookup_1 _ _ _ _ H3 He).
  - by apply (Forall_lookup_1 _ _ _ _ H5 He).
  - by apply (Forall_lookup_1 _ _ _ _ H6 He).
Qed.

Lemma own_add_callback cb e w :
  kernel_ok w → cb_valid w cb → own_steps None w (add_callback cb e w).2.
Proof.
  intros Hk Hcb. apply own_alter; [done|]. intros ev He.
  destruct (kernel_ok_event w e ev Hk He) as (Hc & Hp & Hv). simpl.
  split_and!; try done.
  - intros cbs. destruct (callbacks ev) as [l|]; [|done]. simpl. intros [= <-].
    apply Forall_app. split; [by apply Hc|by apply Forall_singleton].
  - destruct (callbacks ev); [done|]. intros _. by apply Hp.
Qed.

Lemma own_schedule e prio d w :
  kernel_ok w → is_triggered e w = true → own_steps None w (schedule e prio d w).2.
Proof. intros Hk He. apply own_same_events; try done. by apply kernel_ok_schedule. Qed.

Lemma own_succeed e w :
  kernel_ok w → (e < length (events w))%nat → own_steps None w (succeed e w).2.
Proof.
  intros Hk He. unfold succeed, bind, alter_event, modify.
  eapply own_steps_trans.
  - apply (own_alter (λ ev, Event (kind ev) true (callbacks ev) (proc ev) (value ev)) e w Hk).
    intros ev Hev. destruct (kernel_ok_event w e ev Hk Hev) as (Hc & Hp & Hv). done.
  - match goal with |- own_steps _ ?w1 _ => assert (kernel_ok w1) as Hk1 end.
    { apply kernel_ok_alter; [done|]. intros ev Hev.
      destruct (kernel_ok_event w e ev Hk Hev) as (Hc & Hp & Hv). done. }
    apply own_schedule; [done|].
    unfold is_triggered. simpl. rewrite list_lookup_alter_eq.
    apply lookup_lt_is_Some in He as [ev ->]. done.
Qed.

Lemma own_timeout d w : kernel_ok w → own_steps None w (timeout d w).2.
Proof.
  intros Hk. unfold timeout. destruct (d <? 0); [by apply own_steps_refl|].
  apply (own_steps_trans _ _ (new_event (KTimeout d) true [] w).2).
  - by apply own_new_event.
  - apply (own_schedule (length (events w)) NORMAL d (new_event (KTimeout d) true [] w).2).
    + by apply kernel_ok_new_event.
    + unfold is_triggered. simpl. by rewrite lookup_app_r, Nat.sub_diag.
Qed.

Lemma own_set_user (f : U → U) w : kernel_ok w → own_steps None w (set_user f w).
Proof. intros Hk. apply own_same_events; try done. by apply kernel_ok_set_user. Qed.

Lemma own_set_resources (f : list resource → list resource) w :
  kernel_ok w →
  Forall (λ res, Forall (λ e, (e < length (events w))%nat) (put_queue res)) (f (resources w)) →
  own_steps None w (set_resources f w).
Proof. intros Hk Hf. apply own_same_events; try done. by apply kernel_ok_set_resources. Qed.

Lemma put_queue_lookup w r res :
  kernel_ok w → resources w !! r = Some res →
  Forall (λ e, (e < length (events w))%nat) (put_queue res).
Proof. intros Hk Hr. by apply (Forall_lookup_1 _ _ _ _ (put_queue_valid w Hk) Hr). Qed.

Lemma own_trigger_put r w : kernel_ok w → own_steps None w (trigger_put r w).2.
Proof.
  intros Hk. unfold trigger_put.
  destruct (resources w !! r) as [res|] eqn:Hr; [|by apply own_steps_refl].
  pose proof (put_queue_lookup w r res Hk Hr) as Hq.
  destruct (put_queue res) as [|q rest]; [by apply own_steps_refl|].
  destruct (_ <? _); [|by apply own_steps_refl].
  apply Forall_cons in Hq as [Hq Hrest].
  eapply own_steps_trans; [|apply own_succeed].
  - apply own_set_resources; [done|]. apply Forall_insert; [apply Hk|done].
  - apply kernel_ok_set_resources; [done|]. apply Forall_insert; [apply Hk|done].
  - done.
Qed.

Lemma own_request_step r w :
  kernel_ok w →
  own_steps None w (request r w).2 ∧ (request r w).1 = length (events w) ∧
  ∃ ev, events (request r w).2 !! length (events w) = Some ev ∧
        kind ev = KRequest r ∧ proc ev = active_process w.
Proof.
  intros Hk.
  set (w1 := (new_event (KRequest r) false [Trigger_get r] w).2).
  set (w2 := set_resources (alter (λ res, Resource (capacity res) (users res)
                                      (put_queue res ++ [length (events w)])) r) w1).
  assert (own_steps None w w1) as H1.
  { apply own_new_event; [done| |done]. by apply Forall_singleton. }
  assert (own_steps None w1 w2) as H2.
  { apply own_set_resources; [apply H1|]. apply Forall_alter; [apply H1|].
    intros res _ Hres. simpl. apply Forall_app. split; [done|].
    apply Forall_singleton. rewrite length_app. simpl. lia. }
  assert (own_steps None w2 (trigger_put r w2).2) as H3 by (apply own_trigger_put, H2).
  assert ((request r w).2 = (trigger_put r w2).2) as Heq.
  { unfold request, bind, w2, w1. simpl. by destruct (trigger_put _ _). }
  rewrite Heq. split_and!.
  - eapply own_steps_trans; [exact H1|]. eapply own_steps_trans; [exact H2|exact H3].
  - unfold request, bind. simpl. by destruct (trigger_put _ _).
  - destruct H3 as [Ha _]. destruct (Ha (length (events w))
      (Event (KRequest r) false (Some [Trigger_get r]) (active_process w) []))
      as (ev & He & Hkind & Hproc & _).
    { simpl. by rewrite lookup_app_r, Nat.sub_diag. }
    by exists ev.
Qed.

Lemma Forall_remove_first (Q : nat → Prop) x l : Forall Q l → Forall Q (list_remove_first x l).
Proof.
  induction 1 as [|y l Hy Hl IH]; simpl; [done|].
  destruct (decide (x = y)); [done|]. by apply Forall_cons.
Qed.

Lemma own_cancel e w : kernel_ok w → own_steps None w (cancel e w).2.
Proof.
  intros Hk. unfold cancel. destruct (is_triggered e w); [by apply own_steps_refl|].
  destruct (resource_of e w); [|by apply own_steps_refl].
  apply own_set_resources; [done|]. apply Forall_alter; [apply Hk|].
  intros res _ Hres. simpl. by apply Forall_remove_first.
Qed.

Lemma own_cancel_untriggered e w : kernel_ok w → own_steps None w (cancel_untriggered e w).2.
Proof.
  intros Hk. unfold cancel_untriggered. destruct (is_triggered e w); [by apply own_steps_refl|].
  by apply own_cancel.
Qed.

Lemma own_check c w :
  kernel_ok w → (c < length (events w))%nat → own_steps None w (check c w).2.
Proof.
  intros Hk Hc. unfold check. destruct (is_triggered c w); [by apply own_steps_refl|].
  by apply own_succeed.
Qed.

Lemma own_steps_length p w w' : own_steps p w w' → (length (events w) ≤ length (events w'))%nat.
Proof. intros [Ha _]. by apply after_length. Qed.

Lemma own_any_of_attach c evs w :
  kernel_ok w → (c < length (events w))%nat → own_steps None w (any_of_attach c evs w).2.
Proof.
  revert w. induction evs as [|e evs IH]; intros w Hk Hc; simpl; [by apply own_steps_refl|].
  unfold bind.
  assert (own_steps None w
            ((λ w0, if is_processed e w0 then check c w0
                    else add_callback (Cond_check c) e w0) w).2) as H1.
  { simpl. destruct (is_processed e w); [by apply own_check|by apply own_add_callback]. }
  destruct ((λ w0, if is_processed e w0 then check c w0
                   else add_callback (Cond_check c) e w0) w) as [[] w1] eqn:Hw1.
  simpl in H1. eapply own_steps_trans; [exact H1|].
  apply IH; [apply H1|]. pose proof (own_steps_length _ _ _ H1). lia.
Qed.

Lemma own_any_of evs w : kernel_ok w → own_steps None w (any_of evs w).2.
Proof.
  intros Hk.
  set (w1 := (new_event (KAnyOf evs) false [] w).2).
  assert (own_steps None w w1) as H1 by (by apply own_new_event).
  assert (length (events w) < length (events w1))%nat as Hc.
  { unfold w1. simpl. rewrite length_app. simpl. lia. }
  set (m := match evs with
            | [] => succeed (P:=P) (U:=U) (length (events w))
            | _ => any_of_attach (length (events w)) evs
            end).
  assert (own_steps None w1 (m w1).2) as H2.
  { unfold m. destruct evs; [apply own_succeed|apply own_any_of_attach]; done || apply H1. }
  assert ((any_of evs w).2 = (add_callback Build_value (length (events w)) (m w1).2).2) as ->.
  { unfold any_of. by rewrite !bind_eq. }
  eapply own_steps_trans; [exact H1|]. eapply own_steps_trans; [exact H2|].
  apply own_add_callback; [apply H2|done].
Qed.

Lemma processed_is_triggered w e :
  kernel_ok w → is_processed e w = true → is_triggered e w = true.
Proof.
  intros Hk. unfold is_processed, is_triggered.
  destruct (events w !! e) as [ev|] eqn:He; [|done].
  destruct (kernel_ok_event w e ev Hk He) as (_ & Hp & _).
  destruct (callbacks ev); [done|]. intros _. by apply Hp.
Qed.

Lemma own_remove_checks c evs w :
  kernel_ok w →
  own_steps None w (foldl (λ w e, set_events (alter (remove_check c) e) w) w evs).
Proof.
  revert w. induction evs as [|e evs IH]; intros w Hk; simpl; [by apply own_steps_refl|].
  assert (own_steps None w (set_events (alter (remove_check c) e) w)) as H1.
  { apply own_alter; [done|]. intros ev He.
    destruct (kernel_ok_event w e ev Hk He) as (Hc & Hp & Hv).
    unfold remove_check. simpl. split_and!; try done.
    - intros cbs. destruct (callbacks ev) as [l|]; [|done]. simpl.
      specialize (Hc l eq_refl).
      destruct (list_find _ l) as [[i cb]|]; intros [= <-]; [|done].
      by apply Forall_delete.
    - destruct (callbacks ev); [done|]. intros _. by apply Hp. }
  eapply own_steps_trans; [exact H1|]. apply IH, H1.
Qed.

Lemma own_build_value c w : kernel_ok w → own_steps None w (build_value c w).2.
Proof.
  intros Hk. unfold build_value.
  destruct (events w !! c) as [ev|]; [|by apply own_steps_refl].
  destruct (kind ev); try by apply own_steps_refl.
  pose proof (own_remove_checks c evs w Hk) as H1.
  set (w1 := foldl _ w evs) in *.
  eapply own_steps_trans; [exact H1|]. simpl.
  apply own_alter; [apply H1|]. intros ev1 He1.
  destruct (kernel_ok_event w1 c ev1 ltac:(apply H1) He1) as (Hc & Hp & Hv).
  simpl. split_and!; try done.
  apply Forall_forall. intros x [Hx _]%list_elem_of_filter.
  apply processed_is_triggered; [apply H1|done].
Qed.

Lemma own_release_step r req w :
  kernel_ok w →
  own_steps (active_process w) w (release r req w).2 ∧
  ∀ p, released_reqs p (events (release r req w).2) =
       released_reqs p (events w) ++
       (if bool_decide (active_process w = Some p) then [req] else []).
Proof.
  intros Hk.
  set (w1 := (new_event (KRelease r req) false [Trigger_put r] w).2).
  set (w2 := set_resources (alter (λ res, Resource (capacity res)
                                      (list_remove_first req (users res))
                                      (put_queue res)) r) w1).
  assert (kernel_ok w1) as Hk1.
  { apply kernel_ok_new_event; [done|]. by apply Forall_singleton. }
  assert (∀ p, released_reqs p (events w1) =
               released_reqs p (events w) ++
               (if bool_decide (active_process w = Some p) then [req] else [])) as Hrel.
  { intros p. unfold w1. simpl. rewrite released_new_event. unfold released_by. simpl.
    by destruct (bool_decide _). }
  assert (own_steps (active_process w) w w1) as H1.
  { split_and!; try done; [apply after_new_event|].
    intros q Hq. rewrite Hrel. rewrite bool_decide_false by done. by rewrite app_nil_r. }
  assert (own_steps None w1 w2) as H2.
  { apply own_set_resources; [done|]. apply Forall_alter; [apply Hk1|]. by intros res _ Hres. }
  assert (own_steps None w2 (succeed (length (events w)) w2).2) as H3.
  { apply own_succeed; [apply H2|]. unfold w2, w1. simpl. rewrite length_app. simpl. lia. }
  assert ((release r req w).2 = (succeed (length (events w)) w2).2) as ->.
  { unfold release, bind, w2, w1. simpl. done. }
  split.
  - eapply own_steps_trans; [exact H1|]. apply own_steps_weaken.
    eapply own_steps_trans; [exact H2|exact H3].
  - intros p. destruct H3 as (_ & Hr3 & _). destruct H2 as (_ & Hr2 & _).
    rewrite Hr3, Hr2 by done. apply Hrel.
Qed.

(** *** What own steps leave as it is *)

Lemma base_own_steps a p w w' : own_steps a w w' → Some p ≠ a → base p w → base p w'.
Proof.
  intros (Ha & Hr & _) Hp [Hnd Hg]. unfold base. rewrite (Hr p Hp). split; [done|].
  eapply Forall_impl; [exact Hg|]. intros e. by apply after_granted.
Qed.

Lemma held_ok_own_steps a p cur pending w w' :
  own_steps a w w' → Some p ≠ a → held_ok p cur pending w → held_ok p cur pending w'.
Proof.
  intros (Ha & Hr & _) Hp [Hpend Hcur]. unfold held_ok. rewrite (Hr p Hp). split.
  - eapply Forall_impl; [exact Hpend|]. intros e [Ho Hn]. split; [|done].
    by eapply after_own_request.
  - destruct cur as [req|]; [|done]. destruct Hcur as (Hg & Hn & Hnp).
    split_and!; try done. by eapply after_granted.
Qed.

(** *** Closure of [quietly] and [hoare] *)

Lemma quietly_ret {A} (a : A) : quietly (ret (P:=P) (U:=U) a).
Proof. intros w Hk. by apply own_steps_refl. Qed.

Lemma quietly_gets {A} (f : env P U → A) : quietly (gets f).
Proof. intros w Hk. by apply own_steps_refl. Qed.

Lemma quietly_bind {A B} (m : M P U A) (k : A → M P U B) :
  quietly m → (∀ a, quietly (k a)) → quietly (bind m k).
Proof.
  intros Hm Hk w Hw. rewrite bind_eq. eapply own_steps_trans; [by apply Hm|].
  apply Hk. apply (Hm w Hw).
Qed.

Lemma quietly_mapM {A B} (f : A → M P U B) l : (∀ x, quietly (f x)) → quietly (mapM f l).
Proof.
  intros Hf. induction l as [|x l IH]; simpl; [apply quietly_ret|].
  apply quietly_bind; [done|]. intros y. apply quietly_bind; [done|]. intros ys.
  apply quietly_ret.
Qed.

Lemma quietly_set_user (f : U → U) : quietly (modify (P:=P) (set_user f)).
Proof. intros w Hk. by apply own_set_user. Qed.

Lemma quietly_timeout d : quietly (timeout (P:=P) (U:=U) d).
Proof. intros w Hk. by apply own_timeout. Qed.

Lemma quietly_any_of evs : quietly (any_of (P:=P) (U:=U) evs).
Proof. intros w Hk. by apply own_any_of. Qed.

Lemma quietly_cancel_untriggered e : quietly (cancel_untriggered (P:=P) (U:=U) e).
Proof. intros w Hk. by apply own_cancel_untriggered. Qed.

Lemma hoare_ret {A} (pre : env P U → Prop) (a : A) (post : A → env P U → Prop) :
  (∀ w, pre w → post a w) → hoare pre (ret a) post.
Proof. intros H w Hw. by apply H. Qed.

Lemma hoare_bind {A B} (pre : env P U → Prop) (m : M P U A) (mid : A → env P U → Prop)
    (k : A → M P U B) (post : B → env P U → Prop) :
  hoare pre m mid → (∀ a, hoare (mid a) (k a) post) → hoare pre (bind m k) post.
Proof. intros Hm Hk w Hw. rewrite bind_eq. apply Hk. by apply Hm. Qed.

Lemma hoare_pre {A} (pre pre' : env P U → Prop) (m : M P U A) post :
  (∀ w, pre w → pre' w) → hoare pre' m post → hoare pre m post.
Proof. intros H Hm w Hw. by apply Hm, H. Qed.

Lemma hoare_post {A} (pre : env P U → Prop) (m : M P U A) (post post' : A → env P U → Prop) :
  hoare pre m post → (∀ a w, post a w → post' a w) → hoare pre m post'.
Proof. intros Hm H w Hw. by apply H, Hm. Qed.

Lemma hoare_gets {A} (pre : env P U → Prop) (f : env P U → A) :
  hoare pre (gets f) (λ _, pre).
Proof. by intros w Hw. Qed.

End KernelSteps.

Section Wafer.
Variables (w0 : sim) (p : nat).

Lemma amid_quiet cur pend (w w' : sim) :
  amid w0 p cur pend w → own_steps None w w' → amid w0 p cur pend w'.
Proof.
  intros (Hs & Hact & Hb & Hh) Hq. split_and!.
  - eapply own_steps_trans; [exact Hs|]. by apply own_steps_weaken.
  - destruct Hq as (_ & _ & -> & _). done.
  - intros q. by eapply base_own_steps.
  - by eapply held_ok_own_steps.
Qed.

Lemma amid_kernel_ok cur pend (w : sim) : amid w0 p cur pend w → kernel_ok w.
Proof. intros (Hs & _). apply Hs. Qed.

Lemma hoare_quietly {A} cur pend (m : T A) :
  quietly m → hoare (amid w0 p cur pend) m (λ _, amid w0 p cur pend).
Proof.
  intros Hm w Hw. eapply amid_quiet; [exact Hw|]. apply Hm. by eapply amid_kernel_ok.
Qed.

Lemma amid_drop cur pend (w : sim) : amid w0 p cur pend w → amid w0 p cur [] w.
Proof.
  intros (Hs & Hact & Hb & Hpend & Hcur). split_and!; try done.
  split; [done|]. destruct cur; [|done]. destruct Hcur as (? & ? & ?).
  split_and!; try done. apply not_elem_of_nil.
Qed.

Lemma amid_forget cur pend (w : sim) : amid w0 p cur pend w → amid w0 p None pend w.
Proof. intros (Hs & Hact & Hb & Hpend & Hcur). split_and!; done. Qed.

Lemma amid_adopt cur pend e (w : sim) :
  amid w0 p cur pend w → e ∈ pend → is_triggered e w = true → amid w0 p (Some e) [] w.
Proof.
  intros (Hs & Hact & Hb & Hpend & Hcur) He Ht. split_and!; try done.
  split; [done|].
  destruct (proj1 (Forall_forall _ _) Hpend e He) as [(ev & r & Hev & Hk & Hp) Hn].
  split_and!; [|done|apply not_elem_of_nil].
  exists ev. split; [done|]. unfold is_grant_of. rewrite Hk, Hp.
  unfold is_triggered in Ht. rewrite Hev in Ht. rewrite Ht. by rewrite bool_decide_true.
Qed.

Lemma released_valid q (w : sim) e :
  base q w → e ∈ released_reqs q (events w) → (e < length (events w))%nat.
Proof.
  intros [_ Hg] He. eapply granted_valid. by apply (proj1 (Forall_forall _ _) Hg).
Qed.

Lemma amid_request cur pend r :
  hoare (amid w0 p cur pend) (request r) (λ e, amid w0 p cur (pend ++ [e])).
Proof.
  intros w (Hs & Hact & Hb & Hpend & Hcur).
  destruct (own_request_step r w ltac:(apply Hs)) as (Hq & -> & ev & Hev & Hk & Hp).
  assert (amid w0 p cur pend (request r w).2) as (Hs' & Hact' & Hb' & Hpend' & Hcur').
  { eapply amid_quiet; [|exact Hq]. by split_and!. }
  assert (released_reqs p (events (request r w).2) = released_reqs p (events w)) as Hrel.
  { destruct Hq as (_ & Hr & _). by apply Hr. }
  split_and!; try done. split.
  - apply Forall_app. split; [done|]. apply Forall_singleton. split.
    + exists ev, r. split_and!; [done|done|congruence].
    + rewrite Hrel. intros Hin. apply (released_valid p w) in Hin; [lia|done].
  - destruct cur as [req|]; [|done]. destruct Hcur' as (Hg & Hn & Hnp).
    split_and!; try done. intros [Hin| ->%list_elem_of_singleton]%elem_of_app; [done|].
    destruct Hcur as (Hg0 & _). apply granted_valid in Hg0. lia.
Qed.

Lemma amid_requests cur pend (parts : list part) :
  hoare (amid w0 p cur pend) (mapM (λ x, request (part_resource x)) parts)
        (λ reqs, amid w0 p cur (pend ++ reqs)).
Proof.
  revert pend. induction parts as [|x parts IH]; intros pend; simpl.
  - apply hoare_ret. intros w Hw. by rewrite app_nil_r.
  - eapply hoare_bind; [apply amid_request|]. intros e.
    eapply hoare_bind; [apply IH|]. intros reqs.
    apply hoare_ret. intros w Hw. by rewrite <- app_assoc in Hw.
Qed.

Lemma amid_release pend r req :
  hoare (amid w0 p (Some req) pend) (release r req) (λ _, amid w0 p None pend).
Proof.
  intros w (Hs & Hact & Hb & Hpend & Hg & Hn & Hnp).
  destruct (own_release_step r req w ltac:(apply Hs)) as (Hq & Hrel).
  rewrite Hact in Hq. split_and!.
  - by eapply own_steps_trans.
  - destruct Hq as (_ & _ & -> & _). done.
  - intros q. destruct (decide (q = p)) as [->|Hne].
    + unfold base. rewrite Hrel, Hact, bool_decide_true by done. destruct (Hb p) as [Hnd Hgr].
      split.
      * apply NoDup_app. split_and!; [done| |apply NoDup_singleton].
        intros x Hx ->%list_elem_of_singleton. done.
      * apply Forall_app. split.
        -- eapply Forall_impl; [exact Hgr|]. intros e. apply after_granted, Hq.
        -- apply Forall_singleton. eapply after_granted; [apply Hq|done].
    + eapply base_own_steps; [exact Hq| |done]. congruence.
  - split; [|done]. rewrite Hrel, Hact, bool_decide_true by done.
    apply Forall_forall. intros e He.
    destruct (proj1 (Forall_forall _ _) Hpend e He) as [Ho Hne]. split.
    + eapply after_own_request; [apply Hq|done].
    + intros [Hin| ->%list_elem_of_singleton]%elem_of_app; done.
Qed.

Ltac quiet :=
  repeat first
    [ apply quietly_ret | apply quietly_gets | apply quietly_set_user | apply quietly_timeout
    | apply quietly_any_of | apply quietly_cancel_untriggered
    | apply quietly_mapM; intros
    | apply quietly_bind; [|intros]
    | match goal with
      | |- quietly (match ?x with _ => _ end) => destruct x
      | |- quietly (if ?x then _ else _) => destruct x
      end ].

(** One quiet step of a triple. *)
Ltac hquiet := eapply hoare_bind; [apply hoare_quietly; quiet|intros ?].

Lemma done_finish cur pend l :
  hoare (amid w0 p cur pend) (finish l) (segment_done w0 p).
Proof.
  unfold finish. hquiet. hquiet. apply hoare_ret. intros w Hw. simpl.
  by eapply amid_drop, amid_forget.
Qed.

Lemma done_on_exception pend l :
  hoare (amid w0 p (current_request <$> current l) pend) (on_exception l) (segment_done w0 p).
Proof.
  unfold on_exception. hquiet.
  eapply hoare_bind; [|intros ?; apply (done_finish None pend)].
  destruct (current l) as [h|]; simpl.
  - eapply hoare_bind; [apply amid_release|]. intros ?. by apply hoare_ret.
  - by apply hoare_ret.
Qed.

Lemma done_after_loop pend l :
  hoare (amid w0 p (current_request <$> current l) pend) (after_loop l) (segment_done w0 p).
Proof.
  unfold after_loop. destruct (current l) as [h|] eqn:Hcur; simpl.
  - destruct (py_index _ _).
    + hquiet. hquiet. eapply hoare_bind; [apply amid_release|]. intros ?. apply done_finish.
    + pose proof (done_on_exception pend l) as H. by rewrite Hcur in H.
  - apply done_finish.
Qed.

Lemma done_process_step pend l idx step :
  hoare (amid w0 p (current_request <$> current l) pend) (process_step l idx step)
        (segment_done w0 p).
Proof.
  unfold process_step. hquiet. destruct a.
  - apply hoare_ret. intros w Hw. simpl. by eapply amid_drop.
  - apply done_on_exception.
Qed.

Lemma done_fallback_step pend l idx step :
  hoare (amid w0 p (current_request <$> current l) pend) (fallback_step l idx step)
        (segment_done w0 p).
Proof.
  unfold fallback_step. hquiet. destruct a.
  - apply hoare_ret. intros w Hw. simpl. by eapply amid_drop.
  - apply done_on_exception.
Qed.

Lemma done_for_loop l idx rest :
  hoare (amid w0 p (current_request <$> current l) []) (for_loop l idx rest)
        (segment_done w0 p).
Proof.
  revert idx. induction rest as [|step rest IH]; intros idx; simpl.
  - apply done_after_loop.
  - hquiet. destruct a as [|x parts].
    + hquiet. apply IH.
    + eapply hoare_bind; [apply amid_requests|]. intros requests. simpl.
      hquiet. destruct a as [timeout_event|]; [|apply done_on_exception].
      hquiet. destruct (current l) eqn:Hcur; apply hoare_ret; intros w Hw; simpl;
        by rewrite Hcur.
Qed.

Lemma quietly_pick_next acquired rps next : quietly (pick_next acquired rps next).
Proof. revert next. induction rps as [|[req x] rps IH]; intros next; simpl; quiet; apply IH. Qed.

Lemma amid_adopt_first cur pend acquired rps cur0 :
  hoare (amid w0 p cur pend) (adopt_first acquired rps cur0)
        (λ cur', λ w, amid w0 p cur pend w ∧
                      (cur' = cur0 ∨ current_request <$> cur' = Some acquired)).
Proof.
  revert cur0. induction rps as [|[req x] rps IH]; intros cur0; simpl.
  - apply hoare_ret. intros w Hw. split; [done|by left].
  - destruct (decide (req = acquired)) as [->|Hne].
    + hquiet. eapply hoare_post; [apply IH|]. intros cur' w [Hw [->|H]]; split; try done;
        by right.
    + hquiet. apply IH.
Qed.

Lemma first_in_both result requests acquired :
  first_in result requests = Some acquired → acquired ∈ requests ∧ acquired ∈ result.
Proof.
  unfold first_in. intros H.
  destruct (list_find _ requests) as [[i x]|] eqn:Hf; simplify_eq/=.
  apply list_find_Some in Hf as (Hl & Hx & _).
  split; [by eapply list_elem_of_lookup_2 | done].
Qed.

Lemma amid_triggered cur pend (w : sim) x :
  amid w0 p cur pend w → is_triggered x w0 = true → is_triggered x w = true.
Proof. intros (Hs & _). apply after_triggered, Hs. Qed.

Section Resumed.
Variable result : list nat.
Hypothesis result_triggered : ∀ x, x ∈ result → is_triggered x w0 = true.

Lemma done_resume_first l idx step unit_available requests timeout_event :
  hoare (amid w0 p (current_request <$> current l) requests)
        (resume_first l idx step unit_available requests timeout_event result)
        (segment_done w0 p).
Proof.
  unfold resume_first. destruct (decide _).
  { hquiet. hquiet. apply done_finish. }
  destruct (first_in result requests) as [acquired|] eqn:Hfirst.
  2:{ hquiet. apply done_finish. }
  apply first_in_both in Hfirst as [Hreq Hres].
  eapply hoare_bind; [apply amid_adopt_first|]. intros cur'. simpl.
  intros w [Hw Hcur].
  destruct Hcur as [->|Hcur].
  - by apply (done_process_step requests (Locals (wafer_id l) (sorted_flow l) (current l))).
  - apply (done_process_step [] (Locals (wafer_id l) (sorted_flow l) cur')). simpl.
    rewrite Hcur. eapply amid_adopt; [exact Hw|done|].
    eapply amid_triggered; [exact Hw|]. by apply result_triggered.
Qed.

Lemma done_resume_next l h idx step unit_available requests timeout_event :
  current l = Some h →
  hoare (amid w0 p (Some (current_request h)) requests)
        (resume_next l h idx step unit_available requests timeout_event result)
        (segment_done w0 p).
Proof.
  intros Hcur.
  pose proof (done_fallback_step requests l idx step) as Hfall.
  pose proof (done_on_exception requests l) as Hexc.
  rewrite Hcur in Hfall, Hexc. simpl in Hfall, Hexc.
  unfold resume_next. destruct (decide _).
  { hquiet. hquiet. exact Hfall. }
  destruct (first_in result requests) as [acquired|] eqn:Hfirst.
  2:{ hquiet. exact Hfall. }
  apply first_in_both in Hfirst as [Hreq Hres].
  eapply hoare_bind; [apply hoare_quietly, quietly_pick_next|]. intros next.
  destruct (py_index _ _) as [prev|]; [|exact Hexc].
  hquiet. hquiet. eapply hoare_bind; [apply amid_release|]. intros ?. simpl.
  intros w Hw. destruct next as [x|].
  - apply (done_process_step [] (Locals (wafer_id l) (sorted_flow l)
             (Some (Held (part_resource x) acquired (part_name x) a)))). simpl.
    eapply amid_adopt; [exact Hw|done|].
    eapply amid_triggered; [exact Hw|]. by apply result_triggered.
  - by apply (done_process_step requests (Locals (wafer_id l) (sorted_flow l) None)).
Qed.

Lemma done_wafer_process g :
  hoare (amid w0 p (cur_of g) (pending_of g)) (wafer_process g result) (segment_done w0 p).
Proof.
  destruct g; simpl.
  - unfold start. hquiet. hquiet.
    destruct (sorted_by_seq _) eqn:Hflow.
    + hquiet. by apply hoare_ret.
    + apply (done_for_loop (Locals wafer (f :: l) None)).
  - apply done_resume_first.
  - destruct (current l) as [h|] eqn:Hcur.
    + by apply done_resume_next.
    + pose proof (done_on_exception requests l) as H. by rewrite Hcur in H.
  - eapply hoare_pre; [|apply done_for_loop]. intros w Hw. done.
  - eapply hoare_pre; [|apply done_for_loop]. intros w Hw. done.
Qed.

End Resumed.

End Wafer.

Lemma holds_own_steps a (w w' : sim) :
  own_steps a w w' → holds_ok_but a w → holds_ok_but a w'.
Proof.
  intros Hs H q pe g Hq Hpe Hg. destruct Hs as (Ha & Hr & Hact & Hp & Hc & Hk).
  rewrite Hp in Hpe. eapply held_ok_own_steps; [by split_and!|done|by eapply H].
Qed.

Lemma bases_own_steps (w w' : sim) :
  own_steps None w w' → (∀ q, base q w) → ∀ q, base q w'.
Proof. intros Hs H q. by eapply base_own_steps. Qed.

Lemma holds_weaken p (w : sim) : holds_ok_but None w → holds_ok_but (Some p) w.
Proof. intros H q pe g _. by apply H. Qed.

Lemma base_same_events q (w w' : sim) : events w' = events w → base q w → base q w'.
Proof. intros Heq. unfold base, granted. by rewrite Heq. Qed.

Lemma held_ok_same_events q cur pend (w w' : sim) :
  events w' = events w → held_ok q cur pend w → held_ok q cur pend w'.
Proof. intros Heq. unfold held_ok, granted, own_request. by rewrite Heq. Qed.

Lemma kernel_ok_set_generator p og (w : sim) :
  kernel_ok w → kernel_ok (set_generator p og w).2.
Proof.
  intros Hk. apply kernel_ok_set_procs; [done|].
  apply Forall_alter; [apply Hk|]. by intros pe _ Hpe.
Qed.

(** The three ways in which [Process._resume] ends. *)
Lemma suspend_resumed p k e (w0 w1 : sim) :
  kernel_ok w1 → after w0 w1 → active_process w1 = Some p → (∀ q, base q w1) →
  held_ok p (cur_of k) (pending_of k) w1 → holds_ok_but (Some p) w1 →
  resumed p w0 (bind (add_callback (Resume p) e) (λ _, set_generator p (Some k)) w1).2.
Proof.
  intros Hk Ha Hact Hb Hh Ho. rewrite bind_eq.
  pose proof (own_add_callback (Resume p) e w1 Hk I) as Hs.
  set (w2 := (add_callback (Resume p) e w1).2) in *.
  pose proof Hs as (Ha2 & Hr2 & Hact2 & Hp2 & Hc2 & Hk2).
  split_and!.
  - by apply kernel_ok_set_generator.
  - eapply after_trans; [exact Ha|]. eapply after_trans; [exact Ha2|]. by apply after_same_events.
  - simpl. congruence.
  - intros q. apply (base_same_events q w2); [done|]. by eapply base_own_steps.
  - intros _ q pe g _ Hpe Hg. apply (held_ok_same_events q _ _ w2); [done|].
    cbn [set_generator modify set_procs procs snd] in Hpe.
    destruct (decide (q = p)) as [->|Hne].
    + rewrite list_lookup_alter_eq in Hpe. destruct (procs w2 !! p); simplify_eq/=.
      by eapply held_ok_own_steps.
    + rewrite list_lookup_alter_ne in Hpe by done.
      eapply (holds_own_steps (Some p) w1 w2); [by apply own_steps_weaken|done| |done|done].
      congruence.
Qed.

Lemma return_resumed p (w0 w1 : sim) :
  kernel_ok w1 → after w0 w1 → active_process w1 = Some p → (∀ q, base q w1) →
  holds_ok_but (Some p) w1 →
  resumed p w0
    (match procs w1 !! p with
     | Some pe => bind (set_generator p None) (λ _, succeed (pevent pe)) w1
     | None => (tt, w1)
     end).2.
Proof.
  intros Hk Ha Hact Hb Ho. destruct (procs w1 !! p) as [pe|] eqn:Hpe.
  - rewrite bind_eq.
    set (w2 := (set_generator p None w1).2).
    assert (kernel_ok w2) as Hk2 by (by apply kernel_ok_set_generator).
    assert (own_steps None w2 (succeed (pevent pe) w2).2) as Hs.
    { apply own_succeed; [done|]. simpl.
      by apply (Forall_lookup_1 _ _ _ _ (pevent_valid w1 Hk) Hpe). }
    pose proof Hs as (Ha3 & Hr3 & Hact3 & Hp3 & Hc3 & Hk3).
    split_and!.
    + exact Hk3.
    + eapply after_trans; [exact Ha|]. eapply after_trans; [|exact Ha3].
      by apply after_same_events.
    + by rewrite Hact3.
    + intros q. eapply base_own_steps; [exact Hs|done|]. by apply (base_same_events q w1).
    + intros _ q pe' g _ Hq Hg. rewrite Hp3 in Hq.
      cbn [w2 set_generator modify set_procs procs snd] in Hq. unfold w2 in Hq.
      cbn [set_generator modify set_procs procs snd] in Hq.
      destruct (decide (q = p)) as [->|Hne].
      * rewrite list_lookup_alter_eq, Hpe in Hq. simplify_eq/=.
      * rewrite list_lookup_alter_ne in Hq by done.
        eapply held_ok_own_steps; [exact Hs|done|].
        apply (held_ok_same_events q _ _ w1); [done|].
        eapply Ho; [|done|done]. congruence.
  - split_and!; try done. intros _ q pe g _ Hq Hg.
    simpl in Hq. eapply Ho; [|done|done]. intros [= ->]. by rewrite Hpe in Hq.
Qed.

Lemma crash_resumed p (w0 w1 : sim) :
  kernel_ok w1 → after w0 w1 → active_process w1 = Some p → (∀ q, base q w1) →
  resumed p w0 (set_crashed w1) ∧
  resumed p w0 (bind (set_generator p None) (λ _, modify set_crashed) w1).2.
Proof.
  intros Hk Ha Hact Hb. split; split_and!; try done.
  - by apply kernel_ok_set_crashed.
  - rewrite bind_eq. by apply kernel_ok_set_crashed, kernel_ok_set_generator.
Qed.

Lemma value_is_triggered (w : sim) e :
  kernel_ok w →
  ∀ x, x ∈ match events w !! e with Some ev => value ev | None => [] end →
       is_triggered x w = true.
Proof.
  intros Hk x. destruct (events w !! e) as [ev|] eqn:He; [|by intros ?%elem_of_nil].
  destruct (kernel_ok_event w e ev Hk He) as (_ & _ & Hv).
  by apply (proj1 (Forall_forall _ _) Hv).
Qed.

Lemma resume_loop_resumed fuel p g v (w : sim) :
  kernel_ok w → active_process w = Some p → (∀ q, base q w) →
  held_ok p (cur_of g) (pending_of g) w → holds_ok_but (Some p) w →
  (∀ x, x ∈ v → is_triggered x w = true) →
  resumed p w (resume_loop wafer_process fuel p g v w).2.
Proof.
  revert g v w. induction fuel as [|fuel IH]; intros g v w Hk Hact Hb Hh Ho Hv.
  all: assert (amid w p (cur_of g) (pending_of g) w) as Hamid
         by (split_and!; [by apply own_steps_refl|done|done|done]).
  all: pose proof (done_wafer_process w p v Hv g w Hamid) as Hdone.
  all: simpl; destruct (wafer_process g v w) as [o w1]; simpl in Hdone.
  all: assert (∃ c pd, amid w p c pd w1) as (c & pd & Hs & Hact1 & Hb1 & Hh1)
         by (destruct o; eauto).
  all: pose proof Hs as (Ha1 & Hr1 & _ & Hp1 & Hc1 & Hk1).
  all: assert (holds_ok_but (Some p) w1) as Ho1 by (by eapply holds_own_steps).
  all: destruct o as [k e| | |].
  all: try (by apply return_resumed).
  all: try (by apply crash_resumed).
  - destruct (is_processed e w1); [by apply crash_resumed|].
    apply suspend_resumed; try done. apply Hdone.
  - destruct (is_processed e w1).
    + destruct (IH k (match events w1 !! e with Some ev => value ev | None => [] end) w1)
        as (Hk2 & Ha2 & Hact2 & Hb2 & Hh2); try done.
      * apply Hdone.
      * by apply value_is_triggered.
      * split_and!; try done. by eapply after_trans.
    + apply suspend_resumed; try done. apply Hdone.
Qed.

Lemma accounted_own_steps (w w' : sim) :
  accounted w → own_steps None w w' → accounted w'.
Proof.
  intros (Hk & Hact & Hb & Hh) Hs. pose proof Hs as (Ha1 & Hr1 & Hact1 & Hp1 & Hc1 & Hk1).
  split_and!; [done|congruence|by eapply bases_own_steps|].
  intros Hc. eapply holds_own_steps; [exact Hs|]. apply Hh. congruence.
Qed.

Lemma run_callback_accounted e cb (w : sim) :
  accounted w → crashed w = false → cb_valid w cb →
  accounted (run_callback wafer_process e cb w).2 ∧
  after w (run_callback wafer_process e cb w).2.
Proof.
  intros Hacc Hc Hcb. pose proof Hacc as (Hk & Hact & Hb & Hh).
  assert (∀ w', own_steps None w w' → accounted w' ∧ after w w') as Hquiet.
  { intros w' Hs. split; [by eapply accounted_own_steps|apply Hs]. }
  destruct cb; unfold run_callback.
  - apply Hquiet. by apply own_steps_refl.
  - apply Hquiet. by apply own_trigger_put.
  - apply Hquiet. by apply own_check.
  - apply Hquiet. by apply own_build_value.
  - destruct (procs w !! p) as [pe|] eqn:Hpe; [|apply Hquiet; by apply own_steps_refl].
    destruct (generator pe) as [g|] eqn:Hg; [|apply Hquiet; by apply own_steps_refl].
    set (v := match events w !! e with Some ev => value ev | None => [] end).
    destruct (resume_loop_resumed resume_fuel p g v (set_active (Some p) w))
      as (Hk2 & Ha2 & Hact2 & Hb2 & Hh2).
    + by apply kernel_ok_set_active.
    + done.
    + intros q. by apply (base_same_events q w).
    + apply (held_ok_same_events p _ _ w); [done|]. by eapply (Hh Hc).
    + intros q pe' g' _ Hq' Hg'. apply (held_ok_same_events q _ _ w); [done|].
      by eapply (Hh Hc).
    + intros x Hx. by apply (value_is_triggered w e Hk).
    + destruct (resume_loop _ _ _ _ _ _) as [[] w1]. simpl in *. split.
      * split_and!; try done. by apply kernel_ok_set_active.
      * eapply after_trans; [|eapply after_trans; [exact Ha2|]]; by apply after_same_events.
  - apply Hquiet. apply own_same_events; try done. by apply kernel_ok_set_stopped.
Qed.

Lemma callbacks_accounted e cbs (w : sim) :
  accounted w → Forall (cb_valid w) cbs →
  accounted (foldl (λ w cb, if stopped w || crashed w then w
                            else (run_callback wafer_process e cb w).2) w cbs).
Proof.
  revert w. induction cbs as [|cb cbs IH]; intros w Hacc Hcbs; simpl; [done|].
  apply Forall_cons in Hcbs as [Hcb Hcbs].
  destruct (stopped w || crashed w) eqn:Hsc; [by apply IH|].
  apply orb_false_iff in Hsc as [_ Hc].
  destruct (run_callback_accounted e cb w Hacc Hc Hcb) as [Hacc' Ha].
  apply IH; [done|]. eapply Forall_impl; [exact Hcbs|]. intros x. by apply cb_valid_after.
Qed.

Lemma step_accounted (w w' : sim) : accounted w → step wafer_process w = Some w' → accounted w'.
Proof.
  intros Hacc. pose proof Hacc as (Hk & Hact & Hb & Hh). unfold step.
  destruct (queue w) as [|[[[t pr] c] e] q] eqn:Hq; [done|].
  set (w1 := set_queue (λ _, q) (set_now t w)).
  assert (own_steps None w w1) as H1.
  { apply own_same_events; try done. apply (kernel_ok_same_events w); try done; try apply Hk.
    simpl. pose proof (queue_triggered w Hk) as Hqt. rewrite Hq in Hqt.
    by apply Forall_cons in Hqt as [_ Hqt]. }
  assert (accounted w1) as Hacc1 by (by eapply accounted_own_steps).
  assert (is_triggered e w1 = true) as Ht.
  { pose proof (queue_triggered w Hk) as Hqt. rewrite Hq in Hqt.
    by apply Forall_cons in Hqt as [Hqt _]. }
  destruct (events w1 !! e) as [ev|] eqn:He; intros [= <-]; [|done].
  destruct (kernel_ok_event w1 e ev ltac:(apply H1) He) as (Hcv & Hpt & Hvt).
  set (w2 := set_events (alter (λ ev, Event (kind ev) (triggered ev) None (proc ev) (value ev)) e)
                        w1).
  assert (own_steps None w1 w2) as H2.
  { apply own_alter; [apply H1|]. intros ev' He'. rewrite He in He'. injection He' as <-.
    simpl. split_and!; try done. intros _. unfold is_triggered in Ht. by rewrite He in Ht. }
  apply callbacks_accounted; [by eapply accounted_own_steps|].
  destruct (callbacks ev) as [cbs|]; simpl; [|done].
  eapply Forall_impl; [by apply Hcv|]. intros cb. apply cb_valid_after, H2.
Qed.

Lemma run_accounted n (w : sim) : accounted w → accounted (run n w).
Proof.
  unfold run. revert w. induction n as [|n IH]; intros w Hacc; simpl; [done|].
  destruct (stopped w || crashed w); [done|].
  destruct (step wafer_process w) as [w'|] eqn:Hs; [|done].
  apply IH. by eapply step_accounted.
Qed.

(** *** The start of a run *)

Lemma accounted_init (u : world) : accounted (init_env u).
Proof.
  split_and!; try done. intros q. split; simpl; constructor.
Qed.

Lemma new_resource_accounted cap (w : sim) : accounted w → accounted (new_resource cap w).2.
Proof.
  intros Hacc. eapply accounted_own_steps; [exact Hacc|].
  apply own_set_resources; [apply Hacc|].
  apply Forall_app. split; [apply Hacc|]. apply Forall_singleton. simpl. constructor.
Qed.

Lemma create_shared_accounted parts m (w : sim) :
  accounted w → accounted (create_shared parts m w).2.
Proof.
  revert m w. induction parts as [|x parts IH]; intros m w Hacc; simpl; [done|].
  rewrite bind_eq. apply IH. by apply new_resource_accounted.
Qed.

Lemma process_accounted wafer unit_flow (w : sim) :
  accounted w → accounted (process (At_start wafer unit_flow None) w).2.
Proof.
  intros (Hk & Hact & Hb & Hh).
  set (p := length (procs w)).
  set (w1 := (new_event (KProcess p) false [] w).2).
  set (w2 := set_procs (λ ps, ps ++ [ProcEntry (Some (At_start wafer unit_flow None))
                                               (length (events w))]) w1).
  set (w3 := (new_event (KInitialize p) true [Resume p] w2).2).
  assert (own_steps None w w1) as H1 by (by apply own_new_event).
  assert (kernel_ok w2) as Hk2.
  { apply kernel_ok_set_procs; [apply H1|]. apply Forall_app. split.
    - eapply Forall_impl; [apply H1|]. done.
    - apply Forall_singleton. unfold w1. simpl. rewrite length_app. simpl. lia. }
  assert (own_steps None w2 w3) as H3.
  { apply own_new_event; [done| |done]. by apply Forall_singleton. }
  assert (own_steps None w3 (schedule (length (events w2)) URGENT 0 w3).2) as H4.
  { apply own_schedule; [apply H3|]. unfold is_triggered, w3. simpl.
    by rewrite lookup_app_r, Nat.sub_diag. }
  assert ((process (At_start wafer unit_flow None) w).2
          = (schedule (length (events w2)) URGENT 0 w3).2) as -> by done.
  assert (accounted w2) as Hacc2.
  { destruct H1 as (Ha1 & Hr1 & Hact1 & Hp1 & Hc1 & Hk1). split_and!.
    - done.
    - simpl. congruence.
    - intros q. apply (base_same_events q w1); [done|].
      eapply base_own_steps; [by split_and!|done|done].
    - intros Hc q pe g _ Hq Hg. apply (held_ok_same_events q _ _ w1); [done|].
      unfold w2 in Hq. cbn [set_procs procs] in Hq. rewrite Hp1 in Hq.
      apply lookup_app_Some in Hq as [Hq|[_ Hq]].
      + eapply held_ok_own_steps; [by split_and!|done|].
        eapply Hh; [|done|done|done]. simpl in Hc. congruence.
      + destruct (q - length (procs w))%nat; [|done]. simplify_eq/=.
        split; [constructor|done]. }
  eapply accounted_own_steps; [|exact H4]. by eapply accounted_own_steps.
Qed.

Lemma processes_accounted unit_flow wafers (w : sim) :
  accounted w →
  accounted (mapM (λ wafer, process (At_start wafer unit_flow None)) wafers w).2.
Proof.
  revert w. induction wafers as [|x wafers IH]; intros w Hacc; simpl; [done|].
  rewrite !bind_eq. simpl. apply IH. by apply process_accounted.
Qed.

Lemma launch_accounted unit_capability unit_flow wafers :
  accounted (launch unit_capability unit_flow wafers).
Proof.
  unfold launch. rewrite bind_eq. apply processes_accounted.
  unfold MetalTool_init. rewrite bind_eq.
  eapply accounted_own_steps; [|apply own_set_user].
  - apply create_shared_accounted, accounted_init.
  - apply create_shared_accounted, accounted_init.
Qed.

(** *** Counting *)

Lemma released_length p (es : list event) :
  length (filter (λ ev, is_release_of p ev = true) es) = length (released_reqs p es).
Proof.
  unfold released_reqs. induction es as [|ev es IH]; [done|].
  assert ((is_release_of p ev = true ∧ ∃ req, released_by p ev = Some req) ∨
          (is_release_of p ev ≠ true ∧ released_by p ev = None)) as Hcase.
  { unfold is_release_of, released_by. destruct (kind ev); try (by right).
    destruct (bool_decide _); [left; eauto|by right]. }
  rewrite filter_cons. cbn [omap list_omap].
  destruct Hcase as [[H (req & ->)]|[H ->]];
    [rewrite decide_True by done|rewrite decide_False by done]; simpl; by rewrite ?IH.
Qed.

Lemma distinct_indices (Q : event → bool) (es : list event) (l : list nat) :
  NoDup l → (∀ i, i ∈ l → ∃ ev, es !! i = Some ev ∧ Q ev = true) →
  (length l ≤ length (filter (λ ev, Q ev = true) es))%nat.
Proof.
  revert l. induction es as [|ev es IH] using rev_ind; intros l Hnd Hl.
  - destruct l as [|i l]; [done|]. destruct (Hl i) as (? & ? & _); [by left|done].
  - rewrite filter_app, length_app.
    destruct (decide (length es ∈ l)) as [Hin|Hnin].
    + destruct (Hl _ Hin) as (ev' & Hev' & HQ).
      rewrite lookup_app_r, Nat.sub_diag in Hev' by done. injection Hev' as <-.
      apply elem_of_Permutation in Hin as [k Hk].
      rewrite Hk in Hnd. apply NoDup_cons in Hnd as [Hnk Hnd].
      rewrite Hk. rewrite filter_cons, decide_True by done. simpl.
      specialize (IH k Hnd). rewrite Nat.add_1_r. apply le_n_S, IH.
      intros i Hi. destruct (Hl i) as (ev' & Hev' & HQ'); [rewrite Hk; by right|].
      exists ev'. split; [|done].
      apply lookup_app_Some in Hev' as [?|[Hge Hev']]; [done|].
      destruct (i - length es)%nat eqn:Hd; [|done].
      assert (i = length es) as -> by lia. done.
    + specialize (IH l Hnd). etrans; [apply IH|lia].
      intros i Hi. destruct (Hl i Hi) as (ev' & Hev' & HQ'). exists ev'. split; [|done].
      apply lookup_app_Some in Hev' as [?|[Hge Hev']]; [done|].
      destruct (i - length es)%nat eqn:Hd; [|done].
      assert (i = length es) as -> by lia. done.
Qed.

Lemma accounted_releases (w : sim) p :
  accounted w → (grants_released w p ≤ grants_acquired w p)%nat.
Proof.
  intros (_ & _ & Hb & _). destruct (Hb p) as [Hnd Hg].
  unfold grants_released, grants_acquired. rewrite released_length.
  apply distinct_indices; [done|]. intros i Hi.
  by apply (proj1 (Forall_forall _ _) Hg).
Qed.

(** In every run of the wafer processes of a lot, at every turn of the
    scheduler, a wafer has released no more grants than it acquired. *)
Lemma releases_within_grants unit_capability unit_flow wafers n p :
  (grants_released (run n (launch unit_capability unit_flow wafers)) p
   ≤ grants_acquired (run n (launch unit_capability unit_flow wafers)) p)%nat.
Proof. apply accounted_releases, run_accounted, launch_accounted. Qed.

End AccountFacts.

(** ** tool_simulator.py: the hold-and-wait wafer process *)
Module WaferFacts.
Import Simpy ToolSimulator Spec WaferSteps KernelFacts Scenarios.

Lemma pick_next_spec acquired rps next (w : sim) :
  ∃ next' w',
    pick_next acquired rps next w = (next', w') ∧
    same_but_queues w w' ∧
    (acquired ∈ rps.*1 → ∃ p, next' = Some p ∧ (acquired, p) ∈ rps) ∧
    (acquired ∉ rps.*1 → next' = next).
Proof.
  revert next w. induction rps as [|[req p] rps IH]; intros next w; simpl.
  - exists next, w. split_and!; [done | apply same_but_queues_refl | | done].
    intros H. by apply elem_of_nil in H.
  - destruct (decide (req = acquired)) as [->|Hne].
    + destruct (IH (Some p) w) as (next' & w' & Heq & Hsame & Hin & Hnotin).
      exists next', w'. split_and!; [done | done | | ].
      * intros _. destruct (decide (acquired ∈ rps.*1)) as [Hi|Hi].
        -- destruct (Hin Hi) as (q & -> & ?). exists q. split; [done|]. by right.
        -- rewrite (Hnotin Hi). exists p. split; [done|]. by left.
      * intros H. exfalso. apply H. by left.
    + unfold bind.
      pose proof (cancel_untriggered_same req w) as Hc.
      destruct (cancel_untriggered req w) as [[] w1].
      destruct (IH next w1) as (next' & w' & Heq & Hsame & Hin & Hnotin).
      exists next', w'. split_and!; [done | | | ].
      * eapply same_but_queues_trans; [exact Hc | exact Hsame].
      * intros [?|Hi]%elem_of_cons; [done|].
        destruct (Hin Hi) as (q & -> & ?). exists q. split; [done|]. by right.
      * intros H. apply Hnotin. intros Hi. apply H. by right.
Qed.

Lemma first_in_elem result requests acquired :
  first_in result requests = Some acquired → acquired ∈ requests ∧ acquired ∈ result.
Proof.
  unfold first_in. intros H.
  destruct (list_find _ requests) as [[i x]|] eqn:Hf; simplify_eq/=.
  apply list_find_Some in Hf as (Hl & Hx & _).
  split; [by eapply list_elem_of_lookup_2 | done].
Qed.

Lemma fst_zip_same_length {A B} (l : list A) (k : list B) :
  length l = length k → (zip l k).*1 = l.
Proof. intros. apply fst_zip. lia. Qed.

Lemma released_snoc (es : list event) (ev : event) q :
  length (filter (λ ev, is_release_of q ev = true) (es ++ [ev])) =
  (length (filter (λ ev, is_release_of q ev = true) es) +
   if is_release_of q ev then 1 else 0)%nat.
Proof.
  rewrite filter_app, length_app. f_equal.
  rewrite filter_cons, filter_nil. destruct (is_release_of q ev); by case_decide.
Qed.

Lemma acquired_snoc (es : list event) (ev : event) q :
  length (filter (λ ev, is_grant_of q ev = true) (es ++ [ev])) =
  (length (filter (λ ev, is_grant_of q ev = true) es) +
   if is_grant_of q ev then 1 else 0)%nat.
Proof.
  rewrite filter_app, length_app. f_equal.
  rewrite filter_cons, filter_nil. destruct (is_grant_of q ev); by case_decide.
Qed.

Lemma alter_last {A} (f : A → A) (l : list A) (x : A) :
  alter f (length l) (l ++ [x]) = l ++ [f x].
Proof.
  replace (length l) with (length l + 0)%nat by lia. by rewrite alter_app_r.
Qed.

Lemma py_index_last {A} (l : list A) : py_index l (-1) = last l.
Proof.
  unfold py_index. change (-1 <? 0) with true. change (- -1) with 1. cbv iota.
  rewrite last_lookup. destruct l as [|x l]; [done|].
  destruct (Z.leb_spec 1 (Z.of_nat (length (x :: l)))) as [_|H]; [|simpl in H; lia].
  f_equal. simpl. lia.
Qed.

Lemma after_loop_finishes (l : locals) (h : held) (lst : flow_step) (w : sim) :
  current l = Some h → last (sorted_flow l) = Some lst →
  finishes l h lst w (after_loop l w).
Proof.
  intros Hcur Hlast. unfold finishes, after_loop. rewrite Hcur, py_index_last, Hlast.
  simpl. split_and!; try done.
  - unfold users_of. simpl. rewrite list_lookup_alter_eq.
    by destruct (resources w !! current_resource h).
  - apply lookup_insert_eq.
Qed.

Lemma for_loop_finishes (l : locals) (h : held) (lst : flow_step) (rest : list flow_step) :
  ∀ (idx : nat) (w : sim),
    current l = Some h → last (sorted_flow l) = Some lst →
    Forall (no_tools w) rest →
    finishes l h lst w (for_loop l idx rest w).
Proof.
  induction rest as [|st rest IH]; intros idx w Hcur Hlast Hno.
  - by apply after_loop_finishes.
  - apply Forall_cons in Hno as [Hst Hno]. cbn [for_loop].
    unfold bind at 1, gets. unfold no_tools in Hst. rewrite Hst.
    unfold bind at 1, print, modify.
    set (w1 := set_user _ w).
    apply (IH (S idx) w1 Hcur Hlast Hno).
Qed.

(** C5 (the code departs from it).  When a request for the next station
    comes back granted and the bounded wait did not time out, the wafer
    process appends a record for the part it holds, from the time that
    part was taken to now, releases that part, makes the granted request
    its current one and starts the timed processing of the step; when
    the flow is over (after the timed processing or the fallback wait of
    a step behind which only units without parts are left) it appends
    the last record, releases the part it holds and records the current
    time as the wafer's end time.  But the record is filed under the
    step before the current one, and the last record under the last
    step of the flow, not under the step for which the part was taken.
    With a flow "U1", "UX", "U3" in which "UX" has no parts, the wafer
    takes "P1" for "U1" at time 0, passes over "UX" and is granted "P3"
    at time 5: the interval of "P1" is logged as "UX" / 2 / "P1" / 0..5,
    a unit that the wafer never occupied and that does not have the
    part, and "U1" gets no record.  With the flow "U1", "UX" the last
    record is again "UX" / 2 / "P1" / 0..5.  In a run in which no step
    is passed over (two wafers on a line of three units) every record
    names a part of its unit. *)
Theorem handover_files_under_previous_step :
  (∀ (l : locals) (h : held) (idx : nat) (step prev : flow_step)
     (unit_available : list part) (requests : list nat) (timeout_event : nat)
     (result : list nat) (acquired : nat) (w : sim),
     current l = Some h →
     length requests = length unit_available →
     timeout_event ∉ result →
     first_in result requests = Some acquired →
     py_index (sorted_flow l) (Z.of_nat idx - 1) = Some prev →
     0 ≤ duration_min step →
     hands_over l h idx step prev unit_available requests acquired w
       (resumed_at_next l idx step unit_available requests timeout_event result w)) ∧
  (∀ (l : locals) (h : held) (idx : nat) (lst : flow_step) (g : wafer_gen)
     (v : list nat) (w : sim),
     current l = Some h →
     last (sorted_flow l) = Some lst →
     Forall (no_tools w) (drop (S idx) (sorted_flow l)) →
     g = At_process l idx ∨ g = At_fallback l idx →
     finishes l h lst w (wafer_process g v w)) ∧
  unit_to_parts (tool (user (skipped_run 0))) !! "U1"%string = Some [Part "P1" 0] ∧
  unit_to_parts (tool (user (skipped_run 0))) !! "UX"%string = None ∧
  generator <$> procs (skipped_run 5) =
    [Some (At_next skipped_locals 2 (FlowStep 3 "U3" 10 0 5 false) [Part "P3" 1] [6%nat] 7)] ∧
  wafer_log (user (skipped_run 5)) = [] ∧
  wafer_log (user (skipped_run 6)) = [LogEntry "LOT-W1" "UX" 2 "P1" 0 5] ∧
  live (skipped_run 8) 0 = false ∧
  wafer_log (user (skipped_run 8)) =
    [LogEntry "LOT-W1" "UX" 2 "P1" 0 5; LogEntry "LOT-W1" "U3" 3 "P3" 5 10] ∧
  filed_under_its_unit (skipped_run 8) <$> wafer_log (user (skipped_run 8)) = [false; true] ∧
  generator <$> procs (skipped_end_run 3) = [Some (At_process skipped_end_locals 0)] ∧
  live (skipped_end_run 4) 0 = false ∧
  wafer_log (user (skipped_end_run 4)) = [LogEntry "LOT-W1" "UX" 2 "P1" 0 5] ∧
  filed_under_its_unit (skipped_end_run 4) <$> wafer_log (user (skipped_end_run 4)) = [false] ∧
  filed_under_its_unit (line_run 30) <$> wafer_log (user (line_run 30)) =
    [true; true; true; true; true; true].
Proof.
  split; [|split].
  - intros l h idx step prev unit_available requests timeout_event result acquired w
           Hcur Hlen Hto Hfirst Hprev Hdur.
    unfold hands_over, resumed_at_next. simpl. rewrite Hcur. unfold resume_next.
    destruct (decide (timeout_event ∈ result)) as [|_]; [done|].
    rewrite Hfirst.
    destruct (first_in_elem _ _ _ Hfirst) as [Hin _].
    destruct (pick_next_spec acquired (zip requests unit_available) None w)
      as (next & w1 & Hpick & Hsame & Hsome & _).
    rewrite fst_zip_same_length in Hsome by done.
    destruct (Hsome Hin) as (p & -> & Hp).
    pose proof Hsame as (Hnow & Hev & Hq & Heid & Hprocs & Hact & Huser & Hst & Hcr & Hres).
    unfold process_step, timeout.
    destruct (Z.ltb_spec (duration_min step) 0); [lia|].
    unfold bind. rewrite Hpick, Hprev.
    eexists _, _, p. split; [reflexivity|].
    simpl. rewrite Huser, Hnow.
    split_and!; try done.
    + unfold users_of at 1. simpl. rewrite list_lookup_alter_eq.
      rewrite <- (users_of_same _ _ _ Hsame). unfold users_of.
      by destruct (resources w1 !! current_resource h).
    + intros q. unfold grants_released. simpl.
      rewrite alter_last, released_snoc, released_snoc. simpl.
      rewrite Hev, Hact. by rewrite Nat.add_0_r.
    + unfold yielded_delay. simpl.
      rewrite lookup_app_r; rewrite length_alter, length_app; simpl; [|lia].
      by replace (_ - _)%nat with 0%nat by lia.
  - intros l h idx lst g v w Hcur Hlast Hno [->| ->]; simpl;
      by apply for_loop_finishes.
  - vm_compute. repeat split.
Qed.

Lemma handover_files_under_previous_step_witness :
  hands_over skipped_locals skipped_held 2 (FlowStep 3 "U3" 10 0 5 false)
             (FlowStep 2 "UX" 10 0 5 false) [Part "P3" 1] [6%nat] 6 (skipped_run 5)
    (resumed_at_next skipped_locals 2 (FlowStep 3 "U3" 10 0 5 false) [Part "P3" 1]
                     [6%nat] 7 [6%nat] (skipped_run 5))
  ∧ finishes skipped_end_locals skipped_held (FlowStep 2 "UX" 10 0 5 false)
      (skipped_end_run 3)
      (wafer_process (At_process skipped_end_locals 0) [] (skipped_end_run 3)).
Proof.
  split.
  - apply (proj1 handover_files_under_previous_step skipped_locals skipped_held 2%nat
             (FlowStep 3 "U3" 10 0 5 false) (FlowStep 2 "UX" 10 0 5 false)
             [Part "P3" 1%nat] [6%nat] 7%nat [6%nat] 6%nat (skipped_run 5)).
    + reflexivity.
    + reflexivity.
    + apply (bool_decide_unpack _). vm_compute. exact I.
    + vm_compute. reflexivity.
    + vm_compute. reflexivity.
    + simpl. lia.
  - apply (proj1 (proj2 handover_files_under_previous_step) skipped_end_locals skipped_held 0%nat
             (FlowStep 2 "UX" 10 0 5 false) (At_process skipped_end_locals 0%nat) []
             (skipped_end_run 3)).
    + reflexivity.
    + reflexivity.
    + apply (bool_decide_unpack _). vm_compute. exact I.
    + by left.
Defined.

(** *** Withdrawing requests *)

Lemma remove_first_subseteq x y (l : list nat) :
  y ∈ list_remove_first x l → y ∈ l.
Proof.
  induction l as [|z l IH]; simpl; [done|].
  case_decide; [by right|]. intros [->|?]%elem_of_cons; [by left|right; auto].
Qed.

Lemma remove_first_nodup x (l : list nat) : NoDup l → NoDup (list_remove_first x l).
Proof.
  induction 1 as [|z l Hz Hl IH]; simpl; [constructor|].
  case_decide; [done|]. constructor; [|done].
  intros H'. apply Hz. by eapply remove_first_subseteq.
Qed.

Lemma remove_first_gone x (l : list nat) : NoDup l → x ∉ list_remove_first x l.
Proof.
  induction 1 as [|z l Hz Hl IH]; simpl; [apply not_elem_of_nil|].
  case_decide; [by subst|]. intros [->|?]%elem_of_cons; [done|by apply IH].
Qed.

Lemma put_queue_of_alter (w : sim) r (f : list nat → list nat) res :
  put_queue_of res
    (set_resources (alter (λ x, Resource (capacity x) (users x) (f (put_queue x))) r) w) =
  if decide (r = res) then
    match resources w !! r with Some x => f (put_queue x) | None => [] end
  else put_queue_of res w.
Proof.
  unfold put_queue_of. simpl. rewrite list_lookup_alter.
  case_decide; subst; [|done]. by destruct (resources w !! res).
Qed.

Lemma queues_own_lookup (w : sim) r e :
  queues_own w → e ∈ put_queue_of r w → resource_of e w = Some r.
Proof.
  unfold queues_own, put_queue_of. intros H He.
  destruct (resources w !! r) as [res|] eqn:Hr; [|by apply elem_of_nil in He].
  rewrite Forall_lookup in H. specialize (H r (r, res)).
  rewrite list_lookup_imap, Hr in H. specialize (H eq_refl). simpl in H.
  rewrite Forall_forall in H. by apply H.
Qed.

Lemma queues_nodup_lookup (w : sim) r : queues_nodup w → NoDup (put_queue_of r w).
Proof.
  unfold queues_nodup, put_queue_of. intros H.
  destruct (resources w !! r) eqn:Hr; [|constructor].
  rewrite Forall_lookup in H. by eapply H.
Qed.

(** One withdrawal: queues only shrink, and a request that was not
    triggered is in no queue afterwards. *)
Lemma cancel_untriggered_queues e (w : sim) :
  queues_nodup w → queues_own w →
  let w' := snd (cancel_untriggered e w) in
  events w' = events w ∧
  (∀ r x, x ∈ put_queue_of r w' → x ∈ put_queue_of r w) ∧
  (∀ r, NoDup (put_queue_of r w')) ∧
  (is_triggered e w = false → ∀ r, e ∉ put_queue_of r w').
Proof.
  intros Hnd Hown. unfold cancel_untriggered, cancel.
  destruct (is_triggered e w) eqn:Ht; simpl.
  { split_and!; [done|done| |done]. intros r. by apply queues_nodup_lookup. }
  destruct (resource_of e w) as [r0|] eqn:Hr; simpl.
  - split; [done|]. split_and!.
    + intros r x. rewrite put_queue_of_alter. case_decide; [subst|done].
      unfold put_queue_of. destruct (resources w !! r); [|done].
      apply remove_first_subseteq.
    + intros r. rewrite put_queue_of_alter. case_decide; [subst|by apply queues_nodup_lookup].
      pose proof (queues_nodup_lookup w r Hnd) as Hr'. unfold put_queue_of in Hr'.
      destruct (resources w !! r) eqn:Hx; [|constructor].
      by apply remove_first_nodup.
    + intros _ r. rewrite put_queue_of_alter. case_decide; [subst|].
      * pose proof (queues_nodup_lookup w r Hnd) as Hr'. unfold put_queue_of in Hr'.
        destruct (resources w !! r) eqn:Hx; [|apply not_elem_of_nil].
        by apply remove_first_gone.
      * intros He. apply queues_own_lookup in He; [|done]. congruence.
  - split_and!; [done|done| | ].
    + intros r. by apply queues_nodup_lookup.
    + intros _ r He. apply queues_own_lookup in He; [|done]. congruence.
Qed.

Lemma queues_of_lookups (w w' : sim) :
  events w' = events w →
  (∀ r x, x ∈ put_queue_of r w' → x ∈ put_queue_of r w) →
  (∀ r, NoDup (put_queue_of r w')) →
  queues_own w → queues_nodup w' ∧ queues_own w'.
Proof.
  intros Hev Hsub Hnd Hown. split.
  - apply Forall_lookup. intros r res Hr.
    specialize (Hnd r). unfold put_queue_of in Hnd. by rewrite Hr in Hnd.
  - apply Forall_lookup. intros r [r' res]. rewrite list_lookup_imap.
    destruct (resources w' !! r) as [res'|] eqn:Hr; [|done].
    intros [= <- <-]. simpl. apply Forall_forall. intros e He.
    assert (e ∈ put_queue_of r w') as Hin. { unfold put_queue_of. by rewrite Hr. }
    apply Hsub in Hin. apply queues_own_lookup in Hin; [|done].
    unfold resource_of in *. by rewrite Hev.
Qed.

Lemma cancel_all_queues es (w : sim) :
  queues_nodup w → queues_own w →
  let w' := snd (mapM cancel_untriggered es w) in
  (∀ r x, x ∈ put_queue_of r w' → x ∈ put_queue_of r w) ∧
  (∀ e r, e ∈ es → is_triggered e w = false → e ∉ put_queue_of r w').
Proof.
  revert w. induction es as [|e es IH]; intros w Hnd Hown; simpl.
  - split; [done|]. intros e r H. by apply elem_of_nil in H.
  - unfold bind.
    pose proof (cancel_untriggered_queues e w Hnd Hown) as (Hev & Hsub & Hnd1 & Hgone).
    destruct (cancel_untriggered e w) as [[] w1]. simpl in *.
    destruct (queues_of_lookups w w1 Hev Hsub Hnd1 Hown) as [Hnd' Hown'].
    specialize (IH w1 Hnd' Hown').
    destruct (mapM cancel_untriggered es w1) as [ys w2]. simpl in *.
    destruct IH as [Hsub2 Hgone2]. split.
    + intros r x Hx. by apply Hsub, Hsub2.
    + intros e' r [->|Hin]%elem_of_cons Ht.
      * intros Hx. apply Hsub2 in Hx. by eapply Hgone.
      * apply Hgone2; [done|]. unfold is_triggered in *. by rewrite Hev.
Qed.

(** C4 (as amended).  When the bounded wait for the next station comes
    back with the timeout, the wafer process withdraws every request for
    that station that is not yet triggered, prints the diagnostic, logs
    and releases nothing and keeps its current grant, and waits for the
    [duration_min] of the step it could not enter; when that wait is over
    it goes on with the following step of the flow: the step is not tried
    again.  And in every run, at every turn of the scheduler, a wafer has
    released no more grants than it acquired. *)
Theorem fallback_on_timeout
    (l : locals) (h : held) (idx : nat) (step : flow_step)
    (unit_available : list part) (requests : list nat) (timeout_event : nat)
    (result : list nat) (v : list nat) (w w2 : sim) :
  current l = Some h →
  timeout_event ∈ result →
  0 ≤ duration_min step →
  queues_nodup w → queues_own w →
  falls_back l idx step requests w
    (resumed_at_next l idx step unit_available requests timeout_event result w)
  ∧ wafer_process (At_fallback l idx) v w2
    = for_loop l (S idx) (drop (S idx) (sorted_flow l)) w2
  ∧ (∀ unit_capability unit_flow wafers n p,
       (grants_released (run n (launch unit_capability unit_flow wafers)) p
        ≤ grants_acquired (run n (launch unit_capability unit_flow wafers)) p)%nat).
Proof.
  intros Hcur Hto Hdur Hnd Hown.
  split; [|split; [reflexivity|intros; apply AccountFacts.releases_within_grants]].
  unfold falls_back, resumed_at_next. simpl. rewrite Hcur. unfold resume_next.
  destruct (decide (timeout_event ∈ result)) as [_|]; [|done].
  pose proof (cancel_all_same requests w) as Hsame.
  pose proof (cancel_all_queues requests w Hnd Hown) as [_ Hgone].
  unfold fallback_step, timeout.
  destruct (Z.ltb_spec (duration_min step) 0); [lia|].
  unfold bind.
  destruct (mapM cancel_untriggered requests w) as [ys w1]. simpl in *.
  pose proof Hsame as (Hnow & Hev & Hq & Heid & Hprocs & Hact & Huser & Hst & Hcr & Hres).
  eexists. split; [reflexivity|].
  rewrite Huser, Hnow. split_and!; try done.
  - intros res. unfold users_of at 1. simpl.
    by rewrite <- (users_of_same _ _ _ Hsame).
  - intros q. unfold grants_released. simpl.
    rewrite released_snoc. simpl. by rewrite Hev, Nat.add_0_r.
  - intros q. unfold grants_acquired. simpl.
    rewrite acquired_snoc. simpl. by rewrite Hev, Nat.add_0_r.
  - unfold yielded_delay. simpl.
    rewrite lookup_app_r by lia. by replace (_ - _)%nat with 0%nat by lia.
Qed.

Lemma fallback_on_timeout_witness :
  falls_back shared_locals 1 (FlowStep 2 "U2" 10 0 7 false) [6%nat] (shared_run 6)
    (resumed_at_next shared_locals 1 (FlowStep 2 "U2" 10 0 7 false) [Part "P" 0]
                     [6%nat] 7 [7%nat] (shared_run 6))
  ∧ wafer_process (At_fallback shared_locals 1) [] (shared_run 7)
    = for_loop shared_locals 2 (drop 2 (sorted_flow shared_locals)) (shared_run 7)
  ∧ (∀ unit_capability unit_flow wafers n p,
       (grants_released (run n (launch unit_capability unit_flow wafers)) p
        ≤ grants_acquired (run n (launch unit_capability unit_flow wafers)) p)%nat).
Proof.
  apply (fallback_on_timeout shared_locals shared_held 1 (FlowStep 2 "U2" 10 0 7 false)
           [Part "P" 0] [6%nat] 7 [7%nat] [] (shared_run 6) (shared_run 7)).
  - reflexivity.
  - apply (bool_decide_unpack _). vm_compute. exact I.
  - simpl. lia.
  - apply (bool_decide_unpack _). vm_compute. exact I.
  - apply (bool_decide_unpack _). vm_compute. exact I.
Defined.

(** C4 (as stated) fails: with the part of the next station taken for
    good (the wafer itself holds it for the current station), the wafer
    process waits once, prints the diagnostic once and ends: it does not
    repeat the step indefinitely. *)
Lemma wafer_ends_after_one_timeout :
  saturated_from shared_run 0 1 7 ∧
  stdout (user (shared_run 8)) = [Timeout_next "LOT-W1" "U2"] ∧
  wafer_log (user (shared_run 8)) = [LogEntry "LOT-W1" "U2" 2 "P" 0 1012] ∧
  end_time_tracker (user (shared_run 8)) !! "LOT-W1"%string = Some 1012 ∧
  ¬ repeats_indefinitely shared_run 0.
Proof.
  split_and!.
  - intros n [H1 H2].
    do 8 (destruct n as [|n]; [first [lia | vm_compute; reflexivity]|]). lia.
  - vm_compute. reflexivity.
  - vm_compute. reflexivity.
  - vm_compute. reflexivity.
  - intros H. specialize (H 8%nat). vm_compute in H. discriminate.
Qed.

(** C1 (the code departs from it).  In every run a wafer has released
    no more grants than it acquired, but it can hold more than two and
    keep some for ever: a wafer that asks a unit of three free chambers
    for a part is granted all three, adopts one and never gives back the
    other two.  It holds four grants at once when it moves on from the
    robot, and when it has left the tool it has released two of the four
    grants it acquired. *)
Theorem unadopted_grants_are_kept :
  (∀ unit_capability unit_flow wafers n p,
     (grants_released (run n (launch unit_capability unit_flow wafers)) p
      ≤ grants_acquired (run n (launch unit_capability unit_flow wafers)) p)%nat) ∧
  grants_held (chambers_run 5) 0 = 4%nat ∧
  live (chambers_run 14) 0 = false ∧
  queue (chambers_run 14) = [] ∧
  grants_acquired (chambers_run 14) 0 = 4%nat ∧
  grants_released (chambers_run 14) 0 = 2%nat ∧
  grants_held (chambers_run 14) 0 = 2%nat.
Proof.
  split; [intros; apply AccountFacts.releases_within_grants|].
  vm_compute. repeat split.
Qed.

End WaferFacts.

(** ** Flow models run on the kernel *)
Module FlowRunFacts.
Import Simpy FlowUnits FlowSim Spec Scenarios.

(** C9.  Station "A" with two slots and a service time of 5, three
    entities arriving at 0, 1 and 2: the first two start at 0 and 1 and
    finish at 5 and 6, the third starts at 5, when a slot frees, and
    finishes at 10; then the run is over. *)
Theorem station_A_timeline :
  service_log (run 40 station_A) =
    [(Pool_seized, Agent_ 0, 0); (Pool_seized, Agent_ 1, 1);
     (Pool_completed, Agent_ 0, 5); (Pool_seized, Agent_ 2, 5);
     (Pool_completed, Agent_ 1, 6); (Pool_completed, Agent_ 2, 10)] ∧
  queue (run 40 station_A) = [] ∧
  crashed (run 40 station_A) = false.
Proof. vm_compute. repeat split. Qed.

(** C2 (the code departs from it).  Every [simpy.Resource] stays within
    its capacity in every run of the tool simulator and of the wafer
    process.  But [SemiconductorToolUnit] makes a resource of its own for
    every name it is given, so a physical part that two units list is
    two resources of capacity 1 and serves two wafers at once;
    [MetalTool] makes one shared resource for it. *)
Theorem twice_listed_part_serves_two :
  (∀ unit_capability unit_flow uniform normal t fuel,
     capacity_kept
       (run_until flow_process t fuel
          (snd (SemiconductorToolSimulator.init unit_capability unit_flow uniform normal)))) ∧
  (∀ unit_capability unit_flow wafers n,
     capacity_kept
       (ToolSimulator.run n (ToolSimulator.launch unit_capability unit_flow wafers))) ∧
  SemiconductorToolSimulator.resources_named "P" (twice_listed_run 60) = [0%nat; 1%nat] ∧
  capacity_of 0 (twice_listed_run 60) = 1 ∧
  capacity_of 1 (twice_listed_run 60) = 1 ∧
  now (twice_listed_run 60) = 60 ∧
  part_holders "P" (twice_listed_run 60) = 2%nat ∧
  length (resources (ToolSimulator.launch twice_listed twice_listed_flow [])) = 1%nat.
Proof.
  split.
  { intros. apply CapacityFacts.capacity_kept_run_until.
    - apply CapacityFacts.keeps_flow_process.
    - apply CapacityFacts.capacity_kept_init. }
  split; [intros; apply CapacityFacts.capacity_kept_wafers|].
  vm_compute. repeat split.
Qed.

End FlowRunFacts.

(** ** The flow units, step by step *)
Module FlowFacts.
Import Simpy FlowUnits FlowSim Spec FlowSteps Scenarios.

(** C8.  A wafer that reaches a [SemiconductorToolUnit] without a step
    for its sequence position is not lost and stops nothing: the unit
    logs the warning, advances the wafer's sequence position by one and
    hands the wafer to the downstream unit. *)
Theorem missing_step_is_passed_on
    (u d : nat) (t : ToolUnit.t) (agent : Agent) (v : list nat) (w : sim) :
  units (user w) !! u = Some (UTool t) →
  ToolUnit.find_step t (current_seq_id agent) = None →
  output_port (ToolUnit.base t) = Some d →
  passes_on u d t agent w (flow_process (Receive u agent) v w).
Proof.
  intros Hu Hstep Hout. unfold passes_on.
  assert (u < length (units (user w)))%nat as Hlt by (by eapply lookup_lt_Some).
  cbn [flow_process]. unfold receive, bind, get_unit, gets. rewrite Hu.
  unfold ToolUnit.receive_agent.
  cbn [set_unit modify snd fst perform bind ret].
  unfold bind, ret, modify. cbn [user set_user units].
  assert (ToolUnit.find_step (ToolUnit.set_base (enter (ToolUnit.base t)) t)
                             (current_seq_id agent) = None) as -> by exact Hstep.
  unfold ToolUnit.skip_unit, send_agent. cbn [ToolUnit.base ToolUnit.set_base output_port enter].
  rewrite Hout. simpl.
  split_and!; try done.
  - by rewrite <- !app_assoc.
  - by rewrite list_insert_insert_eq.
  - eexists _, (S (length (events w))). split_and!; [reflexivity| |].
    + rewrite lookup_app_r; rewrite !length_app; simpl; [|lia].
      by replace (_ - _)%nat with 0%nat by lia.
    + rewrite Z.add_0_r, length_app. simpl. by rewrite Nat.add_1_r.
Qed.

Lemma missing_step_is_passed_on_witness :
  passes_on 1 2
    (ToolUnit.Build (Build_FlowUnit (Some 2%nat) 3 1) "U1" [("P"%string, 0%nat)]
                    [FlowStep 1 "U1" 50 0 50 false] ["P"%string] 0 false)
    (Build_Agent (Wafer_ 0 0) 0 0 0 2 []) (twice_listed_run 60)
    (flow_process (Receive 1 (Build_Agent (Wafer_ 0 0) 0 0 0 2 [])) [] (twice_listed_run 60)).
Proof.
  apply (missing_step_is_passed_on 1 2
           (ToolUnit.Build (Build_FlowUnit (Some 2%nat) 3 1) "U1" [("P"%string, 0%nat)]
                           [FlowStep 1 "U1" 50 0 50 false] ["P"%string] 0 false)
           (Build_Agent (Wafer_ 0 0) 0 0 0 2 []) [] (twice_listed_run 60)).
  - vm_compute. reflexivity.
  - vm_compute. reflexivity.
  - reflexivity.
Defined.

(** C7 (as stated) fails for [Queue]: it has no rejection counter.  A
    rejected arrival leaves its two counters exactly as an accepted one
    does; only the queue and the log tell them apart. *)
Lemma queue_counts_no_rejection :
  queue_counters (fst (Queue.receive_agent full_queue second_agent 5)) =
    queue_counters (fst (Queue.receive_agent roomy_queue second_agent 5)) ∧
  Queue.queue (fst (Queue.receive_agent full_queue second_agent 5)) = [(first_agent, 0)] ∧
  snd (Queue.receive_agent full_queue second_agent 5) =
    [Entered (Agent_ 1); Logged Queue_at_capacity (Agent_ 1) 5].
Proof. vm_compute. repeat split. Qed.

(** C7 (as amended).  An arrival at a [Queue] whose buffer is at
    capacity is not fatal: the queue counts it in [agents_entered], logs
    a warning and drops it (the buffer and [agents_exited] are unchanged,
    nothing is handed on); an arrival at a [Service] whose queue is at
    capacity is counted in, dropped with a warning, and [rejected_agents]
    goes up by one. *)
Theorem arrival_at_capacity_is_dropped
    (q : Queue.t) (s : Service.t) (agent : Agent) (now : Z) :
  below_capacity (Queue.queue q) (Queue.capacity q) = false →
  below_capacity (Service.queue s) (Service.queue_capacity s) = false →
  Queue.receive_agent q agent now =
    (Queue.Build (enter (Queue.base q)) (Queue.capacity q) (Queue.priority_func q)
                 (Queue.queue q),
     [Entered (id agent); Logged Queue_at_capacity (id agent) now])
  ∧ Service.receive_agent s agent now =
      (Service.reject (Service.set_base (enter (Service.base s)) s),
       [Entered (id agent); Logged Service_queue_full (id agent) now], None)
  ∧ Service.rejected_agents (fst (fst (Service.receive_agent s agent now))) =
      S (Service.rejected_agents s)
  ∧ Service.queue (fst (fst (Service.receive_agent s agent now))) = Service.queue s.
Proof.
  intros Hq Hs. unfold Queue.receive_agent, Service.receive_agent.
  rewrite Hq. cbn [Service.queue Service.set_base Service.queue_capacity]. rewrite Hs.
  done.
Qed.

Lemma arrival_at_capacity_is_dropped_witness :
  Queue.receive_agent full_queue second_agent 5 =
    (Queue.Build (enter (Queue.base full_queue)) (Queue.capacity full_queue)
                 (Queue.priority_func full_queue) (Queue.queue full_queue),
     [Entered (id second_agent); Logged Queue_at_capacity (id second_agent) 5])
  ∧ Service.receive_agent closed_service second_agent 5 =
      (Service.reject (Service.set_base (enter (Service.base closed_service)) closed_service),
       [Entered (id second_agent); Logged Service_queue_full (id second_agent) 5], None)
  ∧ Service.rejected_agents (fst (fst (Service.receive_agent closed_service second_agent 5))) =
      S (Service.rejected_agents closed_service)
  ∧ Service.queue (fst (fst (Service.receive_agent closed_service second_agent 5))) =
      Service.queue closed_service.
Proof.
  apply (arrival_at_capacity_is_dropped full_queue closed_service second_agent 5).
  - reflexivity.
  - reflexivity.
Defined.






(** *** A maximum of 0 *)

Section Relimit.
Variable u : nat.
Variable m : option Z.










End Relimit.


















End FlowFacts.

(** ** The flow nodes between two scheduler turns *)
Module NodeFacts.
Import FlowUnits Nodes Scenarios.

Lemma counted_app tr seg :
  counted_before_sent tr → counted_before_sent seg → counted_before_sent (tr ++ seg).
Proof.
  intros Ht Hs pre target a post Heq.
  apply app_eq_app in Heq as [l [[-> Hl] | [-> Hl]]].
  - destruct l as [|x l]; simpl in Hl.
    + symmetry in Hl. destruct (Hs [] target a post Hl) as [H|H]; by apply elem_of_nil in H.
    + injection Hl as <- ->. by eapply Ht.
  - destruct (Hs l target a post Hl) as [H|H]; [left|right]; apply elem_of_app; by right.
Qed.

Lemma counted_from_sound seen tr :
  counted_from seen tr →
  ∀ pre target a post, tr = pre ++ Sent target a :: post →
    id a ∈ seen ∨ Entered (id a) ∈ pre ∨ Exited (id a) ∈ pre.
Proof.
  revert seen. induction tr as [|ev tr IH]; intros seen H pre target a post Heq.
  - by destruct pre.
  - destruct pre as [|ev' pre]; simpl in Heq; injection Heq as -> Heq.
    + simpl in H. left. apply H.
    + assert (∀ seen', counted_from seen' tr →
                id a ∈ seen' ∨ Entered (id a) ∈ pre ∨ Exited (id a) ∈ pre) as IH'.
      { intros seen' H'. by eapply IH. }
      destruct ev'; simpl in H.
      * destruct (IH' _ H) as [[->|?]%elem_of_cons|[?|?]];
          [right; left; by left | by left | right; left; by right | right; right; by right].
      * destruct (IH' _ H) as [[->|?]%elem_of_cons|[?|?]];
          [right; right; by left | by left | right; left; by right | right; right; by right].
      * destruct H as [_ H]. destruct (IH' _ H) as [?|[?|?]];
          [by left | right; left; by right | right; right; by right].
      * destruct (IH' _ H) as [?|[?|?]];
          [by left | right; left; by right | right; right; by right].
      * destruct (IH' _ H) as [?|[?|?]];
          [by left | right; left; by right | right; right; by right].
Qed.

Lemma counted_from_nil tr : counted_from [] tr → counted_before_sent tr.
Proof.
  intros H pre target a post Heq.
  destruct (counted_from_sound [] tr H pre target a post Heq) as [Hn|?]; [|done].
  by apply elem_of_nil in Hn.
Qed.

Lemma counted_from_mono seen seen' tr :
  seen ⊆ seen' → counted_from seen tr → counted_from seen' tr.
Proof.
  revert seen seen'. induction tr as [|ev tr IH]; intros seen seen' Hsub H; [done|].
  destruct ev; simpl in *.
  - eapply IH; [|exact H]. by apply list_subseteq_skip.
  - eapply IH; [|exact H]. by apply list_subseteq_skip.
  - destruct H as [Hin H]. split; [set_solver|by eapply IH].
  - by eapply IH.
  - by eapply IH.
Qed.

Lemma counted_from_app seen l1 l2 :
  counted_from seen l1 → counted_from seen l2 → counted_from seen (l1 ++ l2).
Proof.
  revert seen. induction l1 as [|ev l1 IH]; intros seen H1 H2; [done|].
  destruct ev; simpl in *.
  - apply IH; [done|]. eapply counted_from_mono; [|exact H2]. set_solver.
  - apply IH; [done|]. eapply counted_from_mono; [|exact H2]. set_solver.
  - destruct H1. split; [done|by apply IH].
  - by apply IH.
  - by apply IH.
Qed.

Lemma counted_send seen (b : FlowUnit) (a : Agent) now :
  id a ∈ seen → counted_from seen (send_agent b a now).
Proof. intros H. unfold send_agent. destruct (output_port b); simpl; auto. Qed.

Lemma counted_forward_batch seen b batch now :
  counted_from seen (snd (Combine.forward_batch b batch now)).
Proof.
  revert seen b. induction batch as [|a batch IH]; intros seen b; simpl; [done|].
  specialize (IH (id a :: seen) (exit b)).
  destruct (Combine.forward_batch (exit b) batch now) as [b' tr]. simpl in *.
  apply counted_from_app; [|done]. apply counted_send. by left.
Qed.

Lemma rejections_app l1 l2 : rejections (l1 ++ l2) = (rejections l1 + rejections l2)%nat.
Proof. induction l1 as [|ev l1 IH]; simpl; [done|]. rewrite IH. lia. Qed.

Lemma rejections_send b a now : rejections (send_agent b a now) = 0%nat.
Proof. unfold send_agent. by destruct (output_port b). Qed.

Lemma forward_batch_counts b batch now :
  agents_entered (fst (Combine.forward_batch b batch now)) = agents_entered b ∧
  agents_exited (fst (Combine.forward_batch b batch now)) = (agents_exited b + length batch)%nat ∧
  rejections (snd (Combine.forward_batch b batch now)) = 0%nat.
Proof.
  revert b. induction batch as [|a batch IH]; intros b; simpl.
  - split_and!; [done|lia|done].
  - specialize (IH (exit b)).
    destruct (Combine.forward_batch (exit b) batch now) as [b' tr]. simpl in *.
    destruct IH as (-> & -> & Hf). split_and!; [done|lia|].
    by rewrite rejections_app, rejections_send, Hf.
Qed.

Ltac open_step :=
  repeat match goal with
         | H : _ = (_, _) |- _ => revert H
         end.

Lemma counted_try_forward seen q now :
  counted_from seen (snd (Queue.try_forward_agent q now)).
Proof.
  unfold Queue.try_forward_agent.
  destruct (Queue.queue q) as [|[a p] rest]; [done|].
  destruct (output_port (Queue.base q)) eqn:Ho; [|done].
  simpl. unfold send_agent. rewrite Ho. simpl. split; [by left|done].
Qed.

Lemma counted_process_batch seen c now :
  counted_from seen (snd (Combine.process_batch c now)).
Proof.
  unfold Combine.process_batch.
  pose proof (counted_forward_batch seen (Combine.base c)
                (slice_to (Combine.waiting_agents c) (Combine.required_agents c)) now) as H.
  destruct (Combine.forward_batch _ _ _) as [b tr]. exact H.
Qed.

(** Every segment counts before it sends. *)
Lemma step_counted n seg n' : node_step n seg n' → counted_before_sent seg.
Proof.
  intros H. apply counted_from_nil. destruct H; open_step.
  - unfold Source.generate. intros [= <- <-]. simpl. apply counted_send. by left.
  - unfold Queue.receive_agent.
    destruct (below_capacity _ _); [|by intros [= <- <-]].
    match goal with |- context [Queue.try_forward_agent ?q0 now] =>
      pose proof (λ seen, counted_try_forward seen q0 now) as Hf;
      destruct (Queue.try_forward_agent q0 now) as [q1 tr1] end.
    intros [= <- <-]. simpl. apply Hf.
  - unfold Delay.receive_agent. destruct (below_capacity _ _); by intros [= <- <- <-].
  - unfold Delay.complete. intros [= <- <-]. simpl. apply counted_send. by left.
  - unfold ResourcePool.receive_agent. by intros [= <- <- <-].
  - done.
  - unfold ResourcePool.complete. intros [= <- <-]. simpl. apply counted_send. by left.
  - unfold Service.receive_agent. destruct (below_capacity _ _); [|by intros [= <- <- <-]].
    destruct (Service.take_next _ _) as [[? ?]|]; by intros [= <- <- <-].
  - unfold Service.start_service. by intros [= <- <-].
  - unfold Service.complete.
    destruct (Service.take_next _ _) as [[? ?]|]; intros [= <- <- <-]; simpl;
      apply counted_send; by left.
  - unfold SelectOutput.receive_agent. intros [= <- <-].
    destruct condition; [destruct (SelectOutput.true_output s)|destruct (SelectOutput.false_output s)];
      simpl; try done; (split; [by left|done]).
  - unfold Combine.receive_agent.
    destruct (_ <=? _).
    + match goal with |- context [Combine.process_batch ?c0 now] =>
        pose proof (counted_process_batch [id (set_current_time now agent)] c0 now) as Hb;
        destruct (Combine.process_batch c0 now) as [c2 tr2] end.
      intros [= <- <- <-]. simpl. exact Hb.
    + destruct (Combine.timeout _) as [d|]; by intros [= <- <- <-].
  - done.
  - unfold Combine.timeout_process.
    destruct (Combine.waiting_agents c) eqn:Hw; [by intros [= <- <-]|].
    case_decide; [|by intros [= <- <-]].
    pose proof (counted_process_batch [] c now) as Hb.
    destruct (Combine.process_batch c now) as [c2 tr2].
    intros [= <- <-]. simpl. exact Hb.
  - unfold Sink.receive_agent. by intros [= <- <-].
  - unfold ToolUnit.receive_agent, ToolUnit.skip_unit. intros [= <- <-] [= <- <-].
    simpl. apply counted_send. by left.
  - unfold ToolUnit.receive_agent, ToolUnit.zero_duration. intros [= <- <-] [= <- <-].
    simpl. apply counted_send. by left.
  - unfold ToolUnit.receive_agent. by intros [= <- <-].
  - unfold ToolUnit.complete. intros [= <- <-]. simpl. apply counted_send. by left.
  - unfold WaferSource.generate. intros [= <- <-]. simpl. apply counted_send. by left.
  - done.
  - unfold FlowController.receive_agent, FlowController.complete. intros [= <- <-] [= <- <-].
    simpl. apply counted_send. by left.
  - unfold FlowController.receive_agent. by intros [= <- <-].
  - unfold FlowController.complete. intros [= <- <-]. simpl. apply counted_send. by left.
Qed.

Lemma take_next_counts s now s' next :
  Service.take_next s now = Some (s', next) →
  Service.base s' = Service.base s ∧
  Service.rejected_agents s' = Service.rejected_agents s ∧
  length (Service.queue s) = S (length (Service.queue s')).
Proof.
  unfold Service.take_next. destruct (Service.queue s) as [|[a p] rest] eqn:Hq; [done|].
  cbn [Service.set_queue Service.queue_start_times Service.queue].
  destruct (_ !! id a); intros [= <- <-]; done.
Qed.

Lemma take_next_none s now :
  Service.take_next s now = None → Service.queue s = [].
Proof.
  unfold Service.take_next. destruct (Service.queue s) as [|[a p] rest]; [done|].
  by destruct (_ !! id a).
Qed.

Lemma length_priority_insert a p q : length (priority_insert a p q) = S (length q).
Proof.
  induction q as [|[b r] q IH]; simpl; [done|]. destruct (p <? r); simpl; [done|]. by rewrite IH.
Qed.

Lemma slice_lengths {A} (l : list A) k :
  (length (slice_to l k) + length (slice_from l k))%nat = length l.
Proof. unfold slice_to, slice_from. rewrite <- length_app, take_drop. done. Qed.

Lemma process_batch_counts c now :
  agents_entered (Combine.base (fst (Combine.process_batch c now))) =
    agents_entered (Combine.base c) ∧
  (agents_exited (Combine.base (fst (Combine.process_batch c now))) +
   length (Combine.waiting_agents (fst (Combine.process_batch c now))))%nat =
    (agents_exited (Combine.base c) + length (Combine.waiting_agents c))%nat ∧
  rejections (snd (Combine.process_batch c now)) = 0%nat.
Proof.
  unfold Combine.process_batch.
  pose proof (forward_batch_counts (Combine.base c)
                (slice_to (Combine.waiting_agents c) (Combine.required_agents c)) now)
    as (He & Hx & Hr).
  pose proof (slice_lengths (Combine.waiting_agents c) (Combine.required_agents c)) as Hl.
  destruct (Combine.forward_batch _ _ _) as [b tr]. simpl in *.
  split_and!; [done|lia|done].
Qed.

(** One segment keeps the books balanced. *)
Lemma step_conserved n seg n' tr :
  node_step n seg n' → counts_on_entry n = true →
  conserved n tr → conserved n' (tr ++ seg) ∧ counts_on_entry n' = true.
Proof.
  unfold conserved, entered, exited.
  intros H Hk. destruct H; try discriminate Hk; open_step;
    cbn [base_of held rejected counts_on_entry]; rewrite ?rejections_app.
  - (* Queue *)
    unfold Queue.receive_agent, Queue.try_forward_agent.
    destruct (below_capacity _ _).
    + cbn [Queue.queue Queue.base Queue.capacity Queue.priority_func].
      destruct (Queue.priority_func q) as [f|].
      * pose proof (length_priority_insert (set_current_time now agent)
                      (f (set_current_time now agent)) (Queue.queue q)) as Hl.
        destruct (priority_insert _ _ _) as [|[a p] rest]; [done|].
        destruct (output_port (enter (Queue.base q))) eqn:Ho;
          intros [= <- <-]; simpl in *; rewrite ?rejections_send; simpl; intros; split; [lia|done|lia|done].
      * pose proof (length_app (Queue.queue q) [(set_current_time now agent, 0)]) as Hl.
        destruct (Queue.queue q ++ _) as [|[a p] rest]; [simpl in Hl; lia|].
        destruct (output_port (enter (Queue.base q))) eqn:Ho;
          intros [= <- <-]; simpl in *; rewrite ?rejections_send; simpl; intros; split; [lia|done|lia|done].
    + intros [= <- <-]. simpl. intros. split; [lia|done].
  - (* Pool receives *)
    unfold ResourcePool.receive_agent. intros [= <- <- <-]. simpl.
    rewrite length_app. simpl. intros. split; [lia|done].
  - (* Pool seizes *)
    simpl. intros. split; [lia|done].
  - (* Pool completes *)
    unfold ResourcePool.complete. intros [= <- <-]. simpl. rewrite rejections_send.
    rewrite length_delete by eauto.
    apply lookup_lt_Some in H. intros. split; [lia|done].
  - (* Service receives *)
    unfold Service.receive_agent. destruct (below_capacity _ _).
    + destruct (Service.take_next _ _) as [[s4 nxt]|] eqn:Ht.
      * apply take_next_counts in Ht as (Hb & Hr & Hl).
        intros [= <- <- <-]. rewrite Hb, Hr. simpl in *. rewrite length_app. simpl.
        destruct (Service.priority_func s); simpl in Hl;
          rewrite ?length_priority_insert, ?length_app in Hl; simpl in Hl;
          intros; split; [lia|done|lia|done].
      * apply take_next_none in Ht. simpl in Ht.
        destruct (Service.priority_func s).
        -- pose proof (length_priority_insert (set_current_time now agent)
                         (z (set_current_time now agent)) (Service.queue s)) as Hl.
           rewrite Ht in Hl. done.
        -- by destruct (Service.queue s).
    + intros [= <- <- <-]. simpl. rewrite app_nil_r. intros. split; [lia|done].
  - (* Service starts *)
    unfold Service.start_service. intros [= <- <-]. simpl. intros. split; [lia|done].
  - (* Service completes *)
    unfold Service.complete.
    apply lookup_lt_Some in H.
    destruct (Service.take_next _ _) as [[s4 nxt]|] eqn:Ht.
    + apply take_next_counts in Ht as (Hb & Hr & Hl).
      intros [= <- <- <-]. rewrite Hb, Hr. rewrite length_app, length_delete by (by apply lookup_lt_is_Some).
      revert Hl. cbn [Service.queue Service.set_base Service.base Service.rejected_agents
                       Service.set_processing].
      destruct (Service.service_start_times _ !! id agent); simpl; intros; split; [lia|done|lia|done].
    + apply take_next_none in Ht.
      intros [= <- <- <-]. rewrite length_app, length_delete by (by apply lookup_lt_is_Some).
      revert Ht. cbn [Service.queue Service.set_base Service.base Service.rejected_agents
                       Service.set_processing].
      destruct (Service.service_start_times _ !! id agent); simpl;
        intros ->; simpl; intros; split; [lia|done|lia|done].
  - (* SelectOutput *)
    unfold SelectOutput.receive_agent. intros [= <- <-]. simpl.
    rewrite !rejections_app. 
    destruct condition; [destruct (SelectOutput.true_output s)|destruct (SelectOutput.false_output s)];
      simpl; intros; split; [lia|done|lia|done|lia|done|lia|done].
  - (* Combine receives *)
    unfold Combine.receive_agent.
    destruct (_ <=? _).
    + match goal with |- context [Combine.process_batch ?c0 now] =>
        pose proof (process_batch_counts c0 now) as (He & Hx & Hr);
        destruct (Combine.process_batch c0 now) as [c2 tr2] end.
      intros [= <- <- <-]. simpl in *. rewrite Hr, He.
      rewrite length_app in Hx. simpl in Hx. intros. split; [lia|done].
    + destruct (Combine.timeout _) as [d|]; intros [= <- <- <-];
        simpl; rewrite length_app; simpl; intros; split; [lia|done|lia|done].
  - (* Combine: a timer starts *)
    simpl. intros. split; [lia|done].
  - (* Combine times out *)
    unfold Combine.timeout_process.
    destruct (Combine.waiting_agents c) eqn:Hw;
      [intros [= <- <-]; rewrite Hw; simpl; intros; split; [lia|done]|].
    case_decide; [|intros [= <- <-]; rewrite Hw; simpl; intros; split; [lia|done]].
    pose proof (process_batch_counts c now) as (He & Hx & Hr).
    destruct (Combine.process_batch c now) as [c2 tr2].
    intros [= <- <-]. simpl in *. rewrite Hr, He. rewrite Hw in Hx. simpl in Hx.
    intros. split; [lia|done].
  - (* Sink *)
    unfold Sink.receive_agent. intros [= <- <-]. simpl. rewrite length_app. simpl.
    intros. split; [lia|done].
  - (* Tool: no step *)
    unfold ToolUnit.receive_agent, ToolUnit.skip_unit. intros [= <- <-] [= <- <-]. simpl.
    rewrite rejections_send. intros. split; [lia|done].
  - (* Tool: a step of no duration *)
    unfold ToolUnit.receive_agent, ToolUnit.zero_duration. intros [= <- <-] [= <- <-]. simpl.
    rewrite rejections_send. intros. split; [lia|done].
  - (* Tool receives *)
    unfold ToolUnit.receive_agent. intros [= <- <-].
    assert (ToolUnit.base u2 = enter (ToolUnit.base u)) as ->.
    { revert H2. unfold ToolUnit.get_next_resource. cbn [ToolUnit.resource_names ToolUnit.set_base].
      destruct (ToolUnit.resource_names u) as [|x [|y l]]; cbn [ToolUnit.resource_index];
        try (destruct (_ !! _)); by intros [= <- <-]. }
    simpl. rewrite length_app. simpl. intros. split; [lia|done].
  - (* Tool completes *)
    unfold ToolUnit.complete. intros [= <- <-]. simpl. rewrite rejections_send.
    rewrite length_delete by eauto.
    apply lookup_lt_Some in H. intros. split; [lia|done].
  - (* Controller: nothing to wait for *)
    unfold FlowController.receive_agent, FlowController.complete. intros [= <- <-] [= <- <-].
    simpl. rewrite rejections_send. intros. split; [lia|done].
  - (* Controller receives *)
    unfold FlowController.receive_agent. intros [= <- <-]. simpl. rewrite length_app. simpl.
    intros. split; [lia|done].
  - (* Controller completes *)
    unfold FlowController.complete. intros [= <- <-]. simpl. rewrite rejections_send.
    rewrite length_delete by eauto.
    apply lookup_lt_Some in H. intros. split; [lia|done].
Qed.

Lemma agent_eqb_key a b : agent_eqb a b = true ↔ agent_key a = agent_key b.
Proof.
  unfold agent_eqb, agent_key. rewrite andb_true_iff, bool_decide_eq_true, Z.eqb_eq.
  split; [by intros [-> ->]|by intros [= -> ->]].
Qed.

Lemma remove_agent_keys a l :
  agent_key a ∈ agent_key <$> l →
  agent_key <$> l ≡ₚ agent_key a :: (agent_key <$> remove_agent a l).
Proof.
  induction l as [|b l IH]; simpl; [by intros ?%elem_of_nil|].
  destruct (agent_eqb a b) eqn:Hab.
  - apply agent_eqb_key in Hab as ->. done.
  - intros [Heq|Hin]%elem_of_cons.
    + apply agent_eqb_key in Heq. congruence.
    + rewrite fmap_cons, (IH Hin) at 1. apply Permutation_swap.
Qed.

Lemma delay_completes_frames d frames i agent :
  frames !! i = Some agent →
  agent_key <$> frames ≡ₚ agent_key <$> Delay.processing_agents d →
  agent_key <$> delete i frames
    ≡ₚ agent_key <$> remove_agent agent (Delay.processing_agents d)
  ∧ length (Delay.processing_agents d)
    = S (length (remove_agent agent (Delay.processing_agents d))).
Proof.
  intros Hi Hm.
  assert (agent_key <$> frames ≡ₚ agent_key agent :: (agent_key <$> delete i frames)) as Hf.
  { rewrite list_fmap_delete. apply delete_Permutation. by rewrite list_lookup_fmap, Hi. }
  assert (agent_key agent ∈ agent_key <$> Delay.processing_agents d) as Hin.
  { rewrite <- Hm, Hf. by left. }
  pose proof (remove_agent_keys agent _ Hin) as Hp.
  split.
  - apply (Permutation_cons_inv (a := agent_key agent)). by rewrite <- Hf, Hm.
  - apply Permutation_length in Hp. by rewrite !length_fmap in Hp; simpl in Hp; rewrite length_fmap in Hp.
Qed.

Lemma step_balance n seg n' tr :
  node_step n seg n' → balance n tr → frames_match n →
  balance n' (tr ++ seg) ∧ frames_match n'.
Proof.
  intros H Hb Hf. destruct (counts_on_entry n) eqn:Hk.
  - destruct (step_conserved n seg n' tr H Hk) as [Hc Hk']; [by destruct n|].
    by destruct n'.
  - destruct H; try discriminate Hk; open_step;
      unfold balance, frames_match, entered, exited in *; cbn [base_of held] in *.
    + (* Source *)
      unfold Source.generate. intros [= <- <-]. simpl. split; [|done].
      destruct Hb as [-> ->]. done.
    + (* Delay receives *)
      unfold Delay.receive_agent. destruct (below_capacity _ _); intros [= <- <- <-]; simpl.
      * rewrite length_app, !fmap_app. simpl. split; [lia|]. by rewrite Hf.
      * by rewrite app_nil_r.
    + (* Delay completes *)
      unfold Delay.complete. intros [= <- <-]. simpl.
      destruct (delay_completes_frames d frames i agent H Hf) as [Hp Hl].
      split; [lia|done].
    + (* WaferSource generates *)
      unfold WaferSource.generate. intros [= <- <-]. simpl. split; [|done].
      destruct Hb as [-> ->]. done.
    + (* WaferSource: the lot is over *)
      done.
Qed.

Lemma fresh_balance n : fresh n → balance n [] ∧ frames_match n.
Proof.
  intros (He & Hx & Hrest). unfold balance, conserved, frames_match.
  destruct n; rewrite ?He, ?Hx; simpl in *; destruct_and?; subst; simpl;
    repeat match goal with H : _ = [] |- _ => rewrite H end;
    unfold entered, exited in *; simpl in *; try done; split; congruence.
Qed.

Lemma reachable_balance n tr : reachable n tr → balance n tr ∧ frames_match n.
Proof.
  induction 1 as [n Hf | n tr seg n' Hr [Hb Hm] Hs].
  - by apply fresh_balance.
  - by eapply step_balance.
Qed.

(** C3 (as amended).  For a flow node that any sequence of segments of
    its generators has brought from its initial state: if it is a
    [Queue], [ResourcePool], [Service], [SelectOutput], [Combine], [Sink],
    [SemiconductorToolUnit] or [FlowController], [agents_entered] equals
    [agents_exited] plus the agents it holds plus the arrivals it turned
    away; a [Source] or [WaferSource] has entered none and exited as many
    as it generated; a [Delay] has entered as many as it has exited and
    holds, the arrivals it turned away being counted nowhere; and
    whatever the node, each hand-off of an agent comes after an increment
    of [agents_entered] or [agents_exited] made for it. *)
Theorem conservation_of_agents (n : node) (tr : list trace_event) :
  reachable n tr → balance n tr ∧ counted_before_sent tr.
Proof.
  intros Hr. split; [by apply reachable_balance|].
  induction Hr as [n Hf | n tr seg n' Hr IH Hs].
  - intros pre target a post Heq. by destruct pre.
  - apply counted_app; [done|]. by eapply step_counted.
Qed.

Lemma conservation_of_agents_witness :
  balance (NQueue (fst second_arrival)) (([] ++ snd first_arrival) ++ snd second_arrival)
  ∧ counted_before_sent (([] ++ snd first_arrival) ++ snd second_arrival).
Proof.
  apply (conservation_of_agents (NQueue (fst second_arrival))
           (([] ++ snd first_arrival) ++ snd second_arrival)).
  apply (reachable_step (NQueue (fst first_arrival)) ([] ++ snd first_arrival)
           (snd second_arrival) (NQueue (fst second_arrival))).
  - apply (reachable_step (NQueue empty_queue) [] (snd first_arrival)
             (NQueue (fst first_arrival))).
    + apply reachable_fresh. vm_compute. repeat split.
    + apply (Queue_receives empty_queue first_agent 0). reflexivity.
  - apply (Queue_receives (fst first_arrival) second_agent 5). reflexivity.
Defined.

(** C3 (as stated) fails for [Source]: it counts the agents it generates
    in [agents_exited] and never enters any, so after one arrival it has
    entered 0 and exited 1 while it holds and has rejected nothing.  It
    fails for [Delay] too: a [Delay] at capacity turns the arrival away
    without counting it, so its one rejection is part of no counter. *)
Lemma source_and_delay_are_not_conserved :
  reachable (NSource (fst first_generation)) ([] ++ snd first_generation) ∧
  entered (NSource (fst first_generation)) = 0%nat ∧
  exited (NSource (fst first_generation)) = 1%nat ∧
  held (NSource (fst first_generation)) = 0%nat ∧
  rejected (NSource (fst first_generation)) ([] ++ snd first_generation) = 0%nat ∧
  ¬ conserved (NSource (fst first_generation)) ([] ++ snd first_generation) ∧
  reachable (NDelay (fst (fst closed_delay_arrival)) []) ([] ++ snd (fst closed_delay_arrival)) ∧
  entered (NDelay (fst (fst closed_delay_arrival)) []) = 0%nat ∧
  rejected (NDelay (fst (fst closed_delay_arrival)) []) ([] ++ snd (fst closed_delay_arrival))
    = 1%nat ∧
  ¬ conserved (NDelay (fst (fst closed_delay_arrival)) []) ([] ++ snd (fst closed_delay_arrival)).
Proof.
  split_and!; try (vm_compute; reflexivity).
  - apply (reachable_step (NSource fresh_source) [] (snd first_generation)
             (NSource (fst first_generation))).
    + apply reachable_fresh. vm_compute. repeat split.
    + apply (Source_generates fresh_source 3). reflexivity.
  - vm_compute. discriminate.
  - apply (reachable_step (NDelay closed_delay []) [] (snd (fst closed_delay_arrival))
             (NDelay (fst (fst closed_delay_arrival)) ([] ++ option_list (snd closed_delay_arrival)))).
    + apply reachable_fresh. vm_compute. repeat split.
    + apply (Delay_receives closed_delay [] first_agent 4). reflexivity.
  - vm_compute. discriminate.
Qed.

End NodeFacts.

(** * Properties of the flow nodes *)
Module NodePropsFacts.
Import FlowUnits Nodes Scenarios NodeProps.
Local Open Scope Z_scope.

Lemma reachable_invariant (I : node → list trace_event → Prop) :
  (∀ n, fresh n → I n []) →
  (∀ n tr seg n', reachable n tr → I n tr → node_step n seg n' → I n' (tr ++ seg)) →
  ∀ n tr, reachable n tr → I n tr.
Proof. intros H0 Hs n tr. induction 1; eauto. Qed.

Lemma sent_app l1 l2 : sent (l1 ++ l2) = sent l1 ++ sent l2.
Proof.
  induction l1 as [|ev l1 IH]; [done|]. destruct ev; simpl; by rewrite ?IH.
Qed.

Lemma sent_send b a now :
  sent (send_agent b a now) = match output_port b with Some _ => [a] | None => [] end.
Proof. unfold send_agent. by destruct (output_port b). Qed.

Lemma length_priority_insert' a p q : length (priority_insert a p q) = S (length q).
Proof.
  induction q as [|[b r] q IH]; simpl; [done|]. destruct (p <? r); simpl; [done|]. by rewrite IH.
Qed.

(** *** Queue *)

Lemma queue_step_bound q seg n' :
  node_step (NQueue q) seg n' →
  ∃ q', n' = NQueue q' ∧ Queue.capacity q' = Queue.capacity q ∧
        Queue.priority_func q' = Queue.priority_func q ∧
        output_port (Queue.base q') = output_port (Queue.base q) ∧
        (within (length (Queue.queue q)) (Queue.capacity q) →
         within (length (Queue.queue q')) (Queue.capacity q)).
Proof.
  inversion 1 as [|q0 agent now q' tr Hr| | | | | | | | | | | | | | | | | | | | | | ]; subst.
  exists q'. split; [done|]. revert Hr. unfold Queue.receive_agent, Queue.try_forward_agent.
  destruct (below_capacity _ _) eqn:Hb.
  - cbn [Queue.queue Queue.base Queue.capacity Queue.priority_func].
    set (queue' := match Queue.priority_func q with
                   | Some f => priority_insert _ _ _
                   | None => _ end).
    assert (length queue' = S (length (Queue.queue q))) as Hl.
    { unfold queue'. destruct (Queue.priority_func q); [apply length_priority_insert'|].
      rewrite length_app. simpl. lia. }
    assert (within (length queue') (Queue.capacity q)) as Hw.
    { rewrite Hl. unfold below_capacity, within in *. destruct (Queue.capacity q); [|done].
      apply Z.ltb_lt in Hb. lia. }
    destruct queue' as [|[a p] rest]; [done|].
    destruct (output_port (enter (Queue.base q))) eqn:Ho; intros [= <- <-];
      cbn [Queue.queue Queue.base Queue.capacity Queue.priority_func];
      split_and!; try done; intros _;
      unfold within in *; destruct (Queue.capacity q); simpl in *; try done; lia.
  - intros [= <- <-]. simpl. split_and!; done.
Qed.

(** X1.  A [Queue] never holds more agents than its capacity allows. *)
Theorem queue_within_capacity (q : Queue.t) (tr : list trace_event) (c : Z) :
  reachable (NQueue q) tr → Queue.capacity q = Some c → 0 ≤ c →
  Z.of_nat (length (Queue.queue q)) ≤ c.
Proof.
  intros Hr Hc Hpos.
  assert (∀ n tr, reachable n tr → ∀ q, n = NQueue q → 0 ≤ default 0 (Queue.capacity q) →
            within (length (Queue.queue q)) (Queue.capacity q)) as H.
  { apply (reachable_invariant (λ n _, ∀ q, n = NQueue q → 0 ≤ default 0 (Queue.capacity q) →
             within (length (Queue.queue q)) (Queue.capacity q))).
    - intros n (_ & _ & Hf) q0 -> Hq. simpl in Hf. rewrite Hf. unfold within.
      by destruct (Queue.capacity q0).
    - intros n tr0 seg n' _ IH Hs q' -> Hq'. destruct n; try by inversion Hs.
      destruct (queue_step_bound _ _ _ Hs) as (q'' & [= <-] & Hcap & _ & _ & Hw).
      rewrite Hcap in *. apply Hw. by apply IH. }
  specialize (H _ _ Hr q eq_refl). rewrite Hc in H. by apply H.
Qed.

Lemma queue_step q seg n' :
  node_step (NQueue q) seg n' →
  ∃ agent now, n' = NQueue (Queue.receive_agent q agent now).1 ∧
               seg = (Queue.receive_agent q agent now).2.
Proof.
  inversion 1; subst.
  match goal with H : Queue.receive_agent _ ?a ?t = _ |- _ => exists a, t; by rewrite H end.
Qed.

Lemma by_priority_insert a p q : by_priority q → by_priority (priority_insert a p q).
Proof.
  induction q as [|[b r] q IH]; simpl; [done|]. intros [Hb Hq].
  destruct (Z.ltb_spec p r); simpl.
  - split_and!; [|done|done]. apply Forall_cons. split; [simpl; lia|].
    eapply Forall_impl; [exact Hb|]. simpl. intros; lia.
  - split; [|by apply IH]. clear IH Hq.
    induction q as [|[c s] q IH]; simpl.
    + apply Forall_singleton. simpl. lia.
    + apply Forall_cons in Hb as [Hc Hb]. destruct (p <? s).
      * apply Forall_cons. split; [simpl; lia|]. by apply Forall_cons.
      * apply Forall_cons. split; [done|]. by apply IH.
Qed.

(** X2.  [priority_insert] puts the new entry behind every stored entry of
    the same or a lower number and ahead of all those of a higher one. *)
Theorem priority_insert_place (a : Agent) (p : Z) (q : list (Agent * Z)) :
  by_priority q →
  ∃ ahead behind,
    q = ahead ++ behind ∧ priority_insert a p q = ahead ++ (a, p) :: behind ∧
    Forall (λ x, x.2 ≤ p) ahead ∧ Forall (λ x, p < x.2) behind.
Proof.
  induction q as [|[b r] q IH]; simpl.
  - intros _. by exists [], [].
  - intros [Hb Hq]. destruct (Z.ltb_spec p r).
    + exists [], ((b, r) :: q). split_and!; try done. apply Forall_cons. split; [done|].
      eapply Forall_impl; [exact Hb|]. simpl. intros; lia.
    + destruct (IH Hq) as (ahead & behind & -> & -> & Ha & Hbe).
      exists ((b, r) :: ahead), behind. split_and!; try done. by apply Forall_cons.
Qed.

Lemma priority_insert_place_witness :
  ∃ ahead behind,
    [(first_agent, 1); (second_agent, 3)] = ahead ++ behind ∧
    priority_insert first_agent 1 [(first_agent, 1); (second_agent, 3)]
      = ahead ++ (first_agent, 1) :: behind ∧
    Forall (λ x : Agent * Z, x.2 ≤ 1) ahead ∧ Forall (λ x : Agent * Z, 1 < x.2) behind.
Proof.
  apply (priority_insert_place first_agent 1 [(first_agent, 1); (second_agent, 3)]).
  simpl. repeat split; try constructor; simpl; try lia; constructor.
Defined.

Lemma queue_receive_sorted q agent now :
  (Queue.priority_func q = None → Forall (λ x, x.2 = 0) (Queue.queue q)) →
  by_priority (Queue.queue q) →
  let q' := (Queue.receive_agent q agent now).1 in
  Queue.priority_func q' = Queue.priority_func q ∧
  (Queue.priority_func q' = None → Forall (λ x, x.2 = 0) (Queue.queue q')) ∧
  by_priority (Queue.queue q').
Proof.
  intros Hz Hs. unfold Queue.receive_agent, Queue.try_forward_agent.
  destruct (below_capacity _ _); [|done].
  cbn [Queue.queue Queue.base Queue.capacity Queue.priority_func].
  set (queue' := match Queue.priority_func q with
                 | Some f => priority_insert _ _ _
                 | None => _ end).
  assert ((Queue.priority_func q = None → Forall (λ x, x.2 = 0) queue') ∧ by_priority queue')
    as [Hz' Hs'].
  { unfold queue'. destruct (Queue.priority_func q) as [f|].
    - split; [done|]. by apply by_priority_insert.
    - specialize (Hz eq_refl). split.
      + intros _. apply Forall_app. split; [done|]. by apply Forall_singleton.
      + clear queue'. induction (Queue.queue q) as [|[b r] l IH]; simpl; [done|].
        destruct Hs as [Hb Hl]. apply Forall_cons in Hz as [Hr Hz]. split; [|by apply IH].
        apply Forall_app. split; [done|]. apply Forall_singleton. simpl in *. lia. }
  destruct queue' as [|[a p] rest]; [done|].
  destruct Hs' as [Hhd Htl].
  destruct (output_port _); cbn [fst Queue.queue Queue.priority_func];
    split_and!; try done; try (by split).
  intros Hn. specialize (Hz' Hn). by apply Forall_cons in Hz' as [_ ?].
Qed.

(** X3.  The buffer of a [Queue] is always in priority order. *)
Theorem queue_in_priority_order (q : Queue.t) (tr : list trace_event) :
  reachable (NQueue q) tr → by_priority (Queue.queue q).
Proof.
  intros Hr.
  assert (∀ n tr, reachable n tr → ∀ q, n = NQueue q →
            (Queue.priority_func q = None → Forall (λ x, x.2 = 0) (Queue.queue q)) ∧
            by_priority (Queue.queue q)) as H.
  { apply (reachable_invariant (λ n _, ∀ q, n = NQueue q →
             (Queue.priority_func q = None → Forall (λ x, x.2 = 0) (Queue.queue q)) ∧
             by_priority (Queue.queue q))).
    - intros n (_ & _ & Hf) q0 ->. simpl in Hf. by rewrite Hf.
    - intros n tr0 seg n' _ IH Hs q' ->. destruct n; try by inversion Hs.
      destruct (queue_step _ _ _ Hs) as (agent & now & [= ->] & _).
      destruct (IH q0 eq_refl) as [Hz Hso].
      destruct (queue_receive_sorted q0 agent now Hz Hso) as (_ & ? & ?). done. }
  by apply (H _ _ Hr q eq_refl).
Qed.

Lemma queue_receive_forward q agent now :
  let r := Queue.receive_agent q agent now in
  output_port (Queue.base r.1) = output_port (Queue.base q) ∧
  (is_Some (output_port (Queue.base q)) → Queue.queue q = [] →
   Queue.queue r.1 = [] ∧
   length (sent r.2) = (agents_exited (Queue.base r.1) - agents_exited (Queue.base q))%nat ∧
   (agents_exited (Queue.base q) ≤ agents_exited (Queue.base r.1))%nat) ∧
  (output_port (Queue.base q) = None →
   agents_exited (Queue.base r.1) = agents_exited (Queue.base q) ∧ sent r.2 = []).
Proof.
  unfold Queue.receive_agent, Queue.try_forward_agent.
  destruct (below_capacity _ _); [|simpl; split_and!; intros; split_and?; try done; lia].
  cbn [Queue.queue Queue.base Queue.capacity Queue.priority_func enter output_port].
  set (queue' := match Queue.priority_func q with
                 | Some f => priority_insert _ _ _
                 | None => _ end).
  assert (Queue.queue q = [] → ∃ x, queue' = [x]) as Hne.
  { unfold queue'. intros ->. destruct (Queue.priority_func q); simpl; eauto. }
  destruct queue' as [|[a p] rest].
  { simpl. split_and!; intros; split_and?; try done; lia. }
  destruct (output_port (Queue.base q)) as [o|] eqn:Ho.
  - cbn [fst snd Queue.queue Queue.base exit enter output_port agents_exited].
    split_and!; [done| |done]. intros _ Hq. destruct (Hne Hq) as [x [= _ ->]].
    unfold send_agent. cbn [output_port enter]. rewrite Ho. simpl. split_and!; [done|lia|lia].
  - cbn [fst snd Queue.queue Queue.base exit enter output_port agents_exited].
    split_and!; [done| |done]. by intros [? ?].
Qed.

(** X4.  A [Queue] that feeds a unit hands on what it accepts at once and is
    empty between arrivals; a [Queue] that feeds nothing never hands on
    anything. *)
Theorem queue_passes_on_at_once (q : Queue.t) (tr : list trace_event) :
  reachable (NQueue q) tr →
  (is_Some (output_port (Queue.base q)) →
   Queue.queue q = [] ∧ length (sent tr) = agents_exited (Queue.base q)) ∧
  (output_port (Queue.base q) = None →
   agents_exited (Queue.base q) = 0%nat ∧ sent tr = []).
Proof.
  intros Hr.
  apply (reachable_invariant (λ n tr, ∀ q, n = NQueue q →
           (is_Some (output_port (Queue.base q)) →
            Queue.queue q = [] ∧ length (sent tr) = agents_exited (Queue.base q)) ∧
           (output_port (Queue.base q) = None →
            agents_exited (Queue.base q) = 0%nat ∧ sent tr = [])))
    with (n := NQueue q) (tr := tr); [| |done|done].
  - intros n (_ & Hx & Hf) q0 ->. unfold exited in Hx. simpl in *. by rewrite Hf, Hx.
  - intros n tr0 seg n' _ IH Hs q' ->. destruct n; try by inversion Hs.
    destruct (queue_step _ _ _ Hs) as (agent & now & [= ->] & ->).
    destruct (IH q0 eq_refl) as [IH1 IH2].
    destruct (queue_receive_forward q0 agent now) as (Ho & H1 & H2).
    rewrite Ho, sent_app, length_app. split.
    + intros Hout. destruct (IH1 Hout) as [Hq Hl]. destruct (H1 Hout Hq) as (? & ? & ?).
      split; [done|lia].
    + intros Hout. destruct (IH2 Hout) as [Hx Hl]. destruct (H2 Hout) as [? ->].
      rewrite Hl. split; [congruence|done].
Qed.

Lemma second_arrival_reachable :
  reachable (NQueue (fst second_arrival)) (([] ++ snd first_arrival) ++ snd second_arrival).
Proof.
  apply (reachable_step (NQueue (fst first_arrival)) ([] ++ snd first_arrival)
           (snd second_arrival) (NQueue (fst second_arrival))).
  - apply (reachable_step (NQueue empty_queue) [] (snd first_arrival)
             (NQueue (fst first_arrival))).
    + apply reachable_fresh. vm_compute. repeat split.
    + apply (Queue_receives empty_queue first_agent 0). reflexivity.
  - apply (Queue_receives (fst first_arrival) second_agent 5). reflexivity.
Qed.

Lemma queue_within_capacity_witness :
  Z.of_nat (length (Queue.queue (fst second_arrival))) ≤ 1.
Proof.
  apply (queue_within_capacity (fst second_arrival)
           (([] ++ snd first_arrival) ++ snd second_arrival) 1).
  - apply second_arrival_reachable.
  - reflexivity.
  - lia.
Defined.

Lemma queue_in_priority_order_witness : by_priority (Queue.queue (fst second_arrival)).
Proof.
  apply (queue_in_priority_order (fst second_arrival)
           (([] ++ snd first_arrival) ++ snd second_arrival)).
  apply second_arrival_reachable.
Defined.

Lemma queue_passes_on_at_once_witness :
  (is_Some (output_port (Queue.base (fst second_arrival))) →
   Queue.queue (fst second_arrival) = [] ∧
   length (sent (([] ++ snd first_arrival) ++ snd second_arrival))
     = agents_exited (Queue.base (fst second_arrival))) ∧
  (output_port (Queue.base (fst second_arrival)) = None →
   agents_exited (Queue.base (fst second_arrival)) = 0%nat ∧
   sent (([] ++ snd first_arrival) ++ snd second_arrival) = []).
Proof.
  apply (queue_passes_on_at_once (fst second_arrival)
           (([] ++ snd first_arrival) ++ snd second_arrival)).
  apply second_arrival_reachable.
Defined.

(** *** Delay *)

Lemma delay_frames_match d frames tr :
  reachable (NDelay d frames) tr →
  agent_key <$> frames ≡ₚ agent_key <$> Delay.processing_agents d.
Proof. intros Hr. by destruct (NodeFacts.reachable_balance _ _ Hr) as [_ Hm]. Qed.

(** X5.  A [Delay] never holds more agents than its capacity allows, and
    every agent it holds has a timer running. *)
Theorem delay_within_capacity (d : Delay.t) (frames : list Agent) (tr : list trace_event) :
  reachable (NDelay d frames) tr →
  length frames = length (Delay.processing_agents d) ∧
  ∀ c, Delay.capacity d = Some c → 0 ≤ c →
       Z.of_nat (length (Delay.processing_agents d)) ≤ c.
Proof.
  intros Hr. split.
  { pose proof (delay_frames_match d frames tr Hr) as Hm.
    apply Permutation_length in Hm. by rewrite !length_fmap in Hm. }
  intros c Hc Hpos.
  assert (∀ n tr, reachable n tr → ∀ d frames, n = NDelay d frames →
            frames_match n ∧
            (0 ≤ default 0 (Delay.capacity d) →
             within (length (Delay.processing_agents d)) (Delay.capacity d))) as H.
  { apply (reachable_invariant (λ n _, ∀ d frames, n = NDelay d frames →
             frames_match n ∧
             (0 ≤ default 0 (Delay.capacity d) →
              within (length (Delay.processing_agents d)) (Delay.capacity d)))).
    - intros n (_ & _ & Hf) d0 fr0 ->. simpl in Hf. destruct Hf as [Hp ->].
      split; [unfold frames_match; by rewrite Hp|].
      intros Hq. rewrite Hp. unfold within. by destruct (Delay.capacity d0).
    - intros n tr0 seg n' Hr0 IH Hs d' fr' ->.
      assert (frames_match (NDelay d' fr')) as Hm'.
      { apply (NodeFacts.reachable_balance _ (tr0 ++ seg)). by eapply reachable_step. }
      split; [done|]. destruct n; try by inversion Hs.
      destruct (IH d0 frames0 eq_refl) as [Hm IHw].
      inversion Hs; subst.
      + match goal with H : Delay.receive_agent _ _ _ = _ |- _ => revert H end.
        unfold Delay.receive_agent. destruct (below_capacity _ _) eqn:Hb.
        * intros [= <- <- <-]. simpl. intros Hq. rewrite length_app. simpl.
          unfold below_capacity, within in *. destruct (Delay.capacity d0); [|done].
          apply Z.ltb_lt in Hb. lia.
        * intros [= <- <- <-]. done.
      + match goal with H : Delay.complete _ _ _ = _ |- _ => revert H end.
        unfold Delay.complete. intros [= <- <-]. simpl. intros Hq.
        match goal with H : frames0 !! _ = Some _ |- _ =>
          destruct (NodeFacts.delay_completes_frames d0 frames0 _ _ H Hm) as [_ Hl] end.
        specialize (IHw Hq). unfold within in *. destruct (Delay.capacity d0); [|done]. lia. }
  destruct (H _ _ Hr d frames eq_refl) as [_ Hw]. rewrite Hc in Hw. by apply Hw.
Qed.

(** *** Service *)

Lemma take_next_empty s now : Service.queue s = [] → Service.take_next s now = None.
Proof. unfold Service.take_next. by intros ->. Qed.

Lemma take_next_cons s a p rest now :
  Service.queue s = (a, p) :: rest →
  ∃ s', Service.take_next s now = Some (s', a) ∧ Service.queue s' = rest ∧
        Service.queue_capacity s' = Service.queue_capacity s ∧
        Service.rejected_agents s' = Service.rejected_agents s ∧
        Service.total_queue_time s' =
          Service.total_queue_time s +
          match Service.queue_start_times s !! id a with
          | Some t0 => now - t0
          | None => 0
          end.
Proof.
  intros Hq. unfold Service.take_next. rewrite Hq.
  cbn [Service.queue_start_times Service.set_queue].
  destruct (Service.queue_start_times s !! id a); eexists; split_and!; try reflexivity.
  simpl. lia.
Qed.

Lemma service_step s frames seg n' :
  node_step (NService s frames) seg n' → Service.queue s = [] →
  ∃ s' frames', n' = NService s' frames' ∧ Service.queue s' = [] ∧
                Service.queue_capacity s' = Service.queue_capacity s ∧
                Service.total_queue_time s' = Service.total_queue_time s ∧
                (admits_one (Service.queue_capacity s) →
                 Service.rejected_agents s' = Service.rejected_agents s).
Proof.
  intros Hs Hq. inversion Hs; subst.
  - match goal with H : Service.receive_agent _ _ _ = _ |- _ => revert H end.
    unfold Service.receive_agent.
    cbn [Service.queue Service.set_base Service.queue_capacity]. rewrite Hq.
    destruct (below_capacity [] (Service.queue_capacity s)) eqn:Hb.
    + match goal with |- context [Service.take_next ?s3 now] =>
        destruct (take_next_cons s3 (set_current_time now agent)
                    (match Service.priority_func s with
                     | Some f => f (set_current_time now agent)
                     | None => 0
                     end) [] now) as (s4 & -> & Hq4 & Hc4 & Hr4 & Ht4)
      end.
      { cbn [Service.queue Service.set_queue Service.set_times Service.set_base
             Service.priority_func]. rewrite Hq. by destruct (Service.priority_func s). }
      intros [= <- <- <-]. eexists _, _. split_and!; try done.
      rewrite Ht4. cbn [Service.queue_start_times Service.set_queue Service.set_times
                        Service.set_base Service.total_queue_time].
      rewrite lookup_insert_eq. lia.
    + intros [= <- <- <-]. eexists _, _. split_and!; try done.
      unfold below_capacity, admits_one in *. destruct (Service.queue_capacity s); [|done].
      simpl in Hb. apply Z.ltb_ge in Hb. lia.
  - match goal with H : Service.start_service _ _ _ = _ |- _ => revert H end.
    unfold Service.start_service. intros [= <- <-]. eexists _, _. split_and!; done.
  - match goal with H : Service.complete _ _ _ = _ |- _ => revert H end.
    unfold Service.complete. rewrite take_next_empty.
    2:{ cbn [Service.queue Service.set_base Service.set_processing].
        by destruct (Service.service_start_times _ !! _). }
    intros [= <- <- <-]. eexists _, _. split_and!; try done;
      cbn [Service.queue Service.set_base Service.set_processing Service.queue_capacity
           Service.total_queue_time Service.rejected_agents];
      by destruct (Service.service_start_times _ !! _).
Qed.

(** X6.  The queue of a [Service] is empty between any two segments: an
    arrival is taken out of it in the segment that put it in.  So a
    [Service] whose queue admits one agent never rejects an arrival, and
    the queueing time it books never changes. *)
Theorem service_never_queues (s : Service.t) (frames : list Agent) (tr : list trace_event) :
  reachable (NService s frames) tr →
  Service.queue s = [] ∧
  (admits_one (Service.queue_capacity s) → Service.rejected_agents s = 0%nat) ∧
  ∀ seg s' frames', node_step (NService s frames) seg (NService s' frames') →
    Service.total_queue_time s' = Service.total_queue_time s.
Proof.
  intros Hr.
  assert (Service.queue s = [] ∧
          (admits_one (Service.queue_capacity s) → Service.rejected_agents s = 0%nat))
    as [Hq Hrej].
  { apply (reachable_invariant (λ n _, ∀ s frames, n = NService s frames →
             Service.queue s = [] ∧
             (admits_one (Service.queue_capacity s) → Service.rejected_agents s = 0%nat)))
      with (n := NService s frames) (tr := tr) (frames := frames); [| |done|done].
    - intros n (_ & _ & Hf) s0 fr0 ->. simpl in Hf. destruct Hf as (Hq & _ & Hrej & _). done.
    - intros n tr0 seg n' _ IH Hs s' fr' ->. destruct n; try by inversion Hs.
      destruct (IH s0 frames0 eq_refl) as [Hq0 Hrej0].
      destruct (service_step _ _ _ _ Hs Hq0) as (s1 & fr1 & [= <- <-] & Hq1 & Hcap & _ & Hrej1).
      split; [done|]. rewrite Hcap. intros Ha. rewrite (Hrej1 Ha). by apply Hrej0. }
  split_and!; [done|done|]. intros seg s' frames' Hs.
  destruct (service_step _ _ _ _ Hs Hq) as (s1 & fr1 & [= <- <-] & _ & _ & Ht & _). done.
Qed.

(** *** Combine *)

Lemma forward_batch_base b batch now :
  output_port (Combine.forward_batch b batch now).1 = output_port b.
Proof.
  revert b. induction batch as [|a batch IH]; intros b; simpl; [done|].
  specialize (IH (exit b)). destruct (Combine.forward_batch (exit b) batch now) as [b' tr].
  simpl in *. by rewrite IH.
Qed.

Lemma forward_batch_sent b batch now :
  is_Some (output_port b) → sent (Combine.forward_batch b batch now).2 = batch.
Proof.
  revert b. induction batch as [|a batch IH]; intros b Hb; simpl; [done|].
  specialize (IH (exit b) Hb). destruct (Combine.forward_batch (exit b) batch now) as [b' tr].
  simpl in *. rewrite sent_app, sent_send, IH. by destruct Hb as [o ->].
Qed.

Lemma process_batch_waiting c now :
  1 ≤ Combine.required_agents c →
  Z.of_nat (length (Combine.waiting_agents c)) ≤ Combine.required_agents c →
  let r := Combine.process_batch c now in
  Combine.waiting_agents r.1 = [] ∧ Combine.required_agents r.1 = Combine.required_agents c ∧
  output_port (Combine.base r.1) = output_port (Combine.base c) ∧
  (is_Some (output_port (Combine.base c)) → sent r.2 = Combine.waiting_agents c).
Proof.
  intros Hreq Hlen. unfold Combine.process_batch, slice_to, slice_from, slice_index.
  destruct (Z.ltb_spec (Combine.required_agents c) 0); [lia|].
  pose proof (forward_batch_base (Combine.base c)
                (take (Z.to_nat (Combine.required_agents c)) (Combine.waiting_agents c)) now)
    as Hb.
  pose proof (forward_batch_sent (Combine.base c)
                (take (Z.to_nat (Combine.required_agents c)) (Combine.waiting_agents c)) now)
    as Hs.
  destruct (Combine.forward_batch _ _ _) as [b tr]. simpl in *.
  split_and!; try done.
  - apply drop_ge. lia.
  - intros Ho. rewrite (Hs Ho). apply take_ge. lia.
Qed.

Lemma combine_step c timers seg n' :
  node_step (NCombine c timers) seg n' → 1 ≤ Combine.required_agents c →
  Z.of_nat (length (Combine.waiting_agents c)) < Combine.required_agents c →
  ∃ c' timers', n' = NCombine c' timers' ∧
                Combine.required_agents c' = Combine.required_agents c ∧
                Z.of_nat (length (Combine.waiting_agents c')) < Combine.required_agents c.
Proof.
  intros Hs Hreq Hlen. inversion Hs; subst.
  - match goal with H : Combine.receive_agent _ _ _ = _ |- _ => revert H end.
    unfold Combine.receive_agent.
    cbn [Combine.required_agents Combine.waiting_agents Combine.timeout].
    destruct (Z.leb_spec (Combine.required_agents c)
                (Z.of_nat (length (Combine.waiting_agents c ++ [set_current_time now agent]))))
      as [Hle|Hgt].
    + match goal with |- context [Combine.process_batch ?c1 now] =>
        destruct (process_batch_waiting c1 now) as (Hw & Hr & _);
          [done|simpl; rewrite length_app; simpl; lia|];
        destruct (Combine.process_batch c1 now) as [c2 tr2] end.
      intros [= <- <- <-]. eexists _, _. split_and!; [done|done|]. simpl in Hw. rewrite Hw.
      simpl. lia.
    + destruct (Combine.timeout c); intros [= <- <- <-]; eexists _, _; split_and!; done.
  - eexists _, _. split_and!; done.
  - match goal with H : Combine.timeout_process _ _ _ = _ |- _ => revert H end.
    unfold Combine.timeout_process.
    destruct (Combine.waiting_agents c) eqn:Hw; [intros [= <- <-]; eexists _, _; by rewrite Hw|].
    case_decide; [|intros [= <- <-]; eexists _, _; by rewrite Hw].
    destruct (process_batch_waiting c now) as (Hw' & Hr & _); [done|rewrite Hw; lia|].
    destruct (Combine.process_batch c now) as [c2 tr2].
    intros [= <- <-]. eexists _, _. split_and!; [done|done|]. simpl in Hw'. rewrite Hw'.
    simpl. lia.
Qed.

(** X7.  A [Combine] never holds a complete batch: between two segments
    fewer agents wait than a batch requires. *)
Theorem combine_never_holds_a_batch (c : Combine.t) (timers : list timer)
    (tr : list trace_event) :
  reachable (NCombine c timers) tr → 1 ≤ Combine.required_agents c →
  Z.of_nat (length (Combine.waiting_agents c)) < Combine.required_agents c.
Proof.
  intros Hr.
  apply (reachable_invariant (λ n _, ∀ c timers, n = NCombine c timers →
           1 ≤ Combine.required_agents c →
           Z.of_nat (length (Combine.waiting_agents c)) < Combine.required_agents c))
    with (n := NCombine c timers) (tr := tr) (timers := timers); [| |done|done].
  - intros n (_ & _ & Hf) c0 t0 -> Hreq. simpl in Hf. destruct Hf as [-> _]. simpl. lia.
  - intros n tr0 seg n' _ IH Hs c' t' -> Hreq. destruct n; try by inversion Hs.
    assert (Combine.required_agents c' = Combine.required_agents c0) as Heq.
    { inversion Hs; subst; try done.
      - match goal with H : Combine.receive_agent _ _ _ = _ |- _ => revert H end.
        unfold Combine.receive_agent, Combine.process_batch. simpl.
        destruct (_ <=? _).
        + destruct (Combine.forward_batch _ _ _). by intros [= <- <- <-].
        + destruct (Combine.timeout c0); by intros [= <- <- <-].
      - match goal with H : Combine.timeout_process _ _ _ = _ |- _ => revert H end.
        unfold Combine.timeout_process, Combine.process_batch.
        destruct (Combine.waiting_agents c0); [by intros [= <- <-]|].
        case_decide; [|by intros [= <- <-]].
        destruct (Combine.forward_batch _ _ _). by intros [= <- <-]. }
    rewrite Heq in *.
    destruct (combine_step _ _ _ _ Hs Hreq (IH c0 timers0 eq_refl Hreq))
      as (c1 & t1 & [= <- <-] & _ & Hl). done.
Qed.

(** X8.  When an arrival completes a batch of a [Combine] that feeds a unit,
    the agents that waited and the arrival are handed on, in the order
    in which they came, and nobody is left waiting. *)
Theorem combine_batch_in_arrival_order (c : Combine.t) (agent : Agent) (now : Z) :
  is_Some (output_port (Combine.base c)) →
  Combine.required_agents c = Z.of_nat (length (Combine.waiting_agents c)) + 1 →
  sent (Combine.receive_agent c agent now).1.2
    = Combine.waiting_agents c ++ [set_current_time now agent] ∧
  Combine.waiting_agents (Combine.receive_agent c agent now).1.1 = [].
Proof.
  intros Ho Hlen. assert (1 ≤ Combine.required_agents c) as Hreq by lia.
  unfold Combine.receive_agent.
  cbn [Combine.required_agents Combine.waiting_agents Combine.timeout].
  destruct (Z.leb_spec (Combine.required_agents c)
              (Z.of_nat (length (Combine.waiting_agents c ++ [set_current_time now agent]))))
    as [Hle|Hgt]; [|rewrite length_app in Hgt; simpl in Hgt; lia].
  match goal with |- context [Combine.process_batch ?c1 now] =>
    destruct (process_batch_waiting c1 now) as (Hw & _ & _ & Hs);
      [done|simpl; rewrite length_app; simpl; lia|];
    destruct (Combine.process_batch c1 now) as [c2 tr2] end.
  simpl in *. split; [|done]. by apply Hs.
Qed.

(** *** Sink *)

(** X9.  A [Sink] keeps every agent it receives and hands nothing on. *)
Theorem sink_keeps_all (s : Sink.t) (tr : list trace_event) :
  reachable (NSink s) tr →
  agents_exited (Sink.base s) = 0%nat ∧
  length (Sink.completed_agents s) = agents_entered (Sink.base s) ∧
  sent tr = [].
Proof.
  intros Hr.
  apply (reachable_invariant (λ n tr, ∀ s, n = NSink s →
           agents_exited (Sink.base s) = 0%nat ∧
           length (Sink.completed_agents s) = agents_entered (Sink.base s) ∧
           sent tr = []))
    with (n := NSink s) (tr := tr); [| |done|done].
  - intros n (He & Hx & Hf) s0 ->. unfold entered, exited in *. simpl in *.
    by rewrite Hf, He, Hx.
  - intros n tr0 seg n' _ IH Hs s' ->. destruct n; try by inversion Hs.
    destruct (IH s0 eq_refl) as (Hx & Hl & Hsent). inversion Hs; subst.
    match goal with H : Sink.receive_agent _ _ _ = _ |- _ => revert H end.
    unfold Sink.receive_agent. intros [= <- <-]. simpl.
    rewrite sent_app, Hsent, length_app, Hl. simpl. split_and!; [done|lia|done].
Qed.

(** *** Instances *)

Lemma delayed_once_reachable :
  reachable (NDelay delayed_once.1.1 ([] ++ option_list delayed_once.2))
            ([] ++ delayed_once.1.2).
Proof.
  apply (reachable_step (NDelay small_delay []) [] delayed_once.1.2).
  - apply reachable_fresh. vm_compute. repeat split.
  - apply (Delay_receives small_delay [] first_agent 0). reflexivity.
Qed.

Lemma delay_within_capacity_witness :
  length ([] ++ option_list delayed_once.2) = length (Delay.processing_agents delayed_once.1.1) ∧
  ∀ c, Delay.capacity delayed_once.1.1 = Some c → 0 ≤ c →
       Z.of_nat (length (Delay.processing_agents delayed_once.1.1)) ≤ c.
Proof.
  apply (delay_within_capacity delayed_once.1.1 ([] ++ option_list delayed_once.2)
           ([] ++ delayed_once.1.2)).
  apply delayed_once_reachable.
Defined.

Lemma served_once_reachable :
  reachable (NService served_once.1.1 ([] ++ option_list served_once.2))
            ([] ++ served_once.1.2).
Proof.
  apply (reachable_step (NService (new_service 5 0 (Some 2) None None) []) []
           served_once.1.2).
  - apply reachable_fresh. vm_compute. repeat split.
  - apply (Service_receives (new_service 5 0 (Some 2) None None) [] first_agent 0).
    reflexivity.
Qed.

Lemma service_never_queues_witness :
  Service.queue served_once.1.1 = [] ∧
  (admits_one (Service.queue_capacity served_once.1.1) →
   Service.rejected_agents served_once.1.1 = 0%nat) ∧
  ∀ seg s' frames',
    node_step (NService served_once.1.1 ([] ++ option_list served_once.2)) seg
              (NService s' frames') →
    Service.total_queue_time s' = Service.total_queue_time served_once.1.1.
Proof.
  apply (service_never_queues served_once.1.1 ([] ++ option_list served_once.2)
           ([] ++ served_once.1.2)).
  apply served_once_reachable.
Defined.

Lemma paired_once_reachable :
  reachable (NCombine paired_once.1.1 ([] ++ if paired_once.2 then [Created] else []))
            ([] ++ paired_once.1.2).
Proof.
  apply (reachable_step (NCombine pairing []) [] paired_once.1.2).
  - apply reachable_fresh. vm_compute. repeat split.
  - apply (Combine_receives pairing [] first_agent 0). reflexivity.
Qed.

Lemma combine_never_holds_a_batch_witness :
  Z.of_nat (length (Combine.waiting_agents paired_once.1.1))
  < Combine.required_agents paired_once.1.1.
Proof.
  apply (combine_never_holds_a_batch paired_once.1.1
           ([] ++ if paired_once.2 then [Created] else []) ([] ++ paired_once.1.2)).
  - apply paired_once_reachable.
  - vm_compute. discriminate.
Defined.

Lemma combine_batch_in_arrival_order_witness :
  sent (Combine.receive_agent paired_once.1.1 second_agent 5).1.2
    = Combine.waiting_agents paired_once.1.1 ++ [set_current_time 5 second_agent] ∧
  Combine.waiting_agents (Combine.receive_agent paired_once.1.1 second_agent 5).1.1 = [].
Proof.
  apply (combine_batch_in_arrival_order paired_once.1.1 second_agent 5).
  - vm_compute. eauto.
  - vm_compute. reflexivity.
Defined.

Lemma sunk_once_reachable : reachable (NSink sunk_once.1) ([] ++ sunk_once.2).
Proof.
  apply (reachable_step (NSink new_sink) [] sunk_once.2).
  - apply reachable_fresh. vm_compute. repeat split.
  - apply (Sink_receives new_sink first_agent 0). reflexivity.
Qed.

Lemma sink_keeps_all_witness :
  agents_exited (Sink.base sunk_once.1) = 0%nat ∧
  length (Sink.completed_agents sunk_once.1) = agents_entered (Sink.base sunk_once.1) ∧
  sent ([] ++ sunk_once.2) = [].
Proof.
  apply (sink_keeps_all sunk_once.1 ([] ++ sunk_once.2)). apply sunk_once_reachable.
Defined.

End NodePropsFacts.

(** * Properties of the tool of tool_simulator.py *)
Module MetalToolFacts.
Import Simpy ToolSimulator ToolProps Scenarios.
Local Open Scope Z_scope.

(** *** [MetalTool.__init__] *)

Lemma create_shared_spec ps : ∀ m (w : sim),
  NoDup ps → (∀ p, p ∈ ps → m !! p = None) →
  (∀ p r, m !! p = Some r → (r < length (resources w))%nat) →
  (∀ p q r, m !! p = Some r → m !! q = Some r → p = q) →
  let m' := (create_shared ps m w).1 in
  let w' := (create_shared ps m w).2 in
  (∀ p, is_Some (m' !! p) ↔ is_Some (m !! p) ∨ p ∈ ps) ∧
  (∀ p r, m' !! p = Some r → (r < length (resources w'))%nat) ∧
  (∀ p q r, m' !! p = Some r → m' !! q = Some r → p = q) ∧
  (∀ p r, m' !! p = Some r → m !! p = Some r ∨
                             resources w' !! r = Some (Resource 1 [] [])) ∧
  user w' = user w ∧ (∃ extra, resources w' = resources w ++ extra).
Proof.
  induction ps as [|p0 ps IH]; intros m w Hnd Hfresh Hlt Hinj; simpl.
  - split_and!; try done.
    + intros p. split; [by left|]. intros [?|H]; [done|]. by apply elem_of_nil in H.
    + intros; by left.
    + exists []. by rewrite app_nil_r.
  - apply NoDup_cons in Hnd as [Hp0 Hnd].
    set (w1 := set_resources (λ rs, rs ++ [Resource 1 [] []]) w).
    set (m1 := <[p0 := length (resources w)]> m).
    unfold bind, new_resource. simpl. fold w1. fold m1.
    destruct (IH m1 w1 Hnd) as (Hd & Hl & Hi & Hr & Hu & [extra He]).
    + intros p Hp. unfold m1. rewrite lookup_insert_ne; [|by intros ->].
      apply Hfresh. by right.
    + intros p r. unfold m1, w1. simpl. rewrite length_app. simpl.
      destruct (decide (p = p0)) as [->|Hne].
      * rewrite lookup_insert_eq. intros [= <-]. lia.
      * rewrite lookup_insert_ne by done. intros H. apply Hlt in H. lia.
    + intros p q r. unfold m1.
      destruct (decide (p = p0)) as [->|Hne], (decide (q = p0)) as [->|Hne'];
        rewrite ?lookup_insert_eq, ?lookup_insert_ne by done; try done.
      * intros [= <-] H. apply Hlt in H. lia.
      * intros H [= <-]. apply Hlt in H. lia.
      * apply Hinj.
    + split_and!.
      * intros p. rewrite Hd. unfold m1. rewrite elem_of_cons.
        destruct (decide (p = p0)) as [->|Hne].
        -- rewrite lookup_insert_eq. split; [by right; left|by left].
        -- rewrite lookup_insert_ne by done. tauto.
      * done.
      * done.
      * intros p r H. destruct (Hr p r H) as [H1|H1]; [|by right].
        unfold m1 in H1. destruct (decide (p = p0)) as [->|Hne].
        -- rewrite lookup_insert_eq in H1. injection H1 as <-. right.
           rewrite He. unfold w1. simpl. rewrite <- app_assoc.
           by rewrite lookup_app_r, Nat.sub_diag by done.
        -- rewrite lookup_insert_ne in H1 by done. by left.
      * by rewrite Hu.
      * unfold w1 in He. simpl in He. rewrite <- app_assoc in He. eauto.
Qed.

Lemma elem_of_all_parts (cap : capability) n :
  n ∈ all_parts cap ↔
  ∃ unit_info u names, unit_info ∈ cap ∧ (u, names) ∈ unit_info ∧ n ∈ names.
Proof.
  unfold all_parts. rewrite elem_of_remove_dups, list_elem_of_In, in_concat.
  split.
  - intros (l & Hl & Hn). apply in_map_iff in Hl as (unit_info & <- & Hu).
    apply in_concat in Hn as (names & Hm & Hn).
    apply in_map_iff in Hm as ([u names'] & <- & Hm).
    exists unit_info, u, names'. by rewrite !list_elem_of_In.
  - intros (unit_info & u & names & Hu & Hm & Hn).
    exists (concat (map snd unit_info)). split.
    + apply in_map_iff. exists unit_info. by rewrite <- list_elem_of_In.
    + apply in_concat. exists names. split; [|by rewrite <- list_elem_of_In].
      apply in_map_iff. exists (u, names). by rewrite <- list_elem_of_In.
Qed.

Lemma elem_of_parts_of shared names a :
  a ∈ parts_of shared names →
  part_name a ∈ names ∧ shared !! part_name a = Some (part_resource a).
Proof.
  unfold parts_of. rewrite list_elem_of_omap. intros (n & Hn & Ha).
  destruct (shared !! n) as [r|] eqn:E; simpl in Ha; [|done]. injection Ha as <-. done.
Qed.

Lemma parts_of_names shared names :
  (∀ n, n ∈ names → is_Some (shared !! n)) →
  part_name <$> parts_of shared names = names.
Proof.
  unfold parts_of. induction names as [|n names IH]; intros H; [done|]. simpl.
  destruct (H n) as [r Hr]; [by left|]. rewrite Hr. simpl. f_equal.
  apply IH. intros ? ?. apply H. by right.
Qed.

Lemma listing_spec shared unit_info : ∀ m u,
  (listing shared m unit_info !! u = m !! u ∧ ∀ names, (u, names) ∉ unit_info) ∨
  ∃ names, (u, names) ∈ unit_info ∧ listing shared m unit_info !! u = Some (parts_of shared names).
Proof.
  unfold listing. induction unit_info as [|[u0 names0] l IH]; intros m u; simpl.
  - left. split; [done|]. intros ? H. by apply elem_of_nil in H.
  - destruct (IH (<[u0 := parts_of shared names0]> m) u) as [[He Hn]|(names & Hin & He)].
    + destruct (decide (u = u0)) as [->|Hne].
      * right. exists names0. split; [by left|]. by rewrite He, lookup_insert_eq.
      * left. rewrite He, lookup_insert_ne by done. split; [done|].
        intros names H. apply elem_of_cons in H as [[= ? ?]|H]; [done|]. by apply (Hn names).
    + right. exists names. split; [by right|done].
Qed.

Lemma listings_spec shared (cap : capability) : ∀ m u,
  (foldl (listing shared) m cap !! u = m !! u ∧
   ∀ unit_info names, unit_info ∈ cap → (u, names) ∉ unit_info) ∨
  ∃ unit_info names, unit_info ∈ cap ∧ (u, names) ∈ unit_info ∧
    foldl (listing shared) m cap !! u = Some (parts_of shared names).
Proof.
  induction cap as [|unit_info cap IH]; intros m u; simpl.
  - left. split; [done|]. intros ? ? H. by apply elem_of_nil in H.
  - destruct (IH (listing shared m unit_info) u) as [[He Hn]|(ui & names & Hin & Hm & He)].
    + destruct (listing_spec shared unit_info m u) as [[He' Hn']|(names & Hin & He')].
      * left. rewrite He, He'. split; [done|].
        intros ui names H. apply elem_of_cons in H as [->|H]; [apply Hn'|by apply Hn].
      * right. exists unit_info, names. split_and!; [by left|done|by rewrite He].
    + right. exists ui, names. split_and!; [by right|done|done].
Qed.

Lemma MetalTool_init_eq cap (w : sim) :
  let shared := (create_shared (all_parts cap) ∅ w).1 in
  let w1 := (create_shared (all_parts cap) ∅ w).2 in
  (MetalTool_init cap w).2
  = set_user (set_tool (Build_MetalTool shared (foldl (listing shared) ∅ cap))) w1.
Proof.
  unfold MetalTool_init, bind, modify. simpl.
  destruct (create_shared (all_parts cap) ∅ w) as [shared w1]. reflexivity.
Qed.

(** X10.  [MetalTool.__init__] makes one resource of capacity 1 for each part
    name: the entries of any two units stand for the same resource
    exactly when they carry the same part name. *)
Theorem parts_are_shared_by_name (cap : capability) (w : sim) u1 u2 ps1 ps2 a b :
  let w' := (MetalTool_init cap w).2 in
  unit_to_parts (tool (user w')) !! u1 = Some ps1 →
  unit_to_parts (tool (user w')) !! u2 = Some ps2 →
  a ∈ ps1 → b ∈ ps2 →
  (part_resource a = part_resource b ↔ part_name a = part_name b) ∧
  shared_resources (tool (user w')) !! part_name a = Some (part_resource a) ∧
  resources w' !! part_resource a = Some (Resource 1 [] []).
Proof.
  intros w'. unfold w'. rewrite MetalTool_init_eq. simpl.
  destruct (create_shared_spec (all_parts cap) ∅ w) as (Hd & Hl & Hi & Hr & Hu & He);
    [apply NoDup_remove_dups|done|done|done|].
  set (shared := (create_shared (all_parts cap) ∅ w).1) in *.
  intros H1 H2 Ha Hb.
  assert (Hin : ∀ u ps x, foldl (listing shared) ∅ cap !! u = Some ps → x ∈ ps →
                          shared !! part_name x = Some (part_resource x)).
  { intros u ps x Hu' Hx.
    destruct (listings_spec shared cap ∅ u) as [[He' _]|(ui & names & _ & _ & He')];
      rewrite He' in Hu'; [done|]. injection Hu' as <-.
    by apply elem_of_parts_of in Hx as [_ ?]. }
  pose proof (Hin _ _ _ H1 Ha) as Sa. pose proof (Hin _ _ _ H2 Hb) as Sb.
  split_and!.
  - split.
    + intros E. rewrite E in Sa. by apply (Hi _ _ _ Sa Sb).
    + intros E. rewrite E in Sa. congruence.
  - done.
  - by destruct (Hr _ _ Sa) as [?|?].
Qed.

Lemma parts_are_shared_by_name_witness :
  (0%nat = 0%nat ↔ "P"%string = "P"%string) ∧
  ToolSimulator.shared_resources
    (ToolSimulator.tool
       (user (ToolSimulator.MetalTool_init shared_part
                (init_env ToolSimulator.empty_world)).2)) !! "P"%string = Some 0%nat ∧
  resources (ToolSimulator.MetalTool_init shared_part
               (init_env ToolSimulator.empty_world)).2 !! 0%nat
  = Some (Resource 1 [] []).
Proof.
  apply (parts_are_shared_by_name shared_part (init_env ToolSimulator.empty_world)
           "U1" "U2" [ToolSimulator.Part "P" 0] [ToolSimulator.Part "P" 0]
           (ToolSimulator.Part "P" 0) (ToolSimulator.Part "P" 0)).
  - vm_compute. reflexivity.
  - vm_compute. reflexivity.
  - apply list_elem_of_here.
  - apply list_elem_of_here.
Defined.

Lemma listing_last shared u (ui : list (string * list string)) : ∀ m,
  listing shared m ui !! u
  = match last (omap (λ '(unit_id, names),
                        if decide (unit_id = u) then Some names else None) ui) with
    | Some names => Some (parts_of shared names)
    | None => m !! u
    end.
Proof.
  unfold listing. induction ui as [|[u0 names] ui IH]; intros m; simpl; [done|].
  rewrite IH. destruct (decide (u0 = u)) as [->|Hne].
  - rewrite last_cons, lookup_insert_eq. by destruct (last _).
  - by rewrite lookup_insert_ne.
Qed.

Lemma listings_last shared u (cap : capability) : ∀ m,
  foldl (listing shared) m cap !! u
  = match last (listings u cap) with
    | Some names => Some (parts_of shared names)
    | None => m !! u
    end.
Proof.
  unfold listings. induction cap as [|ui cap IH]; intros m; simpl; [done|].
  rewrite IH, omap_app, last_app, listing_last. by destruct (last (omap _ (concat cap))).
Qed.

Lemma listings_elem u (cap : capability) names :
  names ∈ listings u cap → ∃ unit_info, unit_info ∈ cap ∧ (u, names) ∈ unit_info.
Proof.
  unfold listings. rewrite list_elem_of_omap. intros ([u0 names0] & Hin & Hsel).
  destruct (decide (u0 = u)) as [->|]; [|done]. injection Hsel as ->.
  apply list_elem_of_In, in_concat in Hin as (ui & H1 & H2).
  exists ui. by rewrite !list_elem_of_In.
Qed.

(** X11.  The part list that [MetalTool.__init__] stores for a unit carries
    the part names of the unit's last listing, in their order; a unit
    that is not listed has no part list. *)
Theorem unit_parts_follow_the_last_listing (cap : capability) (w : sim) (u : string) :
  (λ ps : list part, part_name <$> ps)
    <$> (unit_to_parts (tool (user (MetalTool_init cap w).2)) !! u)
  = last (listings u cap).
Proof.
  rewrite MetalTool_init_eq. simpl.
  destruct (create_shared_spec (all_parts cap) ∅ w) as (Hd & _);
    [apply NoDup_remove_dups|done|done|done|].
  set (shared := (create_shared (all_parts cap) ∅ w).1) in *.
  rewrite listings_last.
  destruct (last (listings u cap)) as [names|] eqn:E; [|by rewrite lookup_empty].
  simpl. f_equal. apply parts_of_names.
  intros n Hn. apply Hd. right. apply elem_of_all_parts.
  apply last_Some in E as [l' E].
  destruct (listings_elem u cap names) as (ui & H1 & H2).
  { rewrite E. apply elem_of_app. right. by left. }
  by exists ui, u, names.
Qed.

(** *** [wafer_process] *)

Lemma ended_well_bind {A} wafer (m : T A) (k : A → T (outcome wafer_gen)) :
  (∀ a w, ended_well wafer (k a w)) → ∀ w, ended_well wafer (bind m k w).
Proof. intros H w. unfold bind. destruct (m w) as [a w']. apply H. Qed.

Lemma finish_ended_well l w : ended_well (wafer_id l) (finish l w).
Proof.
  unfold ended_well, finish, bind, gets, modify, ret. simpl.
  by rewrite lookup_insert_eq.
Qed.

Lemma on_exception_ended_well l w : ended_well (wafer_id l) (on_exception l w).
Proof.
  unfold on_exception. apply ended_well_bind. intros _ w1.
  apply ended_well_bind. intros _ w2. apply finish_ended_well.
Qed.

Lemma after_loop_ended_well l w : ended_well (wafer_id l) (after_loop l w).
Proof.
  unfold after_loop. destruct (current l); [|apply finish_ended_well].
  destruct (py_index _ _); [|apply on_exception_ended_well].
  do 3 (apply ended_well_bind; intros ? ?). apply finish_ended_well.
Qed.

Lemma process_step_ended_well l idx step w :
  ended_well (wafer_id l) (process_step l idx step w).
Proof.
  unfold process_step. apply ended_well_bind. intros [e|] w1;
    [done|apply on_exception_ended_well].
Qed.

Lemma fallback_step_ended_well l idx step w :
  ended_well (wafer_id l) (fallback_step l idx step w).
Proof.
  unfold fallback_step. apply ended_well_bind. intros [e|] w1;
    [done|apply on_exception_ended_well].
Qed.

Lemma for_loop_ended_well l rest : ∀ idx w,
  ended_well (wafer_id l) (for_loop l idx rest w).
Proof.
  induction rest as [|step rest IH]; intros idx w; simpl.
  - apply after_loop_ended_well.
  - apply ended_well_bind. intros [|p ps] w1.
    + apply ended_well_bind. intros _ w2. apply IH.
    + apply ended_well_bind. intros requests w2.
      apply ended_well_bind. intros [e|] w3; [|apply on_exception_ended_well].
      apply ended_well_bind. intros c w4. by destruct (current l).
Qed.

Lemma resume_first_ended_well l idx step ua requests te result w :
  ended_well (wafer_id l) (resume_first l idx step ua requests te result w).
Proof.
  unfold resume_first. destruct (decide _).
  - do 2 (apply ended_well_bind; intros ? ?). apply finish_ended_well.
  - destruct (first_in _ _).
    + apply ended_well_bind. intros cur w1.
      apply (process_step_ended_well (Locals (wafer_id l) (sorted_flow l) cur)).
    + apply ended_well_bind. intros ? ?. apply finish_ended_well.
Qed.

Lemma resume_next_ended_well l h idx step ua requests te result w :
  ended_well (wafer_id l) (resume_next l h idx step ua requests te result w).
Proof.
  unfold resume_next. destruct (decide _).
  - do 2 (apply ended_well_bind; intros ? ?). apply fallback_step_ended_well.
  - destruct (first_in _ _).
    + apply ended_well_bind. intros next w1.
      destruct (py_index _ _); [|apply on_exception_ended_well].
      do 3 (apply ended_well_bind; intros ? ?).
      apply (process_step_ended_well (Locals (wafer_id l) (sorted_flow l) _)).
    + apply ended_well_bind. intros ? ?. apply fallback_step_ended_well.
Qed.

Lemma start_ended_well wafer unit_flow s w :
  ended_well wafer (start wafer unit_flow s w).
Proof.
  unfold start, bind, gets. simpl.
  set (flow := sorted_by_seq _).
  assert (∀ w1, now w1 = now w →
            ended_well wafer
              (match flow with
               | [] => λ w0, ret Return (set_user (set_end_time wafer (now w)) w0)
               | _ :: _ => for_loop (Locals wafer flow None) 0 flow
               end w1)) as H.
  { intros w1 Hn. destruct flow as [|st flow].
    - unfold ret, ended_well. simpl. by rewrite lookup_insert_eq, Hn.
    - apply (for_loop_ended_well (Locals wafer (st :: flow) None)). }
  destruct s; simpl; by apply H.
Qed.

(** X12.  However [wafer_process] is resumed, it never raises: it either
    suspends again, still working on the same wafer, or returns, and
    then it has recorded the current time as the end time of its
    wafer. *)
Theorem wafer_process_records_its_end (g : wafer_gen) (result : list nat) (w : sim) :
  match (wafer_process g result w).1 with
  | Yield g' _ => wafer_of g' = wafer_of g
  | Return =>
      end_time_tracker (user (wafer_process g result w).2) !! wafer_of g
      = Some (now (wafer_process g result w).2)
  | Raise | Diverge => False
  end.
Proof.
  change (ended_well (wafer_of g) (wafer_process g result w)).
  destruct g as [wafer uf s|l idx step ua rq te|l idx step ua rq te|l idx|l idx]; simpl.
  - apply start_ended_well.
  - apply resume_first_ended_well.
  - destruct (current l); [apply resume_next_ended_well|apply on_exception_ended_well].
  - apply for_loop_ended_well.
  - apply for_loop_ended_well.
Qed.

End MetalToolFacts.

(** * The clock and the wafer log of tool_simulator.py *)
Module TimeFacts.
Import Simpy ToolSimulator TimeProps.
Local Open Scope Z_scope.

Section Steady.
Context {P U : Type}.
Implicit Types (w : env P U).

Lemma in_time_order_earlier t t' (q : list entry) :
  t' ≤ t → in_time_order t q → in_time_order t' q.
Proof. destruct q; simpl; [done|]. intros ? [? ?]. split; [lia|done]. Qed.

Lemma in_time_order_heappush t x q :
  t ≤ time_of x → in_time_order t q → in_time_order t (heappush x q).
Proof.
  revert t. induction q as [|y q IH]; intros t Hx; simpl; [done|].
  intros [Hy Hq]. destruct (entry_lt x y) eqn:E; simpl.
  - split_and!; [done| |done]. unfold entry_lt, time_of in *.
    destruct x as [[[tx px] cx] ex], y as [[[ty py] cy] ey]. simpl.
    apply orb_true_iff in E as [E|E]; [apply Z.ltb_lt in E; lia|].
    apply andb_true_iff in E as [E _]. apply Z.eqb_eq in E. lia.
  - split; [done|]. apply IH; [|done]. unfold entry_lt, time_of in *.
    destruct x as [[[tx px] cx] ex], y as [[[ty py] cy] ey]. simpl.
    apply orb_false_iff in E as [E _]. apply Z.ltb_ge in E. lia.
Qed.

Lemma steady_ret {A} (a : A) : steady (ret (P:=P) (U:=U) a).
Proof. by intros w. Qed.

Lemma steady_gets {A} (f : env P U → A) : steady (gets f).
Proof. by intros w. Qed.

Lemma steady_bind {A B} (m : M P U A) (k : A → M P U B) :
  steady m → (∀ a, steady (k a)) → steady (bind m k).
Proof.
  intros Hm Hk w. unfold bind. destruct (Hm w) as (H1 & H2 & H3 & H4).
  destruct (m w) as [a w1]. simpl in *.
  destruct (Hk a w1) as (K1 & K2 & K3 & K4).
  rewrite K1, K2, K3, H1, H2, H3. split_and!; try done.
  intros Hq. rewrite H1 in K4. auto.
Qed.

Lemma steady_mapM {A B} (f : A → M P U B) (l : list A) :
  (∀ x, steady (f x)) → steady (mapM f l).
Proof.
  intros Hf. induction l as [|x l IH]; simpl; [apply steady_ret|].
  apply steady_bind; [done|]. intros y. apply steady_bind; [done|]. intros ys.
  apply steady_ret.
Qed.

(** Whatever touches only the events and the resources is steady. *)
Lemma steady_same {A} (m : M P U A) :
  (∀ w, now (m w).2 = now w ∧ procs (m w).2 = procs w ∧ user (m w).2 = user w ∧
        queue (m w).2 = queue w) →
  steady m.
Proof. intros H w. destruct (H w) as (? & ? & ? & Hq). rewrite Hq. by split_and!. Qed.

Lemma steady_new_event k trig cbs : steady (new_event (P:=P) (U:=U) k trig cbs).
Proof. by apply steady_same. Qed.

Lemma steady_alter_event f e : steady (alter_event (P:=P) (U:=U) f e).
Proof. by apply steady_same. Qed.

Lemma steady_add_callback cb e : steady (add_callback (P:=P) (U:=U) cb e).
Proof. apply steady_alter_event. Qed.

Lemma steady_set_resources f : steady (modify (P:=P) (U:=U) (set_resources f)).
Proof. by apply steady_same. Qed.

Lemma steady_schedule e prio d : 0 ≤ d → steady (schedule (P:=P) (U:=U) e prio d).
Proof.
  intros Hd w. simpl. split_and!; try done. intros Hq.
  apply in_time_order_heappush; [|done]. unfold time_of. simpl. lia.
Qed.

Lemma steady_succeed e : steady (succeed (P:=P) (U:=U) e).
Proof.
  apply steady_bind; [apply steady_alter_event|]. intros _. by apply steady_schedule.
Qed.

Lemma steady_timeout d : steady (timeout (P:=P) (U:=U) d).
Proof.
  unfold timeout. destruct (Z.ltb_spec d 0); [apply steady_ret|].
  apply steady_bind; [apply steady_new_event|]. intros e.
  apply steady_bind; [by apply steady_schedule|]. intros _. apply steady_ret.
Qed.

Lemma steady_trigger_put r : steady (trigger_put (P:=P) (U:=U) r).
Proof.
  intros w. unfold trigger_put. destruct (resources w !! r) as [res|]; [|by split_and!].
  destruct (put_queue res) as [|q rest]; [by split_and!|].
  destruct (_ <? _); [|by split_and!].
  match goal with |- context [succeed q ?w0] =>
    destruct (steady_succeed q w0) as (H1 & H2 & H3 & H4) end.
  rewrite H1, H2, H3. split_and!; try done.
Qed.

Lemma steady_request r : steady (request (P:=P) (U:=U) r).
Proof.
  apply steady_bind; [apply steady_new_event|]. intros e.
  apply steady_bind; [apply steady_set_resources|]. intros _.
  apply steady_bind; [apply steady_trigger_put|]. intros _. apply steady_ret.
Qed.

Lemma steady_release r req : steady (release (P:=P) (U:=U) r req).
Proof.
  apply steady_bind; [apply steady_new_event|]. intros e.
  apply steady_bind; [apply steady_set_resources|]. intros _.
  apply steady_bind; [apply steady_succeed|]. intros _. apply steady_ret.
Qed.

Lemma steady_cancel e : steady (cancel (P:=P) (U:=U) e).
Proof.
  apply steady_same. intros w. unfold cancel. destruct (is_triggered e w); [done|].
  by destruct (resource_of e w).
Qed.

Lemma steady_cancel_untriggered e : steady (cancel_untriggered (P:=P) (U:=U) e).
Proof.
  intros w. unfold cancel_untriggered. destruct (is_triggered e w); [by split_and!|].
  apply steady_cancel.
Qed.

Lemma steady_check c : steady (check (P:=P) (U:=U) c).
Proof.
  intros w. unfold check. destruct (is_triggered c w); [by split_and!|]. apply steady_succeed.
Qed.

Lemma steady_any_of_attach c evs : steady (any_of_attach (P:=P) (U:=U) c evs).
Proof.
  induction evs as [|e evs IH]; simpl; [apply steady_ret|].
  apply steady_bind; [|done]. intros w. destruct (is_processed e w).
  - apply steady_check.
  - apply steady_add_callback.
Qed.

Lemma steady_any_of evs : steady (any_of (P:=P) (U:=U) evs).
Proof.
  apply steady_bind; [apply steady_new_event|]. intros c.
  apply steady_bind.
  - destruct evs; [apply steady_succeed|apply steady_any_of_attach].
  - intros _. apply steady_bind; [apply steady_add_callback|]. intros _. apply steady_ret.
Qed.

Lemma steady_build_value c : steady (build_value (P:=P) (U:=U) c).
Proof.
  apply steady_same. intros w. unfold build_value.
  destruct (events w !! c) as [ev|]; [|done]. destruct (kind ev); try done.
  simpl. generalize w. induction evs as [|e evs IH]; intros w0; simpl; [done|].
  destruct (IH (set_events (alter (remove_check c) e) w0)) as (? & ? & ? & ?).
  by split_and!.
Qed.

End Steady.

(** *** The scheduler keeps the invariant *)

Section Clock.
Context {P U : Type}.
Variable gen_ok : Z → P → Prop.
Variable user_ok : Z → U → Prop.
Implicit Types (w : env P U).

Lemma steady_timely {A} (m : M P U A) w :
  steady m → timely_of gen_ok user_ok w →
  timely_of gen_ok user_ok (m w).2 ∧ now (m w).2 = now w ∧ procs (m w).2 = procs w.
Proof.
  intros Hm (H0 & Hq & Hp & Hl). destruct (Hm w) as (H1 & H2 & H3 & H4).
  split_and!; [|done|done]. unfold timely_of. rewrite H1, H2, H3. split_and!; auto.
Qed.

Lemma timely_set_user (f : U → U) w :
  timely_of gen_ok user_ok w → user_ok (now w) (f (user w)) →
  timely_of gen_ok user_ok (set_user f w).
Proof. intros (H0 & Hq & Hp & Hl) Hf. by split_and!. Qed.

Lemma in_time_bind {A} (m : M P U A) (k : A → M P U (outcome P)) w :
  timely_of gen_ok user_ok (m w).2 ∧ now (m w).2 = now w →
  (timely_of gen_ok user_ok (m w).2 → in_time_of gen_ok user_ok (k (m w).1) (m w).2) →
  in_time_of gen_ok user_ok (bind m k) w.
Proof.
  intros (Ht & Hn) Hk. specialize (Hk Ht). unfold in_time_of, bind in *.
  destruct (m w) as [a w1]. simpl in *. by rewrite <- Hn.
Qed.

Lemma in_time_steady {A} (m : M P U A) (k : A → M P U (outcome P)) w :
  steady m → timely_of gen_ok user_ok w →
  (∀ a w1, timely_of gen_ok user_ok w1 → now w1 = now w → in_time_of gen_ok user_ok (k a) w1) →
  in_time_of gen_ok user_ok (bind m k) w.
Proof.
  intros Hm Hw Hk. destruct (steady_timely m w Hm Hw) as (Ht & Hn & Hp).
  apply in_time_bind; [done|]. intros _. by apply Hk.
Qed.

Lemma in_time_gets {A} (f : env P U → A) (k : A → M P U (outcome P)) w :
  in_time_of gen_ok user_ok (k (f w)) w → in_time_of gen_ok user_ok (bind (gets f) k) w.
Proof. done. Qed.

Lemma timely_set_generator p og w :
  timely_of gen_ok user_ok w →
  match og with Some g => gen_ok (now w) g | None => True end →
  timely_of gen_ok user_ok (set_generator p og w).2.
Proof.
  intros (H0 & Hq & Hp & Hl) Hg. split_and!; try done. simpl.
  apply Forall_alter; [done|]. intros pe _ _. simpl. done.
Qed.

Lemma process_timely g w :
  timely_of gen_ok user_ok w → gen_ok (now w) g →
  timely_of gen_ok user_ok (process g w).2 ∧ now (process g w).2 = now w.
Proof.
  intros (H0 & Hq & Hp & Hl) Hg. unfold process. simpl. split; [|done]. split_and!; try done.
  - apply in_time_order_heappush; [|done]. unfold time_of. simpl. lia.
  - apply Forall_app. split; [done|]. apply Forall_singleton. simpl. done.
Qed.

Hypothesis gen_ok_later : ∀ t t' g, t ≤ t' → gen_ok t g → gen_ok t' g.
Hypothesis user_ok_later : ∀ t t' u, t ≤ t' → user_ok t u → user_ok t' u.

Variable resume : P → list nat → M P U (outcome P).
Hypothesis resume_in_time :
  ∀ g v w, timely_of gen_ok user_ok w → gen_ok (now w) g →
           in_time_of gen_ok user_ok (resume g v) w.

Lemma resume_loop_timely fuel : ∀ p g v w,
  timely_of gen_ok user_ok w → gen_ok (now w) g →
  timely_of gen_ok user_ok (resume_loop resume fuel p g v w).2 ∧
  now (resume_loop resume fuel p g v w).2 = now w.
Proof.
  induction fuel as [|fuel IH]; intros p g v w Hw Hg; simpl;
    destruct (resume_in_time g v w Hw Hg) as (Ht & Hn & Hy);
    destruct (resume g v w) as [[k e| | |] w1]; simpl in *.
  - destruct (is_processed e w1); [done|]. unfold bind.
    destruct (steady_timely (add_callback (Resume p) e) w1 (steady_add_callback _ _) Ht)
      as (Ht2 & Hn2 & _).
    destruct (add_callback (Resume p) e w1) as [[] w2]. simpl in *.
    split; [|congruence]. apply timely_set_generator; [done|]. by rewrite Hn2, Hn.
  - destruct (procs w1 !! p) as [pe|]; [|done]. unfold bind.
    pose proof (timely_set_generator p None w1 Ht I) as Ht2.
    destruct (set_generator p None w1) as [[] w2] eqn:E.
    assert (now w2 = now w1) as Hn2 by (by injection E as <-).
    destruct (steady_timely (succeed (pevent pe)) w2 (steady_succeed _) Ht2) as (? & ? & _).
    split; [done|congruence].
  - split; [|done]. apply (timely_set_generator p None w1 Ht I).
  - done.
  - destruct (is_processed e w1).
    + destruct (IH p k (match events w1 !! e with Some ev => value ev | None => [] end) w1)
        as (? & ?); [done|by rewrite Hn|]. split; [done|congruence].
    + unfold bind.
      destruct (steady_timely (add_callback (Resume p) e) w1 (steady_add_callback _ _) Ht)
        as (Ht2 & Hn2 & _).
      destruct (add_callback (Resume p) e w1) as [[] w2]. simpl in *.
      split; [|congruence]. apply timely_set_generator; [done|]. by rewrite Hn2, Hn.
  - destruct (procs w1 !! p) as [pe|]; [|done]. unfold bind.
    pose proof (timely_set_generator p None w1 Ht I) as Ht2.
    destruct (set_generator p None w1) as [[] w2] eqn:E.
    assert (now w2 = now w1) as Hn2 by (by injection E as <-).
    destruct (steady_timely (succeed (pevent pe)) w2 (steady_succeed _) Ht2) as (? & ? & _).
    split; [done|congruence].
  - split; [|done]. apply (timely_set_generator p None w1 Ht I).
  - done.
Qed.

Lemma run_callback_timely e cb w :
  timely_of gen_ok user_ok w →
  timely_of gen_ok user_ok (run_callback resume e cb w).2 ∧
  now (run_callback resume e cb w).2 = now w.
Proof.
  intros Hw. destruct cb as [r|r|c| |p|]; unfold run_callback; try done.
  - destruct (steady_timely (trigger_put r) w (steady_trigger_put r) Hw) as (? & ? & _). done.
  - destruct (steady_timely (check c) w (steady_check c) Hw) as (? & ? & _). done.
  - destruct (steady_timely (build_value e) w (steady_build_value e) Hw) as (? & ? & _). done.
  - destruct (procs w !! p) as [pe|] eqn:Ep; [|done].
    destruct (generator pe) as [g|] eqn:Eg; [|done].
    match goal with |- context [resume_loop resume ?f p g ?v ?w0] =>
      destruct (resume_loop_timely f p g v w0) as (Ht & Hn);
        [done| |destruct (resume_loop resume f p g v w0) as [[] w1]] end.
    + destruct Hw as (_ & _ & Hp & _). apply (Forall_lookup_1 _ _ _ _ Hp) in Ep.
      by rewrite Eg in Ep.
    + simpl in *. done.
Qed.

Lemma step_timely w w' :
  timely_of gen_ok user_ok w → step resume w = Some w' →
  timely_of gen_ok user_ok w' ∧ now w ≤ now w'.
Proof.
  intros Hw. unfold step. destruct (queue w) as [|[[[t pr] c] e] q] eqn:Eq; [done|].
  assert (now w ≤ t ∧ in_time_order t q) as [Ht Hq].
  { destruct Hw as (_ & Hq & _). rewrite Eq in Hq. done. }
  assert (0 ≤ t ∧
          Forall (λ pe, match generator pe with
                        | Some g => gen_ok t g
                        | None => True
                        end) (procs w) ∧
          user_ok t (user w)) as (H0 & Hp & Hl).
  { destruct Hw as (H0 & _ & Hp & Hl). split_and!; [lia| |by apply (user_ok_later (now w))].
    eapply Forall_impl; [exact Hp|]. intros pe. simpl.
    destruct (generator pe) as [g|]; [|done]. by apply gen_ok_later. }
  simpl. destruct (events w !! e) as [ev|]; [|intros [= <-]; by split_and!].
  intros [= <-].
  match goal with |- timely_of _ _ (foldl _ ?w0 ?cbs) ∧ _ =>
    assert (timely_of gen_ok user_ok w0 ∧ now w0 = t) as H1 by (by split_and!);
    revert H1; generalize w0; generalize cbs end.
  intros cbs. induction cbs as [|cb cbs IH]; intros w0 [H1 H2]; simpl.
  - split; [done|]. by rewrite H2.
  - apply IH. destruct (stopped w0 || crashed w0); [done|].
    destruct (run_callback_timely e cb w0 H1) as [? ?]. split; [done|congruence].
Qed.

Lemma run_steps_timely n : ∀ w,
  timely_of gen_ok user_ok w → timely_of gen_ok user_ok (run_steps resume n w).
Proof.
  induction n as [|n IH]; intros w Hw; simpl; [done|].
  destruct (stopped w || crashed w); [done|].
  destruct (step resume w) as [w'|] eqn:E; [|done].
  apply IH. by destruct (step_timely w w' Hw E).
Qed.

End Clock.

(** *** [wafer_process] keeps the invariant *)

Lemma tool_steady_timely {A} (m : T A) (w : sim) :
  steady m → timely w → timely (m w).2 ∧ now (m w).2 = now w.
Proof. intros Hm Hw. by destruct (steady_timely wafer_ok log_ok m w Hm Hw) as (? & ? & _). Qed.

Lemma tool_bind {A} (m : T A) (k : A → T (outcome wafer_gen)) (w : sim) :
  timely (m w).2 ∧ now (m w).2 = now w →
  (timely (m w).2 → in_time (k (m w).1) (m w).2) →
  in_time (bind m k) w.
Proof. apply (in_time_bind wafer_ok log_ok). Qed.

Lemma tool_steady {A} (m : T A) (k : A → T (outcome wafer_gen)) (w : sim) :
  steady m → timely w →
  (∀ a w1, timely w1 → now w1 = now w → in_time (k a) w1) →
  in_time (bind m k) w.
Proof. apply (in_time_steady wafer_ok log_ok). Qed.

Lemma tool_now (k : Z → T (outcome wafer_gen)) (w : sim) :
  in_time (k (now w)) w → in_time (bind (gets now) k) w.
Proof. done. Qed.

Lemma bind_gets {A B} (f : sim → A) (k : A → T B) (w : sim) :
  bind (gets f) k w = k (f w) w.
Proof. done. Qed.

Lemma same_log_timely (f : world → world) (w : sim) :
  timely w → wafer_log (f (user w)) = wafer_log (user w) →
  timely (set_user f w) ∧ now (set_user f w) = now w.
Proof.
  intros Hw Hf. split; [|done]. apply (timely_set_user wafer_ok log_ok); [done|].
  unfold log_ok. rewrite Hf. by destruct Hw as (_ & _ & _ & ?).
Qed.

Lemma print_timely m (w : sim) :
  timely w → timely (print m w).2 ∧ now (print m w).2 = now w.
Proof. intros Hw. by apply (same_log_timely (print_msg m)). Qed.

Lemma finish_in_time l (w : sim) : timely w → in_time (finish l) w.
Proof.
  intros Hw. unfold finish. apply tool_now.
  apply tool_bind; [by apply (same_log_timely (set_end_time _ _))|]. intros Hw1.
  by split_and!.
Qed.

Lemma on_exception_in_time l (w : sim) : timely w → in_time (on_exception l) w.
Proof.
  intros Hw. unfold on_exception. apply tool_bind; [by apply print_timely|]. intros Hw1.
  apply tool_steady; [|done|].
  - destruct (current l); [|apply steady_ret].
    apply steady_bind; [apply steady_release|]. intros _. apply steady_ret.
  - intros _ w2 Hw2 _. by apply finish_in_time.
Qed.

Lemma log_append_timely r (w : sim) :
  timely w → record_in_time (now w) r →
  timely (set_user (log_append r) w) ∧ now (set_user (log_append r) w) = now w.
Proof.
  intros Hw Hr. split; [|done]. apply (timely_set_user wafer_ok log_ok); [done|].
  apply Forall_app. split; [by destruct Hw as (_ & _ & _ & ?)|by apply Forall_singleton].
Qed.

Lemma after_loop_in_time l (w : sim) :
  timely w → taken_by (now w) (current l) → in_time (after_loop l) w.
Proof.
  intros Hw Hc. unfold after_loop. destruct (current l) as [h|]; [|by apply finish_in_time].
  destruct (py_index _ _) as [last|]; [|by apply on_exception_in_time].
  apply tool_now. apply tool_bind.
  { apply log_append_timely; [done|]. unfold record_in_time. simpl in *. lia. }
  intros Hw1. apply tool_steady; [apply steady_release|done|].
  intros _ w2 Hw2 _. by apply finish_in_time.
Qed.

Lemma process_step_in_time l idx step (w : sim) :
  timely w → taken_by (now w) (current l) → in_time (process_step l idx step) w.
Proof.
  intros Hw Hc. unfold process_step. apply tool_steady; [apply steady_timeout|done|].
  intros [e|] w1 Hw1 Hn; [|by apply on_exception_in_time].
  split_and!; [done|done|]. simpl. unfold wafer_ok. simpl. by rewrite Hn.
Qed.

Lemma fallback_step_in_time l idx step (w : sim) :
  timely w → taken_by (now w) (current l) → in_time (fallback_step l idx step) w.
Proof.
  intros Hw Hc. unfold fallback_step. apply tool_steady; [apply steady_timeout|done|].
  intros [e|] w1 Hw1 Hn; [|by apply on_exception_in_time].
  split_and!; [done|done|]. simpl. unfold wafer_ok. simpl. by rewrite Hn.
Qed.

Lemma for_loop_in_time l rest : ∀ idx (w : sim),
  timely w → taken_by (now w) (current l) → in_time (for_loop l idx rest) w.
Proof.
  induction rest as [|step rest IH]; intros idx w Hw Hc; simpl.
  - by apply after_loop_in_time.
  - apply tool_steady; [apply steady_gets|done|]. intros [|p ps] w1 Hw1 Hn1.
    + apply tool_bind; [by apply print_timely|]. intros Hw2.
      apply IH; [done|]. simpl. by rewrite Hn1.
    + apply tool_steady; [|done|].
      { apply steady_mapM. intros x. apply steady_request. }
      intros requests w2 Hw2 Hn2.
      apply tool_steady; [apply steady_timeout|done|].
      intros [e|] w3 Hw3 Hn3; [|by apply on_exception_in_time].
      apply tool_steady; [apply steady_any_of|done|].
      intros c w4 Hw4 Hn4.
      assert (taken_by (now w4) (current l)) as Hc4 by (by rewrite Hn4, Hn3, Hn2, Hn1).
      destruct (current l) eqn:E; split_and!; try done; simpl; unfold wafer_ok; simpl;
        by rewrite E.
Qed.

Lemma adopt_first_timely acquired rps : ∀ cur (w : sim),
  timely w → taken_by (now w) cur →
  timely (adopt_first acquired rps cur w).2 ∧
  now (adopt_first acquired rps cur w).2 = now w ∧
  taken_by (now w) (adopt_first acquired rps cur w).1.
Proof.
  induction rps as [|[req p] rps IH]; intros cur w Hw Hc; simpl; [done|].
  destruct (decide (req = acquired)).
  - rewrite bind_gets. apply IH; [done|]. simpl. destruct Hw as (? & _). lia.
  - unfold bind.
    destruct (tool_steady_timely (cancel_untriggered req) w (steady_cancel_untriggered req) Hw)
      as (Hw1 & Hn).
    destruct (cancel_untriggered req w) as [[] w1]. simpl in *.
    destruct (IH cur w1 Hw1) as (? & ? & ?); [by rewrite Hn|].
    rewrite <- Hn. split_and!; congruence.
Qed.

Lemma steady_pick_next acquired rps : ∀ next,
  steady (P:=wafer_gen) (U:=world) (pick_next acquired rps next).
Proof.
  induction rps as [|[req p] rps IH]; intros next; simpl; [apply steady_ret|].
  destruct (decide (req = acquired)); [apply IH|].
  apply steady_bind; [apply steady_cancel_untriggered|]. intros _. apply IH.
Qed.

Lemma resume_first_in_time l idx step ua requests te result (w : sim) :
  timely w → taken_by (now w) (current l) →
  in_time (resume_first l idx step ua requests te result) w.
Proof.
  intros Hw Hc. unfold resume_first. destruct (decide _).
  - apply tool_steady; [|done|].
    { apply steady_mapM. intros x. apply steady_cancel_untriggered. }
    intros _ w1 Hw1 _. apply tool_bind; [by apply print_timely|]. intros Hw2.
    by apply finish_in_time.
  - destruct (first_in _ _) as [acquired|].
    + destruct (adopt_first_timely acquired (zip requests ua) (current l) w Hw Hc)
        as (Ht & Hn & Hk).
      apply tool_bind; [done|]. intros Hw1.
      apply process_step_in_time; [done|]. simpl. by rewrite Hn.
    + apply tool_bind; [by apply print_timely|]. intros Hw2. by apply finish_in_time.
Qed.

Lemma resume_next_in_time l h idx step ua requests te result (w : sim) :
  timely w → current l = Some h → taken_by (now w) (current l) →
  in_time (resume_next l h idx step ua requests te result) w.
Proof.
  intros Hw Hh Hc. unfold resume_next. destruct (decide _).
  - apply tool_steady; [|done|].
    { apply steady_mapM. intros x. apply steady_cancel_untriggered. }
    intros _ w1 Hw1 Hn1. apply tool_bind; [by apply print_timely|]. intros Hw2.
    apply fallback_step_in_time; [done|]. simpl. by rewrite Hn1.
  - destruct (first_in _ _) as [acquired|].
    + apply tool_steady; [apply steady_pick_next|done|].
      intros next w1 Hw1 Hn1.
      destruct (py_index _ _) as [prev|]; [|by apply on_exception_in_time].
      apply tool_now. apply tool_bind.
      { apply log_append_timely; [done|].
        rewrite Hh in Hc. unfold record_in_time. simpl in *. lia. }
      intros Hw2. apply tool_steady; [apply steady_release|done|].
      intros _ w3 Hw3 Hn3. apply process_step_in_time; [done|].
      simpl. destruct next as [p|]; simpl; [|done]. rewrite Hn3. simpl.
      destruct Hw1 as (? & _). lia.
    + apply tool_bind; [by apply print_timely|]. intros Hw2.
      by apply fallback_step_in_time.
Qed.

Lemma start_in_time wafer unit_flow s (w : sim) :
  timely w → in_time (start wafer unit_flow s) w.
Proof.
  intros Hw. unfold start. apply tool_now. apply tool_bind.
  { destruct s; [done|]. by apply (same_log_timely (set_start_time _ _)). }
  intros Hw1. destruct (sorted_by_seq _) as [|st flow].
  - apply tool_bind; [by apply (same_log_timely (set_end_time _ _))|]. intros Hw2.
    by split_and!.
  - by apply (for_loop_in_time (Locals wafer (st :: flow) None)).
Qed.

Lemma wafer_process_in_time g v (w : sim) :
  timely w → wafer_ok (now w) g → in_time (wafer_process g v) w.
Proof.
  intros Hw Hg. unfold wafer_ok in Hg.
  destruct g as [wafer uf s|l idx step ua rq te|l idx step ua rq te|l idx|l idx];
    simpl in *.
  - by apply start_in_time.
  - by apply resume_first_in_time.
  - destruct (current l) as [h|] eqn:E; [|by apply on_exception_in_time].
    apply resume_next_in_time; [done|done|by rewrite E].
  - by apply for_loop_in_time.
  - by apply for_loop_in_time.
Qed.

Lemma wafer_ok_later t t' g : t ≤ t' → wafer_ok t g → wafer_ok t' g.
Proof. unfold wafer_ok, taken_by. destruct (held_of g); [|done]. lia. Qed.

Lemma log_ok_later t t' u : t ≤ t' → log_ok t u → log_ok t' u.
Proof.
  intros Ht Hu. eapply Forall_impl; [exact Hu|]. intros r. unfold record_in_time. lia.
Qed.

Lemma launch_timely cap flow wafers : timely (launch cap flow wafers).
Proof.
  unfold launch, bind.
  assert (timely (MetalTool_init cap (init_env empty_world)).2) as H.
  { assert (∀ ps m (w : sim), timely w → timely (create_shared ps m w).2) as Hc.
    { induction ps as [|p ps IH]; intros m w Hw; simpl; [done|].
      unfold bind, new_resource. apply IH. done. }
    unfold MetalTool_init, bind.
    pose proof (Hc (all_parts cap) ∅ (init_env empty_world)) as Hs.
    destruct (create_shared (all_parts cap) ∅ (init_env empty_world)) as [shared w1].
    simpl in *. apply (same_log_timely (set_tool _)); [|done]. apply Hs.
    unfold timely, timely_of, log_ok. simpl. split_and!; done. }
  destruct (MetalTool_init cap (init_env empty_world)) as [[] w1]. simpl in *.
  revert w1 H. induction wafers as [|wafer wafers IH]; intros w1 H; simpl; [done|].
  unfold bind.
  destruct (process_timely wafer_ok log_ok (At_start wafer flow None) w1 H I) as [H1 _].
  destruct (process (At_start wafer flow None) w1) as [p w2]. simpl in *.
  specialize (IH w2 H1). by destruct (mapM _ wafers w2).
Qed.

(** X13.  In every run of the tool, every record of the wafer log spans an
    interval of simulated time: it starts at time 0 or later, does not
    finish before it starts, and does not finish after the current
    time. *)
Theorem wafer_log_in_time (cap : capability) (flow : list flow_step)
    (wafers : list string) (n : nat) :
  Forall (record_in_time (now (run n (launch cap flow wafers))))
         (wafer_log (user (run n (launch cap flow wafers)))).
Proof.
  assert (timely (run n (launch cap flow wafers))) as (_ & _ & _ & H); [|done].
  apply (run_steps_timely wafer_ok log_ok wafer_ok_later log_ok_later wafer_process
           wafer_process_in_time).
  apply launch_timely.
Qed.

End TimeFacts.

(** * Properties of the tool units and of the set-up of the simulators *)
Module ToolUnitFacts.
Import Simpy FlowUnits FlowSim SemiconductorToolSimulator ToolProps Scenarios.
Local Open Scope Z_scope.

(** *** Round robin *)

Lemma get_next_resource_spec (u : ToolUnit.t) :
  (ToolUnit.resource_index u < length (ToolUnit.resource_names u))%nat →
  ∃ name,
    ToolUnit.resource_names u !! ToolUnit.resource_index u = Some name ∧
    ToolUnit.get_next_resource u
    = Some (name, set_resource_index
                    ((ToolUnit.resource_index u + 1) `mod` length (ToolUnit.resource_names u))%nat
                    u).
Proof.
  intros Hi. destruct u as [b nm rs st names i tr]. simpl in *.
  destruct (lookup_lt_is_Some_2 names i Hi) as [name Hn]. exists name. split; [done|].
  unfold ToolUnit.get_next_resource, set_resource_index. simpl.
  destruct names as [|n0 [|n1 names]]; simpl in *; [lia| |].
  - assert (i = 0%nat) as -> by lia. simpl in Hn. by injection Hn as ->.
  - by rewrite Hn.
Qed.

Lemma next_resources_spec (k : nat) : ∀ (u : ToolUnit.t),
  (ToolUnit.resource_index u < length (ToolUnit.resource_names u))%nat →
  ∃ names,
    next_resources k u
    = Some (names, set_resource_index
                     ((ToolUnit.resource_index u + k) `mod` length (ToolUnit.resource_names u))%nat
                     u) ∧
    length names = k ∧
    ∀ j, (j < k)%nat →
         names !! j = ToolUnit.resource_names u
                        !! ((ToolUnit.resource_index u + j) `mod` length (ToolUnit.resource_names u))%nat.
Proof.
  induction k as [|k IH]; intros u Hi.
  - exists []. simpl. split_and!; [|done|intros; lia].
    rewrite Nat.add_0_r, Nat.mod_small by done. by destruct u.
  - destruct (get_next_resource_spec u Hi) as (name & Hn & He). simpl. rewrite He.
    set (n := length (ToolUnit.resource_names u)) in *.
    set (i := ToolUnit.resource_index u) in *.
    destruct (IH (set_resource_index ((i + 1) `mod` n)%nat u)) as (names & Hk & Hl & Hj).
    { simpl. apply Nat.mod_upper_bound. unfold n. lia. }
    simpl in Hk, Hj. fold n in Hk, Hj. rewrite Hk.
    exists (name :: names). split_and!.
    + do 2 f_equal. unfold set_resource_index. simpl. f_equal.
      rewrite Nat.Div0.add_mod_idemp_l. f_equal. lia.
    + simpl. by rewrite Hl.
    + intros [|j] Hlt; simpl.
      * by rewrite Nat.add_0_r, Nat.mod_small.
      * rewrite Hj by lia. f_equal. rewrite Nat.Div0.add_mod_idemp_l. f_equal. lia.
Qed.

(** X14.  Round robin: when a unit has handed out as many resources as it
    has, it has handed out every one of them once, in the order of its
    list from the index on, and the index is where it was. *)
Theorem round_robin_full_round (u : ToolUnit.t) :
  (ToolUnit.resource_index u < length (ToolUnit.resource_names u))%nat →
  next_resources (length (ToolUnit.resource_names u)) u
  = Some (rotate (ToolUnit.resource_index u) (ToolUnit.resource_names u), u).
Proof.
  intros Hi.
  destruct (next_resources_spec (length (ToolUnit.resource_names u)) u Hi)
    as (names & Hk & Hl & Hj).
  rewrite Hk. f_equal. f_equal.
  - apply list_eq. intros j.
    destruct (decide (j < length (ToolUnit.resource_names u))%nat) as [Hlt|Hge].
    + rewrite Hj by done. rewrite lookup_rotate_r by done. f_equal.
      unfold rotate_nat_add. rewrite <- Nat2Z.inj_add, <- Nat2Z.inj_mod. by rewrite Nat2Z.id.
    + rewrite !lookup_ge_None_2; [done| |]; rewrite ?length_rotate; lia.
  - destruct u as [b nm rs st rn i tr]. unfold set_resource_index. simpl in *. f_equal.
    rewrite <- Nat.Div0.add_mod_idemp_r, Nat.Div0.mod_same, Nat.add_0_r.
    by apply Nat.mod_small.
Qed.

Lemma round_robin_full_round_witness :
  next_resources 3 three_chambers
  = Some (["CHB"%string; "CHC"%string; "CHA"%string], three_chambers).
Proof.
  apply (round_robin_full_round three_chambers). simpl. lia.
Defined.

(** *** Dicts *)

Lemma dict_get_set_eq {V} k (v : V) d : dict_get k (dict_set k v d) = Some v.
Proof.
  induction d as [|[k' v'] d IH]; simpl.
  - by rewrite decide_True.
  - destruct (decide (k = k')); simpl; [by rewrite decide_True|by rewrite decide_False].
Qed.

Lemma dict_get_set_ne {V} k k' (v : V) d :
  k' ≠ k → dict_get k' (dict_set k v d) = dict_get k' d.
Proof.
  intros Hne. induction d as [|[k0 v0] d IH]; simpl.
  - by rewrite decide_False.
  - destruct (decide (k = k0)) as [->|]; simpl.
    + by rewrite !decide_False.
    + destruct (decide (k' = k0)); [done|apply IH].
Qed.

Lemma dict_set_keys {V} k (v : V) d :
  NoDup d.*1 → NoDup (dict_set k v d).*1 ∧ ∀ k', k' ∈ (dict_set k v d).*1 ↔ k' = k ∨ k' ∈ d.*1.
Proof.
  induction d as [|[k0 v0] d IH]; simpl; intros Hnd.
  - split; [apply NoDup_singleton|]. intros k'. rewrite list_elem_of_singleton.
    split; [by left|]. intros [?|H]; [done|]. by apply elem_of_nil in H.
  - apply NoDup_cons in Hnd as [Hk0 Hnd]. destruct (IH Hnd) as [IH1 IH2].
    destruct (decide (k = k0)) as [->|Hne]; simpl.
    + split; [by apply NoDup_cons|]. intros k'. rewrite elem_of_cons. tauto.
    + split.
      * apply NoDup_cons. split; [|done]. rewrite IH2. intros [?|?]; [congruence|done].
      * intros k'. rewrite !elem_of_cons, IH2. tauto.
Qed.

Lemma dict_get_elem {V} k (v : V) d :
  NoDup d.*1 → (k, v) ∈ d ↔ dict_get k d = Some v.
Proof.
  induction d as [|[k0 v0] d IH]; simpl; intros Hnd.
  - split; [intros H; by apply elem_of_nil in H|done].
  - apply NoDup_cons in Hnd as [Hk0 Hnd]. rewrite elem_of_cons.
    destruct (decide (k = k0)) as [->|Hne].
    + split; [|intros [= ->]; by left].
      intros [[= ->]|H]; [done|]. exfalso. apply Hk0.
      apply list_elem_of_fmap. by exists (k0, v).
    + rewrite <- (IH Hnd). split; [intros [[= ? ?]|?]; done|by right].
Qed.

Lemma capability_map_keys (cap : capability) : NoDup (capability_map cap).*1.
Proof.
  unfold capability_map.
  assert (∀ (ui : list (string * list string)) m, NoDup m.*1 →
            NoDup (foldl (λ m '(unit, resources), dict_set unit resources m) m ui).*1) as H1.
  { induction ui as [|[u r] ui IH]; intros m Hm; simpl; [done|].
    apply IH. by apply dict_set_keys. }
  assert (∀ (c : capability) m, NoDup m.*1 →
            NoDup (foldl (λ m cap, foldl (λ m '(unit, resources), dict_set unit resources m) m cap)
                         m c).*1) as H2.
  { induction c as [|ui c IH]; intros m Hm; simpl; [done|]. apply IH. by apply H1. }
  apply H2. apply NoDup_nil_2.
Qed.

(** *** [_create_flow_units] *)

Lemma create_resources_spec names : ∀ d (w : sim),
  let d' := (create_resources names d w).1 in
  let w' := (create_resources names d w).2 in
  user w' = user w ∧
  resources w' = resources w ++ replicate (length names) (Resource 1 [] []) ∧
  (∀ r, is_Some (dict_get r d) ∨ r ∈ names → is_Some (dict_get r d')) ∧
  (∀ r k, dict_get r d' = Some k →
     dict_get r d = Some k ∨ (length (resources w) ≤ k < length (resources w'))%nat).
Proof.
  induction names as [|n names IH]; intros d w; simpl.
  - split_and!; [done|by rewrite app_nil_r| |by left].
    intros r [?|H]; [done|]. by apply elem_of_nil in H.
  - unfold bind, new_resource. simpl.
    set (w1 := set_resources _ w). set (d1 := dict_set n _ d).
    destruct (IH d1 w1) as (Hu & Hr & Hs & Hk).
    assert (length (resources (create_resources names d1 w1).2)
            = S (length (resources w) + length names)) as Hlen.
    { rewrite Hr. unfold w1. simpl. rewrite !length_app, length_replicate. simpl. lia. }
    split_and!.
    + by rewrite Hu.
    + rewrite Hr. unfold w1. simpl. by rewrite <- app_assoc.
    + intros r H. apply Hs. unfold d1.
      destruct (decide (r = n)) as [->|Hne]; [left; by rewrite dict_get_set_eq|].
      rewrite dict_get_set_ne by done.
      destruct H as [?|H]; [by left|]. apply elem_of_cons in H as [?|?]; [done|by right].
    + intros r k H. destruct (Hk r k H) as [H1|H1].
      * unfold d1 in H1. destruct (decide (r = n)) as [->|Hne].
        -- rewrite dict_get_set_eq in H1. injection H1 as <-. right. lia.
        -- rewrite dict_get_set_ne in H1 by done. by left.
      * right. assert (length (resources w1) = S (length (resources w))) as Hw1.
        { unfold w1. simpl. rewrite length_app. simpl. lia. }
        lia.
Qed.

Lemma unit_at_app (w w' : sim) extra i t :
  units (user w') = units (user w) ++ extra →
  unit_at w i = Some t → unit_at w' i = Some t.
Proof.
  unfold unit_at. intros ->. destruct (units (user w) !! i) as [x|] eqn:E; [|done].
  by rewrite (lookup_app_l_Some _ _ _ _ E).
Qed.

Lemma create_tool_units_spec cm0 flow cm : ∀ d (w : sim),
  cm ⊆ cm0 → units_built cm0 flow d w → units_apart d w →
  (∀ n i t r k, dict_get n d = Some i → unit_at w i = Some t →
                dict_get r (ToolUnit.resources t) = Some k → (k < length (resources w))%nat) →
  let d' := (create_tool_units cm flow d w).1 in
  let w' := (create_tool_units cm flow d w).2 in
  units_built cm0 flow d' w' ∧ units_apart d' w' ∧
  (∃ extra, units (user w') = units (user w) ++ extra) ∧
  (∀ name, is_Some (dict_get name d') ↔
           is_Some (dict_get name d) ∨ (name ≠ "LOADPORT"%string ∧ name ∈ cm.*1)).
Proof.
  induction cm as [|[name rs] cm IH]; intros d w Hsub Hb Ha Hlt; simpl.
  - split_and!; [done|done|exists []; by rewrite app_nil_r|].
    intros n. split; [by left|]. intros [?|[_ H]]; [done|]. by apply elem_of_nil in H.
  - assert (cm ⊆ cm0) as Hsub' by (intros x Hx; apply Hsub; by right).
    destruct (decide (name = "LOADPORT"%string)) as [->|Hne].
    + destruct (IH d w Hsub' Hb Ha Hlt) as (Hb' & Ha' & He & Hk).
      split_and!; [done|done|done|].
      intros n. rewrite Hk. simpl. rewrite elem_of_cons. split; [tauto|].
      intros [?|[? [?|?]]]; [by left|done|by right].
    + unfold ToolUnit_init, bind, add_unit, ret. simpl.
      destruct (create_resources_spec rs [] w) as (Hu & Hr & Hs & Hk).
      destruct (create_resources rs [] w) as [rd w1]. simpl in *.
      set (t := ToolUnit.Build _ name rd _ rs 0 _).
      set (w2 := set_user _ w1).
      set (i := length (units (user w1))).
      assert (units (user w2) = units (user w) ++ [UTool t]) as Hu2.
      { unfold w2. simpl. by rewrite Hu. }
      assert (unit_at w2 i = Some t) as Hti.
      { unfold unit_at. rewrite Hu2. unfold i. rewrite Hu.
        by rewrite lookup_app_r, Nat.sub_diag by done. }
      assert (resources w2 = resources w ++ replicate (length rs) (Resource 1 [] [])) as Hr2
        by done.
      assert (∀ k, (k < length (resources w))%nat → resources w2 !! k = resources w !! k) as Hold.
      { intros k Hk'. rewrite Hr2. by apply lookup_app_l. }
      assert (∀ r k, dict_get r rd = Some k →
                (length (resources w) ≤ k < length (resources w2))%nat) as Hnew.
      { intros r k H. destruct (Hk r k H) as [?|?]; [done|by rewrite Hr2, <- Hr]. }
      assert (∀ j t0, (j < length (units (user w)))%nat → unit_at w2 j = Some t0 →
                      unit_at w j = Some t0) as Hback.
      { intros j t0 Hj. unfold unit_at. rewrite Hu2. by rewrite lookup_app_l. }
      assert (∀ n j, dict_get n d = Some j → (j < length (units (user w)))%nat) as Hdom.
      { intros n j H. destruct (Hb n j H) as (_ & t0 & Ht0 & _). unfold unit_at in Ht0.
        destruct (units (user w) !! j) eqn:E; [|done]. by apply lookup_lt_Some in E. }
      destruct (IH (dict_set name i d) w2 Hsub') as (Hb' & Ha' & [extra He] & Hk').
      * intros n j H. destruct (decide (n = name)) as [->|Hn].
        -- rewrite dict_get_set_eq in H. injection H as <-. split; [done|].
           exists t. split_and!; try done.
           ++ apply Hsub. by left.
           ++ intros r Hr'. apply Hs. by right.
           ++ intros r k H. apply Hnew in H. rewrite Hr2.
              rewrite lookup_app_r by lia. apply lookup_replicate_2.
              rewrite Hr2, length_app, length_replicate in H. lia.
        -- rewrite dict_get_set_ne in H by done.
           destruct (Hb n j H) as (Hn' & t0 & Ht0 & H1 & H2 & H3 & H4 & H5 & H6 & H7).
           split; [done|]. exists t0. split_and!; try done.
           ++ by apply (unit_at_app w w2 [UTool t]).
           ++ intros r k Hrk. rewrite Hold; [by apply (H7 r)|].
              by apply (Hlt n j t0 r k).
      * intros n1 n2 i1 i2 t1 t2 r1 r2 k1 k2 H1 H2 Hn12 Ht1 Ht2 Hk1 Hk2.
        destruct (decide (n1 = name)) as [->|Hn1], (decide (n2 = name)) as [->|Hn2];
          [done| | |].
        -- rewrite dict_get_set_eq in H1. rewrite dict_get_set_ne in H2 by done.
           injection H1 as <-. rewrite Hti in Ht1. injection Ht1 as <-.
           apply Hback in Ht2; [|by apply (Hdom n2)].
           apply Hnew in Hk1. pose proof (Hlt _ _ _ _ _ H2 Ht2 Hk2). lia.
        -- rewrite dict_get_set_eq in H2. rewrite dict_get_set_ne in H1 by done.
           injection H2 as <-. rewrite Hti in Ht2. injection Ht2 as <-.
           apply Hback in Ht1; [|by apply (Hdom n1)].
           apply Hnew in Hk2. pose proof (Hlt _ _ _ _ _ H1 Ht1 Hk1). lia.
        -- rewrite dict_get_set_ne in H1, H2 by done.
           apply Hback in Ht1; [|by apply (Hdom n1)].
           apply Hback in Ht2; [|by apply (Hdom n2)].
           by apply (Ha n1 n2 i1 i2 t1 t2 r1 r2).
      * intros n j t0 r k H Ht0 Hrk. destruct (decide (n = name)) as [->|Hn].
        -- rewrite dict_get_set_eq in H. injection H as <-. rewrite Hti in Ht0.
           injection Ht0 as <-. apply Hnew in Hrk. lia.
        -- rewrite dict_get_set_ne in H by done.
           apply Hback in Ht0; [|by apply (Hdom n)].
           pose proof (Hlt _ _ _ _ _ H Ht0 Hrk). rewrite Hr2, length_app. lia.
      * split_and!; [done|done| |].
        -- exists ([UTool t] ++ extra). by rewrite He, Hu2, <- app_assoc.
        -- intros n. rewrite Hk'. simpl. rewrite elem_of_cons.
           destruct (decide (n = name)) as [->|Hn].
           ++ rewrite dict_get_set_eq. split; [intros _; right; split; [done|by left]|].
              intros _. left. eauto.
           ++ rewrite dict_get_set_ne by done. split; [tauto|].
              intros [?|[? [?|?]]]; [by left|done|right; done].
Qed.

Lemma create_flow_units_spec cap flow (w : sim) :
  let h := (create_flow_units cap flow w).1 in
  let w' := (create_flow_units cap flow w).2 in
  units_built (capability_map cap) flow (tool_units h) w' ∧
  units_apart (tool_units h) w' ∧
  (∀ name, is_Some (dict_get name (tool_units h)) ↔
           name ≠ "LOADPORT"%string ∧ is_Some (dict_get name (capability_map cap))) ∧
  wafer_source h = length (units (user w)) ∧
  (∃ s, units (user w') !! wafer_source h = Some (UWaferSource s) ∧
        output_port (WaferSource.base s) = None) ∧
  (∃ s, units (user w') !! wafer_sink h = Some (USink s)).
Proof.
  unfold create_flow_units, bind, add_unit, ret. simpl.
  set (src := UWaferSource _). set (w1 := set_user _ w).
  destruct (create_tool_units_spec (capability_map cap) flow (capability_map cap) [] w1)
    as (Hb & Ha & [extra He] & Hk); [done|done|done|done|].
  destruct (create_tool_units (capability_map cap) flow [] w1) as [d w2]. simpl in *.
  set (w3 := set_user _ w2).
  assert (units (user w3) = units (user w2) ++ [USink (Sink.Build (Build_FlowUnit None 0 0) [])])
    as Hu3 by done.
  assert (units (user w1) = units (user w) ++ [src]) as Hu1 by done.
  split_and!.
  - intros name i H. destruct (Hb name i H) as (Hn & t & Ht & H1 & H2 & H3 & H4 & H5 & H6 & H7).
    split; [done|]. exists t. split_and!; try done.
    by apply (unit_at_app w2 w3 [USink (Sink.Build (Build_FlowUnit None 0 0) [])]).
  - intros n1 n2 i1 i2 t1 t2 r1 r2 k1 k2 H1 H2 Hn Ht1 Ht2.
    assert (∀ n j t0, dict_get n d = Some j → unit_at w3 j = Some t0 → unit_at w2 j = Some t0)
      as Hback.
    { intros n j t0 Hd. destruct (Hb n j Hd) as (_ & t' & Ht' & _).
      unfold unit_at in *. rewrite Hu3.
      destruct (units (user w2) !! j) eqn:E; [|done].
      by rewrite (lookup_app_l_Some _ _ _ _ E). }
    apply (Ha n1 n2 i1 i2 t1 t2 r1 r2 k1 k2 H1 H2 Hn); eauto.
  - intros name. rewrite Hk. simpl. split.
    + intros [[? [=]]|[Hn Hin]]. split; [done|].
      apply list_elem_of_fmap in Hin as ([n rs] & -> & Hin). exists rs.
      by apply dict_get_elem; [apply capability_map_keys|].
    + intros [Hn [rs Hrs]]. right. split; [done|].
      apply dict_get_elem in Hrs; [|apply capability_map_keys].
      apply list_elem_of_fmap. by exists (name, rs).
  - done.
  - exists (WaferSource.Build (Build_FlowUnit None 0 0) 0 25 3600 (Some 5) 0).
    split; [|done]. change (units (user w3) !! length (units (user w)) = Some src).
    rewrite Hu3, He, ?Hu1, <- !app_assoc.
    by rewrite lookup_app_r, Nat.sub_diag by done.
  - exists (Sink.Build (Build_FlowUnit None 0 0) []).
    change (units (user w3) !! length (units (user w2)) = Some (USink (Sink.Build (Build_FlowUnit None 0 0) []))).
    rewrite Hu3. by rewrite lookup_app_r, Nat.sub_diag by done.
Qed.

(** X17.  The tool units that [_create_flow_units] makes share no resource:
    two differently named units hold different [simpy.Resource]
    objects, also under the same resource name. *)
Theorem tool_units_share_no_resource (cap : capability) (flow : list flow_step) (w : sim)
    (n1 n2 : string) (i1 i2 : nat) (t1 t2 : ToolUnit.t) (r1 r2 : string) (k1 k2 : nat) :
  let h := (create_flow_units cap flow w).1 in
  let w' := (create_flow_units cap flow w).2 in
  dict_get n1 (tool_units h) = Some i1 → dict_get n2 (tool_units h) = Some i2 →
  n1 ≠ n2 →
  units (user w') !! i1 = Some (UTool t1) → units (user w') !! i2 = Some (UTool t2) →
  dict_get r1 (ToolUnit.resources t1) = Some k1 →
  dict_get r2 (ToolUnit.resources t2) = Some k2 →
  k1 ≠ k2.
Proof.
  intros h w' H1 H2 Hn Ht1 Ht2.
  destruct (create_flow_units_spec cap flow w) as (_ & Ha & _).
  apply (Ha n1 n2 i1 i2 t1 t2 r1 r2 k1 k2 H1 H2 Hn); unfold unit_at.
  - fold w'. by rewrite Ht1.
  - fold w'. by rewrite Ht2.
Qed.

Lemma tool_units_share_no_resource_witness : 0%nat ≠ 1%nat.
Proof.
  apply (tool_units_share_no_resource twice_listed twice_listed_flow
           (init_env (World [] [] (λ _, 20) 0 (λ _, 50) 0))
           "U1" "U2" 1 2
           (ToolUnit.Build (Build_FlowUnit None 0 0) "U1" [("P"%string, 0%nat)]
                           [FlowStep 1 "U1" 50 0 50 false] ["P"%string] 0 false)
           (ToolUnit.Build (Build_FlowUnit None 0 0) "U2" [("P"%string, 1%nat)]
                           [FlowStep 2 "U2" 50 0 50 false] ["P"%string] 0 false)
           "P" "P" 0 1).
  - vm_compute. reflexivity.
  - vm_compute. reflexivity.
  - discriminate.
  - vm_compute. reflexivity.
  - vm_compute. reflexivity.
  - vm_compute. reflexivity.
  - vm_compute. reflexivity.
Defined.

(** X16.  [_create_flow_units] makes a tool unit for every unit of the merged
    capability but the load port, and for nothing else; the unit has the
    resource names of its listing, each with a resource of capacity 1 of
    its own, and starts its round robin at the first of them. *)
Theorem units_as_configured (cap : capability) (flow : list flow_step) (w : sim)
    (name : string) :
  let h := (create_flow_units cap flow w).1 in
  let w' := (create_flow_units cap flow w).2 in
  match dict_get name (tool_units h) with
  | Some i =>
      name ≠ "LOADPORT"%string ∧
      ∃ t, units (user w') !! i = Some (UTool t) ∧
           ToolUnit.unit_name t = name ∧
           dict_get name (capability_map cap) = Some (ToolUnit.resource_names t) ∧
           ToolUnit.resource_index t = 0%nat ∧
           ToolUnit.unit_flow_steps t = ToolUnit.steps_of name flow ∧
           ∀ r, r ∈ ToolUnit.resource_names t →
                ∃ k, dict_get r (ToolUnit.resources t) = Some k ∧
                     resources w' !! k = Some (Resource 1 [] [])
  | None => name = "LOADPORT"%string ∨ dict_get name (capability_map cap) = None
  end.
Proof.
  intros h w'. destruct (create_flow_units_spec cap flow w) as (Hb & _ & Hk & _).
  fold h w' in Hb, Hk.
  destruct (dict_get name (tool_units h)) as [i|] eqn:E.
  - destruct (Hb name i E) as (Hn & t & Ht & H1 & H2 & H3 & H4 & H5 & H6 & H7).
    split; [done|]. exists t. unfold unit_at in Ht.
    destruct (units (user w') !! i) as [[]|] eqn:Ei; try done. injection Ht as ->.
    split_and!; try done.
    + by apply dict_get_elem; [apply capability_map_keys|].
    + intros r Hr. destruct (H6 r Hr) as [k Hk']. exists k. split; [done|]. by apply (H7 r).
  - destruct (decide (name = "LOADPORT"%string)) as [?|Hn]; [by left|]. right.
    destruct (dict_get name (capability_map cap)) eqn:E'; [|done].
    assert (is_Some (dict_get name (tool_units h))) as [? ?]; [|congruence].
    apply Hk. split; [done|]. by rewrite E'.
Qed.

(** *** [_connect_flow_units] *)

Lemma output_of_with_output o x : output_of (with_output o x) = o.
Proof. by destruct x. Qed.

Lemma connect_to_units a b (w : sim) :
  units (user (connect_to a b w).2) = alter (with_output (Some b)) a (units (user w)).
Proof. done. Qed.

Lemma connect_chain_spec h src steps : ∀ prev (w : sim),
  (∀ n i, dict_get n (tool_units h) = Some i → i ≠ src) →
  length (units (user (connect_chain h steps prev w).2)) = length (units (user w)) ∧
  units (user (connect_chain h steps prev w).2) !! src = units (user w) !! src ∧
  (connect_chain h steps prev w).1
  = match last (filter (chained h) steps) with
    | Some st => Some (unit_id st)
    | None => prev
    end.
Proof.
  intros prev w Hsrc. revert prev w.
  induction steps as [|step steps IH]; intros prev w; simpl; [done|].
  destruct (decide (unit_id step = "LOADPORT"%string)) as [Hl|Hl].
  - rewrite filter_cons_False by (by intros [? _]). apply IH.
  - destruct (dict_get (unit_id step) (tool_units h)) as [cur|] eqn:Ecur.
    + rewrite filter_cons_True by (split; [done|by rewrite Ecur]).
      rewrite last_cons. unfold bind.
      set (c := match prev with Some _ => _ | None => _ end).
      assert (length (units (user (c w).2)) = length (units (user w)) ∧
              units (user (c w).2) !! src = units (user w) !! src) as [Hlen Hs].
      { unfold c. destruct prev as [prev|]; [|done].
        destruct (dict_get prev (tool_units h)) as [p|] eqn:Ep; [|done].
        destruct (bool_decide _); [|done].
        rewrite connect_to_units, length_alter. split; [done|].
        apply list_lookup_alter_ne. by apply (Hsrc prev). }
      destruct (c w) as [[] w1]. simpl in *.
      destruct (IH (Some (unit_id step)) w1) as (IH1 & IH2 & IH3).
      rewrite IH1, IH2, IH3. split_and!; [done|done|].
      by destruct (last (filter (chained h) steps)).
    + rewrite filter_cons_False by (intros [_ [? ?]]; congruence). apply IH.
Qed.

Lemma unit_at_connect_to a b (w : sim) i t :
  unit_at w i = Some t →
  ∃ t', unit_at (connect_to a b w).2 i = Some t' ∧
        (i ≠ a → t' = t) ∧
        (i = a → output_port (ToolUnit.base t') = Some b).
Proof.
  unfold unit_at. rewrite connect_to_units. intros H.
  destruct (units (user w) !! i) as [[| | |t0| |]|] eqn:E; try done. injection H as ->.
  destruct (decide (i = a)) as [->|Hne].
  - rewrite list_lookup_alter_eq, E. simpl. eexists. split_and!; done.
  - rewrite list_lookup_alter_ne, E by done. eexists. split_and!; done.
Qed.

Lemma connect_chain_tools h steps : ∀ prev (w : sim) i,
  is_Some (unit_at w i) → is_Some (unit_at (connect_chain h steps prev w).2 i).
Proof.
  induction steps as [|step steps IH]; intros prev w i Hi; simpl; [done|].
  destruct (decide _); [by apply IH|].
  destruct (dict_get (unit_id step) (tool_units h)); [|by apply IH].
  unfold bind.
  set (c := match prev with Some _ => _ | None => _ end).
  assert (is_Some (unit_at (c w).2 i)) as Hc.
  { unfold c. destruct prev as [prev|]; [|done].
    destruct (dict_get prev (tool_units h)) as [p|]; [|done].
    destruct (bool_decide _); [|done]. destruct Hi as [t Ht].
    destruct (unit_at_connect_to p n0 w i t Ht) as (t' & -> & _). eauto. }
  destruct (c w) as [[] w1]. by apply IH.
Qed.

Lemma process_user (g : gen) (w : sim) : user (process g w).2 = user w.
Proof. done. Qed.

Lemma init_eq cap flow uniform normal :
  let w0 := init_env (World [] [] uniform 0 normal 0) in
  let h := (create_flow_units cap flow w0).1 in
  let w1 := (create_flow_units cap flow w0).2 in
  (init cap flow uniform normal).1 = h ∧
  user (init cap flow uniform normal).2 = user (connect_flow_units h flow w1).2.
Proof.
  intros w0 h w1. unfold init, bind. fold w0.
  unfold h, w1. destruct (create_flow_units cap flow w0) as [h' w1']. simpl.
  destruct (connect_flow_units h' flow w1') as [[] w2]. simpl.
  by destruct (process (Lots (wafer_source h')) w2) as [p w3] eqn:E.
Qed.

Lemma chained_listed cap flow (w : sim) st :
  chained (create_flow_units cap flow w).1 st ↔ listed cap st.
Proof.
  destruct (create_flow_units_spec cap flow w) as (_ & _ & Hk & _).
  unfold chained, listed. rewrite Hk. tauto.
Qed.

(** X19.  After the simulator is set up, the unit of the last step of the
    flow (in order of [seq_id]) that has a tool unit feeds the sink. *)
Theorem last_unit_feeds_the_sink (cap : capability) (flow : list flow_step)
    (uniform normal : nat → Z) (st : flow_step) :
  let h := (init cap flow uniform normal).1 in
  let w := (init cap flow uniform normal).2 in
  last (filter (listed cap) (sorted_by_seq flow)) = Some st →
  unit_id st ≠ ""%string →
  ∃ i t, dict_get (unit_id st) (tool_units h) = Some i ∧
         unit_at w i = Some t ∧
         output_port (ToolUnit.base t) = Some (wafer_sink h).
Proof.
  intros h w Hlast Hne.
  destruct (init_eq cap flow uniform normal) as [Hh Hw]. fold h in Hh.
  set (w0 := init_env (World [] [] uniform 0 normal 0)) in *.
  destruct (create_flow_units_spec cap flow w0) as (Hb & _ & Hk & Hsrc & Hs & _).
  rewrite <- Hh in *.
  set (w1 := (create_flow_units cap flow w0).2) in *.
  assert (filter (chained h) (sorted_by_seq flow) = filter (listed cap) (sorted_by_seq flow))
    as Hf.
  { apply list_filter_iff. intros x. rewrite Hh. apply chained_listed. }
  assert (chained h st) as [_ [i Hi]].
  { apply last_Some in Hlast as [l' Hl']. rewrite <- Hf in Hl'.
    assert (st ∈ filter (chained h) (sorted_by_seq flow)) as Hin.
    { rewrite Hl'. apply elem_of_app. right. by left. }
    by apply list_elem_of_filter in Hin as [? _]. }
  destruct (Hb (unit_id st) i Hi) as (_ & t0 & Ht0 & _).
  exists i. unfold unit_at, w. rewrite Hw.
  unfold connect_flow_units, bind.
  set (c := match head _ with Some _ => _ | None => _ end).
  assert (is_Some (unit_at (c w1).2 i)) as Hc.
  { unfold c. destruct (head _) as [f|]; [|by eauto].
    destruct (dict_get f (tool_units h)) as [j|]; [|by eauto].
    destruct (bool_decide _); [|by eauto].
    destruct (unit_at_connect_to (wafer_source h) j w1 i t0 Ht0) as (t' & -> & _). eauto. }
  destruct (c w1) as [[] wA]. simpl in Hc.
  pose proof (connect_chain_tools h (sorted_by_seq flow) None wA i Hc) as [tB HtB].
  destruct (connect_chain_spec h (wafer_source h) (sorted_by_seq flow) None wA)
    as (_ & _ & Hp).
  { intros n j Hj ->. destruct (Hb n _ Hj) as (_ & t' & Ht' & _).
    destruct Hs as (s & Hs & _). unfold unit_at in Ht'. fold w1 in Hs. by rewrite Hs in Ht'. }
  rewrite Hf, Hlast in Hp.
  destruct (connect_chain h (sorted_by_seq flow) None wA) as [prev wB]. simpl in *.
  subst prev. rewrite Hi, bool_decide_eq_true_2 by done.
  destruct (unit_at_connect_to i (wafer_sink h) wB i tB HtB) as (t' & Ht' & _ & Ho).
  exists t'. split; [done|]. split; [|by apply Ho]. apply Ht'.
Qed.

Lemma last_unit_feeds_the_sink_witness :
  ∃ i t,
    dict_get "U2" (tool_units (init twice_listed twice_listed_flow (λ _, 20) (λ _, 50)).1)
    = Some i ∧
    unit_at (init twice_listed twice_listed_flow (λ _, 20) (λ _, 50)).2 i = Some t ∧
    output_port (ToolUnit.base t)
    = Some (wafer_sink (init twice_listed twice_listed_flow (λ _, 20) (λ _, 50)).1).
Proof.
  apply (last_unit_feeds_the_sink twice_listed twice_listed_flow (λ _, 20) (λ _, 50)
           (FlowStep 2 "U2" 50 0 50 false)).
  - vm_compute. reflexivity.
  - discriminate.
Defined.

(** X20.  After the simulator is set up, the wafer source feeds the tool unit
    of the first step of the flow that is not at the load port, and
    nothing if that unit has no tool unit. *)
Theorem source_feeds_the_first_unit (cap : capability) (flow : list flow_step)
    (uniform normal : nat → Z) (f : string) :
  let h := (init cap flow uniform normal).1 in
  let w := (init cap flow uniform normal).2 in
  head (filter (λ u, u ≠ "LOADPORT"%string) (map unit_id (sorted_by_seq flow))) = Some f →
  f ≠ ""%string →
  ∃ s, units (user w) !! wafer_source h = Some (UWaferSource s) ∧
       output_port (WaferSource.base s) = dict_get f (tool_units h).
Proof.
  intros h w Hhead Hne.
  destruct (init_eq cap flow uniform normal) as [Hh Hw]. fold h in Hh.
  set (w0 := init_env (World [] [] uniform 0 normal 0)) in *.
  destruct (create_flow_units_spec cap flow w0) as (Hb & _ & _ & _ & (s0 & Hs0 & Ho0) & _).
  rewrite <- Hh in *.
  set (w1 := (create_flow_units cap flow w0).2) in *.
  assert (∀ n j, dict_get n (tool_units h) = Some j → j ≠ wafer_source h) as Hsrc.
  { intros n j Hj ->. destruct (Hb n _ Hj) as (_ & t' & Ht' & _).
    unfold unit_at in Ht'. by rewrite Hs0 in Ht'. }
  unfold w. rewrite Hw. unfold connect_flow_units, bind. rewrite Hhead.
  set (c := match dict_get f (tool_units h) with Some _ => _ | None => _ end).
  assert (∃ s, units (user (c w1).2) !! wafer_source h = Some (UWaferSource s) ∧
               output_port (WaferSource.base s) = dict_get f (tool_units h)) as (s & Hs & Ho).
  { unfold c. destruct (dict_get f (tool_units h)) as [i|]; [|by exists s0].
    rewrite bool_decide_eq_true_2 by done.
    rewrite connect_to_units, list_lookup_alter_eq, Hs0. simpl. eexists. split; done. }
  destruct (c w1) as [[] wA]. simpl in Hs.
  destruct (connect_chain_spec h (wafer_source h) (sorted_by_seq flow) None wA Hsrc)
    as (_ & Hk & _).
  destruct (connect_chain h (sorted_by_seq flow) None wA) as [prev wB]. simpl in *.
  exists s. split; [|done]. rewrite <- Hs, <- Hk.
  destruct prev as [prev|]; [|done].
  destruct (dict_get prev (tool_units h)) as [p|] eqn:Ep; [|done].
  destruct (bool_decide (prev ≠ ""%string)); [|done].
  rewrite connect_to_units. apply list_lookup_alter_ne. by apply (Hsrc prev).
Qed.

Lemma source_feeds_the_first_unit_witness :
  ∃ s,
    units (user (init twice_listed twice_listed_flow (λ _, 20) (λ _, 50)).2)
      !! wafer_source (init twice_listed twice_listed_flow (λ _, 20) (λ _, 50)).1
    = Some (UWaferSource s) ∧
    output_port (WaferSource.base s)
    = dict_get "U1" (tool_units (init twice_listed twice_listed_flow (λ _, 20) (λ _, 50)).1).
Proof.
  apply (source_feeds_the_first_unit twice_listed twice_listed_flow (λ _, 20) (λ _, 50) "U1").
  - vm_compute. reflexivity.
  - discriminate.
Defined.

(** *** The merged capability *)

Lemma merge_one_dict name (ui : list (string * list string)) : ∀ m,
  dict_get name (foldl (λ m '(unit, resources), dict_set unit resources m) m ui)
  = match last (omap (λ '(unit_id, names),
                        if decide (unit_id = name) then Some names else None) ui) with
    | Some rs => Some rs
    | None => dict_get name m
    end.
Proof.
  induction ui as [|[u rs] ui IH]; intros m; simpl; [done|].
  rewrite IH. destruct (decide (u = name)) as [->|Hne].
  - rewrite last_cons, dict_get_set_eq. by destruct (last _).
  - by rewrite dict_get_set_ne.
Qed.

(** X15.  When the capability lists a unit more than once, the last listing
    counts: it is what [capability_map] holds for the unit. *)
Theorem capability_map_last_listing (cap : capability) (name : string) :
  dict_get name (capability_map cap) = last (listings name cap).
Proof.
  unfold capability_map, listings.
  assert (∀ m, dict_get name
                 (foldl (λ m c, foldl (λ m '(unit, resources), dict_set unit resources m) m c)
                        m cap)
               = match last (omap (λ '(unit_id, names),
                                     if decide (unit_id = name) then Some names else None)
                                  (concat cap)) with
                 | Some rs => Some rs
                 | None => dict_get name m
                 end) as H.
  { induction cap as [|ui cap IH]; intros m; simpl; [done|].
    rewrite IH, omap_app, last_app, merge_one_dict. by destruct (last (omap _ (concat cap))). }
  rewrite H. by destruct (last _).
Qed.

(** *** [FlowController._create_resource_pools] *)

Lemma create_resource_pools_spec cm0 cm : ∀ d (w : sim),
  cm ⊆ cm0 →
  (∀ name r, dict_get name d = Some r →
     name ≠ "LOADPORT"%string ∧
     ∃ rs, (name, rs) ∈ cm0 ∧
           resources w !! r = Some (Resource (Z.of_nat (length rs)) [] [])) →
  match (create_resource_pools cm d w).1 with
  | Some pools =>
      (∀ name r, dict_get name pools = Some r →
         name ≠ "LOADPORT"%string ∧
         ∃ rs, (name, rs) ∈ cm0 ∧
               resources (create_resource_pools cm d w).2 !! r
               = Some (Resource (Z.of_nat (length rs)) [] [])) ∧
      (∀ name, is_Some (dict_get name pools) ↔
               is_Some (dict_get name d) ∨ (name ≠ "LOADPORT"%string ∧ name ∈ cm.*1)) ∧
      ∀ name, name ≠ "LOADPORT"%string → (name, []) ∉ cm
  | None => ∃ name, name ≠ "LOADPORT"%string ∧ (name, []) ∈ cm
  end.
Proof.
  induction cm as [|[name rs] cm IH]; intros d w Hsub Hd; simpl.
  - split_and!; [done| |].
    + intros n. split; [by left|]. intros [?|[_ H]]; [done|]. by apply elem_of_nil in H.
    + intros n _ H. by apply elem_of_nil in H.
  - assert (cm ⊆ cm0) as Hsub' by (intros x Hx; apply Hsub; by right).
    destruct (decide (name ≠ "LOADPORT"%string)) as [Hne|He].
    + destruct (Z.of_nat (length rs) <=? 0) eqn:Ez.
      * simpl. exists name. split; [done|]. destruct rs; [by left|]. apply Z.leb_le in Ez. simpl in Ez. lia.
      * unfold bind, new_resource. simpl.
        set (w1 := set_resources _ w). set (d1 := dict_set name _ d).
        specialize (IH d1 w1 Hsub').
        destruct ((create_resource_pools cm d1 w1).1) as [pools|] eqn:E.
        -- destruct IH as (H1 & H2 & H3).
           { intros n r H. unfold d1 in H. destruct (decide (n = name)) as [->|Hn].
             - rewrite dict_get_set_eq in H. injection H as <-. split; [done|].
               exists rs. split; [apply Hsub; by left|]. unfold w1. simpl.
               by rewrite lookup_app_r, Nat.sub_diag by done.
             - rewrite dict_get_set_ne in H by done.
               destruct (Hd n r H) as (? & rs' & ? & Hr). split; [done|]. exists rs'.
               split; [done|]. unfold w1. simpl. by apply lookup_app_l_Some. }
           split_and!; [done| |].
           ++ intros n. rewrite H2. unfold d1. simpl. rewrite elem_of_cons.
              destruct (decide (n = name)) as [->|Hn].
              ** rewrite dict_get_set_eq. split; [intros _; right; split; [done|by left]|].
                 intros _. left. eauto.
              ** rewrite dict_get_set_ne by done. split; [tauto|].
                 intros [?|[? [?|?]]]; [by left|done|right; done].
           ++ intros n Hn H. apply elem_of_cons in H as [[= -> <-]|H]; [apply Z.leb_gt in Ez; simpl in Ez; lia|].
              by apply (H3 n).
        -- destruct IH as (n & Hn & Hin).
           { intros n r H. unfold d1 in H. destruct (decide (n = name)) as [->|Hn].
             - rewrite dict_get_set_eq in H. injection H as <-. split; [done|].
               exists rs. split; [apply Hsub; by left|]. unfold w1. simpl.
               by rewrite lookup_app_r, Nat.sub_diag by done.
             - rewrite dict_get_set_ne in H by done.
               destruct (Hd n r H) as (? & rs' & ? & Hr). split; [done|]. exists rs'.
               split; [done|]. unfold w1. simpl. by apply lookup_app_l_Some. }
           exists n. split; [done|by right].
    + assert (name = "LOADPORT"%string) as -> by (by destruct (decide (name = "LOADPORT"%string)); [|exfalso; apply He]).
      specialize (IH d w Hsub' Hd).
      destruct ((create_resource_pools cm d w).1) as [pools|] eqn:E.
      * destruct IH as (H1 & H2 & H3). split_and!; [done| |].
        -- intros n. rewrite H2. simpl. rewrite elem_of_cons. split; [tauto|].
           intros [?|[? [?|?]]]; [by left|done|by right].
        -- intros n Hn H. apply elem_of_cons in H as [[= ? ?]|H]; [done|]. by apply (H3 n).
      * destruct IH as (n & Hn & Hin). exists n. split; [done|by right].
Qed.

(** X21.  [FlowController._create_resource_pools] gives every unit of the
    merged capability but the load port one pool with as many slots as
    the unit lists resources, and nothing else a pool; it fails, with
    SimPy's [ValueError], exactly when such a unit lists no resource. *)
Theorem pools_as_configured (cap : capability) (w : sim) :
  match (create_resource_pools (capability_map cap) [] w).1 with
  | Some pools =>
      (∀ name, name ≠ "LOADPORT"%string → dict_get name (capability_map cap) ≠ Some []) ∧
      ∀ name,
        match dict_get name pools with
        | Some r =>
            name ≠ "LOADPORT"%string ∧
            ∃ rs, dict_get name (capability_map cap) = Some rs ∧
                  resources (create_resource_pools (capability_map cap) [] w).2 !! r
                  = Some (Resource (Z.of_nat (length rs)) [] [])
        | None => name = "LOADPORT"%string ∨ dict_get name (capability_map cap) = None
        end
  | None => ∃ name, name ≠ "LOADPORT"%string ∧ dict_get name (capability_map cap) = Some []
  end.
Proof.
  pose proof (create_resource_pools_spec (capability_map cap) (capability_map cap) [] w) as H.
  pose proof (capability_map_keys cap) as Hnd.
  destruct ((create_resource_pools (capability_map cap) [] w).1) as [pools|] eqn:E.
  - destruct H as (H1 & H2 & H3); [done|done|]. split.
    + intros name Hn Hg. apply (H3 name Hn). by apply dict_get_elem.
    + intros name. destruct (dict_get name pools) as [r|] eqn:Er.
      * destruct (H1 name r Er) as (Hn & rs & Hin & Hr). split; [done|].
        exists rs. split; [by apply dict_get_elem|done].
      * destruct (decide (name = "LOADPORT"%string)) as [?|Hn]; [by left|]. right.
        destruct (dict_get name (capability_map cap)) as [rs|] eqn:E'; [|done].
        assert (is_Some (dict_get name pools)) as [? ?]; [|congruence].
        apply H2. right. split; [done|]. apply list_elem_of_fmap. exists (name, rs).
        split; [done|]. by apply dict_get_elem.
  - destruct H as (n & Hn & Hin); [done|done|]. exists n. split; [done|].
    by apply dict_get_elem.
Qed.

(** *** The steps of a tool unit *)





End ToolUnitFacts.

(** * The clock and the histories of the wafers in the flow models *)
Module FlowTimeFacts.
Import Simpy FlowUnits FlowSim TimeProps FlowTimeProps TimeFacts.
Local Open Scope Z_scope.

(** *** The generators of the flow models keep the invariant *)

Lemma flow_steady_timely {A} (m : F A) (w : sim) :
  steady m → flow_timely w → flow_timely (m w).2 ∧ now (m w).2 = now w.
Proof.
  intros Hm Hw. by destruct (steady_timely gen_in_time units_in_time m w Hm Hw) as (? & ? & _).
Qed.

Lemma flow_bind {A} (m : F A) (k : A → F (outcome gen)) (w : sim) :
  flow_timely (m w).2 ∧ now (m w).2 = now w →
  (flow_timely (m w).2 → flow_in_time (k (m w).1) (m w).2) →
  flow_in_time (bind m k) w.
Proof. apply (in_time_bind gen_in_time units_in_time). Qed.

Lemma flow_steady {A} (m : F A) (k : A → F (outcome gen)) (w : sim) :
  steady m → flow_timely w →
  (∀ a w1, flow_timely w1 → now w1 = now w → flow_in_time (k a) w1) →
  flow_in_time (bind m k) w.
Proof. apply (in_time_steady gen_in_time units_in_time). Qed.

Lemma flow_tidy {A} (m : F A) (k : A → F (outcome gen)) (w : sim) :
  flow_timely (m w).2 ∧ now (m w).2 = now w →
  (∀ a w1, flow_timely w1 → now w1 = now w → flow_in_time (k a) w1) →
  flow_in_time (bind m k) w.
Proof. intros [Ht Hn] Hk. apply flow_bind; [done|]. intros _. by apply Hk. Qed.

Lemma flow_gets {A} (f : sim → A) (k : A → F (outcome gen)) (w : sim) :
  flow_in_time (k (f w)) w → flow_in_time (bind (gets f) k) w.
Proof. done. Qed.

Lemma flow_get_unit u (k : option flow_unit → F (outcome gen)) (w : sim) :
  flow_in_time (k (units (user w) !! u)) w → flow_in_time (bind (get_unit u) k) w.
Proof. done. Qed.

Lemma flow_ret_timely o (w : sim) :
  flow_timely w → match o with Yield k _ => gen_in_time (now w) k | _ => True end →
  flow_in_time (ret o) w.
Proof. intros Hw Ho. by split_and!. Qed.

Lemma same_units_timely (f : world → world) (w : sim) :
  flow_timely w → units (f (user w)) = units (user w) →
  flow_timely (set_user f w) ∧ now (set_user f w) = now w.
Proof.
  intros Hw Hf. split; [|done]. apply (timely_set_user gen_in_time units_in_time); [done|].
  unfold units_in_time. rewrite Hf. by destruct Hw as (_ & _ & _ & ?).
Qed.

Lemma set_unit_timely u x (w : sim) :
  flow_timely w → unit_in_time (now w) x →
  flow_timely (set_unit u x w).2 ∧ now (set_unit u x w).2 = now w.
Proof.
  intros Hw Hx. split; [|done].
  apply (timely_set_user gen_in_time units_in_time); [done|].
  unfold units_in_time. simpl. apply Forall_insert; [|done]. by destruct Hw as (_ & _ & _ & ?).
Qed.

Lemma draw_py_timely (w : sim) :
  flow_timely w → flow_timely (draw_py w).2 ∧ now (draw_py w).2 = now w.
Proof. intros Hw. by apply same_units_timely. Qed.

Lemma draw_np_timely (w : sim) :
  flow_timely w → flow_timely (draw_np w).2 ∧ now (draw_np w).2 = now w.
Proof. intros Hw. by apply same_units_timely. Qed.

Lemma tidy_bind {A B} (m : F A) (k : A → F B) (w : sim) :
  flow_timely (m w).2 ∧ now (m w).2 = now w →
  (flow_timely (m w).2 →
   flow_timely (k (m w).1 (m w).2).2 ∧ now (k (m w).1 (m w).2).2 = now (m w).2) →
  flow_timely (bind m k w).2 ∧ now (bind m k w).2 = now w.
Proof.
  intros [Ht Hn] Hk. destruct (Hk Ht) as [Ht2 Hn2]. unfold bind.
  destruct (m w) as [a w1]. simpl in *. split; [done|congruence].
Qed.

Lemma perform_timely u tr : ∀ (w : sim),
  flow_timely w → Forall (sends_in_time (now w)) tr →
  flow_timely (perform u tr w).2 ∧ now (perform u tr w).2 = now w.
Proof.
  induction tr as [|ev tr IH]; intros w Hw Htr; simpl; [done|].
  apply Forall_cons in Htr as [Hev Htr].
  apply tidy_bind; [by apply same_units_timely|]. intros H1.
  set (w1 := (modify (set_user _) w).2) in *.
  assert (now w1 = now w) as Hn1 by done. clearbody w1. rewrite <- Hn1 in Hev, Htr.
  apply tidy_bind.
  - destruct ev as [| |target agent| |]; try done.
    apply tidy_bind; [|done].
    by apply (process_timely gen_in_time units_in_time (Receive target agent) w1 H1).
  - intros H2. apply IH; [done|].
    assert (now (match ev with
                 | Sent target agent => let* _ := process (Receive target agent) in ret tt
                 | _ => ret tt
                 end w1).2 = now w1) as ->; [|done].
    by destruct ev.
Qed.

Lemma sends_send b a now t :
  history_in_time t a → Forall (sends_in_time t) (send_agent b a now).
Proof.
  intros Ha. unfold send_agent. destruct (output_port b); by apply Forall_singleton.
Qed.

Lemma flow_update u x tr (k : F (outcome gen)) (w : sim) :
  flow_timely w → unit_in_time (now w) x → Forall (sends_in_time (now w)) tr →
  (∀ w1, flow_timely w1 → now w1 = now w → flow_in_time k w1) →
  flow_in_time (let* _ := set_unit u x in let* _ := perform u tr in k) w.
Proof.
  intros Hw Hx Htr Hk.
  apply flow_bind; [by apply set_unit_timely|]. intros H1.
  apply flow_bind; [by apply perform_timely|]. intros H2.
  apply Hk; [done|]. by destruct (perform_timely u tr (set_unit u x w).2 H1 Htr) as [_ ->].
Qed.

Lemma flow_timeout d (k : option nat → F (outcome gen)) (w : sim) :
  flow_timely w →
  (∀ e w1, flow_timely w1 → now w1 = now w → flow_in_time (k e) w1) →
  flow_in_time (bind (timeout d) k) w.
Proof. intros Hw Hk. apply flow_steady; [apply steady_timeout|done|done]. Qed.

Lemma generation_loop_in_time u s (w : sim) :
  flow_timely w → flow_in_time (generation_loop u s) w.
Proof.
  intros Hw. unfold generation_loop. destruct (Source.limit_reached _ _); [by split_and!|].
  apply flow_bind; [by apply draw_py_timely|]. intros H1.
  apply flow_timeout; [done|]. intros [e|] w2 H2 Hn2; by split_and!.
Qed.

Lemma wafer_generated s wafer_idx now t :
  Forall (sends_in_time t) (WaferSource.generate s wafer_idx now).2.
Proof.
  unfold WaferSource.generate. simpl. do 2 (apply Forall_cons; split; [done|]).
  apply sends_send. apply Forall_nil_2.
Qed.

Lemma lots_loop_in_time fuel : ∀ u s (w : sim),
  flow_timely w → flow_in_time (lots_loop fuel u s) w.
Proof.
  induction fuel as [|fuel IH]; intros u s w Hw; cbn [lots_loop].
  - destruct (WaferSource.limit_reached _ _); [by split_and!|].
    destruct (0 <? WaferSource.lot_size s).
    + apply flow_gets.
      pose proof (wafer_generated s 0 (now w) (now w)) as Hg.
      destruct (WaferSource.generate s 0 (now w)) as [s' tr].
      apply flow_update; [done|done|done|]. intros w1 H1 Hn1.
      apply flow_bind; [by apply draw_py_timely|]. intros H2.
      apply flow_timeout; [done|]. intros [e|] w3 H3 Hn3; by split_and!.
    + apply flow_bind; [by apply set_unit_timely|]. intros H1.
      destruct (WaferSource.wait_for_next_lot _ _); [|by split_and!].
      apply flow_timeout; [done|]. intros [e|] w3 H3 Hn3; by split_and!.
  - destruct (WaferSource.limit_reached _ _); [by split_and!|].
    destruct (0 <? WaferSource.lot_size s).
    + apply flow_gets.
      pose proof (wafer_generated s 0 (now w) (now w)) as Hg.
      destruct (WaferSource.generate s 0 (now w)) as [s' tr].
      apply flow_update; [done|done|done|]. intros w1 H1 Hn1.
      apply flow_bind; [by apply draw_py_timely|]. intros H2.
      apply flow_timeout; [done|]. intros [e|] w3 H3 Hn3; by split_and!.
    + apply flow_bind; [by apply set_unit_timely|]. intros H1.
      destruct (WaferSource.wait_for_next_lot _ _); [|by apply IH].
      apply flow_timeout; [done|]. intros [e|] w3 H3 Hn3; by split_and!.
Qed.

Lemma lots_after_wafer_in_time u s wafer_idx (w : sim) :
  flow_timely w → flow_in_time (lots_after_wafer u s wafer_idx) w.
Proof.
  intros Hw. unfold lots_after_wafer. destruct (_ <? _).
  - apply flow_gets.
    pose proof (wafer_generated s (S wafer_idx) (now w) (now w)) as Hg.
    destruct (WaferSource.generate s (S wafer_idx) (now w)) as [s' tr].
    apply flow_update; [done|done|done|]. intros w1 H1 Hn1.
    apply flow_bind; [by apply draw_py_timely|]. intros H2.
    apply flow_timeout; [done|]. intros [e|] w3 H3 Hn3; by split_and!.
  - apply flow_bind; [by apply set_unit_timely|]. intros H1.
    destruct (WaferSource.wait_for_next_lot _ _); [|by apply lots_loop_in_time].
    apply flow_timeout; [done|]. intros [e|] w3 H3 Hn3; by split_and!.
Qed.

Lemma logged_in_time t a unit seq start finish res :
  history_in_time t a → 0 ≤ start → start ≤ finish → finish ≤ t →
  history_in_time t (ToolUnit.log_processing_step a unit seq start finish res).
Proof.
  intros Ha H0 H1 H2. unfold history_in_time. simpl. apply Forall_app. split; [done|].
  by apply Forall_singleton.
Qed.

Lemma flow_loop_in_time u rest : ∀ agent (w : sim),
  flow_timely w → history_in_time (now w) agent → flow_in_time (flow_loop u agent rest) w.
Proof.
  induction rest as [|step rest IH]; intros agent w Hw Ha; cbn [flow_loop].
  - apply flow_get_unit. destruct (units (user w) !! u) as [[| | | | |c]|]; try by split_and!.
    apply flow_gets. unfold FlowController.complete.
    apply flow_update; [done|done| |].
    + apply Forall_cons. split; [done|]. by apply sends_send.
    + intros w1 H1 Hn1. by split_and!.
  - destruct (decide _); [by apply IH|].
    destruct (duration_mean step =? 0).
    + apply flow_gets. apply IH; [done|]. destruct Hw as (? & _).
      apply logged_in_time; [done|lia|lia|lia].
    + apply flow_tidy.
      { destruct (0 <? duration_std step); [|done].
        apply tidy_bind; [by apply draw_np_timely|]. done. }
      intros processing_time w1 H1 Hn1.
      apply flow_get_unit. destruct (units (user w1) !! u) as [[| | | | |c]|]; try by split_and!.
      destruct (dict_get _ _) as [resource|]; [|apply IH; [done|by rewrite Hn1]].
      apply flow_gets. apply flow_steady; [apply steady_request|done|].
      intros request w2 H2 Hn2. apply flow_ret_timely; [done|]. simpl.
      rewrite Hn2. split; [by rewrite Hn1|]. destruct H1 as (? & _). lia.
Qed.

Lemma sink_unit_in_time u s (w : sim) :
  flow_timely w → units (user w) !! u = Some (USink s) →
  Forall (history_in_time (now w)) (Sink.completed_agents s).
Proof.
  intros (_ & _ & _ & Hu) E. apply (Forall_lookup_1 _ _ _ _ Hu E).
Qed.

Lemma receive_in_time u agent (w : sim) :
  flow_timely w → history_in_time (now w) agent → flow_in_time (receive u agent) w.
Proof.
  intros Hw Ha. unfold receive. apply flow_get_unit. apply flow_gets.
  destruct (units (user w) !! u) as [[s|r|s|t0|s|c]|] eqn:E; try by split_and!.
  - (* ResourcePool *)
    unfold ResourcePool.receive_agent. cbv beta iota zeta.
    apply flow_update; [done|done| |].
    { repeat (apply Forall_cons; split; [done|]). done. }
    intros w1 H1 Hn1. apply flow_steady; [apply steady_request|done|].
    intros request w2 H2 Hn2. apply flow_ret_timely; [done|]. simpl.
    by rewrite Hn2, Hn1.
  - (* Sink *)
    unfold Sink.receive_agent. cbv beta iota zeta.
    apply flow_update; [done| | |].
    { simpl. apply Forall_app. split; [by apply (sink_unit_in_time u)|].
      by apply Forall_singleton. }
    { repeat (apply Forall_cons; split; [done|]). done. }
    intros w1 H1 Hn1. apply flow_timeout; [done|]. intros [e|] w2 H2 Hn2; by split_and!.
  - (* SemiconductorToolUnit *)
    unfold ToolUnit.receive_agent. cbv beta iota zeta.
    apply flow_update; [done|done| |].
    { by apply Forall_singleton. }
    intros w1 H1 Hn1.
    destruct (ToolUnit.find_step _ _) as [step|].
    + destruct (duration_mean step =? 0).
      * unfold ToolUnit.zero_duration. cbv beta iota zeta.
        apply flow_update; [done|done| |].
        { apply Forall_cons. split; [done|]. apply sends_send.
          rewrite Hn1. destruct Hw as (? & _).
          apply (logged_in_time (now w) _ _ _ (now w) (now w)); [done|lia|lia|lia]. }
        intros w2 H2 Hn2. by split_and!.
      * destruct (ToolUnit.get_next_resource _) as [[resource_name t2]|]; [|by split_and!].
        apply flow_tidy; [by apply set_unit_timely|]. intros _ w2 H2 Hn2.
        destruct (dict_get _ _) as [resource|]; [|by split_and!].
        apply flow_tidy; [by apply draw_np_timely|]. intros draw w3 H3 Hn3.
        apply flow_steady; [apply steady_request|done|].
        intros request w4 H4 Hn4. apply flow_ret_timely; [done|]. simpl.
        rewrite Hn4, Hn3, Hn2, Hn1. split; [done|]. destruct Hw as (? & _). lia.
    + unfold ToolUnit.skip_unit. cbv beta iota zeta.
      apply flow_update; [done|done| |].
      { repeat (apply Forall_cons; split; [done|]). apply sends_send. by rewrite Hn1. }
      intros w2 H2 Hn2. by split_and!.
  - (* FlowController *)
    unfold FlowController.receive_agent. cbv beta iota zeta.
    apply flow_update; [done|done| |].
    { by apply Forall_singleton. }
    intros w1 H1 Hn1. apply flow_loop_in_time; [done|by rewrite Hn1].
Qed.

Lemma flow_process_in_time g v (w : sim) :
  flow_timely w → gen_in_time (now w) g → flow_in_time (flow_process g v) w.
Proof.
  intros Hw Hg.
  destruct g as [u|u|u|u i|u|u agent|u agent rq|u agent rq| |u agent step st rn rs rq pt
                |u agent step st rn rs rq|u agent step rest st rs rq pt
                |u agent step rest st rs rq]; cbn [flow_process].
  - apply flow_get_unit. destruct (units (user w) !! u) as [[s| | | | |]|]; try by split_and!.
    by apply generation_loop_in_time.
  - apply flow_get_unit. apply flow_gets.
    destruct (units (user w) !! u) as [[s| | | | |]|]; try by split_and!.
    unfold Source.generate. cbv beta iota zeta.
    apply flow_update; [done|done| |].
    { repeat (apply Forall_cons; split; [done|]). apply sends_send. apply Forall_nil_2. }
    intros w1 H1 Hn1. by apply generation_loop_in_time.
  - apply flow_get_unit. destruct (units (user w) !! u) as [[| | | |s|]|]; try by split_and!.
    by apply lots_loop_in_time.
  - apply flow_get_unit. destruct (units (user w) !! u) as [[| | | |s|]|]; try by split_and!.
    by apply lots_after_wafer_in_time.
  - apply flow_get_unit. destruct (units (user w) !! u) as [[| | | |s|]|]; try by split_and!.
    by apply lots_loop_in_time.
  - by apply receive_in_time.
  - apply flow_get_unit. apply flow_gets.
    destruct (units (user w) !! u) as [[|r| | | |]|]; try by split_and!.
    apply flow_tidy.
    { apply perform_timely; [done|]. by apply Forall_singleton. }
    intros _ w1 H1 Hn1. apply flow_timeout; [done|].
    intros [e|] w2 H2 Hn2; [|by split_and!].
    apply flow_ret_timely; [done|]. simpl in *. by rewrite Hn2, Hn1.
  - apply flow_get_unit. apply flow_gets.
    destruct (units (user w) !! u) as [[|r| | | |]|]; try by split_and!.
    apply flow_steady; [apply steady_release|done|]. intros _ w1 H1 Hn1.
    unfold ResourcePool.complete. cbv beta iota zeta.
    apply flow_update; [done|done| |].
    { repeat (apply Forall_cons; split; [done|]). apply sends_send. simpl in Hg.
      by rewrite Hn1. }
    intros w2 H2 Hn2. by split_and!.
  - by split_and!.
  - apply flow_gets. apply flow_tidy.
    { apply perform_timely; [done|]. by apply Forall_singleton. }
    intros _ w1 H1 Hn1. apply flow_timeout; [done|].
    intros [e|] w2 H2 Hn2.
    + apply flow_ret_timely; [done|]. simpl in *. by rewrite Hn2, Hn1.
    + apply flow_steady; [apply steady_release|done|]. intros _ w3 H3 Hn3. by split_and!.
  - apply flow_get_unit. apply flow_gets.
    destruct (units (user w) !! u) as [[| | |t0| |]|]; try by split_and!.
    unfold ToolUnit.complete. cbv beta iota zeta. destruct Hg as [Ha Hst].
    apply flow_update; [done|done| |].
    { apply Forall_cons. split; [done|]. apply sends_send.
      apply (logged_in_time (now w)); [done|lia|lia|lia]. }
    intros w1 H1 Hn1. apply flow_steady; [apply steady_release|done|].
    intros _ w2 H2 Hn2. by split_and!.
  - apply flow_gets. apply flow_tidy.
    { apply perform_timely; [done|]. by apply Forall_singleton. }
    intros _ w1 H1 Hn1. apply flow_timeout; [done|].
    intros [e|] w2 H2 Hn2.
    + apply flow_ret_timely; [done|]. simpl in *. by rewrite Hn2, Hn1.
    + apply flow_steady; [apply steady_release|done|]. intros _ w3 H3 Hn3. by split_and!.
  - apply flow_gets. destruct Hg as [Ha Hst].
    apply flow_steady; [apply steady_release|done|]. intros _ w1 H1 Hn1.
    apply flow_loop_in_time; [done|]. rewrite Hn1.
    apply (logged_in_time (now w)); [done|lia|lia|lia].
Qed.

Lemma gen_in_time_later t t' g : t ≤ t' → gen_in_time t g → gen_in_time t' g.
Proof.
  intros Ht.
  assert (∀ a, history_in_time t a → history_in_time t' a) as Hh.
  { intros a Ha. eapply Forall_impl; [exact Ha|]. intros r. unfold entry_in_time. lia. }
  destruct g; simpl; try done; try (by apply Hh);
    intros [Ha ?]; (split; [by apply Hh|lia]).
Qed.

Lemma units_in_time_later t t' u : t ≤ t' → units_in_time t u → units_in_time t' u.
Proof.
  intros Ht Hu. eapply Forall_impl; [exact Hu|]. intros [| |s| | |]; simpl; try done.
  intros Hs. eapply Forall_impl; [exact Hs|]. intros a Ha.
  eapply Forall_impl; [exact Ha|]. intros r. unfold entry_in_time. lia.
Qed.

Lemma run_flow_timely n (w : sim) : flow_timely w → flow_timely (run n w).
Proof.
  apply (run_steps_timely gen_in_time units_in_time gen_in_time_later units_in_time_later
           flow_process flow_process_in_time).
Qed.

(** *** The set-up of the simulator *)

Lemma tidy_ret {A} (a : A) : tidy (ret a).
Proof. by intros w. Qed.

Lemma tidy_then {A B} (m : F A) (k : A → F B) :
  tidy m → (∀ a, tidy (k a)) → tidy (bind m k).
Proof.
  intros Hm Hk w Hw. apply tidy_bind; [by apply Hm|]. intros H1. by apply Hk.
Qed.

Lemma tidy_steady {A} (m : F A) : steady m → tidy m.
Proof. intros Hm w Hw. by apply flow_steady_timely. Qed.

Lemma tidy_new_resource cap : tidy (new_resource cap).
Proof. apply tidy_steady. by apply steady_same. Qed.

Lemma tidy_add_unit x : (∀ t, unit_in_time t x) → tidy (SemiconductorToolSimulator.add_unit x).
Proof.
  intros Hx w Hw. split; [|done].
  apply (timely_set_user gen_in_time units_in_time); [done|].
  unfold units_in_time. simpl. apply Forall_app. split; [by destruct Hw as (_ & _ & _ & ?)|].
  by apply Forall_singleton.
Qed.

Lemma tidy_create_resources names : ∀ d,
  tidy (SemiconductorToolSimulator.create_resources names d).
Proof.
  induction names as [|n names IH]; intros d; simpl; [apply tidy_ret|].
  apply tidy_then; [apply tidy_new_resource|]. intros r. apply IH.
Qed.

Lemma tidy_create_tool_units cm flow : ∀ d,
  tidy (SemiconductorToolSimulator.create_tool_units cm flow d).
Proof.
  induction cm as [|[name resources] cm IH]; intros d; simpl; [apply tidy_ret|].
  destruct (decide _); [apply IH|].
  apply tidy_then.
  { unfold SemiconductorToolSimulator.ToolUnit_init.
    apply tidy_then; [apply tidy_create_resources|]. intros rs. apply tidy_ret. }
  intros t. apply tidy_then; [by apply tidy_add_unit|]. intros i. apply IH.
Qed.

Lemma tidy_connect_to a b : tidy (SemiconductorToolSimulator.connect_to a b).
Proof.
  intros w Hw. split; [|done].
  apply (timely_set_user gen_in_time units_in_time); [done|].
  unfold units_in_time. simpl. apply Forall_alter; [by destruct Hw as (_ & _ & _ & ?)|].
  intros x _ Hx. by destruct x.
Qed.

Lemma tidy_connect_chain h steps : ∀ prev,
  tidy (SemiconductorToolSimulator.connect_chain h steps prev).
Proof.
  induction steps as [|step steps IH]; intros prev; simpl; [apply tidy_ret|].
  destruct (decide _); [apply IH|].
  destruct (dict_get _ _) as [cur|]; [|apply IH].
  apply tidy_then; [|intros _; apply IH].
  destruct prev as [prev|]; [|apply tidy_ret].
  destruct (dict_get _ _); [|apply tidy_ret].
  destruct (bool_decide _); [apply tidy_connect_to|apply tidy_ret].
Qed.

Lemma tidy_connect_flow_units h flow :
  tidy (SemiconductorToolSimulator.connect_flow_units h flow).
Proof.
  unfold SemiconductorToolSimulator.connect_flow_units.
  apply tidy_then.
  { destruct (head _) as [f|]; [|apply tidy_ret].
    destruct (dict_get _ _); [|apply tidy_ret].
    destruct (bool_decide _); [apply tidy_connect_to|apply tidy_ret]. }
  intros _. apply tidy_then; [apply tidy_connect_chain|]. intros [prev|]; [|apply tidy_ret].
  destruct (dict_get _ _); [|apply tidy_ret].
  destruct (bool_decide _); [apply tidy_connect_to|apply tidy_ret].
Qed.

Lemma init_flow_timely cap flow uniform normal :
  flow_timely (SemiconductorToolSimulator.init cap flow uniform normal).2 ∧
  now (SemiconductorToolSimulator.init cap flow uniform normal).2 = 0.
Proof.
  unfold SemiconductorToolSimulator.init.
  match goal with |- flow_timely (?m ?w0).2 ∧ _ =>
    assert (tidy m) as H; [|assert (flow_timely w0) as H0] end.
  - apply tidy_then.
    { unfold SemiconductorToolSimulator.create_flow_units.
      apply tidy_then; [by apply tidy_add_unit|]. intros src.
      apply tidy_then; [apply tidy_create_tool_units|]. intros us.
      apply tidy_then; [apply tidy_add_unit; intros t; apply Forall_nil_2|]. intros snk.
      apply tidy_ret. }
    intros h. apply tidy_then; [apply tidy_connect_flow_units|]. intros _.
    apply tidy_then; [|intros _; apply tidy_ret].
    intros w Hw. by apply (process_timely gen_in_time units_in_time).
  - unfold flow_timely, timely_of, units_in_time. simpl. split_and!; done.
  - destruct (H _ H0) as [H1 H2]. split; [done|]. etrans; [exact H2|done].
Qed.

Lemma run_until_flow_timely t fuel (w : sim) :
  flow_timely w → now w ≤ t → flow_timely (run_until flow_process t fuel w).
Proof.
  intros Hw Ht. unfold run_until.
  destruct (new_event KUntil true [Stop_simulation] w) as [u w1] eqn:E1.
  assert (flow_timely w1 ∧ now w1 = now w) as [H1 Hn1].
  { pose proof (flow_steady_timely (new_event KUntil true [Stop_simulation]) w
                  (steady_new_event _ _ _) Hw) as H. by rewrite E1 in H. }
  destruct (schedule u URGENT (t - now w) w1) as [[] w2] eqn:E2.
  assert (flow_timely w2) as H2.
  { pose proof (flow_steady_timely (schedule u URGENT (t - now w)) w1) as H.
    rewrite E2 in H. apply H; [|done]. apply steady_schedule. lia. }
  by apply run_flow_timely.
Qed.

(** X22.  In every run of the tool simulator up to a time that is not
    negative, the history of every wafer that the sink holds consists
    of intervals of simulated time: each record starts at time 0 or
    later, does not end before it starts, and does not end after the
    current time. *)
Theorem wafer_histories_in_time (cap : capability) (flow : list flow_step)
    (uniform normal : nat → Z) (t : Z) (fuel : nat) :
  0 ≤ t →
  units_in_time
    (now (run_until flow_process t fuel
            (SemiconductorToolSimulator.init cap flow uniform normal).2))
    (user (run_until flow_process t fuel
             (SemiconductorToolSimulator.init cap flow uniform normal).2)).
Proof.
  intros Ht. destruct (init_flow_timely cap flow uniform normal) as [H0 Hn].
  assert (flow_timely (run_until flow_process t fuel
                         (SemiconductorToolSimulator.init cap flow uniform normal).2))
    as (_ & _ & _ & H); [|done].
  apply run_until_flow_timely; [done|]. by rewrite Hn.
Qed.

Lemma wafer_histories_in_time_witness :
  units_in_time (now (Scenarios.twice_listed_run 300)) (user (Scenarios.twice_listed_run 300)).
Proof.
  apply (wafer_histories_in_time Scenarios.twice_listed Scenarios.twice_listed_flow
           (λ _, 20) (λ _, 50) 300 200).
  lia.
Defined.

(** *** The set-up of the flow simulator *)

Lemma tidy_create_resource_pools cm : ∀ d, tidy (ToolProps.create_resource_pools cm d).
Proof.
  induction cm as [|[unit_id resources] cm IH]; intros d; simpl; [apply tidy_ret|].
  destruct (decide _); [|apply IH].
  destruct (_ <=? 0); [apply tidy_ret|].
  apply tidy_then; [apply tidy_new_resource|]. intros r. apply IH.
Qed.

Lemma flow_init_timely cap flow uniform normal :
  flow_timely (SemiconductorFlowSimulator.init cap flow uniform normal).2 ∧
  now (SemiconductorFlowSimulator.init cap flow uniform normal).2 = 0.
Proof.
  unfold SemiconductorFlowSimulator.init.
  match goal with |- flow_timely (?m ?w0).2 ∧ _ =>
    assert (tidy m) as H; [|assert (flow_timely w0) as H0] end.
  - apply tidy_then.
    { unfold SemiconductorFlowSimulator.create_flow_model.
      apply tidy_then; [by apply tidy_add_unit|]. intros src.
      apply tidy_then.
      { unfold SemiconductorFlowSimulator.FlowController_init.
        apply tidy_then; [apply tidy_create_resource_pools|]. intros pools. apply tidy_ret. }
      intros [c|]; [|apply tidy_ret].
      apply tidy_then; [by apply tidy_add_unit|]. intros ctl.
      apply tidy_then; [apply tidy_add_unit; intros t; apply Forall_nil_2|]. intros snk.
      apply tidy_then; [apply tidy_connect_to|]. intros _.
      apply tidy_then; [apply tidy_connect_to|]. intros _. apply tidy_ret. }
    intros [h|]; [|apply tidy_ret].
    apply tidy_then; [|intros _; apply tidy_ret].
    intros w Hw. by apply (process_timely gen_in_time units_in_time).
  - unfold flow_timely, timely_of, units_in_time. simpl. split_and!; done.
  - destruct (H _ H0) as [H1 H2]. split; [done|]. etrans; [exact H2|done].
Qed.

(** X23.  In every run of the flow simulator up to a time that is not
    negative, the history of every wafer that the sink holds consists
    of intervals of simulated time: each record starts at time 0 or
    later, does not end before it starts, and does not end after the
    current time. *)
Theorem flow_histories_in_time (cap : capability) (flow : list flow_step)
    (uniform normal : nat → Z) (t : Z) (fuel : nat) :
  0 ≤ t →
  units_in_time
    (now (run_until flow_process t fuel
            (SemiconductorFlowSimulator.init cap flow uniform normal).2))
    (user (run_until flow_process t fuel
             (SemiconductorFlowSimulator.init cap flow uniform normal).2)).
Proof.
  intros Ht. destruct (flow_init_timely cap flow uniform normal) as [H0 Hn].
  assert (flow_timely (run_until flow_process t fuel
                         (SemiconductorFlowSimulator.init cap flow uniform normal).2))
    as (_ & _ & _ & H); [|done].
  apply run_until_flow_timely; [done|]. by rewrite Hn.
Qed.

Lemma flow_histories_in_time_witness :
  units_in_time
    (now (run_until flow_process 300 200
            (SemiconductorFlowSimulator.init Scenarios.twice_listed
               Scenarios.twice_listed_flow (λ _, 20) (λ _, 50)).2))
    (user (run_until flow_process 300 200
             (SemiconductorFlowSimulator.init Scenarios.twice_listed
                Scenarios.twice_listed_flow (λ _, 20) (λ _, 50)).2)).
Proof.
  apply (flow_histories_in_time Scenarios.twice_listed Scenarios.twice_listed_flow
           (λ _, 20) (λ _, 50) 300 200).
  lia.
Defined.

End FlowTimeFacts.

(** * Resources are never over-booked during a run *)
Module ExclusionFacts.
Import Simpy Spec CapacityFacts CapacityProps.
Local Open Scope Z_scope.

Section Sizes.
Context {P U : Type}.
Variable cs : list Z.
Implicit Types (w : env P U).

(** Whatever leaves the resources alone keeps their capacities. *)
Lemma sized_same {A} (m : M P U A) :
  (∀ w, resources (snd (m w)) = resources w) → keeps (sized cs) m.
Proof. intros H w Hw. unfold sized, capacities. by rewrite H. Qed.

Lemma sized_alter (f : resource → resource) r :
  (∀ res, capacity (f res) = capacity res) →
  keeps (sized cs) (modify (P:=P) (U:=U) (set_resources (alter f r))).
Proof.
  intros Hf w Hw. unfold sized, capacities in *. simpl. rewrite <- Hw.
  apply list_eq. intros i. rewrite !list_lookup_fmap.
  destruct (decide (i = r)) as [->|Hne].
  - rewrite list_lookup_alter_eq. destruct (resources w !! r); simpl; [|done]. by rewrite Hf.
  - by rewrite list_lookup_alter_ne.
Qed.

Lemma sized_timeout d : keeps (sized cs) (timeout (P:=P) (U:=U) d).
Proof. apply sized_same, resources_timeout. Qed.

Lemma sized_any_of evs : keeps (sized cs) (any_of (P:=P) (U:=U) evs).
Proof. apply sized_same, resources_any_of. Qed.

Lemma sized_process g : keeps (sized cs) (process (P:=P) (U:=U) g).
Proof. apply sized_same, resources_process. Qed.

Lemma sized_set_user (f : U → U) : keeps (sized cs) (modify (P:=P) (U:=U) (set_user f)).
Proof. by apply sized_same. Qed.

Lemma sized_succeed e : keeps (sized cs) (succeed (P:=P) (U:=U) e).
Proof. apply sized_same, resources_succeed. Qed.

Lemma sized_new_event k trig cbs : keeps (sized cs) (new_event (P:=P) (U:=U) k trig cbs).
Proof. by apply sized_same. Qed.

Lemma sized_trigger_put r : keeps (sized cs) (trigger_put (P:=P) (U:=U) r).
Proof.
  intros w Hw. unfold trigger_put. destruct (resources w !! r) as [res|] eqn:E; [|done].
  destruct (put_queue res) as [|q rest]; [done|]. destruct (_ <? _); [|done].
  apply sized_succeed. unfold sized, capacities in *. simpl. rewrite <- Hw.
  apply list_eq. intros i. rewrite !list_lookup_fmap.
  destruct (decide (i = r)) as [->|Hne].
  - rewrite list_lookup_insert_eq by (by apply lookup_lt_Some in E). by rewrite E.
  - by rewrite list_lookup_insert_ne.
Qed.

Lemma sized_request r : keeps (sized cs) (request (P:=P) (U:=U) r).
Proof.
  unfold request. apply keeps_bind; [apply sized_new_event|]. intros e.
  apply keeps_bind; [by apply sized_alter|]. intros _.
  apply keeps_bind; [apply sized_trigger_put|]. intros _. apply keeps_ret.
Qed.

Lemma sized_release r req : keeps (sized cs) (release (P:=P) (U:=U) r req).
Proof.
  unfold release. apply keeps_bind; [apply sized_new_event|]. intros e.
  apply keeps_bind; [by apply sized_alter|]. intros _.
  apply keeps_bind; [apply sized_succeed|]. intros _. apply keeps_ret.
Qed.

Lemma sized_cancel e : keeps (sized cs) (cancel (P:=P) (U:=U) e).
Proof.
  intros w Hw. unfold cancel. destruct (is_triggered e w); [done|].
  destruct (resource_of e w) as [r|]; [|done].
  by apply (sized_alter (λ res, Resource (capacity res) (users res)
                                         (list_remove_first e (put_queue res))) r).
Qed.

Lemma sized_cancel_untriggered e : keeps (sized cs) (cancel_untriggered (P:=P) (U:=U) e).
Proof.
  intros w Hw. unfold cancel_untriggered. destruct (is_triggered e w); [done|].
  by apply sized_cancel.
Qed.

Section Run.
Variable resume : P → list nat → M P U (outcome P).
Hypothesis resume_sized : ∀ g v, keeps (sized cs) (resume g v).

Lemma sized_resume_loop fuel p g v : keeps (sized cs) (resume_loop resume fuel p g v).
Proof.
  revert g v. induction fuel as [|fuel IH]; intros g v w Hw; simpl;
    specialize (resume_sized g v w Hw); destruct (resume g v w) as [[k e| | |] w1];
    simpl in *; try done.
  - by destruct (is_processed e w1).
  - destruct (procs w1 !! p); done.
  - destruct (is_processed e w1); [by apply IH|done].
  - destruct (procs w1 !! p); done.
Qed.

Lemma sized_run_callback e cb : keeps (sized cs) (run_callback resume e cb).
Proof.
  destruct cb; unfold run_callback; try (by apply sized_same).
  - apply sized_trigger_put.
  - apply sized_same, resources_check.
  - apply sized_same, resources_build_value.
  - intros w Hw. destruct (procs w !! p) as [pe|]; [|done].
    destruct (generator pe) as [g|]; [|done].
    match goal with |- context [resume_loop resume ?f ?p ?g ?v ?w0] =>
      pose proof (sized_resume_loop f p g v w0) as H;
      destruct (resume_loop resume f p g v w0) as [[] w1] end.
    simpl in *. by apply H.
Qed.

Lemma sized_step w w' : sized cs w → step resume w = Some w' → sized cs w'.
Proof.
  intros Hw. unfold step. destruct (queue w) as [|[[[t pr] c] e] q]; [done|].
  simpl. destruct (events w !! e) as [ev|]; [|by intros [= <-]].
  intros [= <-].
  match goal with |- sized cs (foldl _ ?w0 ?cbs) =>
    assert (sized cs w0) as H0 by done; revert H0; generalize w0; generalize cbs end.
  intros cbs. induction cbs as [|cb cbs IH]; intros w0 H0; simpl; [done|].
  apply IH. destruct (stopped w0 || crashed w0); [done|]. by apply sized_run_callback.
Qed.

Lemma sized_run_steps n w : sized cs w → sized cs (run_steps resume n w).
Proof.
  revert w. induction n as [|n IH]; intros w Hw; simpl; [done|].
  destruct (stopped w || crashed w); [done|].
  destruct (step resume w) as [w'|] eqn:Hs; [|done].
  apply IH. by eapply sized_step.
Qed.

Lemma sized_run_until t fuel w : sized cs w → sized cs (run_until resume t fuel w).
Proof. intros Hw. unfold run_until. simpl. by apply sized_run_steps. Qed.

End Run.
End Sizes.

#[local] Hint Resolve sized_timeout sized_any_of sized_process sized_request sized_release
  sized_cancel_untriggered sized_set_user : keeping.

(** *** The hold-and-wait wafer process *)
Section Wafer.
Import ToolSimulator.
Variable cs : list Z.

Lemma sized_print m : keeps (sized cs) (print m).
Proof. apply sized_set_user. Qed.

#[local] Hint Resolve sized_print : keeping.

Lemma sized_finish l : keeps (sized cs) (finish l).
Proof. unfold finish. keep. Qed.

Lemma sized_on_exception l : keeps (sized cs) (on_exception l).
Proof. unfold on_exception. keep. Qed.

#[local] Hint Resolve sized_finish sized_on_exception : keeping.

Lemma sized_after_loop l : keeps (sized cs) (after_loop l).
Proof. unfold after_loop. keep. Qed.

Lemma sized_process_step l idx step : keeps (sized cs) (process_step l idx step).
Proof. unfold process_step. keep. Qed.

Lemma sized_fallback_step l idx step : keeps (sized cs) (fallback_step l idx step).
Proof. unfold fallback_step. keep. Qed.

Lemma sized_for_loop l idx rest : keeps (sized cs) (for_loop l idx rest).
Proof.
  revert idx. induction rest as [|step rest IH]; intros idx; simpl; [apply sized_after_loop|].
  keep; apply IH.
Qed.

Lemma sized_adopt_first acquired rps cur : keeps (sized cs) (adopt_first acquired rps cur).
Proof.
  revert cur. induction rps as [|[req p] rps IH]; intros cur; simpl; keep; apply IH.
Qed.

Lemma sized_pick_next acquired rps next : keeps (sized cs) (pick_next acquired rps next).
Proof.
  revert next. induction rps as [|[req p] rps IH]; intros next; simpl; keep; apply IH.
Qed.

#[local] Hint Resolve sized_after_loop sized_process_step sized_fallback_step sized_for_loop
  sized_adopt_first sized_pick_next : keeping.

Lemma sized_wafer_process g v : keeps (sized cs) (wafer_process g v).
Proof.
  destruct g; unfold wafer_process.
  - unfold start. keep.
  - unfold resume_first. keep.
  - destruct (current l); [|apply sized_on_exception]. unfold resume_next. keep.
  - apply sized_for_loop.
  - apply sized_for_loop.
Qed.

End Wafer.

(** *** The flow models *)
Section Flow.
Import FlowUnits FlowSim.
Variable cs : list Z.

Lemma sized_set_unit u x : keeps (sized cs) (set_unit u x).
Proof. apply sized_set_user. Qed.

Lemma sized_draw_py : keeps (sized cs) draw_py.
Proof. by apply sized_same. Qed.

Lemma sized_draw_np : keeps (sized cs) draw_np.
Proof. by apply sized_same. Qed.

#[local] Hint Resolve sized_set_unit sized_draw_py sized_draw_np : keeping.

Lemma sized_perform u tr : keeps (sized cs) (perform u tr).
Proof. induction tr as [|ev tr IH]; simpl; keep. Qed.

#[local] Hint Resolve sized_perform : keeping.

Lemma sized_generation_loop u s : keeps (sized cs) (generation_loop u s).
Proof. unfold generation_loop. keep. Qed.

Lemma sized_lots_loop fuel u s : keeps (sized cs) (lots_loop fuel u s).
Proof. revert s. induction fuel as [|fuel IH]; intros s; simpl; keep. Qed.

#[local] Hint Resolve sized_generation_loop sized_lots_loop : keeping.

Lemma sized_lots_after_wafer u s i : keeps (sized cs) (lots_after_wafer u s i).
Proof. unfold lots_after_wafer. keep. Qed.

Lemma sized_flow_loop u agent rest : keeps (sized cs) (flow_loop u agent rest).
Proof. revert agent. induction rest as [|step rest IH]; intros agent; simpl; keep. Qed.

#[local] Hint Resolve sized_lots_after_wafer sized_flow_loop : keeping.

Lemma sized_receive u agent : keeps (sized cs) (receive u agent).
Proof. unfold receive. keep. Qed.

#[local] Hint Resolve sized_receive : keeping.

Lemma sized_flow_process g v : keeps (sized cs) (flow_process g v).
Proof. destruct g; unfold flow_process; keep. Qed.

End Flow.

(** *** The parts of the tool of tool_simulator.py *)
Section Parts.
Import ToolSimulator ToolProps.
Local Open Scope Z_scope.

Lemma launch_tool cap flow wafers :
  let w1 := (MetalTool_init cap (init_env empty_world)).2 in
  resources (launch cap flow wafers) = resources w1 ∧
  user (launch cap flow wafers) = user w1.
Proof.
  intros w1. unfold launch, bind. subst w1.
  destruct (MetalTool_init cap (init_env empty_world)) as [[] w1].
  apply (keeps_mapM (λ w : sim, resources w = resources w1 ∧ user w = user w1)
           (λ wafer, process (At_start wafer flow None)) wafers); [|done].
  intros wafer w [? ?]. done.
Qed.

Lemma listed_part cap (w : sim) u ps a :
  let w' := (MetalTool_init cap w).2 in
  unit_to_parts (tool (user w')) !! u = Some ps → a ∈ ps →
  shared_resources (tool (user w')) !! part_name a = Some (part_resource a) ∧
  resources w' !! part_resource a = Some (Resource 1 [] []).
Proof.
  intros w'. unfold w'. rewrite MetalToolFacts.MetalTool_init_eq. simpl.
  destruct (MetalToolFacts.create_shared_spec (all_parts cap) ∅ w)
    as (Hd & Hl & Hi & Hr & Hu & He); [apply NoDup_remove_dups|done|done|done|].
  set (shared := (create_shared (all_parts cap) ∅ w).1) in *.
  intros Hu' Hx.
  destruct (MetalToolFacts.listings_spec shared cap ∅ u) as [[He' _]|(ui & names & _ & _ & He')];
    rewrite He' in Hu'; [done|]. injection Hu' as <-.
  apply MetalToolFacts.elem_of_parts_of in Hx as [_ Hx]. split; [done|].
  by destruct (Hr _ _ Hx) as [?|?].
Qed.

Lemma sized_lookup {P U} (w w' : env P U) r res :
  sized (capacities w) w' → resources w !! r = Some res →
  ∃ res', resources w' !! r = Some res' ∧ capacity res' = capacity res.
Proof.
  unfold sized, capacities. intros H Hr.
  assert (E : (capacity <$> resources w') !! r = Some (capacity res)).
  { rewrite H, list_lookup_fmap, Hr. done. }
  rewrite list_lookup_fmap in E. destruct (resources w' !! r) as [res'|]; [|done].
  exists res'. split; [done|]. by injection E.
Qed.

Lemma users_within {P U} (w w' : env P U) r res :
  sized (capacities w) w' → capacity_kept w' → resources w !! r = Some res →
  0 ≤ capacity res →
  Z.of_nat (length (users_of r w')) ≤ capacity res.
Proof.
  intros Hs Hk Hr Hc. destruct (sized_lookup _ _ _ _ Hs Hr) as (res' & Hr' & Hcap).
  unfold users_of. rewrite Hr'. unfold capacity_kept in Hk.
  rewrite Forall_lookup in Hk. destruct (Hk _ _ Hr') as [->|H]; simpl; lia.
Qed.

(** X24.  A part of the tool is held by at most one request at a time, and a
    part listed under two units is one and the same resource. *)
Theorem part_serves_one_wafer cap flow wafers n u1 u2 ps1 ps2 a b :
  let w0 := launch cap flow wafers in
  unit_to_parts (tool (user w0)) !! u1 = Some ps1 →
  unit_to_parts (tool (user w0)) !! u2 = Some ps2 →
  a ∈ ps1 → b ∈ ps2 → part_name a = part_name b →
  part_resource a = part_resource b ∧
  (length (users_of (part_resource a) (run n w0)) ≤ 1)%nat.
Proof.
  intros w0. unfold w0.
  destruct (launch_tool cap flow wafers) as [HR HU]. rewrite HU.
  intros H1 H2 Ha Hb En.
  destruct (listed_part _ _ _ _ _ H1 Ha) as [Sa Ra].
  destruct (listed_part _ _ _ _ _ H2 Hb) as [Sb _].
  split; [rewrite En in Sa; congruence|].
  rewrite <- HR in Ra.
  assert (Hs : sized (capacities (launch cap flow wafers)) (run n (launch cap flow wafers))).
  { apply sized_run_steps; [apply sized_wafer_process|done]. }
  pose proof (users_within _ _ _ _ Hs (capacity_kept_wafers cap flow wafers n) Ra) as H.
  simpl in H. lia.
Qed.

Lemma part_serves_one_wafer_witness :
  (0 = 0)%nat ∧
  (length (users_of 0 (run 6 (launch Scenarios.shared_part Scenarios.shared_flow
                                  ["LOT-W1"%string]))) ≤ 1)%nat.
Proof.
  apply (part_serves_one_wafer Scenarios.shared_part Scenarios.shared_flow ["LOT-W1"%string] 6
           "U1"%string "U2"%string [Part "P" 0] [Part "P" 0] (Part "P" 0) (Part "P" 0));
    [vm_compute; reflexivity|vm_compute; reflexivity|by left|by left|reflexivity].
Defined.
End Parts.

(** *** The resource pools of the flow controller *)
Section Pools.
Import FlowUnits FlowSim ToolProps SemiconductorFlowSimulator.
Import SemiconductorToolSimulator(capability_map, add_unit, connect_to).
Local Open Scope Z_scope.

Lemma create_resource_pools_user cm : ∀ d (w : sim),
  user (create_resource_pools cm d w).2 = user w.
Proof.
  induction cm as [|[name rs] cm IH]; intros d w; simpl; [done|].
  destruct (decide (name ≠ "LOADPORT"%string)); [|apply IH].
  destruct (Z.of_nat (length rs) <=? 0); [done|].
  unfold bind, new_resource. simpl. by rewrite IH.
Qed.

Lemma flow_init_pools cap flow uniform normal h w0 :
  init cap flow uniform normal = (Some h, w0) →
  ∃ c, units (user w0) !! flow_controller h = Some (UController c) ∧
    ∀ name r, dict_get name (FlowController.resource_pools c) = Some r →
      ∃ rs, dict_get name (capability_map cap) = Some rs ∧
            resources w0 !! r = Some (Resource (Z.of_nat (length rs)) [] []).
Proof.
  unfold init, create_flow_model, FlowController_init.
  set (wi := init_env _).
  unfold bind at 1. unfold bind at 1.
  destruct (add_unit _ wi) as [src w1] eqn:E1.
  unfold bind at 1. unfold bind at 1.
  pose proof (ToolUnitFacts.create_resource_pools_spec (capability_map cap) (capability_map cap) [] w1) as H.
  pose proof (create_resource_pools_user (capability_map cap) [] w1) as HU.
  destruct (create_resource_pools (capability_map cap) [] w1) as [[pools|] w2]; simpl in H, HU;
    [|intros [=]].
  destruct H as (H1 & _ & _); [done|done|].
  unfold add_unit in E1. injection E1 as <- <-.
  simpl. unfold bind, add_unit, connect_to, modify, process, ret. simpl.
  intros [= <- <-]. simpl. rewrite HU. simpl.
  eexists. split; [reflexivity|]. simpl.
  intros name r Hr. destruct (H1 name r Hr) as (_ & rs & Hin & Hres).
  exists rs. split; [|done].
  apply ToolUnitFacts.dict_get_elem; [apply ToolUnitFacts.capability_map_keys|done].
Qed.

Lemma keeps_create_resource_pools cm d : keeps capacity_kept (create_resource_pools cm d).
Proof.
  revert d. induction cm as [|[name rs] cm IH]; intros d; simpl; [apply keeps_ret|].
  destruct (decide (name ≠ "LOADPORT"%string)); [|apply IH].
  destruct (Z.of_nat (length rs) <=? 0); [apply keeps_ret|].
  apply keeps_bind; [apply keeps_new_resource|]. intros r. apply IH.
Qed.

Lemma capacity_kept_flow_init cap flow uniform normal :
  capacity_kept (init cap flow uniform normal).2.
Proof.
  unfold init.
  match goal with |- capacity_kept (?m ?w0).2 => assert (keeps capacity_kept m) as H end.
  { apply keeps_bind.
    - unfold create_flow_model. apply keeps_bind; [apply keeps_add_unit|]. intros src.
      apply keeps_bind.
      { unfold FlowController_init. apply keeps_bind; [apply keeps_create_resource_pools|].
        intros pools. apply keeps_ret. }
      intros [c|]; [|apply keeps_ret].
      apply keeps_bind; [apply keeps_add_unit|]. intros ctl.
      apply keeps_bind; [apply keeps_add_unit|]. intros snk.
      apply keeps_bind; [apply keeps_connect_to|]. intros _.
      apply keeps_bind; [apply keeps_connect_to|]. intros _. apply keeps_ret.
    - intros [h|]; [|apply keeps_ret].
      apply keeps_bind; [apply keeps_process|]. intros _. apply keeps_ret. }
  apply H. unfold capacity_kept. simpl. done.
Qed.

(** X25.  A unit of the flow simulator serves at most as many wafers at a
    time as it lists resources. *)
Theorem pool_serves_within_its_size cap flow uniform normal h w0 c name r t fuel :
  init cap flow uniform normal = (Some h, w0) →
  units (user w0) !! flow_controller h = Some (UController c) →
  dict_get name (FlowController.resource_pools c) = Some r →
  ∃ rs, dict_get name (capability_map cap) = Some rs ∧
        (length (users_of r (run_until flow_process t fuel w0)) ≤ length rs)%nat.
Proof.
  intros Hi Hc Hr. destruct (flow_init_pools _ _ _ _ _ _ Hi) as (c' & Hc' & Hp).
  rewrite Hc in Hc'. injection Hc' as <-.
  destruct (Hp name r Hr) as (rs & Hrs & Hres). exists rs. split; [done|].
  assert (Hs : sized (capacities w0) (run_until flow_process t fuel w0)).
  { apply sized_run_until; [apply sized_flow_process|done]. }
  assert (Hk : capacity_kept (run_until flow_process t fuel w0)).
  { apply capacity_kept_run_until; [apply keeps_flow_process|].
    pose proof (capacity_kept_flow_init cap flow uniform normal) as H. by rewrite Hi in H. }
  pose proof (users_within _ _ _ _ Hs Hk Hres) as H. simpl in H. lia.
Qed.

Lemma pool_serves_within_its_size_witness :
  ∃ rs, dict_get "U1"%string (capability_map Scenarios.twice_listed) = Some rs ∧
        (length (users_of 0 (run_until flow_process 300%Z 200
                               (init Scenarios.twice_listed Scenarios.twice_listed_flow
                                     (λ _, 20%Z) (λ _, 50%Z)).2)) ≤ length rs)%nat.
Proof.
  apply (pool_serves_within_its_size Scenarios.twice_listed Scenarios.twice_listed_flow
           (λ _, 20%Z) (λ _, 50%Z) (Handles 0 1 2)
           (init Scenarios.twice_listed Scenarios.twice_listed_flow (λ _, 20%Z) (λ _, 50%Z)).2
           (FlowController.Build (Build_FlowUnit (Some 2%nat) 0 0)
              (sorted_by_seq Scenarios.twice_listed_flow) [("U1"%string, 0%nat); ("U2"%string, 1%nat)])
           "U1"%string 0%nat 300%Z 200%nat).
  - vm_compute. reflexivity.
  - vm_compute. reflexivity.
  - vm_compute. reflexivity.
Defined.
End Pools.

(** *** The resources of the tool units *)
Section Units.
Import FlowUnits FlowSim SemiconductorToolSimulator.
Local Open Scope Z_scope.

Lemma single_same {A} (m : F A) :
  (∀ w, resources (m w).2 = resources w) → keeps single m.
Proof. intros H w Hw. unfold single, capacities in *. by rewrite H. Qed.

Lemma single_new_resource : keeps single (new_resource (P:=gen) (U:=world) 1).
Proof.
  intros w Hw. unfold single, capacities in *. simpl. rewrite fmap_app.
  apply Forall_app. split; [done|]. by repeat constructor.
Qed.

Lemma single_add_unit x : keeps single (add_unit x).
Proof. by apply single_same. Qed.

Lemma single_connect_to a b : keeps single (connect_to a b).
Proof. by apply single_same. Qed.

Lemma single_process g : keeps single (process (P:=gen) (U:=world) g).
Proof. by apply single_same. Qed.

#[local] Hint Resolve single_new_resource single_add_unit single_connect_to single_process
  : keeping.

Lemma single_create_resources names d : keeps single (create_resources names d).
Proof. revert d. induction names as [|n names IH]; intros d; simpl; keep. Qed.

#[local] Hint Resolve single_create_resources : keeping.

Lemma single_create_tool_units cm unit_flow d :
  keeps single (create_tool_units cm unit_flow d).
Proof. revert d. induction cm as [|[name rs] cm IH]; intros d; simpl; keep. Qed.

Lemma single_connect_chain h steps prev : keeps single (connect_chain h steps prev).
Proof. revert prev. induction steps as [|step steps IH]; intros prev; simpl; keep. Qed.

#[local] Hint Resolve single_create_tool_units single_connect_chain : keeping.

Lemma single_init cap flow uniform normal : single (init cap flow uniform normal).2.
Proof.
  unfold init.
  match goal with |- single (?m ?w0).2 => assert (keeps single m) as H end.
  { unfold create_flow_units, connect_flow_units. keep. }
  apply H. unfold single. simpl. done.
Qed.

(** X26.  No resource of a tool unit is held by two requests at a time. *)
Theorem unit_resource_serves_one_wafer cap flow uniform normal t fuel r :
  (length (users_of r (run_until flow_process t fuel (init cap flow uniform normal).2)) ≤ 1)%nat.
Proof.
  set (w0 := (init cap flow uniform normal).2).
  assert (Hs : sized (capacities w0) (run_until flow_process t fuel w0)).
  { apply sized_run_until; [apply sized_flow_process|done]. }
  assert (Hk : capacity_kept (run_until flow_process t fuel w0)).
  { apply capacity_kept_run_until; [apply keeps_flow_process|apply capacity_kept_init]. }
  pose proof (single_init cap flow uniform normal) as H1. fold w0 in H1.
  destruct (resources w0 !! r) as [res|] eqn:E.
  - assert (capacity res = 1) as Hc.
    { unfold single, capacities in H1. rewrite Forall_fmap, Forall_lookup in H1.
      by apply (H1 r res). }
    pose proof (users_within _ _ _ _ Hs Hk E) as H. rewrite Hc in H. lia.
  - unfold users_of.
    assert (resources (run_until flow_process t fuel w0) !! r = None) as ->; [|simpl; lia].
    unfold sized, capacities in Hs.
    apply lookup_ge_None. apply lookup_ge_None in E.
    rewrite <- (length_fmap capacity), Hs, length_fmap. done.
Qed.
End Units.

End ExclusionFacts.
